(** * Mind-map outline parser and layout engine

    A shallow embedding of [src/utils/markdownParser.ts] and
    [src/utils/layout.ts].

    Conventions of the embedding.
    - A JavaScript string that the parser inspects is the list of its code
      points ([jsstr]).  Every character the parser tests (markers, white
      space, line terminators) lies in the Basic Multilingual Plane, and the
      dimension estimator iterates with [for..of], that is by code point.
    - Node identifiers are only ever compared for equality, printed by the
      parser as ['root'] and [`node-${n}`]; they are [string]s.
    - The parser mutates nodes that are shared between the tree under
      construction and the stack of open parents.  The nodes live in a heap
      (a list of cells addressed by allocation index) and the stack holds
      references into it.
    - The estimator only ever produces integers: the entries of the
      dimension map are [Z].
    - The layout is embedded twice.  Module [Layout] computes coordinates
      over exact rationals ([Q], compared with [==]); it serves for what
      does not depend on the arithmetic: which nodes get an entry, under
      which key, and the fields that are copied from the node and from the
      dimension map.  Module [Binary64] is the same code over the doubles
      of JavaScript (the binary64 floats of the kernel, rounded to nearest
      even, compared with Leibniz equality); every statement about a
      coordinate or about the path of a link is made there.  The two agree
      on the keys and on the copied fields ([calculateLayout_agree]).
    - A JavaScript [TypeError] (reading a property of [undefined]) is the
      [None] of an [option]. *)

Set Warnings "-register-all,-clear-no-such-hyp,-inexact-float".
From Stdlib Require Import QArith Qminmax Qabs Lqa Floats.
From stdpp Require Import gmap strings list pretty sorting.

Close Scope Q_scope.
Local Open Scope nat_scope.

(** ** JavaScript strings *)

Module Js.

Definition jsstr := list N.

(** Code points of an ASCII literal. *)
Definition lit (s : string) : jsstr :=
  map (fun a => N.of_nat (Ascii.nat_of_ascii a)) (String.list_ascii_of_string s).

(** [\s] of a regular expression, which is also the set removed by
    [String.prototype.trim]. *)
Definition is_ws (c : N) : bool :=
  ((9 <=? c) && (c <=? 13) || (c =? 32) || (c =? 160) || (c =? 0x1680)
   || (0x2000 <=? c) && (c <=? 0x200a)
   || (c =? 0x2028) || (c =? 0x2029) || (c =? 0x202f) || (c =? 0x205f)
   || (c =? 0x3000) || (c =? 0xfeff))%N.

(** The characters that [.] does not match. *)
Definition is_line_terminator (c : N) : bool :=
  ((c =? 10) || (c =? 13) || (c =? 0x2028) || (c =? 0x2029))%N.

Fixpoint take_while {A} (p : A -> bool) (l : list A) : list A :=
  match l with
  | [] => []
  | x :: l' => if p x then x :: take_while p l' else []
  end.

Fixpoint drop_while {A} (p : A -> bool) (l : list A) : list A :=
  match l with
  | [] => []
  | x :: l' => if p x then drop_while p l' else l
  end.

(** [s.trim()] *)
Definition trim (s : jsstr) : jsstr :=
  rev (drop_while is_ws (rev (drop_while is_ws s))).

(** [s.split('\n')] *)
Fixpoint split_lines (s : jsstr) : list jsstr :=
  match s with
  | [] => [[]]
  | c :: s' =>
      if (c =? 10)%N then [] :: split_lines s'
      else match split_lines s' with
           | l :: ls => (c :: l) :: ls
           | [] => [[c]]
           end
  end.

(** [s.startsWith(c)] for a one-character [c]. *)
Definition starts_with (c : N) (s : jsstr) : bool :=
  match s with
  | x :: _ => (x =? c)%N
  | [] => false
  end.

(** The tail of both line patterns, a [\s+] followed by a capturing group of
    [.] repeated up to the end [$]: at least one white-space character, then
    the rest of the string, which must not hold a line terminator.  The greedy
    [\s+] takes the whole white-space run, so the group is what follows it. *)
Definition match_ws_rest (s : jsstr) : option jsstr :=
  match s with
  | c :: _ =>
      if is_ws c then
        let body := drop_while is_ws s in
        if forallb (fun x => negb (is_line_terminator x)) body
        then Some body else None
      else None
  | [] => None
  end.

(** The heading pattern, one to six [#] at the start and then the tail
    above: the length of group 1 and group 2. *)
Definition match_heading (s : jsstr) : option (nat * jsstr) :=
  let hashes := take_while (fun c => (c =? 35)%N) s in
  let k := length hashes in
  if (1 <=? k) && (k <=? 6) then
    match match_ws_rest (drop k s) with
    | Some body => Some (k, body)
    | None => None
    end
  else None.

(** The list pattern, one [-] or one star at the start and then the tail
    above: group 1. *)
Definition match_list (s : jsstr) : option jsstr :=
  match s with
  | c :: s' => if ((c =? 45) || (c =? 42))%N then match_ws_rest s' else None
  | [] => None
  end.

(** Replacing the pattern (white space, a dash, white space, end of string)
    by the empty string: the leftmost match ends the string, so the
    last character that is not white space is the dash, and the match starts
    where the white-space run before that dash starts. *)
Definition strip_trailing_dash (s : jsstr) : jsstr :=
  match drop_while is_ws (rev s) with
  | c :: r => if (c =? 45)%N then rev (drop_while is_ws r) else s
  | [] => s
  end.

End Js.

Import Js.

(** ** The node type of [markdownParser.ts] *)

Module INodeData.

(** [expanded?: boolean]: an absent flag is [None] and is falsy. *)
Inductive t := Node {
  id : string;
  text : jsstr;
  level : nat;
  children : list t;
  expanded : option bool
}.

End INodeData.

Abbreviation INodeData := INodeData.t.

(** Truthiness of an optional boolean, as in [node.expanded || false] and
    [if (node.expanded)]. *)
Definition truthy (b : option bool) : bool := default false b.

(** ** The parser *)

Module Parser.

(** A node object while the parser runs.  [cell_children] holds references
    (heap indices), in the order of [children.push]. *)
Record Cell := {
  cell_id : string;
  cell_text : jsstr;
  cell_level : nat;
  cell_children : list nat;
  cell_expanded : option bool
}.

Definition push_child (r : nat) (c : Cell) : Cell :=
  {| cell_id := cell_id c; cell_text := cell_text c; cell_level := cell_level c;
     cell_children := cell_children c ++ [r]; cell_expanded := cell_expanded c |}.

(** An entry [{ node, minLevel }] of the stack. *)
Record Entry := { node : nat; minLevel : nat }.

(** The variables of [parseMarkdown]'s main loop.  The stack is kept with its
    top first: [push] is a cons and [pop] a tail. *)
Record State := {
  heap : list Cell;
  stack : list Entry;
  nodeIdCounter : nat;
  currentBaseLevel : nat;
  isFirstHeading : bool
}.

(** The default centre topic, four CJK characters. *)
Definition default_text : jsstr := [0x4e2d; 0x5fc3; 0x4e3b; 0x9898]%N.

Definition is_empty {A} (l : list A) : bool :=
  match l with [] => true | _ => false end.

(** [calculateIndentLevel] *)
Definition calculateIndentLevel (line : jsstr) : nat :=
  let leadingSpaces := take_while is_ws line in
  let tabCount := length (filter (fun c => c = 9%N) leadingSpaces) in
  let spaceCount := length (filter (fun c => c <> 9%N) leadingSpaces) in
  tabCount * 2 + spaceCount / 2.

(** The text a heading line gives, when it is a heading line. *)
Definition heading_of (line : jsstr) : option (nat * jsstr) :=
  match match_heading (trim line) with
  | Some (k, body) => Some (k, strip_trailing_dash (trim body))
  | None => None
  end.

(** The first loop of [parseMarkdown]: the text of the first heading line
    whose text is not empty. *)
Fixpoint find_root_text (lines : list jsstr) : option jsstr :=
  match lines with
  | [] => None
  | line :: rest =>
      if is_empty (trim line) then find_root_text rest
      else match heading_of line with
           | Some (_, text) =>
               if is_empty text then find_root_text rest else Some text
           | None => find_root_text rest
           end
  end.

Definition root_cell (text : jsstr) : Cell :=
  {| cell_id := "root"; cell_text := text; cell_level := 0;
     cell_children := []; cell_expanded := Some true |}.

Definition init (lines : list jsstr) : State :=
  {| heap := [root_cell (default default_text (find_root_text lines))];
     stack := [{| node := 0; minLevel := 0 |}];
     nodeIdCounter := 0;
     currentBaseLevel := 0;
     isFirstHeading := true |}.

(** The [while] loop of [processNode]:
    [stack.length > 1 && stack[stack.length - 1].minLevel >= level]. *)
Fixpoint pop_while (lvl : nat) (st : list Entry) : list Entry :=
  match st with
  | e :: ((_ :: _) as below) =>
      if lvl <=? minLevel e then pop_while lvl below else st
  | _ => st
  end.

Definition new_cell (text : jsstr) (lvl idCounter : nat) : Cell :=
  {| cell_id := "node-" +:+ pretty idCounter; cell_text := text;
     cell_level := lvl; cell_children := []; cell_expanded := Some false |}.

(** [processNode]: [None] is the [TypeError] of reading [.node] of an
    [undefined] stack top. *)
Definition processNode (text : jsstr) (lvl : nat)
    (h : list Cell) (st : list Entry) (idCounter : nat)
    : option (list Cell * list Entry) :=
  match pop_while lvl st with
  | [] => None
  | (parentInfo :: _) as st' =>
      let r := length h in
      Some (alter (push_child r) (node parentInfo) h ++ [new_cell text lvl idCounter],
            {| node := r; minLevel := lvl |} :: st')
  end.

(** The call [processNode(text, level, stack, nodeIdCounter++)] of the main
    loop, with the value of [currentBaseLevel] after it. *)
Definition emit (s : State) (text : jsstr) (lvl base : nat) : option State :=
  match processNode text lvl (heap s) (stack s) (nodeIdCounter s) with
  | Some (h, st) =>
      Some {| heap := h; stack := st; nodeIdCounter := S (nodeIdCounter s);
              currentBaseLevel := base; isFirstHeading := isFirstHeading s |}
  | None => None
  end.

(** One iteration of the main loop. *)
Definition step (s : State) (line : jsstr) : option State :=
  let trimmedLine := trim line in
  if is_empty trimmedLine then Some s
  else match heading_of line with
  | Some (lvl, text) =>
      if is_empty text then Some s
      else if isFirstHeading s then
        Some {| heap := heap s; stack := stack s;
                nodeIdCounter := nodeIdCounter s;
                currentBaseLevel := lvl; isFirstHeading := false |}
      else emit s text lvl lvl
  | None =>
      match match_list trimmedLine with
      | Some body =>
          let text := trim body in
          let indentLevel := calculateIndentLevel line in
          if is_empty text then Some s
          else emit s text (currentBaseLevel s + indentLevel + 1)
                    (currentBaseLevel s)
      | None =>
          if negb (starts_with 35 trimmedLine)
             && negb (starts_with 45 trimmedLine)
             && negb (starts_with 42 trimmedLine)
          then
            let indentLevel := calculateIndentLevel line in
            if 0 <? indentLevel
            then emit s trimmedLine (currentBaseLevel s + indentLevel)
                      (currentBaseLevel s)
            else Some s
          else Some s
      end
  end.

Fixpoint run (s : State) (lines : list jsstr) : option State :=
  match lines with
  | [] => Some s
  | line :: rest =>
      match step s line with
      | Some s' => run s' rest
      | None => None
      end
  end.

(** The object graph reachable from reference [r], as a value.  A child
    reference always points to a younger cell, so [length h] steps suffice. *)
Fixpoint tree_of (fuel : nat) (h : list Cell) (r : nat) : option INodeData :=
  match fuel with
  | 0 => None
  | S fuel' =>
      match h !! r with
      | Some c =>
          match mapM (tree_of fuel' h) (cell_children c) with
          | Some cs =>
              Some (INodeData.Node (cell_id c) (cell_text c) (cell_level c)
                                   cs (cell_expanded c))
          | None => None
          end
      | None => None
      end
  end.

Definition parse_lines (lines : list jsstr) : option State :=
  run (init lines) lines.

(** [parseMarkdown]: the tree hanging from [rootNode] when the loop ends. *)
Definition parseMarkdown (markdown : jsstr) : option INodeData :=
  match parse_lines (split_lines markdown) with
  | Some s => tree_of (length (heap s)) (heap s) 0
  | None => None
  end.

End Parser.

Import Parser.

Definition nl : jsstr := [10%N].

(** ** The layout engine *)

Module NodePosition.

Record t := {
  id : string;
  text : jsstr;
  x : Q;
  y : Q;
  width : Q;
  height : Q;
  level : nat;
  hasChildren : bool;
  expanded : bool;
  parentId : option string
}.

End NodePosition.

Abbreviation NodePosition := NodePosition.t.

Module Layout.

Import INodeData.

Local Open Scope Q_scope.

(** ['left' | 'right' | 'both'] *)
Inductive Direction := Left | Right | Both.

(** [Partial<LayoutOptions>]: an absent option is [None]. *)
Record LayoutOptions := {
  direction : option Direction;
  horizontalSpacing : option Q;
  verticalSpacing : option Q;
  nodeWidth : option Q;
  nodeHeight : option Q;
  centerOffset : option Q;
  levelSpacingMultiplier : option Q
}.

(** An entry [{ width, height }] of the dimension map. *)
Record Dim := { dim_width : Z; dim_height : Z }.

(** [getAllNodes] *)
Fixpoint getAllNodes (node : INodeData) : list INodeData :=
  node :: flat_map getAllNodes (children node).

(** [getVisibleNodes] *)
Fixpoint getVisibleNodes (node : INodeData) : list INodeData :=
  node :: (if truthy (expanded node)
           then flat_map getVisibleNodes (children node) else []).

Record FontConfig := {
  chineseWidth : Z; englishWidth : Z; padding : Z; baseHeight : Z
}.

(** [getFontConfig] *)
Definition getFontConfig (lvl : nat) : FontConfig :=
  match lvl with
  | 0%nat => {| chineseWidth := 22; englishWidth := 12; padding := 56; baseHeight := 52 |}
  | 1%nat => {| chineseWidth := 18; englishWidth := 10; padding := 28; baseHeight := 36 |}
  | 2%nat => {| chineseWidth := 16; englishWidth := 9; padding := 24; baseHeight := 32 |}
  | 3%nat => {| chineseWidth := 14; englishWidth := 8; padding := 20; baseHeight := 30 |}
  | _ => {| chineseWidth := 13; englishWidth := 7; padding := 20; baseHeight := 28 |}
  end.

(** The character class of CJK ideographs, CJK punctuation and full-width
    forms that [calculateNodeDimensions] tests each character against. *)
Definition is_chinese (c : N) : bool :=
  ((0x4e00 <=? c) && (c <=? 0x9fa5) || (0x3000 <=? c) && (c <=? 0x303f)
   || (0xff00 <=? c) && (c <=? 0xffef))%N.

(** The width that the body of the loop of [calculateNodeDimensions]
    estimates for one node. *)
Definition estimatedWidth (node : INodeData) : Z :=
  let fontConfig := getFontConfig (level node) in
  let w := fold_left
             (fun acc c => if is_chinese c then acc + chineseWidth fontConfig
                           else acc + englishWidth fontConfig)%Z
             (text node) 0%Z in
  Z.max 60 (w + padding fontConfig).

Definition extraHeight (w : Z) : Z :=
  (if 180 <? w then
     if w <=? 350 then (w - 180) / 12 else 14 + (w - 350) / 10
   else 0)%Z.

(** The height estimated for one node. *)
Definition estimatedHeight (node : INodeData) : Z :=
  let fontConfig := getFontConfig (level node) in
  if String.eqb (id node) "root" then baseHeight fontConfig
  else (baseHeight fontConfig + extraHeight (estimatedWidth node))%Z.

(** [calculateNodeDimensions]; the two default sizes are not used. *)
Definition calculateNodeDimensions (nodes : list INodeData)
    (_defaultWidth _defaultHeight : Q) : gmap string Dim :=
  fold_left
    (fun dimensions node =>
       <[id node := {| dim_width := estimatedWidth node;
                       dim_height := estimatedHeight node |}]> dimensions)
    nodes ∅.

Section placement.

Variable dimensions : gmap string Dim.
Variable horizontalSpacing verticalSpacing : Q.

(** The accumulation of [calculateSubtreeHeight], over a given measure of one
    branch. *)
Definition sum_branch_heights (bh : INodeData -> option Q)
    : list INodeData -> Q -> option Q :=
  fix go nodes totalHeight :=
    match nodes with
    | [] => Some totalHeight
    | n :: rest =>
        match bh n with
        | Some h => go rest (totalHeight + h)
        | None => None
        end
    end.

Definition subtree_height_with (bh : INodeData -> option Q)
    (nodes : list INodeData) : option Q :=
  if is_empty nodes then Some 0
  else match sum_branch_heights bh nodes 0 with
       | Some totalHeight =>
           Some (totalHeight
                 + inject_Z (Z.of_nat (length nodes) - 1) * verticalSpacing)
       | None => None
       end.

(** [calculateNodeBranchHeight]; [None] is a node missing from the
    dimension map. *)
Fixpoint calculateNodeBranchHeight (node : INodeData) : option Q :=
  match dimensions !! id node with
  | None => None
  | Some nodeDim =>
      let nodeHeight := inject_Z (dim_height nodeDim) in
      let minBranchHeight := Qmax nodeHeight 32 in
      if truthy (expanded node) && negb (is_empty (children node)) then
        match subtree_height_with calculateNodeBranchHeight (children node) with
        | Some childrenTotalHeight =>
            Some (Qmax minBranchHeight childrenTotalHeight)
        | None => None
        end
      else Some minBranchHeight
  end.

(** [calculateSubtreeHeight] *)
Definition calculateSubtreeHeight (nodes : list INodeData) : option Q :=
  subtree_height_with calculateNodeBranchHeight nodes.

Definition sign_of (d : Direction) : Q :=
  match d with Left => -1 | _ => 1 end.

(** The loop that places a list of siblings.  The source has three copies of
    it (in [layoutChildBranch] and for the two halves of
    [calculateBothDirectionLayout]) that differ only in the side, in the
    parent and in how [x] is computed from the width of the child:
    [recurse] is the call of [layoutChildBranch] on a child and [xOf] the
    expression for [x]. *)
Definition place_children
    (recurse : INodeData -> gmap string NodePosition -> Q -> Q
               -> option (gmap string NodePosition))
    (xOf : Q -> Q) (parent : string)
    : list INodeData -> gmap string NodePosition -> Q
      -> option (gmap string NodePosition) :=
  fix loop cs positions yOffset :=
    match cs with
    | [] => Some positions
    | child :: rest =>
        match dimensions !! id child, calculateNodeBranchHeight child with
        | Some childDim, Some branchHeight =>
            let y := yOffset + branchHeight / 2 in
            let x := xOf (inject_Z (dim_width childDim)) in
            let positions :=
              <[id child :=
                  {| NodePosition.id := id child;
                     NodePosition.text := text child;
                     NodePosition.x := x;
                     NodePosition.y := y;
                     NodePosition.width := inject_Z (dim_width childDim);
                     NodePosition.height := inject_Z (dim_height childDim);
                     NodePosition.level := level child;
                     NodePosition.hasChildren := negb (is_empty (children child));
                     NodePosition.expanded := truthy (expanded child);
                     NodePosition.parentId := Some parent |}]> positions in
            match
              (if truthy (expanded child) && negb (is_empty (children child))
               then recurse child positions x y else Some positions)
            with
            | Some positions =>
                loop rest positions (yOffset + branchHeight + verticalSpacing)
            | None => None
            end
        | _, _ => None
        end
    end.

(** [layoutChildBranch] *)
Fixpoint layoutChildBranch (parent : INodeData)
    (positions : gmap string NodePosition) (currentX currentY : Q)
    (dir : Direction) : option (gmap string NodePosition) :=
  if negb (truthy (expanded parent)) || is_empty (children parent)
  then Some positions
  else
    let sign := sign_of dir in
    match dimensions !! id parent with
    | None => None
    | Some parentDim =>
        let spacingMultiplier := if (2 <=? level parent)%nat then 1.0 else 0.8 in
        let hGap := horizontalSpacing * spacingMultiplier * 0.6 in
        let anchorX :=
          currentX + sign * (inject_Z (dim_width parentDim) / 2 + hGap) in
        match calculateSubtreeHeight (children parent) with
        | None => None
        | Some totalSubtreeHeight =>
            place_children
              (fun child positions x y => layoutChildBranch child positions x y dir)
              (fun width => anchorX + sign * (width / 2)) (id parent)
              (children parent) positions (currentY - totalSubtreeHeight / 2)
        end
    end.

Definition root_position (root : INodeData) (rootDim : Dim) (x : Q)
    : NodePosition :=
  {| NodePosition.id := id root;
     NodePosition.text := text root;
     NodePosition.x := x;
     NodePosition.y := 0;
     NodePosition.width := inject_Z (dim_width rootDim);
     NodePosition.height := inject_Z (dim_height rootDim);
     NodePosition.level := level root;
     NodePosition.hasChildren := negb (is_empty (children root));
     NodePosition.expanded := truthy (expanded root);
     NodePosition.parentId := None |}.

(** One half of [calculateBothDirectionLayout]: the block guarded by
    [leftChildren.length > 0], or by [rightChildren.length > 0]. *)
Definition layout_half (dir : Direction) (xOf : Q -> Q) (parent : string)
    (half : list INodeData) (positions : gmap string NodePosition)
    : option (gmap string NodePosition) :=
  if is_empty half then Some positions
  else match calculateSubtreeHeight half with
       | None => None
       | Some halfHeight =>
           place_children
             (fun child positions x y => layoutChildBranch child positions x y dir)
             xOf parent half positions (- halfHeight / 2)
       end.

(** [calculateBothDirectionLayout] *)
Definition calculateBothDirectionLayout (root : INodeData)
    (positions : gmap string NodePosition) (centerOffset : Q)
    : option (gmap string NodePosition) :=
  match dimensions !! id root with
  | None => None
  | Some rootDim =>
      let positions := <[id root := root_position root rootDim centerOffset]> positions in
      if is_empty (children root) then Some positions
      else
        let leftCount := Nat.div2 (S (length (children root))) in
        let leftChildren := take leftCount (children root) in
        let rightChildren := drop leftCount (children root) in
        let leftAnchorX :=
          centerOffset - inject_Z (dim_width rootDim) / 2
          - horizontalSpacing * 0.5 in
        let rightAnchorX :=
          centerOffset + inject_Z (dim_width rootDim) / 2
          + horizontalSpacing * 0.5 in
        match layout_half Left (fun width => leftAnchorX - width / 2)
                (id root) leftChildren positions with
        | Some positions =>
            layout_half Right (fun width => rightAnchorX + width / 2)
              (id root) rightChildren positions
        | None => None
        end
  end.

(** [calculateSingleDirectionLayout] *)
Definition calculateSingleDirectionLayout (root : INodeData)
    (positions : gmap string NodePosition) (dir : Direction)
    : option (gmap string NodePosition) :=
  match dimensions !! id root with
  | None => None
  | Some rootDim =>
      let positions := <[id root := root_position root rootDim 0]> positions in
      layoutChildBranch root positions 0 0 dir
  end.

End placement.

(** [calculateLayout] *)
Definition calculateLayout (root : INodeData) (options : LayoutOptions)
    : option (gmap string NodePosition) :=
  let dir := default Both (direction options) in
  let hs := default 140 (horizontalSpacing options) in
  let vs := default 16 (verticalSpacing options) in
  let nw := default 100 (nodeWidth options) in
  let nh := default 32 (nodeHeight options) in
  let co := default 0 (centerOffset options) in
  let positions : gmap string NodePosition := ∅ in
  let allNodes := getAllNodes root in
  let nodeDimensions := calculateNodeDimensions allNodes nw nh in
  match dir with
  | Both => calculateBothDirectionLayout nodeDimensions hs vs root positions co
  | _ => calculateSingleDirectionLayout nodeDimensions hs vs root positions dir
  end.

(** The extent of one node, as [calculateLayoutBounds] and the renderer
    take it: [(x, y)] is the centre of the box. *)
Definition box_minX (p : NodePosition) : Q := NodePosition.x p - NodePosition.width p / 2.
Definition box_maxX (p : NodePosition) : Q := NodePosition.x p + NodePosition.width p / 2.
Definition box_minY (p : NodePosition) : Q := NodePosition.y p - NodePosition.height p / 2.
Definition box_maxY (p : NodePosition) : Q := NodePosition.y p + NodePosition.height p / 2.

End Layout.

Import Layout.

(** ** Inputs used in examples *)

Module Examples.

Import INodeData.

Local Open Scope Q_scope.

Definition leaf (i : string) (t : string) (l : nat) : INodeData :=
  Node i (lit t) l [] (Some false).

Definition no_options : LayoutOptions :=
  {| direction := None; horizontalSpacing := None; verticalSpacing := None;
     nodeWidth := None; nodeHeight := None; centerOffset := None;
     levelSpacingMultiplier := None |}.

Definition with_direction (d : Direction) (co : Q) : LayoutOptions :=
  {| direction := Some d; horizontalSpacing := None; verticalSpacing := None;
     nodeWidth := None; nodeHeight := None; centerOffset := Some co;
     levelSpacingMultiplier := None |}.

(** A collapsed root with one child. *)
Definition collapsed_root : INodeData :=
  Node "root" (lit "Topic") 0 [leaf "node-0" "A" 1] (Some false).

(** An expanded root with one child. *)
Definition one_child_root : INodeData :=
  Node "root" (lit "Topic") 0 [leaf "node-0" "A" 1] (Some true).

(** An expanded root with two children of the same size. *)
Definition two_children_root : INodeData :=
  Node "root" (lit "Topic") 0 [leaf "node-0" "A" 1; leaf "node-1" "B" 1] (Some true).

(** A chain of expanded nodes, one per level. *)
Definition chain_root : INodeData :=
  Node "root" (lit "Topic") 0
    [Node "node-0" (lit "A") 1
       [Node "node-1" (lit "A1") 2 [leaf "node-2" "A11" 3] (Some true)]
       (Some true)]
    (Some true).

(** A root without children. *)
Definition lone_root : INodeData :=
  Node "root" (lit "Topic") 0 [] (Some true).

(** Two placed nodes, a parent that is not the root and its child to the
    right. *)
Definition pos_parent : NodePosition :=
  {| NodePosition.id := "node-0"; NodePosition.text := lit "A";
     NodePosition.x := 0; NodePosition.y := 0;
     NodePosition.width := 100; NodePosition.height := 36;
     NodePosition.level := 1; NodePosition.hasChildren := true;
     NodePosition.expanded := true; NodePosition.parentId := Some "root" |}.

Definition pos_child : NodePosition :=
  {| NodePosition.id := "node-1"; NodePosition.text := lit "B";
     NodePosition.x := 200; NodePosition.y := 40;
     NodePosition.width := 60; NodePosition.height := 32;
     NodePosition.level := 2; NodePosition.hasChildren := false;
     NodePosition.expanded := false; NodePosition.parentId := Some "node-0" |}.

(** The outline of the test [should handle indented text] of
    [markdownParser.test.ts]: a topic, two sub-topics indented by two spaces
    and, under the first of them, one indented by four. *)
Definition zhuti : jsstr := [0x4e3b; 0x9898]%N.
Definition zi_zhuti_1 : jsstr := [0x5b50; 0x4e3b; 0x9898; 0x31]%N.
Definition zi_zi_zhuti_1 : jsstr := [0x5b50; 0x5b50; 0x4e3b; 0x9898; 0x31]%N.
Definition zi_zhuti_2 : jsstr := [0x5b50; 0x4e3b; 0x9898; 0x32]%N.

(** An outline in bare text: a topic behind one space and a sub-topic behind
    three. *)
Definition one_space_outline : jsstr :=
  lit " Topic" ++ nl ++ lit "   Sub".

Definition indented_text_test : jsstr :=
  zhuti ++ nl ++ lit "  " ++ zi_zhuti_1 ++ nl
  ++ lit "    " ++ zi_zi_zhuti_1 ++ nl ++ lit "  " ++ zi_zhuti_2.

(** The coordinates of the entry of [k], in lowest terms. *)
Definition coordinates (k : string)
    (result : option (gmap string NodePosition)) : option (Q * Q) :=
  match result with
  | Some positions =>
      match positions !! k with
      | Some p => Some (Qred (NodePosition.x p), Qred (NodePosition.y p))
      | None => None
      end
  | None => None
  end.

End Examples.

(** ** Vocabulary for the properties of the parser *)

Module Shape.

Import INodeData.

(** What a node carries besides its children. *)
Definition node_info (n : INodeData) : string * jsstr * nat * option bool :=
  (id n, text n, level n, expanded n).

Definition cell_info (c : Cell) : string * jsstr * nat * option bool :=
  (cell_id c, cell_text c, cell_level c, cell_expanded c).

(** The identifier that the parser prints for the [n]-th call of
    [processNode]. *)
Definition node_id (n : nat) : string := "node-" +:+ pretty n.

(** [attach pid new t]: [t] after [new] was pushed onto the children of the
    node whose identifier is [pid]. *)
Fixpoint attach (pid : string) (new t : INodeData) : INodeData :=
  Node (id t) (text t) (level t)
       (map (attach pid new) (children t)
        ++ (if decide (id t = pid) then [new] else []))
       (expanded t).

(** The identifiers from the root down along the last children. *)
Fixpoint spine (t : INodeData) : list string :=
  id t :: (fix last_spine (cs : list INodeData) : list string :=
             match cs with
             | [] => []
             | [c] => spine c
             | _ :: cs' => last_spine cs'
             end) (children t).

(** The identifiers of a tree, in document order. *)
Definition node_ids (t : INodeData) : list string := map id (getAllNodes t).

(** The identifiers of the cells that a stack refers to, top first. *)
Definition stack_ids (h : list Cell) (st : list Entry) : list string :=
  map (fun e => from_option cell_id "" (h !! node e)) st.

(** A line that the main loop hands to [processNode], unless it is the first
    heading. *)
Definition emits (line : jsstr) : bool :=
  if is_empty (trim line) then false
  else match heading_of line with
       | Some (_, text) => negb (is_empty text)
       | None =>
           match match_list (trim line) with
           | Some body => negb (is_empty (trim body))
           | None =>
               negb (starts_with 35 (trim line))
               && negb (starts_with 45 (trim line))
               && negb (starts_with 42 (trim line))
               && (0 <? calculateIndentLevel line)
           end
       end.

(** A heading line with a text: one that can become the root or a node. *)
Definition titled_heading (line : jsstr) : bool :=
  match heading_of line with
  | Some (_, text) => negb (is_empty text)
  | None => false
  end.

(** [h'] extends [h]: the cells of [h] are still there, with the same data,
    and their children lists only grew at the end. *)
Definition heap_extends (h h' : list Cell) : Prop :=
  forall i c, h !! i = Some c ->
    exists c', h' !! i = Some c' /\ cell_info c' = cell_info c
               /\ cell_children c `prefix_of` cell_children c'.

(** The entry that [parseMarkdown] starts the stack with. *)
Definition root_entry : Entry := {| node := 0; minLevel := 0 |}.

(** The node value of a cell without children. *)
Definition leaf_of (c : Cell) : INodeData :=
  INodeData.Node (cell_id c) (cell_text c) (cell_level c) [] (cell_expanded c).

(** The state after [processNode] pushed a new node under [p]. *)
Definition pushed (s : State) (text : jsstr) (lvl base : nat)
    (p : Entry) (below : list Entry) : State :=
  {| heap := alter (push_child (length (heap s))) (node p) (heap s)
             ++ [new_cell text lvl (nodeIdCounter s)];
     stack := {| node := length (heap s); minLevel := lvl |} :: p :: below;
     nodeIdCounter := S (nodeIdCounter s);
     currentBaseLevel := base;
     isFirstHeading := isFirstHeading s |}.

(** The state after the first heading was skipped. *)
Definition root_consumed (s : State) (lvl : nat) : State :=
  {| heap := heap s; stack := stack s; nodeIdCounter := nodeIdCounter s;
     currentBaseLevel := lvl; isFirstHeading := false |}.

(** The state of the main loop between two iterations. *)
Record invariant (s : State) : Prop := {
  inv_ids : map cell_id (heap s) = "root" :: map node_id (seq 0 (nodeIdCounter s));
  inv_refs : Forall (fun e => node e < length (heap s)) (stack s);
  inv_bottom : exists above,
      stack s = above ++ [root_entry]
      /\ Forall (fun e => 1 <= minLevel e) above;
  inv_tree : exists t,
      tree_of (length (heap s)) (heap s) 0 = Some t
      /\ map node_info (getAllNodes t) = map cell_info (heap s)
      /\ spine t = rev (stack_ids (heap s) (stack s))
}.

End Shape.

Import Shape.

(** ** Vocabulary for the properties of the layout *)

Module Placement.

Import INodeData.

Local Open Scope Q_scope.

(** The dimension map has an entry for each of the nodes. *)
Definition covers (dimensions : gmap string Dim) (nodes : list INodeData) : Prop :=
  Forall (fun n => is_Some (dimensions !! id n)) nodes.

(** The nodes that [layoutChildBranch] places when it is called on
    [parent]: the visible nodes below it. *)
Definition placed_below (parent : INodeData) : list INodeData :=
  tail (getVisibleNodes parent).

(** What a call that places some nodes does to the position map: it
    succeeds, adds exactly the identifiers of these nodes and leaves the
    other entries alone. *)
Definition places (nodes : list INodeData)
    (positions : gmap string NodePosition)
    (result : option (gmap string NodePosition)) : Prop :=
  exists positions',
    result = Some positions'
    /\ dom positions' = dom positions ∪ list_to_set (map id nodes)
    /\ forall k, k ∉ map id nodes -> positions' !! k = positions !! k.

(** The nodes that [calculateLayout] places: in a single direction the
    visible nodes; in the mode ['both'] the root and what is visible from
    each of its children. *)
Definition laid_out (dir : Direction) (root : INodeData) : list INodeData :=
  match dir with
  | Both => root :: flat_map getVisibleNodes (children root)
  | _ => getVisibleNodes root
  end.

(** [n] is the root or is reached from it through expanded nodes only: every
    proper ancestor of [n] is expanded. *)
Inductive below_expanded (root : INodeData) : INodeData -> Prop :=
  | below_root : below_expanded root root
  | below_child q c :
      below_expanded root q -> truthy (expanded q) = true ->
      c ∈ children q -> below_expanded root c.

End Placement.

Import Placement.

(** ** Vocabulary for the levels and the texts of a parsed outline *)

Module Levels.

(** A text that does not start with white space. *)
Definition starts_clean (s : jsstr) : Prop :=
  match s with c :: _ => is_ws c = false | [] => True end.

(** A text with something in it that [trim] leaves alone. *)
Definition clean_text (s : jsstr) : Prop := s <> [] /\ trim s = s.

(** The levels of the children of a cell, in the order of the pushes. *)
Definition child_levels (h : list Cell) (c : Cell) : list nat :=
  omap (fun j => cell_level <$> h !! j) (cell_children c).

(** Each entry of the stack refers to the last child of the entry below
    it. *)
Fixpoint linked (h : list Cell) (st : list Entry) : Prop :=
  match st with
  | a :: ((b :: _) as rest) =>
      (exists cb, h !! node b = Some cb
                  /\ last (cell_children cb) = Some (node a))
      /\ linked h rest
  | _ => True
  end.

(** One call of [processNode] leads from [s] to [s']. *)
Definition pushes (s s' : State) : Prop :=
  exists text lvl base popped p below pc,
    1 <= lvl
    /\ clean_text text
    /\ stack s = popped ++ p :: below
    /\ Forall (fun e => lvl <= minLevel e) popped
    /\ minLevel p < lvl
    /\ heap s !! node p = Some pc
    /\ s' = pushed s text lvl base p below.

(** What the main loop keeps true of the levels, besides [invariant]. *)
Record levels_invariant (s : State) : Prop := {
  lv_cells : forall i c,
      heap s !! S i = Some c ->
      cell_expanded c = Some false /\ 1 <= cell_level c
      /\ clean_text (cell_text c);
  lv_children : forall i c,
      heap s !! i = Some c ->
      Forall (fun j => exists cj, heap s !! j = Some cj
                                  /\ cell_level c < cell_level cj)
             (cell_children c);
  lv_sorted : forall i c,
      heap s !! i = Some c -> StronglySorted ge (child_levels (heap s) c);
  lv_stack : Forall (fun e => exists c, heap s !! node e = Some c
                                        /\ cell_level c = minLevel e) (stack s);
  lv_order : StronglySorted (fun a b => node b < node a) (stack s);
  lv_top : forall e, head (stack s) = Some e ->
                     exists c, heap s !! node e = Some c /\ cell_children c = [];
  lv_linked : linked (heap s) (stack s)
}.

(** The value of [currentBaseLevel] after the main loop went through
    [pre]: the level of the last heading line with a text, 0 when there is
    none. *)
Definition base_level (pre : list jsstr) : nat :=
  fold_left
    (fun base line =>
       match heading_of line with
       | Some (k, text) => if is_empty text then base else k
       | None => base
       end)
    pre 0.

End Levels.

Import Levels.

(** ** Vocabulary for the arrangement of the nodes *)

Module Arrangement.

Import INodeData.

Local Open Scope Q_scope.

(** The entry that the loops of the layout write for [child]. *)
Definition child_position (child : INodeData) (childDim : Dim) (x y : Q)
    (parent : string) : NodePosition :=
  {| NodePosition.id := id child;
     NodePosition.text := text child;
     NodePosition.x := x;
     NodePosition.y := y;
     NodePosition.width := inject_Z (dim_width childDim);
     NodePosition.height := inject_Z (dim_height childDim);
     NodePosition.level := level child;
     NodePosition.hasChildren := negb (is_empty (children child));
     NodePosition.expanded := truthy (expanded child);
     NodePosition.parentId := Some parent |}.

Section arranged.

Variable dimensions : gmap string Dim.
Variable hs vs : Q.
Variable positions : gmap string NodePosition.

(** The map holds the entries of the siblings [cs], stacked from [yOffset]
    downwards: each sits in the middle of a slot as high as its branch, the
    slots are [vs] apart, and below each sibling [below] holds. *)
Definition stacked (below : INodeData -> Q -> Q -> Prop) (xOf : Q -> Q)
    (parent : string) : list INodeData -> Q -> Prop :=
  fix go cs yOffset :=
    match cs with
    | [] => True
    | child :: rest =>
        exists childDim branchHeight,
          dimensions !! id child = Some childDim
          /\ calculateNodeBranchHeight dimensions vs child = Some branchHeight
          /\ positions !! id child
             = Some (child_position child childDim
                       (xOf (inject_Z (dim_width childDim)))
                       (yOffset + branchHeight / 2) parent)
          /\ below child (xOf (inject_Z (dim_width childDim)))
                   (yOffset + branchHeight / 2)
          /\ go rest (yOffset + branchHeight + vs)
    end.

(** The map holds what [layoutChildBranch] writes below [parent], when
    [parent] itself sits at [(currentX, currentY)]. *)
Fixpoint arranged_below (dir : Direction) (parent : INodeData)
    (currentX currentY : Q) : Prop :=
  if negb (truthy (expanded parent)) || is_empty (children parent) then True
  else
    exists parentDim totalSubtreeHeight,
      dimensions !! id parent = Some parentDim
      /\ calculateSubtreeHeight dimensions vs (children parent)
         = Some totalSubtreeHeight
      /\ stacked (fun child x y => arranged_below dir child x y)
           (fun width =>
              currentX
              + sign_of dir
                * (inject_Z (dim_width parentDim) / 2
                   + hs * (if (2 <=? level parent)%nat then 1.0 else 0.8) * 0.6)
              + sign_of dir * (width / 2))
           (id parent) (children parent)
           (currentY - totalSubtreeHeight / 2).

(** The same for one half of the children of the root in the mode
    ['both']. *)
Definition arranged_half (dir : Direction) (xOf : Q -> Q) (parent : string)
    (half : list INodeData) : Prop :=
  if is_empty half then True
  else exists halfHeight,
      calculateSubtreeHeight dimensions vs half = Some halfHeight
      /\ stacked (fun child x y => arranged_below dir child x y)
           xOf parent half (- halfHeight / 2).

(** The map holds what [calculateLayout] writes for [root]. *)
Definition arranged (dir : Direction) (centerOffset : Q) (root : INodeData)
    : Prop :=
  exists rootDim,
    dimensions !! id root = Some rootDim
    /\ match dir with
       | Both =>
           positions !! id root = Some (root_position root rootDim centerOffset)
           /\ (is_empty (children root) = false ->
               let leftCount := Nat.div2 (S (length (children root))) in
               arranged_half Left
                 (fun width =>
                    centerOffset - inject_Z (dim_width rootDim) / 2
                    - hs * 0.5 - width / 2)
                 (id root) (take leftCount (children root))
               /\ arranged_half Right
                    (fun width =>
                       centerOffset + inject_Z (dim_width rootDim) / 2
                       + hs * 0.5 + width / 2)
                    (id root) (drop leftCount (children root)))
       | _ =>
           positions !! id root = Some (root_position root rootDim 0)
           /\ arranged_below dir root 0 0
       end.

End arranged.

(** What a call of [layoutChildBranch] on [parent] leaves in every map
    [final] that keeps the entries it wrote. *)
Definition arranges (dimensions : gmap string Dim) (hs vs : Q)
    (dir : Direction) (parent : INodeData) : Prop :=
  covers dimensions (getAllNodes parent) ->
  NoDup (map id (getVisibleNodes parent)) ->
  forall positions x y positions' final,
    layoutChildBranch dimensions hs vs parent positions x y dir
    = Some positions' ->
    (forall n, n ∈ placed_below parent -> final !! id n = positions' !! id n) ->
    arranged_below dimensions hs vs final dir parent x y.


End Arrangement.

Import Arrangement.

(** ** The bounds of a layout *)

Module Bounds.

Local Open Scope Q_scope.

(** A number as [calculateLayoutBounds] meets it: a rational, one of the two
    infinities that its accumulators start from, or the [NaN] that the
    difference of two equal infinities is. *)
Inductive Num := NaN | NegInf | Fin (q : Q) | PosInf.

(** [Math.min(a, b)] and [Math.max(a, b)] for an accumulator [a] and a
    coordinate [b]. *)
Definition num_min (a : Num) (b : Q) : Num :=
  match a with
  | NaN => NaN
  | NegInf => NegInf
  | Fin q => Fin (Qmin q b)
  | PosInf => Fin b
  end.

Definition num_max (a : Num) (b : Q) : Num :=
  match a with
  | NaN => NaN
  | NegInf => Fin b
  | Fin q => Fin (Qmax q b)
  | PosInf => PosInf
  end.

(** [a - b] *)
Definition num_sub (a b : Num) : Num :=
  match a, b with
  | NaN, _ | _, NaN => NaN
  | Fin p, Fin q => Fin (p - q)
  | PosInf, PosInf | NegInf, NegInf => NaN
  | PosInf, _ | Fin _, NegInf => PosInf
  | NegInf, _ | Fin _, PosInf => NegInf
  end.

(** The same number: equal rationals, or the same special value. *)
Definition num_eq (a b : Num) : Prop :=
  match a, b with
  | Fin p, Fin q => p == q
  | NaN, NaN | NegInf, NegInf | PosInf, PosInf => True
  | _, _ => False
  end.

Record t := {
  minX : Num; maxX : Num; minY : Num; maxY : Num;
  width : Num; height : Num
}.

(** The body of the [forEach]. *)
Definition visit (acc : Num * Num * Num * Num) (pos : NodePosition)
    : Num * Num * Num * Num :=
  let '(minX, maxX, minY, maxY) := acc in
  (num_min minX (NodePosition.x pos - NodePosition.width pos / 2),
   num_max maxX (NodePosition.x pos + NodePosition.width pos / 2),
   num_min minY (NodePosition.y pos - NodePosition.height pos / 2),
   num_max maxY (NodePosition.y pos + NodePosition.height pos / 2)).

(** [calculateLayoutBounds] on the entries in the order in which [forEach]
    visits them. *)
Definition bounds_of (entries : list NodePosition) : t :=
  let '(minX, maxX, minY, maxY) :=
    fold_left visit entries (PosInf, NegInf, PosInf, NegInf) in
  {| minX := minX; maxX := maxX; minY := minY; maxY := maxY;
     width := num_sub maxX minX; height := num_sub maxY minY |}.

(** [calculateLayoutBounds].  A [Map] is visited in the order of insertion,
    which a [gmap] does not record: the entries are taken in the order of
    [map_to_list]. *)
Definition calculateLayoutBounds (positions : gmap string NodePosition) : t :=
  bounds_of (map snd (map_to_list positions)).

(** The same bounds, number by number. *)
Definition same (a b : t) : Prop :=
  num_eq (minX a) (minX b) /\ num_eq (maxX a) (maxX b)
  /\ num_eq (minY a) (minY b) /\ num_eq (maxY a) (maxY b)
  /\ num_eq (width a) (width b) /\ num_eq (height a) (height b).

(** The least and the greatest of the values of [f] on a list, as the
    accumulators compute them. *)
Definition least (f : NodePosition -> Q) (entries : list NodePosition) : Num :=
  fold_left (fun acc pos => num_min acc (f pos)) entries PosInf.

Definition greatest (f : NodePosition -> Q) (entries : list NodePosition) : Num :=
  fold_left (fun acc pos => num_max acc (f pos)) entries NegInf.

End Bounds.

(** ** The tree of the renderer *)

(** [MindmapRenderer.tsx] keeps the parsed tree in a state of its own, with
    an expansion flag that is always a boolean. *)

Module TreeNode.

Inductive t := Node {
  id : string;
  text : jsstr;
  level : nat;
  children : list t;
  expanded : bool
}.

End TreeNode.

Abbreviation TreeNode := TreeNode.t.

Module Renderer.

Import TreeNode.

(** [convertToTreeNode]: the flag is [node.expanded !== false]. *)
Fixpoint convertToTreeNode (node : INodeData) : TreeNode :=
  Node (INodeData.id node) (INodeData.text node) (INodeData.level node)
       (map convertToTreeNode (INodeData.children node))
       (match INodeData.expanded node with Some false => false | _ => true end).

(** The cast [treeData as unknown as INodeData] under which the tree goes to
    [calculateLayout]. *)
Fixpoint as_INodeData (node : TreeNode) : INodeData :=
  INodeData.Node (id node) (text node) (level node)
                 (map as_INodeData (children node)) (Some (expanded node)).

(** [findNode]; [None] is [null]. *)
Fixpoint findNode (node : TreeNode) (targetId : string) : option TreeNode :=
  if String.eqb (id node) targetId then Some node
  else
    (fix loop (cs : list TreeNode) : option TreeNode :=
       match cs with
       | [] => None
       | child :: rest =>
           match findNode child targetId with
           | Some found => Some found
           | None => loop rest
           end
       end) (children node).

(** [updateNodeExpanded] *)
Fixpoint updateNodeExpanded (node : TreeNode) (targetId : string)
    (flag : bool) : TreeNode :=
  if String.eqb (id node) targetId
  then Node (id node) (text node) (level node) (children node) flag
  else Node (id node) (text node) (level node)
            (map (fun child => updateNodeExpanded child targetId flag)
                 (children node))
            (expanded node).

(** What [handleNodeClick] does to the state [treeData], [None] being
    [null]: a click on a node with children toggles that node. *)
Definition handleNodeClick (treeData : option TreeNode) (node : TreeNode)
    : option TreeNode :=
  if negb (is_empty (children node)) then
    match treeData with
    | None => None
    | Some prev => Some (updateNodeExpanded prev (id node) (negb (expanded node)))
    end
  else treeData.

(** [expandAll] and [collapseAll] *)
Fixpoint expandAll (node : TreeNode) : TreeNode :=
  Node (id node) (text node) (level node) (map expandAll (children node)) true.

Fixpoint collapseAll (node : TreeNode) : TreeNode :=
  Node (id node) (text node) (level node) (map collapseAll (children node)) false.

(** [isDescendant] of [getBranchIndex] *)
Fixpoint isDescendant (node : TreeNode) (targetId : string) : bool :=
  if String.eqb (id node) targetId then true
  else existsb (fun child => isDescendant child targetId) (children node).

(** [getBranchIndex] *)
Definition getBranchIndex (treeData : option TreeNode) (nodeId : string) : Z :=
  match treeData with
  | None => (-1)%Z
  | Some tree =>
      if String.eqb nodeId "root" then (-1)%Z
      else
        (fix loop (cs : list TreeNode) (i : nat) : Z :=
           match cs with
           | [] => (-1)%Z
           | child :: rest =>
               if isDescendant child nodeId then (Z.of_nat i mod 5)%Z
               else loop rest (S i)
           end) (children tree) 0
  end.

(** [buildMap] of [nodeLookupMap]: the node, then its children in order. *)
Fixpoint buildMap (node : TreeNode) (m : gmap string TreeNode)
    : gmap string TreeNode :=
  (fix each (cs : list TreeNode) (m : gmap string TreeNode) :=
     match cs with
     | [] => m
     | child :: rest => each rest (buildMap child m)
     end) (children node) (<[id node := node]> m).

(** [nodeLookupMap] *)
Definition nodeLookupMap (treeData : option TreeNode) : gmap string TreeNode :=
  match treeData with
  | None => ∅
  | Some tree => buildMap tree ∅
  end.


(** [collectIds]: the identifiers that the renderer adds to the set
    [nodesToShow], in the order of the calls of [add]. *)
Fixpoint collectIds (node : TreeNode) : list string :=
  id node :: (if expanded node then flat_map collectIds (children node)
              else []).

(** The nodes of a tree in document order, which is the order of
    [buildMap]. *)
Fixpoint nodes (node : TreeNode) : list TreeNode :=
  node :: flat_map nodes (children node).

End Renderer.

(** A tree of the renderer for the examples: an expanded root over a
    node with one child, collapsed or expanded. *)
Definition example_branch (flag : bool) : TreeNode :=
  TreeNode.Node "node-0" (lit "A") 1
    [TreeNode.Node "node-1" (lit "A1") 2 [] false] flag.

Definition example_tree (flag : bool) : TreeNode :=
  TreeNode.Node "root" (lit "Topic") 0 [example_branch flag] true.

(** ** Layouts that are images of each other *)

Module Symmetry.

Local Open Scope Q_scope.

(** The entry [p'] is the entry [p] with its abscissa sent through
    [x => s * x + t]. *)
Definition image (s t : Q) (p p' : NodePosition) : Prop :=
  NodePosition.x p' == s * NodePosition.x p + t
  /\ NodePosition.y p' = NodePosition.y p
  /\ NodePosition.id p' = NodePosition.id p
  /\ NodePosition.text p' = NodePosition.text p
  /\ NodePosition.width p' = NodePosition.width p
  /\ NodePosition.height p' = NodePosition.height p
  /\ NodePosition.level p' = NodePosition.level p
  /\ NodePosition.hasChildren p' = NodePosition.hasChildren p
  /\ NodePosition.expanded p' = NodePosition.expanded p
  /\ NodePosition.parentId p' = NodePosition.parentId p.

(** The two maps have the same keys, and under each of them the entry of
    the second is the image of the entry of the first. *)
Definition images (s t : Q) (l r : gmap string NodePosition) : Prop :=
  forall k,
    match l !! k, r !! k with
    | Some p, Some p' => image s t p p'
    | None, None => True
    | _, _ => False
    end.

(** Two results of a layout function: both fail, or both are maps, the
    second the image of the first. *)
Definition related (s t : Q) (l r : option (gmap string NodePosition)) : Prop :=
  match l, r with
  | Some l, Some r => images s t l r
  | None, None => True
  | _, _ => False
  end.

End Symmetry.

Import Symmetry.

(** ** The layout engine in binary64

    The numbers of the code are IEEE 754 doubles.  This module is the
    layout engine and the path generator over the kernel's [float], which
    is binary64 with rounding to nearest, ties to even: every operation of
    the source is the one operation of [PrimFloat], in the order in which
    the source evaluates it. *)

Module Binary64.

Import INodeData.

Local Open Scope float_scope.

(** The double of an integer, as an entry of the dimension map holds it. *)
Definition of_Z (z : Z) : float :=
  SF2Prim (binary_normalize prec emax z 0 false).

(** [Math.max] of two numbers: [NaN] when one of them is, and [+0] above
    [-0]. *)
Definition Math_max (a b : float) : float :=
  if is_nan a || is_nan b then nan
  else if a <? b then b
  else if b <? a then a
  else if is_zero a && get_sign a then b else a.

Module NodePosition.

Record t := {
  id : string;
  text : jsstr;
  x : float;
  y : float;
  width : float;
  height : float;
  level : nat;
  hasChildren : bool;
  expanded : bool;
  parentId : option string
}.

End NodePosition.

Abbreviation NodePosition := NodePosition.t.

(** [Partial<LayoutOptions>]: an absent option is [None]. *)
Record LayoutOptions := {
  direction : option Direction;
  horizontalSpacing : option float;
  verticalSpacing : option float;
  nodeWidth : option float;
  nodeHeight : option float;
  centerOffset : option float;
  levelSpacingMultiplier : option float
}.

(** [calculateNodeDimensions]; the two default sizes are not used, and the
    estimates are the integers of [estimatedWidth] and [estimatedHeight]. *)
Definition calculateNodeDimensions (nodes : list INodeData)
    (_defaultWidth _defaultHeight : float) : gmap string Dim :=
  fold_left
    (fun dimensions node =>
       <[id node := {| dim_width := estimatedWidth node;
                       dim_height := estimatedHeight node |}]> dimensions)
    nodes ∅.

Section placement.

Variable dimensions : gmap string Dim.
Variable horizontalSpacing verticalSpacing : float.

(** The accumulation of [calculateSubtreeHeight], over a given measure of one
    branch. *)
Definition sum_branch_heights (bh : INodeData -> option float)
    : list INodeData -> float -> option float :=
  fix go nodes totalHeight :=
    match nodes with
    | [] => Some totalHeight
    | n :: rest =>
        match bh n with
        | Some h => go rest (totalHeight + h)
        | None => None
        end
    end.

Definition subtree_height_with (bh : INodeData -> option float)
    (nodes : list INodeData) : option float :=
  if is_empty nodes then Some 0
  else match sum_branch_heights bh nodes 0 with
       | Some totalHeight =>
           Some (totalHeight
                 + of_Z (Z.of_nat (length nodes) - 1) * verticalSpacing)
       | None => None
       end.

(** [calculateNodeBranchHeight]; [None] is a node missing from the
    dimension map. *)
Fixpoint calculateNodeBranchHeight (node : INodeData) : option float :=
  match dimensions !! id node with
  | None => None
  | Some nodeDim =>
      let nodeHeight := of_Z (dim_height nodeDim) in
      let minBranchHeight := Math_max nodeHeight 32 in
      if truthy (expanded node) && negb (is_empty (children node)) then
        match subtree_height_with calculateNodeBranchHeight (children node) with
        | Some childrenTotalHeight =>
            Some (Math_max minBranchHeight childrenTotalHeight)
        | None => None
        end
      else Some minBranchHeight
  end.

(** [calculateSubtreeHeight] *)
Definition calculateSubtreeHeight (nodes : list INodeData) : option float :=
  subtree_height_with calculateNodeBranchHeight nodes.

(** [direction === 'left' ? -1 : 1] *)
Definition sign_of (d : Direction) : float :=
  match d with Left => -1 | _ => 1 end.

(** The entry that the three loops over a list of siblings write for
    [child]. *)
Definition child_position (child : INodeData) (childDim : Dim) (x y : float)
    (parent : string) : NodePosition :=
  {| NodePosition.id := id child;
     NodePosition.text := text child;
     NodePosition.x := x;
     NodePosition.y := y;
     NodePosition.width := of_Z (dim_width childDim);
     NodePosition.height := of_Z (dim_height childDim);
     NodePosition.level := level child;
     NodePosition.hasChildren := negb (is_empty (children child));
     NodePosition.expanded := truthy (expanded child);
     NodePosition.parentId := Some parent |}.

(** The loop that places a list of siblings.  The source has three copies of
    it (in [layoutChildBranch] and for the two halves of
    [calculateBothDirectionLayout]) that differ only in the side, in the
    parent and in how [x] is computed from the width of the child:
    [recurse] is the call of [layoutChildBranch] on a child and [xOf] the
    expression for [x]. *)
Definition place_children
    (recurse : INodeData -> gmap string NodePosition -> float -> float
               -> option (gmap string NodePosition))
    (xOf : float -> float) (parent : string)
    : list INodeData -> gmap string NodePosition -> float
      -> option (gmap string NodePosition) :=
  fix loop cs positions yOffset :=
    match cs with
    | [] => Some positions
    | child :: rest =>
        match dimensions !! id child, calculateNodeBranchHeight child with
        | Some childDim, Some branchHeight =>
            let y := yOffset + branchHeight / 2 in
            let x := xOf (of_Z (dim_width childDim)) in
            let positions :=
              <[id child := child_position child childDim x y parent]> positions in
            match
              (if truthy (expanded child) && negb (is_empty (children child))
               then recurse child positions x y else Some positions)
            with
            | Some positions =>
                loop rest positions (yOffset + branchHeight + verticalSpacing)
            | None => None
            end
        | _, _ => None
        end
    end.

(** [layoutChildBranch] *)
Fixpoint layoutChildBranch (parent : INodeData)
    (positions : gmap string NodePosition) (currentX currentY : float)
    (dir : Direction) : option (gmap string NodePosition) :=
  if negb (truthy (expanded parent)) || is_empty (children parent)
  then Some positions
  else
    let sign := sign_of dir in
    match dimensions !! id parent with
    | None => None
    | Some parentDim =>
        let spacingMultiplier := if (2 <=? level parent)%nat then 1.0 else 0.8 in
        let hGap := horizontalSpacing * spacingMultiplier * 0.6 in
        let anchorX :=
          currentX + sign * (of_Z (dim_width parentDim) / 2 + hGap) in
        match calculateSubtreeHeight (children parent) with
        | None => None
        | Some totalSubtreeHeight =>
            place_children
              (fun child positions x y => layoutChildBranch child positions x y dir)
              (fun width => anchorX + sign * (width / 2)) (id parent)
              (children parent) positions (currentY - totalSubtreeHeight / 2)
        end
    end.

Definition root_position (root : INodeData) (rootDim : Dim) (x : float)
    : NodePosition :=
  {| NodePosition.id := id root;
     NodePosition.text := text root;
     NodePosition.x := x;
     NodePosition.y := 0;
     NodePosition.width := of_Z (dim_width rootDim);
     NodePosition.height := of_Z (dim_height rootDim);
     NodePosition.level := level root;
     NodePosition.hasChildren := negb (is_empty (children root));
     NodePosition.expanded := truthy (expanded root);
     NodePosition.parentId := None |}.

(** One half of [calculateBothDirectionLayout]: the block guarded by
    [leftChildren.length > 0], or by [rightChildren.length > 0]. *)
Definition layout_half (dir : Direction) (xOf : float -> float)
    (parent : string) (half : list INodeData)
    (positions : gmap string NodePosition)
    : option (gmap string NodePosition) :=
  if is_empty half then Some positions
  else match calculateSubtreeHeight half with
       | None => None
       | Some halfHeight =>
           place_children
             (fun child positions x y => layoutChildBranch child positions x y dir)
             xOf parent half positions (- halfHeight / 2)
       end.

(** [calculateBothDirectionLayout] *)
Definition calculateBothDirectionLayout (root : INodeData)
    (positions : gmap string NodePosition) (centerOffset : float)
    : option (gmap string NodePosition) :=
  match dimensions !! id root with
  | None => None
  | Some rootDim =>
      let positions := <[id root := root_position root rootDim centerOffset]> positions in
      if is_empty (children root) then Some positions
      else
        let leftCount := Nat.div2 (S (length (children root))) in
        let leftChildren := take leftCount (children root) in
        let rightChildren := drop leftCount (children root) in
        let leftAnchorX :=
          centerOffset - of_Z (dim_width rootDim) / 2
          - horizontalSpacing * 0.5 in
        let rightAnchorX :=
          centerOffset + of_Z (dim_width rootDim) / 2
          + horizontalSpacing * 0.5 in
        match layout_half Left (fun width => leftAnchorX - width / 2)
                (id root) leftChildren positions with
        | Some positions =>
            layout_half Right (fun width => rightAnchorX + width / 2)
              (id root) rightChildren positions
        | None => None
        end
  end.

(** [calculateSingleDirectionLayout] *)
Definition calculateSingleDirectionLayout (root : INodeData)
    (positions : gmap string NodePosition) (dir : Direction)
    : option (gmap string NodePosition) :=
  match dimensions !! id root with
  | None => None
  | Some rootDim =>
      let positions := <[id root := root_position root rootDim 0]> positions in
      layoutChildBranch root positions 0 0 dir
  end.

End placement.

(** [calculateLayout] *)
Definition calculateLayout (root : INodeData) (options : LayoutOptions)
    : option (gmap string NodePosition) :=
  let dir := default Both (direction options) in
  let hs := default 140 (horizontalSpacing options) in
  let vs := default 16 (verticalSpacing options) in
  let nw := default 100 (nodeWidth options) in
  let nh := default 32 (nodeHeight options) in
  let co := default 0 (centerOffset options) in
  let positions : gmap string NodePosition := ∅ in
  let allNodes := getAllNodes root in
  let nodeDimensions := calculateNodeDimensions allNodes nw nh in
  match dir with
  | Both => calculateBothDirectionLayout nodeDimensions hs vs root positions co
  | _ => calculateSingleDirectionLayout nodeDimensions hs vs root positions dir
  end.

(** The eight numbers that [generateLinkPath] prints into the path
    [M fromX fromY C cp1x cp1y, cp2x cp2y, toX toY]. *)
Record LinkPath := {
  fromX : float; fromY : float;
  cp1x : float; cp1y : float;
  cp2x : float; cp2y : float;
  toX : float; toY : float
}.

(** [generateLinkPath] *)
Definition generateLinkPath (from to : NodePosition) : LinkPath :=
  let isLeftBranch := NodePosition.x to <? NodePosition.x from in
  let isFromRoot := String.eqb (NodePosition.id from) "root" in
  let fromX := if isLeftBranch
               then NodePosition.x from - NodePosition.width from / 2
               else NodePosition.x from + NodePosition.width from / 2 in
  let fromY := if isFromRoot then NodePosition.y from
               else NodePosition.y from + NodePosition.height from / 2 in
  let toX := if isLeftBranch
             then NodePosition.x to + NodePosition.width to / 2
             else NodePosition.x to - NodePosition.width to / 2 in
  let toY := NodePosition.y to + NodePosition.height to / 2 in
  let dx := abs (toX - fromX) in
  let controlOffset := dx * 0.5 in
  {| fromX := fromX; fromY := fromY;
     cp1x := if isLeftBranch then fromX - controlOffset else fromX + controlOffset;
     cp1y := fromY;
     cp2x := if isLeftBranch then toX + controlOffset else toX - controlOffset;
     cp2y := toY;
     toX := toX; toY := toY |}.

End Binary64.

(** ** Vocabulary for the layout in binary64 *)

Module Binary64Arrangement.

Import INodeData Binary64.

Local Open Scope float_scope.

(** What a call that places some nodes does to the position map: it
    succeeds, adds exactly the identifiers of these nodes and leaves the
    other entries alone. *)
Definition places (nodes : list INodeData)
    (positions : gmap string NodePosition)
    (result : option (gmap string NodePosition)) : Prop :=
  exists positions',
    result = Some positions'
    /\ dom positions' = dom positions ∪ list_to_set (map id nodes)
    /\ forall k, k ∉ map id nodes -> positions' !! k = positions !! k.

Section arranged.

Variable dimensions : gmap string Dim.
Variable hs vs : float.
Variable positions : gmap string NodePosition.

(** The map holds the entries of the siblings [cs], as the loop over them
    writes them from [yOffset] on: the entry of each child has
    [y = yOffset + branchHeight / 2], the next child starts at
    [yOffset + branchHeight + vs], and below each child [below] holds. *)
Definition stacked (below : INodeData -> float -> float -> Prop)
    (xOf : float -> float) (parent : string)
    : list INodeData -> float -> Prop :=
  fix go cs yOffset :=
    match cs with
    | [] => True
    | child :: rest =>
        exists childDim branchHeight,
          dimensions !! id child = Some childDim
          /\ calculateNodeBranchHeight dimensions vs child = Some branchHeight
          /\ positions !! id child
             = Some (child_position child childDim
                       (xOf (of_Z (dim_width childDim)))
                       (yOffset + branchHeight / 2) parent)
          /\ below child (xOf (of_Z (dim_width childDim)))
                   (yOffset + branchHeight / 2)
          /\ go rest (yOffset + branchHeight + vs)
    end.

(** The map holds what [layoutChildBranch] writes below [parent], when
    [parent] itself sits at [(currentX, currentY)]. *)
Fixpoint arranged_below (dir : Direction) (parent : INodeData)
    (currentX currentY : float) : Prop :=
  if negb (truthy (expanded parent)) || is_empty (children parent) then True
  else
    exists parentDim totalSubtreeHeight,
      dimensions !! id parent = Some parentDim
      /\ calculateSubtreeHeight dimensions vs (children parent)
         = Some totalSubtreeHeight
      /\ stacked (fun child x y => arranged_below dir child x y)
           (fun width =>
              currentX
              + sign_of dir
                * (of_Z (dim_width parentDim) / 2
                   + hs * (if (2 <=? level parent)%nat then 1.0 else 0.8) * 0.6)
              + sign_of dir * (width / 2))
           (id parent) (children parent)
           (currentY - totalSubtreeHeight / 2).

(** The same for one half of the children of the root in the mode
    ['both']. *)
Definition arranged_half (dir : Direction) (xOf : float -> float)
    (parent : string) (half : list INodeData) : Prop :=
  if is_empty half then True
  else exists halfHeight,
      calculateSubtreeHeight dimensions vs half = Some halfHeight
      /\ stacked (fun child x y => arranged_below dir child x y)
           xOf parent half (- halfHeight / 2).

(** The map holds what [calculateLayout] writes for [root]. *)
Definition arranged (dir : Direction) (centerOffset : float) (root : INodeData)
    : Prop :=
  exists rootDim,
    dimensions !! id root = Some rootDim
    /\ match dir with
       | Both =>
           positions !! id root = Some (root_position root rootDim centerOffset)
           /\ (is_empty (children root) = false ->
               let leftCount := Nat.div2 (S (length (children root))) in
               arranged_half Left
                 (fun width =>
                    centerOffset - of_Z (dim_width rootDim) / 2
                    - hs * 0.5 - width / 2)
                 (id root) (take leftCount (children root))
               /\ arranged_half Right
                    (fun width =>
                       centerOffset + of_Z (dim_width rootDim) / 2
                       + hs * 0.5 + width / 2)
                    (id root) (drop leftCount (children root)))
       | _ =>
           positions !! id root = Some (root_position root rootDim 0)
           /\ arranged_below dir root 0 0
       end.

End arranged.

(** What a call of [layoutChildBranch] on [parent] leaves in every map
    [final] that keeps the entries it wrote. *)
Definition arranges (dimensions : gmap string Dim) (hs vs : float)
    (dir : Direction) (parent : INodeData) : Prop :=
  covers dimensions (getAllNodes parent) ->
  NoDup (map id (getVisibleNodes parent)) ->
  forall positions x y positions' final,
    layoutChildBranch dimensions hs vs parent positions x y dir
    = Some positions' ->
    (forall n, n ∈ placed_below parent -> final !! id n = positions' !! id n) ->
    arranged_below dimensions hs vs final dir parent x y.

End Binary64Arrangement.

(** ** Vocabulary for the anchor lines in binary64 *)

Module Binary64Anchors.

Import INodeData Binary64.

Local Open Scope float_scope.

(** The abscissa of the entry of [child] is the one that
    [layoutChildBranch] computes from the entry of [parent]: first the
    anchor line, [hGap] away from the edge of the parent on the side of the
    branch, then half the width of the child further.  Every operation is
    the rounded operation of the code, in its order. *)
Definition on_anchor (hs : float) (dir : Direction)
    (positions : gmap string NodePosition) (parent child : INodeData) : Prop :=
  exists pp pc,
    positions !! id parent = Some pp
    /\ positions !! id child = Some pc
    /\ NodePosition.parentId pc = Some (id parent)
    /\ let sign := sign_of dir in
       let spacingMultiplier := if (2 <=? level parent)%nat then 1.0 else 0.8 in
       let hGap := hs * spacingMultiplier * 0.6 in
       let anchorX := NodePosition.x pp + sign * (NodePosition.width pp / 2 + hGap) in
       NodePosition.x pc = anchorX + sign * (NodePosition.width pc / 2).

(** The same for a child of the root in the mode ['both'], where the gap is
    half the horizontal spacing and the two sides have an expression
    each. *)
Definition on_root_anchor (hs : float) (dir : Direction)
    (positions : gmap string NodePosition) (root child : INodeData) : Prop :=
  exists pp pc,
    positions !! id root = Some pp
    /\ positions !! id child = Some pc
    /\ NodePosition.parentId pc = Some (id root)
    /\ match dir with
       | Left =>
           let leftAnchorX :=
             NodePosition.x pp - NodePosition.width pp / 2 - hs * 0.5 in
           NodePosition.x pc = leftAnchorX - NodePosition.width pc / 2
       | _ =>
           let rightAnchorX :=
             NodePosition.x pp + NodePosition.width pp / 2 + hs * 0.5 in
           NodePosition.x pc = rightAnchorX + NodePosition.width pc / 2
       end.

(** Options that give a direction only. *)
Definition only_direction (d : Direction) : LayoutOptions :=
  {| direction := Some d; horizontalSpacing := None; verticalSpacing := None;
     nodeWidth := None; nodeHeight := None; centerOffset := None;
     levelSpacingMultiplier := None |}.

End Binary64Anchors.

(** ** Entries used in examples of the path generator *)

Module Binary64Examples.

Import Binary64.

Local Open Scope float_scope.

(** Two placed nodes, a parent that is not the root and its child to the
    right. *)
Definition pos_parent : NodePosition :=
  {| NodePosition.id := "node-0"; NodePosition.text := lit "A";
     NodePosition.x := 0; NodePosition.y := 0;
     NodePosition.width := 100; NodePosition.height := 36;
     NodePosition.level := 1; NodePosition.hasChildren := true;
     NodePosition.expanded := true; NodePosition.parentId := Some "root" |}.

Definition pos_child : NodePosition :=
  {| NodePosition.id := "node-1"; NodePosition.text := lit "B";
     NodePosition.x := 200; NodePosition.y := 40;
     NodePosition.width := 60; NodePosition.height := 32;
     NodePosition.level := 2; NodePosition.hasChildren := false;
     NodePosition.expanded := false; NodePosition.parentId := Some "node-0" |}.

End Binary64Examples.

(** ** Vocabulary for the calls of [processNode] *)

Module Calls.

(** The arguments [text] and [level] of the call of [processNode] that the
    main loop makes for [line] when [currentBaseLevel] is [base]: the three
    branches of the loop, for a heading line, a list line and a line of bare
    text. *)
Definition call_of (base : nat) (line : jsstr) : jsstr * nat :=
  match heading_of line with
  | Some (lvl, text) => (text, lvl)
  | None =>
      match match_list (trim line) with
      | Some body => (trim body, base + calculateIndentLevel line + 1)
      | None => (trim line, base + calculateIndentLevel line)
      end
  end.

(** The value of [isFirstHeading] after the main loop went through [pre],
    when it was [first] before: it is cleared by the first heading line with
    a text. *)
Definition pending (first : bool) (pre : list jsstr) : bool :=
  first && negb (existsb titled_heading pre).

(** The main loop calls [processNode] for [line] when [isFirstHeading] is
    [first]: the line is one that [emits] and is not the heading that gives
    the root its text. *)
Definition calls_now (first : bool) (line : jsstr) : bool :=
  emits line && negb (first && titled_heading line).

(** The number of calls of [processNode] that the main loop makes on
    [lines], when [isFirstHeading] is [first] before. *)
Fixpoint calls_from (first : bool) (lines : list jsstr) : nat :=
  match lines with
  | [] => 0
  | line :: rest =>
      (if calls_now first line then 1 else 0)
      + calls_from (first && negb (titled_heading line)) rest
  end.

(** The number of calls of [processNode] on the lines [pre] of a text, which
    is the value of [nodeIdCounter] after them. *)
Definition calls (pre : list jsstr) : nat := calls_from true pre.

(** The main loop calls [processNode] for [line] when it comes after the
    lines [pre]. *)
Definition calls_processNode (pre : list jsstr) (line : jsstr) : bool :=
  calls_now (pending true pre) line.

End Calls.

Import Calls.

(** ** The two arithmetics side by side *)

Module Agreement.

Local Open Scope Q_scope.

(** An entry over the rationals and an entry in binary64 that agree in
    everything but the coordinates: the same identifier, text, level, flags
    and parent, and the same integers as width and height. *)
Definition same_fields (p : NodePosition) (p' : Binary64.NodePosition)
    : Prop :=
  Binary64.NodePosition.id p' = NodePosition.id p
  /\ Binary64.NodePosition.text p' = NodePosition.text p
  /\ Binary64.NodePosition.level p' = NodePosition.level p
  /\ Binary64.NodePosition.hasChildren p' = NodePosition.hasChildren p
  /\ Binary64.NodePosition.expanded p' = NodePosition.expanded p
  /\ Binary64.NodePosition.parentId p' = NodePosition.parentId p
  /\ exists w h : Z,
       NodePosition.width p = inject_Z w
       /\ Binary64.NodePosition.width p' = Binary64.of_Z w
       /\ NodePosition.height p = inject_Z h
       /\ Binary64.NodePosition.height p' = Binary64.of_Z h.

(** The two maps have the same keys, and under each key entries that
    agree. *)
Definition agree (l : gmap string NodePosition)
    (r : gmap string Binary64.NodePosition) : Prop :=
  forall k,
    match l !! k, r !! k with
    | Some p, Some p' => same_fields p p'
    | None, None => True
    | _, _ => False
    end.

(** Two results: both fail, or both are maps that agree. *)
Definition agreeing (l : option (gmap string NodePosition))
    (r : option (gmap string Binary64.NodePosition)) : Prop :=
  match l, r with
  | Some l, Some r => agree l r
  | None, None => True
  | _, _ => False
  end.

End Agreement.

Import Agreement.

(** ** Layouts in binary64 that differ in [x] only *)

Module Binary64Offset.

Import Binary64.

(** The entry [p'] is the entry [p] with another abscissa, if any. *)
Definition same_but_x (p p' : NodePosition) : Prop :=
  NodePosition.y p' = NodePosition.y p
  /\ NodePosition.id p' = NodePosition.id p
  /\ NodePosition.text p' = NodePosition.text p
  /\ NodePosition.width p' = NodePosition.width p
  /\ NodePosition.height p' = NodePosition.height p
  /\ NodePosition.level p' = NodePosition.level p
  /\ NodePosition.hasChildren p' = NodePosition.hasChildren p
  /\ NodePosition.expanded p' = NodePosition.expanded p
  /\ NodePosition.parentId p' = NodePosition.parentId p.

(** The two maps have the same keys, and under each of them entries that
    differ in [x] only. *)
Definition shifted (l r : gmap string NodePosition) : Prop :=
  forall k,
    match l !! k, r !! k with
    | Some p, Some p' => same_but_x p p'
    | None, None => True
    | _, _ => False
    end.

(** Two results of a layout function: both fail, or both are maps, the
    second shifted from the first. *)
Definition shifting (l r : option (gmap string NodePosition)) : Prop :=
  match l, r with
  | Some l, Some r => shifted l r
  | None, None => True
  | _, _ => False
  end.

End Binary64Offset.

(** ** Vocabulary for the stacks of siblings in binary64 *)

Module Binary64Stacks.

Import INodeData Binary64.

Local Open Scope float_scope.



End Binary64Stacks.

(** ** The links that the renderer draws *)

Module Binary64Renderer.

Import Binary64.

(** [generateTrunkPath] *)
Definition generateTrunkPath (_parent : NodePosition)
    (_children : list NodePosition) : option string := None.

(** The links of [renderLinks], each as the key of its entry and the eight
    numbers of its path.  The first loop of [renderLinks] adds nothing,
    since [generateTrunkPath] returns [null]; the second adds a link for
    each entry whose [parentId] is truthy (it is set and is not the empty
    string) and is the key of an entry.  A [Map] is visited in the order of
    insertion, which a [gmap] does not record: the entries are taken in the
    order of [map_to_list]. *)
Definition renderLinks (positions : gmap string NodePosition)
    : list (string * LinkPath) :=
  omap (fun entry : string * NodePosition =>
          match NodePosition.parentId entry.2 with
          | Some parentId =>
              if String.eqb parentId "" then None
              else match positions !! parentId with
                   | Some parentPos =>
                       Some (entry.1, generateLinkPath parentPos entry.2)
                   | None => None
                   end
          | None => None
          end)
       (map_to_list positions).

End Binary64Renderer.

(** * Properties *)


Example parse_ex1 :
  parseMarkdown (lit "# Topic" ++ nl ++ lit "## A" ++ nl ++ lit "### A1" ++ nl ++ lit "## B")
  = Some (INodeData.Node "root" (lit "Topic") 0
      [INodeData.Node "node-0" (lit "A") 2
         [INodeData.Node "node-1" (lit "A1") 3 [] (Some false)] (Some false);
       INodeData.Node "node-2" (lit "B") 2 [] (Some false)] (Some true)).
Proof. vm_compute. reflexivity. Qed.

Example parse_ex2 :
  parseMarkdown (lit "- X" ++ nl ++ lit "  - Y")
  = Some (INodeData.Node "root" default_text 0
      [INodeData.Node "node-0" (lit "X") 1
         [INodeData.Node "node-1" (lit "Y") 2 [] (Some false)] (Some false)]
      (Some true)).
Proof. vm_compute. reflexivity. Qed.

(** The outline of the test of mixed formats: a list under the first
    heading, then a second heading with a list of its own. *)
Example parse_mixed :
  parseMarkdown (lit "# T" ++ nl ++ lit "- a" ++ nl ++ lit "  - b" ++ nl
                 ++ lit "## c" ++ nl ++ lit "  - d")
  = Some (INodeData.Node "root" (lit "T") 0
      [INodeData.Node "node-0" (lit "a") 2
         [INodeData.Node "node-1" (lit "b") 3 [] (Some false)] (Some false);
       INodeData.Node "node-2" (lit "c") 2
         [INodeData.Node "node-3" (lit "d") 4 [] (Some false)] (Some false)]
      (Some true)).
Proof. vm_compute. reflexivity. Qed.

(** A level that falls by more than one: the fourth line closes the three
    open nodes at once. *)
Example parse_level_jump :
  parseMarkdown (lit "- a" ++ nl ++ lit "  - b" ++ nl ++ lit "    - c" ++ nl
                 ++ lit "- d")
  = Some (INodeData.Node "root" default_text 0
      [INodeData.Node "node-0" (lit "a") 1
         [INodeData.Node "node-1" (lit "b") 2
            [INodeData.Node "node-2" (lit "c") 3 [] (Some false)] (Some false)]
         (Some false);
       INodeData.Node "node-3" (lit "d") 1 [] (Some false)]
      (Some true)).
Proof. vm_compute. reflexivity. Qed.

(** ** Dimension estimator *)

Lemma extraHeight_mono (w1 w2 : Z) :
  (w1 <= w2)%Z -> (extraHeight w1 <= extraHeight w2)%Z.
Proof.
  intros Hle. unfold extraHeight.
  repeat case_match;
    repeat match goal with
    | H : (_ <? _)%Z = true |- _ => apply Z.ltb_lt in H
    | H : (_ <? _)%Z = false |- _ => apply Z.ltb_ge in H
    | H : (_ <=? _)%Z = true |- _ => apply Z.leb_le in H
    | H : (_ <=? _)%Z = false |- _ => apply Z.leb_gt in H
    end;
    Z.div_mod_to_equations; lia.
Qed.

Lemma estimatedHeight_not_root (n : INodeData) :
  INodeData.id n <> "root" ->
  estimatedHeight n
  = (baseHeight (getFontConfig (INodeData.level n)) + extraHeight (estimatedWidth n))%Z.
Proof.
  intros Hid. unfold estimatedHeight.
  destruct (String.eqb_spec (INodeData.id n) "root"); [contradiction | reflexivity].
Qed.

(** An entry of the dimension map is the estimate of the last node of the
    pass that carries this identifier. *)
Lemma calculateNodeDimensions_lookup (nodes : list INodeData) (nw nh : Q) (n : INodeData) :
  NoDup (map INodeData.id nodes) -> n ∈ nodes ->
  calculateNodeDimensions nodes nw nh !! INodeData.id n
  = Some {| dim_width := estimatedWidth n; dim_height := estimatedHeight n |}.
Proof.
  unfold calculateNodeDimensions.
  generalize (∅ : gmap string Dim).
  induction nodes as [|a nodes IH]; intros m Hnd Hin.
  - by apply elem_of_nil in Hin.
  - apply NoDup_cons in Hnd as [Hna Hnd]. simpl.
    apply elem_of_cons in Hin as [-> | Hin].
    + clear IH Hnd. revert m.
      induction nodes as [|b nodes IH]; intros m; simpl.
      * by rewrite lookup_insert_eq.
      * rewrite insert_insert_ne.
        2:{ intros Heq. apply Hna. rewrite Heq. simpl. left. }
        apply IH. intros Hin. apply Hna. simpl. by right.
    + by apply IH.
Qed.

Lemma calculateNodeDimensions_dom (nodes : list INodeData) (nw nh : Q) (n : INodeData) :
  n ∈ nodes -> is_Some (calculateNodeDimensions nodes nw nh !! INodeData.id n).
Proof.
  unfold calculateNodeDimensions.
  assert (Hkeep : forall (l : list INodeData) (m : gmap string Dim) k,
             is_Some (m !! k) ->
             is_Some (fold_left
               (fun dimensions node =>
                  <[INodeData.id node := {| dim_width := estimatedWidth node;
                                            dim_height := estimatedHeight node |}]> dimensions)
               l m !! k)).
  { induction l as [|b l IH]; intros m k Hk; simpl; [done|].
    apply IH. rewrite lookup_insert. case_decide; eauto. }
  generalize (∅ : gmap string Dim).
  induction nodes as [|a nodes IH]; intros m Hin.
  - by apply elem_of_nil in Hin.
  - simpl. apply elem_of_cons in Hin as [-> | Hin]; [|by apply IH].
    apply Hkeep. rewrite lookup_insert_eq. eauto.
Qed.

(** C9. Two nodes of one estimation pass that are not the root and have the
    same depth: when the first is estimated strictly wider than the second,
    it is estimated at least as high. *)
Theorem C9_wider_is_not_lower (nodes : list INodeData) (nw nh : Q)
    (a b : INodeData) (da db : Dim) :
  NoDup (map INodeData.id nodes) ->
  a ∈ nodes -> b ∈ nodes ->
  INodeData.id a <> "root" -> INodeData.id b <> "root" ->
  INodeData.level a = INodeData.level b ->
  calculateNodeDimensions nodes nw nh !! INodeData.id a = Some da ->
  calculateNodeDimensions nodes nw nh !! INodeData.id b = Some db ->
  (dim_width db < dim_width da)%Z ->
  (dim_height db <= dim_height da)%Z.
Proof.
  intros Hnd Ha Hb Hra Hrb Hlvl Hda Hdb Hw.
  rewrite (calculateNodeDimensions_lookup _ _ _ _ Hnd Ha) in Hda.
  rewrite (calculateNodeDimensions_lookup _ _ _ _ Hnd Hb) in Hdb.
  injection Hda as <-. injection Hdb as <-. simpl in *.
  rewrite !estimatedHeight_not_root by assumption.
  rewrite Hlvl.
  apply Z.add_le_mono_l, extraHeight_mono. lia.
Qed.

(** ** Trees *)

Section trees.

Import INodeData.

Lemma INodeData_ind' (P : INodeData -> Prop) :
  (forall i t l cs e, Forall P cs -> P (Node i t l cs e)) ->
  forall n, P n.
Proof.
  intros HP. fix IH 1. intros [i t l cs e]. apply HP.
  induction cs as [|c cs IHcs]; constructor; [apply IH | exact IHcs].
Qed.

Lemma spine_unfold (t : INodeData) :
  spine t = id t :: from_option spine [] (last (children t)).
Proof.
  destruct t as [i tx l cs e]. simpl. f_equal.
  induction cs as [|c cs IH]; [done|].
  destruct cs as [|c' cs]; [done|].
  rewrite IH. reflexivity.
Qed.

Lemma node_ids_unfold (t : INodeData) :
  node_ids t = id t :: flat_map node_ids (children t).
Proof.
  destruct t as [i tx l cs e]. unfold node_ids. simpl. f_equal.
  induction cs as [|c cs IH]; [done|].
  simpl. rewrite map_app. by rewrite IH.
Qed.

Lemma elem_of_flat_map {A B} (f : A -> list B) (l : list A) (x : B) :
  x ∈ flat_map f l <-> exists y, y ∈ l /\ x ∈ f y.
Proof.
  rewrite list_elem_of_In, in_flat_map.
  split; intros (y & Hy & Hx); exists y; split;
    first [by apply list_elem_of_In | by apply list_elem_of_In].
Qed.

Lemma spine_in_ids (t : INodeData) (k : string) :
  k ∈ spine t -> k ∈ node_ids t.
Proof.
  revert k. induction t as [i tx l cs e IH] using INodeData_ind'. intros k.
  rewrite spine_unfold, node_ids_unfold. simpl.
  intros [->|Hk]%elem_of_cons; [left|right].
  destruct (last cs) as [c|] eqn:Hlast; simpl in Hk; [|by apply elem_of_nil in Hk].
  apply last_Some in Hlast as [cs0 ->].
  apply Forall_app in IH as [_ IH]. apply Forall_inv in IH.
  apply elem_of_flat_map. exists c. split.
  - apply elem_of_app. right. left.
  - by apply IH.
Qed.

Lemma attach_fresh (pid : string) (new t : INodeData) :
  pid ∉ node_ids t -> attach pid new t = t.
Proof.
  induction t as [i tx l cs e IH] using INodeData_ind'.
  rewrite node_ids_unfold. simpl. intros Hfresh.
  apply not_elem_of_cons in Hfresh as [Hne Hfresh].
  destruct (decide (i = pid)) as [Heq|_]; [by subst|].
  rewrite app_nil_r. f_equal.
  induction cs as [|c cs IHcs]; [done|].
  apply Forall_cons in IH as [Hc IH]. simpl in Hfresh.
  apply not_elem_of_app in Hfresh as [Hfc Hfcs].
  simpl. f_equal; [by apply Hc | by apply IHcs].
Qed.

Lemma attach_fresh_all (pid : string) (new : INodeData) (cs : list INodeData) :
  pid ∉ flat_map node_ids cs -> map (attach pid new) cs = cs.
Proof.
  induction cs as [|c cs IH]; [done|].
  simpl. intros [Hc Hcs]%not_elem_of_app.
  f_equal; [by apply attach_fresh | by apply IH].
Qed.

Lemma getAllNodes_unfold (t : INodeData) :
  getAllNodes t = t :: flat_map getAllNodes (children t).
Proof. by destruct t. Qed.

Lemma node_info_attach (pid : string) (new t : INodeData) :
  node_info (attach pid new t) = node_info t.
Proof. by destruct t. Qed.

Lemma flat_map_snoc {A B} (f : A -> list B) (l : list A) (x : A) :
  flat_map f (l ++ [x]) = flat_map f l ++ f x.
Proof. rewrite flat_map_app. simpl. by rewrite app_nil_r. Qed.

(** Pushing a child under a node of the spine appends it to the document
    order. *)
Lemma getAllNodes_attach (pid : string) (new t : INodeData) (pre post : list string) :
  NoDup (node_ids t) ->
  spine t = pre ++ pid :: post ->
  map node_info (getAllNodes (attach pid new t))
  = map node_info (getAllNodes t) ++ map node_info (getAllNodes new).
Proof.
  revert pre. induction t as [i tx l cs e IH] using INodeData_ind'.
  intros pre Hnd Hsp.
  rewrite node_ids_unfold in Hnd. simpl in Hnd.
  apply NoDup_cons in Hnd as [Hi Hnd].
  rewrite spine_unfold in Hsp. simpl in Hsp.
  rewrite (getAllNodes_unfold (attach _ _ _)), (getAllNodes_unfold (Node _ _ _ _ _)).
  cbn [attach children id text level expanded].
  rewrite !List.map_cons. rewrite <- app_comm_cons. f_equal.
  destruct pre as [|i' pre].
  - injection Hsp as -> _.
    rewrite decide_True by done.
    rewrite attach_fresh_all by done.
    rewrite flat_map_snoc. by rewrite List.map_app.
  - injection Hsp as <- Hsp.
    destruct (last cs) as [c|] eqn:Hlast; simpl in Hsp;
      [|by destruct pre].
    apply last_Some in Hlast as [cs0 ->].
    assert (Hpid : pid ∈ node_ids c).
    { apply spine_in_ids. rewrite Hsp. apply elem_of_app. right. left. }
    rewrite flat_map_snoc in Hnd, Hi.
    apply NoDup_app in Hnd as (_ & Hdisj & Hndc).
    rewrite decide_False.
    2:{ intros ->. apply Hi, elem_of_app. by right. }
    rewrite app_nil_r, List.map_app. simpl.
    rewrite attach_fresh_all.
    2:{ intros Hin. by apply (Hdisj pid). }
    rewrite !flat_map_snoc, !List.map_app.
    apply Forall_app in IH as [_ IH]. apply Forall_inv in IH.
    rewrite (IH pre Hndc Hsp). by rewrite app_assoc.
Qed.

Lemma node_ids_attach (pid : string) (new t : INodeData) (pre post : list string) :
  NoDup (node_ids t) ->
  spine t = pre ++ pid :: post ->
  node_ids (attach pid new t) = node_ids t ++ node_ids new.
Proof.
  intros Hnd Hsp.
  pose proof (getAllNodes_attach pid new t pre post Hnd Hsp) as H.
  apply (f_equal (map (fun x => x.1.1.1))) in H.
  rewrite List.map_app, !List.map_map in H. exact H.
Qed.

Lemma spine_attach (pid : string) (new t : INodeData) (pre post : list string) :
  NoDup (node_ids t) ->
  children new = [] ->
  spine t = pre ++ pid :: post ->
  spine (attach pid new t) = pre ++ [pid; id new].
Proof.
  intros Hnd Hnew. revert pre Hnd.
  induction t as [i tx l cs e IH] using INodeData_ind'.
  intros pre Hnd Hsp.
  rewrite node_ids_unfold in Hnd. simpl in Hnd.
  apply NoDup_cons in Hnd as [Hi Hnd].
  rewrite spine_unfold in Hsp. simpl in Hsp.
  rewrite spine_unfold. cbn [attach children id].
  destruct pre as [|i' pre].
  - injection Hsp as -> _. simpl. f_equal.
    rewrite decide_True by done. rewrite last_snoc. simpl.
    rewrite spine_unfold, Hnew. reflexivity.
  - injection Hsp as <- Hsp. simpl. f_equal.
    destruct (last cs) as [c|] eqn:Hlast; simpl in Hsp;
      [|by destruct pre].
    apply last_Some in Hlast as [cs0 ->].
    assert (Hpid : pid ∈ node_ids c).
    { apply spine_in_ids. rewrite Hsp. apply elem_of_app. right. left. }
    rewrite flat_map_snoc in Hnd, Hi.
    apply NoDup_app in Hnd as (_ & _ & Hndc).
    rewrite decide_False.
    2:{ intros ->. apply Hi, elem_of_app. by right. }
    rewrite app_nil_r, List.map_app. simpl. rewrite last_snoc. simpl.
    apply Forall_app in IH as [_ IH]. apply Forall_inv in IH.
    by apply IH.
Qed.

End trees.

(** ** The stack of open parents *)

Section stack.

Lemma pop_while_nonempty (lvl : nat) (st : list Entry) :
  st <> [] -> pop_while lvl st <> [].
Proof.
  induction st as [|e st IH]; [done|]. intros _. simpl.
  destruct st as [|e' st]; [done|].
  destruct (lvl <=? minLevel e); [|done].
  by apply IH.
Qed.

(** On the stacks that the parser builds, whose bottom is the root at level
    0 under entries of level 1 or more, the guard [stack.length > 1] of the
    loop of [processNode] never decides: the loop pops exactly the entries
    of level at least [lvl] off the top. *)
Lemma pop_while_split (lvl : nat) (above : list Entry) :
  1 <= lvl ->
  exists popped kept,
    above = popped ++ kept
    /\ pop_while lvl (above ++ [root_entry]) = kept ++ [root_entry]
    /\ Forall (fun e => lvl <= minLevel e) popped
    /\ (forall e, head (kept ++ [root_entry]) = Some e -> minLevel e < lvl).
Proof.
  intros Hlvl. induction above as [|e above IH].
  - exists [], []. split_and!; [done|done|constructor|].
    intros e [= <-]. simpl. lia.
  - destruct IH as (popped & kept & Habove & Hpop & Hpopped & Hhead).
    simpl. destruct (above ++ [root_entry]) as [|e' rest] eqn:Hrest.
    { by destruct above. }
    destruct (lvl <=? minLevel e) eqn:Hcmp.
    + exists (e :: popped), kept. split_and!.
      * by rewrite Habove.
      * exact Hpop.
      * constructor; [by apply Nat.leb_le | done].
      * exact Hhead.
    + exists [], (e :: above). split_and!.
      * done.
      * simpl. by rewrite Hrest.
      * constructor.
      * intros e0 [= <-]. by apply Nat.leb_gt.
Qed.

Lemma pop_while_drop_while (lvl : nat) (above : list Entry) :
  1 <= lvl ->
  pop_while lvl (above ++ [root_entry])
  = drop_while (fun e => lvl <=? minLevel e) (above ++ [root_entry]).
Proof.
  intros Hlvl. induction above as [|e above IH].
  - simpl. destruct lvl; [lia|done].
  - simpl. destruct (above ++ [root_entry]) as [|e' rest] eqn:Hrest.
    { by destruct above. }
    destruct (lvl <=? minLevel e); [exact IH|done].
Qed.

End stack.

(** ** The heap and the tree it holds *)

Section heap.

Import INodeData.

Lemma cell_info_push_child (r : nat) (c : Cell) :
  cell_info (push_child r c) = cell_info c.
Proof. done. Qed.

Lemma map_cell_info_alter (r k : nat) (h : list Cell) :
  map cell_info (alter (push_child r) k h) = map cell_info h.
Proof.
  revert k. induction h as [|c h IH]; intros [|k]; simpl; try done.
  f_equal. apply IH.
Qed.

Lemma map_cell_id_alter (r k : nat) (h : list Cell) :
  map cell_id (alter (push_child r) k h) = map cell_id h.
Proof.
  revert k. induction h as [|c h IH]; intros [|k]; simpl; try done.
  f_equal. apply IH.
Qed.

Lemma lookup_alter_push (r k i : nat) (h : list Cell) :
  alter (push_child r) k h !! i
  = (fun c => if decide (i = k) then push_child r c else c) <$> h !! i.
Proof.
  destruct (decide (i = k)) as [->|Hne].
  - rewrite list_lookup_alter_eq. by destruct (h !! k).
  - rewrite list_lookup_alter_ne by done. by destruct (h !! i).
Qed.

Lemma node_id_inj (a b : nat) : node_id a = node_id b -> a = b.
Proof.
  unfold node_id. intros H.
  apply (inj (String.append "node-")) in H. by apply pretty_nat_inj in H.
Qed.

Lemma parser_ids_NoDup (n : nat) :
  NoDup ("root" :: map node_id (seq 0 n)).
Proof.
  apply NoDup_cons. split.
  - intros Hin. apply list_elem_of_In, in_map_iff in Hin as (k & Hk & _).
    discriminate.
  - apply NoDup_fmap_2; [|apply NoDup_seq].
    intros a b. apply node_id_inj.
Qed.

Lemma tree_of_S (fuel : nat) (h : list Cell) (r : nat) :
  tree_of (S fuel) h r
  = match h !! r with
    | Some c =>
        match mapM (tree_of fuel h) (cell_children c) with
        | Some cs =>
            Some (Node (cell_id c) (cell_text c) (cell_level c) cs (cell_expanded c))
        | None => None
        end
    | None => None
    end.
Proof. reflexivity. Qed.

(** The tree of the heap after [processNode], from the tree before. *)
Lemma tree_of_attach (h : list Cell) (p : nat) (pc new : Cell) :
  NoDup (map cell_id h) ->
  h !! p = Some pc ->
  cell_children new = [] ->
  forall fuel r t,
    tree_of fuel h r = Some t ->
    tree_of (S fuel) (alter (push_child (length h)) p h ++ [new]) r
    = Some (attach (cell_id pc) (leaf_of new) t).
Proof.
  intros Hnd Hp Hnew.
  set (h' := alter (push_child (length h)) p h ++ [new]).
  assert (Hleaf : forall fuel, tree_of (S fuel) h' (length h) = Some (leaf_of new)).
  { intros fuel. rewrite tree_of_S. unfold h'.
    rewrite lookup_app_r by (by rewrite length_alter).
    rewrite length_alter, Nat.sub_diag. simpl. by rewrite Hnew. }
  induction fuel as [|fuel IH]; intros r t Ht; [done|].
  rewrite tree_of_S in Ht.
  destruct (h !! r) as [c|] eqn:Hr; [|done].
  destruct (mapM (tree_of fuel h) (cell_children c)) as [cs|] eqn:Hcs; [|done].
  injection Ht as <-.
  apply mapM_Some in Hcs.
  assert (Hcs' : mapM (tree_of (S fuel) h') (cell_children c)
                 = Some (map (attach (cell_id pc) (leaf_of new)) cs)).
  { apply mapM_Some. clear Hr.
    induction Hcs as [|j c' js cs' Hj _ IHcs]; constructor; [|exact IHcs].
    by apply IH. }
  assert (Hlt : r < length h) by (by eapply lookup_lt_Some).
  rewrite (tree_of_S (S fuel)).
  unfold h' at 1. rewrite lookup_app_l by (by rewrite length_alter).
  rewrite lookup_alter_push, Hr.
  cbn [fmap option_fmap option_map attach id text level children expanded].
  destruct (decide (r = p)) as [->|Hne].
  - assert (c = pc) as -> by congruence.
    assert (Hall : mapM (tree_of (S fuel) h') (cell_children pc ++ [length h])
                   = Some (map (attach (cell_id pc) (leaf_of new)) cs ++ [leaf_of new])).
    { apply mapM_Some, Forall2_app; [by apply mapM_Some|].
      constructor; [apply Hleaf | constructor]. }
    cbn [push_child cell_children cell_id cell_text cell_level cell_expanded].
    rewrite Hall. by rewrite decide_True.
  - rewrite Hcs'.
    rewrite decide_False, app_nil_r; [done|].
    intros Heq. apply Hne.
    eapply NoDup_lookup; [exact Hnd| |].
    + rewrite list_lookup_fmap, Hr. reflexivity.
    + rewrite list_lookup_fmap, Hp. simpl. by rewrite Heq.
Qed.

End heap.

(** ** One call of [processNode] *)

Section process_node.

Import INodeData.

Lemma stack_ids_pushed (h : list Cell) (k r : nat) (new : Cell) (st : list Entry) :
  Forall (fun e => node e < length h) st ->
  stack_ids (alter (push_child r) k h ++ [new]) st = stack_ids h st.
Proof.
  intros Hrefs. unfold stack_ids. apply map_ext_Forall.
  eapply Forall_impl; [exact Hrefs|]. intros e He. simpl in *.
  rewrite lookup_app_l by (by rewrite length_alter).
  rewrite lookup_alter_push. destruct (h !! node e) as [c|]; [|done].
  simpl. by destruct (decide _).
Qed.

Lemma node_ids_info (t : INodeData) :
  node_ids t = map (fun x => x.1.1.1) (map node_info (getAllNodes t)).
Proof. unfold node_ids. by rewrite List.map_map. Qed.

Lemma cell_ids_info (h : list Cell) :
  map cell_id h = map (fun x => x.1.1.1) (map cell_info h).
Proof. by rewrite List.map_map. Qed.

(** What [processNode] does on a state of the main loop, for a level of 1
    or more: it pops the entries of level at least [lvl], pushes the new
    node onto the children of the node [p] then on top, and pushes the new
    node with its level onto the stack. *)
Lemma emit_pushed (s : State) (text : jsstr) (lvl base : nat) :
  invariant s -> 1 <= lvl ->
  exists popped kept p below pc,
    stack s = popped ++ p :: below
    /\ p :: below = kept ++ [root_entry]
    /\ Forall (fun e => 1 <= minLevel e) kept
    /\ Forall (fun e => lvl <= minLevel e) popped
    /\ minLevel p < lvl
    /\ heap s !! node p = Some pc
    /\ emit s text lvl base = Some (pushed s text lvl base p below).
Proof.
  intros [_ Hrefs (above & Hst & Habove) _] Hlvl.
  destruct (pop_while_split lvl above Hlvl)
    as (popped & kept & Hsplit & Hpop & Hpopped & Hhead).
  destruct (kept ++ [root_entry]) as [|p below] eqn:Hkept.
  { by destruct kept. }
  assert (Hs : stack s = popped ++ p :: below).
  { rewrite Hst, Hsplit, <- app_assoc. by rewrite Hkept. }
  assert (Hp : node p < length (heap s)).
  { rewrite Hs in Hrefs. apply Forall_app in Hrefs as [_ Hrefs].
    by apply Forall_inv in Hrefs. }
  apply lookup_lt_is_Some in Hp as [pc Hpc].
  exists popped, kept, p, below, pc. split_and!; try done.
  - rewrite Hsplit in Habove. by apply Forall_app in Habove as [_ ?].
  - by apply Hhead.
  - unfold emit, processNode. by rewrite Hst, Hpop.
Qed.

Lemma pushed_invariant (s : State) (text : jsstr) (lvl base : nat)
    (popped kept : list Entry) (p : Entry) (below : list Entry) (pc : Cell) :
  invariant s -> 1 <= lvl ->
  stack s = popped ++ p :: below ->
  p :: below = kept ++ [root_entry] ->
  Forall (fun e => 1 <= minLevel e) kept ->
  heap s !! node p = Some pc ->
  invariant (pushed s text lvl base p below).
Proof.
  intros [Hids Hrefs _ (t & Htree & Hinfo & Hspine)] Hlvl Hst Hkept Hk Hpc.
  set (new := new_cell text lvl (nodeIdCounter s)).
  assert (Hnd : NoDup (map cell_id (heap s))).
  { rewrite Hids. apply parser_ids_NoDup. }
  assert (Hrefs' : Forall (fun e => node e < length (heap s)) (p :: below)).
  { rewrite Hst in Hrefs. by apply Forall_app in Hrefs as [_ ?]. }
  assert (Hsp : spine t = rev (stack_ids (heap s) below) ++ cell_id pc
                          :: rev (stack_ids (heap s) popped)).
  { rewrite Hspine, Hst. unfold stack_ids.
    rewrite List.map_app, rev_app_distr. simpl.
    rewrite Hpc. simpl. by rewrite <- app_assoc. }
  assert (Hndt : NoDup (node_ids t)).
  { by rewrite node_ids_info, Hinfo, <- cell_ids_info. }
  constructor; cbn [pushed heap stack nodeIdCounter].
  - rewrite List.map_app, map_cell_id_alter, Hids.
    rewrite seq_S, List.map_app. reflexivity.
  - rewrite length_app, length_alter. simpl.
    constructor; [simpl; lia|].
    eapply Forall_impl; [exact Hrefs'|]. simpl. intros; lia.
  - exists ({| node := length (heap s); minLevel := lvl |} :: kept).
    split; [by rewrite Hkept|]. by constructor.
  - exists (attach (cell_id pc) (leaf_of new) t). split_and!.
    + rewrite length_app, length_alter. simpl.
      rewrite Nat.add_1_r. by apply tree_of_attach.
    + rewrite (getAllNodes_attach _ _ _ _ _ Hndt Hsp), Hinfo.
      rewrite List.map_app, map_cell_info_alter. reflexivity.
    + rewrite (spine_attach _ (leaf_of new) _ _ _ Hndt eq_refl Hsp).
      change (stack_ids ?h (?e :: ?st))
        with (from_option cell_id "" (h !! node e) :: stack_ids h st).
      cbn [rev node].
      rewrite lookup_app_r by (by rewrite length_alter).
      rewrite length_alter, Nat.sub_diag.
      rewrite (stack_ids_pushed _ _ _ _ (p :: below) Hrefs').
      change (stack_ids ?h (?e :: ?st))
        with (from_option cell_id "" (h !! node e) :: stack_ids h st).
      cbn [rev]. rewrite Hpc. simpl. by rewrite <- app_assoc.
Qed.

Lemma pushed_extends (s : State) (text : jsstr) (lvl base : nat)
    (p : Entry) (below : list Entry) :
  heap_extends (heap s) (heap (pushed s text lvl base p below)).
Proof.
  intros i c Hi. simpl.
  rewrite lookup_app_l.
  2:{ rewrite length_alter. by eapply lookup_lt_Some. }
  rewrite lookup_alter_push, Hi. simpl.
  destruct (decide (i = node p)).
  - eexists. split_and!; [done|done|]. simpl. by apply prefix_app_r.
  - eexists. split_and!; done.
Qed.

End process_node.

(** ** One iteration of the main loop *)

Section main_loop.

Lemma is_empty_true {A} (l : list A) : is_empty l = true <-> l = [].
Proof. by destruct l. Qed.

Lemma is_empty_false {A} (l : list A) : is_empty l = false <-> l <> [].
Proof. by destruct l. Qed.

Lemma match_heading_level (s : jsstr) (k : nat) (body : jsstr) :
  match_heading s = Some (k, body) -> 1 <= k <= 6.
Proof.
  unfold match_heading.
  destruct (_ && _) eqn:Hk; [|done].
  destruct (match_ws_rest _); [|done]. intros [= <- _].
  apply andb_true_iff in Hk as [H1 H6].
  apply Nat.leb_le in H1, H6. lia.
Qed.

Lemma heading_of_level (line : jsstr) (k : nat) (text : jsstr) :
  heading_of line = Some (k, text) -> 1 <= k <= 6.
Proof.
  unfold heading_of.
  destruct (match_heading (trim line)) as [[k' body]|] eqn:Hm; [|done].
  intros [= <- _]. by eapply match_heading_level.
Qed.

Lemma heading_of_nonblank (line : jsstr) (k : nat) (text : jsstr) :
  heading_of line = Some (k, text) -> is_empty (trim line) = false.
Proof.
  unfold heading_of. destruct (trim line); [done|done].
Qed.

Lemma titled_heading_emits (line : jsstr) :
  titled_heading line = true -> emits line = true.
Proof.
  unfold titled_heading, emits.
  destruct (heading_of line) as [[k text]|] eqn:Hh; [|done].
  by rewrite (heading_of_nonblank _ _ _ Hh).
Qed.

(** The three outcomes of an iteration: the line is skipped, it is the first
    heading, or it is handed to [processNode] at a level of 1 or more. *)
Lemma step_outcome (s : State) (line : jsstr) :
  (emits line = false /\ step s line = Some s)
  \/ (isFirstHeading s = true
      /\ exists k text, heading_of line = Some (k, text) /\ text <> []
                        /\ step s line = Some (root_consumed s k))
  \/ (emits line = true
      /\ isFirstHeading s && titled_heading line = false
      /\ exists text lvl base,
           1 <= lvl
           /\ base = (if titled_heading line then lvl else currentBaseLevel s)
           /\ step s line = emit s text lvl base).
Proof.
  unfold step, emits, titled_heading.
  destruct (is_empty (trim line)) eqn:Hblank; [by left|].
  destruct (heading_of line) as [[k text]|] eqn:Hh.
  - destruct (is_empty text) eqn:Htext; [by left|]. right.
    apply is_empty_false in Htext.
    destruct (isFirstHeading s) eqn:Hfirst.
    + left. split; [done|]. by exists k, text.
    + right. split_and!; [done|done|].
      exists text, k, k. split_and!; try done.
      by apply heading_of_level in Hh as [? _].
  - destruct (match_list (trim line)) as [body|] eqn:Hl.
    + destruct (is_empty (trim body)) eqn:Hbody; [by left|]. right. right.
      split_and!; [done|by rewrite andb_false_r|].
      eexists _, _, _. split_and!; [|done|done]. lia.
    + destruct (negb (starts_with 35 (trim line))
                && negb (starts_with 45 (trim line))
                && negb (starts_with 42 (trim line))) eqn:Hmark; [|by left].
      destruct (0 <? calculateIndentLevel line) eqn:Hind; [|by left].
      right. right. split_and!; [done|by rewrite andb_false_r|].
      eexists _, _, _. split_and!; [|done|done].
      apply Nat.ltb_lt in Hind. lia.
Qed.

Lemma root_consumed_invariant (s : State) (lvl : nat) :
  invariant s -> invariant (root_consumed s lvl).
Proof. intros [? ? ? ?]. by constructor. Qed.

Lemma heap_extends_refl (h : list Cell) : heap_extends h h.
Proof. intros i c Hi. by exists c. Qed.

Lemma heap_extends_trans (h1 h2 h3 : list Cell) :
  heap_extends h1 h2 -> heap_extends h2 h3 -> heap_extends h1 h3.
Proof.
  intros H12 H23 i c Hi.
  destruct (H12 i c Hi) as (c2 & Hi2 & Hinfo2 & Hpre2).
  destruct (H23 i c2 Hi2) as (c3 & Hi3 & Hinfo3 & Hpre3).
  exists c3. split_and!; [done|congruence|by etrans].
Qed.

(** An iteration never throws, keeps the invariant, and changes the number
    of nodes by the one node of a line that [emits], the first heading
    apart. *)
Lemma step_invariant (s : State) (line : jsstr) :
  invariant s ->
  exists s',
    step s line = Some s'
    /\ invariant s'
    /\ heap_extends (heap s) (heap s')
    /\ length (heap s')
       = length (heap s)
         + (if emits line && negb (isFirstHeading s && titled_heading line)
            then 1 else 0)
    /\ isFirstHeading s' = isFirstHeading s && negb (titled_heading line)
    /\ (titled_heading line = false -> currentBaseLevel s' = currentBaseLevel s).
Proof.
  intros Hinv.
  destruct (step_outcome s line)
    as [[Hemits Hstep]|[(Hfirst & k & text & Hh & Htext & Hstep)
                       |(Hemits & Hnot & text & lvl & base & Hlvl & Hbase & Hstep)]].
  - exists s. split_and!; try done.
    + apply heap_extends_refl.
    + rewrite Hemits. simpl. lia.
    + destruct (titled_heading line) eqn:Ht; [|by rewrite andb_true_r].
      apply titled_heading_emits in Ht. congruence.
  - assert (Ht : titled_heading line = true).
    { unfold titled_heading. rewrite Hh. by destruct text. }
    exists (root_consumed s k). split_and!; try done.
    + by apply root_consumed_invariant.
    + apply heap_extends_refl.
    + rewrite Hfirst, Ht. rewrite (titled_heading_emits _ Ht). simpl. lia.
    + rewrite Hfirst, Ht. reflexivity.
    + congruence.
  - destruct (emit_pushed s text lvl base Hinv Hlvl)
      as (popped & kept & p & below & pc & Hst & Hkept & Hk & _ & _ & Hpc & Hemit).
    exists (pushed s text lvl base p below). split_and!.
    + congruence.
    + by eapply pushed_invariant.
    + apply pushed_extends.
    + simpl. rewrite length_app, length_alter, Hemits, Hnot. simpl. lia.
    + simpl. destruct (isFirstHeading s); [|done].
      simpl in Hnot. by rewrite Hnot.
    + intros Ht. simpl. by rewrite Hbase, Ht.
Qed.

End main_loop.

(** ** The whole loop *)

Section whole_loop.

Import INodeData.

Lemma run_app (s : State) (a b : list jsstr) :
  run s (a ++ b) = match run s a with Some s' => run s' b | None => None end.
Proof.
  revert s. induction a as [|l a IH]; intros s; simpl; [done|].
  destruct (step s l); [apply IH|done].
Qed.

Lemma run_invariant (s : State) (lines : list jsstr) :
  invariant s ->
  exists s',
    run s lines = Some s'
    /\ invariant s'
    /\ heap_extends (heap s) (heap s')
    /\ (isFirstHeading s = false ->
        isFirstHeading s' = false
        /\ length (heap s') = length (heap s) + length (List.filter emits lines))
    /\ (Forall (fun l => titled_heading l = false) lines ->
        isFirstHeading s' = isFirstHeading s
        /\ currentBaseLevel s' = currentBaseLevel s
        /\ length (heap s') = length (heap s) + length (List.filter emits lines)).
Proof.
  revert s. induction lines as [|l lines IH]; intros s Hinv.
  - exists s. simpl.
    split_and!;
      [done|done|apply heap_extends_refl
      |intros Hf; split; [done|lia]
      |intros _; split_and!; [done|done|lia]].
  - destruct (step_invariant s l Hinv)
      as (s1 & Hstep & Hinv1 & Hext1 & Hlen1 & Hfirst1 & Hbase1).
    destruct (IH s1 Hinv1) as (s' & Hrun & Hinv' & Hext' & Hafter & Hbefore).
    exists s'. simpl. rewrite Hstep. split_and!; try done.
    + by eapply heap_extends_trans.
    + intros Hf. rewrite Hf in Hfirst1, Hlen1. simpl in Hfirst1, Hlen1.
      destruct (Hafter Hfirst1) as [Hf' Hlen']. split; [done|].
      rewrite Hlen', Hlen1, andb_true_r.
      destruct (emits l); simpl; lia.
    + intros [Hl Hlines]%Forall_cons.
      rewrite Hl in Hfirst1, Hlen1. rewrite andb_false_r in Hlen1.
      rewrite !andb_true_r in Hfirst1, Hlen1.
      destruct (Hbefore Hlines) as (Hf' & Hb' & Hlen').
      split_and!; [congruence|rewrite Hb'; by apply Hbase1|].
      rewrite Hlen', Hlen1. destruct (emits l); simpl; lia.
Qed.

Lemma init_invariant (lines : list jsstr) : invariant (init lines).
Proof.
  constructor; simpl.
  - done.
  - constructor; [simpl; lia|constructor].
  - exists []. split; [done|constructor].
  - eexists. split_and!; [reflexivity|done|done].
Qed.

(** The main loop never throws. *)
Lemma parse_lines_total (lines : list jsstr) :
  exists s, parse_lines lines = Some s /\ invariant s
            /\ heap_extends (heap (init lines)) (heap s).
Proof.
  destruct (run_invariant (init lines) lines (init_invariant lines))
    as (s & Hrun & Hinv & Hext & _).
  by exists s.
Qed.

(** The tree that [parseMarkdown] returns holds the cells of the final heap
    in the order of their allocation, and its root is the cell that the
    first loop prepared. *)
Lemma parse_tree (lines : list jsstr) (s : State) :
  parse_lines lines = Some s ->
  exists t,
    tree_of (length (heap s)) (heap s) 0 = Some t
    /\ map node_info (getAllNodes t) = map cell_info (heap s)
    /\ node_info t
       = ("root", default default_text (find_root_text lines), 0, Some true).
Proof.
  intros Hparse.
  destruct (parse_lines_total lines) as (s' & Hparse' & Hinv & Hext).
  assert (s' = s) as -> by congruence.
  destruct (inv_tree s Hinv) as (t & Htree & Hinfo & _).
  exists t. split_and!; [done|done|].
  destruct (Hext 0 (root_cell (default default_text (find_root_text lines))) eq_refl)
    as (c & Hc & Hcinfo & _).
  rewrite getAllNodes_unfold in Hinfo.
  destruct (heap s) as [|c0 h]; [done|].
  injection Hc as ->.
  pose proof (f_equal head Hinfo) as Hhd. simpl in Hhd.
  apply (inj Some) in Hhd. by rewrite Hhd, Hcinfo.
Qed.

(** [parseMarkdown] never throws. *)
Lemma parseMarkdown_total (markdown : jsstr) :
  exists s t,
    parse_lines (split_lines markdown) = Some s
    /\ invariant s
    /\ parseMarkdown markdown = Some t
    /\ map node_info (getAllNodes t) = map cell_info (heap s)
    /\ node_info t
       = ("root", default default_text (find_root_text (split_lines markdown)),
          0, Some true).
Proof.
  destruct (parse_lines_total (split_lines markdown)) as (s & Hparse & Hinv & _).
  destruct (parse_tree _ _ Hparse) as (t & Htree & Hinfo & Hroot).
  exists s, t. unfold parseMarkdown. rewrite Hparse. by split_and!.
Qed.

End whole_loop.

(** ** Order of the nodes *)

Section order.

Import INodeData.

Lemma sublist_map_inv {A B} (f : A -> B) (l : list B) (k : list A) :
  l `sublist_of` map f k -> exists k', l = map f k' /\ k' `sublist_of` k.
Proof.
  revert l. induction k as [|x k IH]; intros l Hsub; simpl in Hsub.
  - apply sublist_nil_r in Hsub as ->. by exists [].
  - apply sublist_cons_r in Hsub as [Hsub|(l' & -> & Hsub)].
    + destruct (IH l Hsub) as (k' & -> & Hk'). exists k'.
      split; [done|by apply sublist_cons].
    + destruct (IH l' Hsub) as (k' & -> & Hk'). exists (x :: k').
      split; [done|by apply sublist_skip].
Qed.

Lemma sublist_StronglySorted {A} (R : A -> A -> Prop) (l k : list A) :
  l `sublist_of` k -> StronglySorted R k -> StronglySorted R l.
Proof.
  induction 1 as [|x l k Hsub IH|x l k Hsub IH]; intros Hk.
  - constructor.
  - apply StronglySorted_inv in Hk as [Hk Hx]. constructor; [by apply IH|].
    apply Forall_forall. intros y Hy.
    rewrite Forall_forall in Hx. apply Hx. by eapply elem_of_sublist.
  - apply StronglySorted_inv in Hk as [Hk _]. by apply IH.
Qed.

Lemma StronglySorted_seq (a n : nat) : StronglySorted lt (seq a n).
Proof.
  revert a. induction n as [|n IH]; intros a; simpl; constructor; [apply IH|].
  apply Forall_forall. intros y Hy%elem_of_seq. lia.
Qed.

Lemma children_ids_sublist_heads (cs : list INodeData) :
  map id cs `sublist_of` flat_map node_ids cs.
Proof.
  induction cs as [|c cs IH]; [constructor|].
  simpl. rewrite node_ids_unfold. simpl. apply sublist_skip.
  by apply sublist_inserts_l.
Qed.

(** The children of any node follow one another in the document order. *)
Lemma children_ids_sublist (t q : INodeData) :
  q ∈ getAllNodes t -> map id (children q) `sublist_of` tail (node_ids t).
Proof.
  induction t as [i tx l cs e IH] using INodeData_ind'.
  rewrite getAllNodes_unfold, node_ids_unfold. simpl.
  intros [->|Hq]%elem_of_cons.
  - apply children_ids_sublist_heads.
  - apply elem_of_flat_map in Hq as (c & Hc & Hq).
    rewrite Forall_forall in IH. specialize (IH c Hc Hq).
    apply list_elem_of_split in Hc as (cs1 & cs2 & ->).
    rewrite flat_map_app. simpl.
    apply sublist_inserts_l, sublist_inserts_r.
    etrans; [exact IH|]. rewrite node_ids_unfold. simpl.
    by apply sublist_cons.
Qed.

(** The document order of the tree that [parseMarkdown] returns is the
    order of the calls of [processNode]. *)
Lemma parse_ids (markdown : jsstr) :
  exists s t,
    parse_lines (split_lines markdown) = Some s
    /\ parseMarkdown markdown = Some t
    /\ node_ids t = "root" :: map node_id (seq 0 (nodeIdCounter s)).
Proof.
  destruct (parseMarkdown_total markdown) as (s & t & Hparse & Hinv & Ht & Hinfo & _).
  exists s, t. split_and!; [done|done|].
  by rewrite node_ids_info, Hinfo, <- cell_ids_info, (inv_ids s Hinv).
Qed.

(** The identifiers of a parsed tree are distinct. *)
Lemma parse_ids_NoDup (markdown : jsstr) (t : INodeData) :
  parseMarkdown markdown = Some t -> NoDup (map id (getAllNodes t)).
Proof.
  intros Ht.
  destruct (parse_ids markdown) as (s & t' & _ & Ht' & Hids).
  assert (t' = t) as -> by congruence.
  change (map id (getAllNodes t)) with (node_ids t).
  rewrite Hids. apply parser_ids_NoDup.
Qed.

Lemma parse_children_sorted (markdown : jsstr) (t q : INodeData) :
  parseMarkdown markdown = Some t -> q ∈ getAllNodes t ->
  exists ks, map id (children q) = map node_id ks /\ StronglySorted lt ks.
Proof.
  intros Ht Hq.
  destruct (parse_ids markdown) as (s & t' & _ & Ht' & Hids).
  assert (t' = t) as -> by congruence.
  pose proof (children_ids_sublist t q Hq) as Hsub.
  rewrite Hids in Hsub. simpl in Hsub.
  apply sublist_map_inv in Hsub as (ks & Hks & Hsub).
  exists ks. split; [done|].
  eapply sublist_StronglySorted; [exact Hsub|apply StronglySorted_seq].
Qed.

End order.

(** ** Parent resolution and identifiers *)

Section emission.

Import INodeData.

Lemma drop_while_split {A} (f : A -> bool) (popped : list A) (p : A) (below : list A) :
  Forall (fun e => f e = true) popped -> f p = false ->
  drop_while f (popped ++ p :: below) = p :: below.
Proof.
  intros Hpopped Hp. induction Hpopped as [|e popped He _ IH]; simpl.
  - by rewrite Hp.
  - by rewrite He.
Qed.

Lemma run_reaches_invariant (lines pre : list jsstr) (s : State) :
  run (init lines) pre = Some s -> invariant s.
Proof.
  intros Hrun.
  destruct (run_invariant (init lines) pre (init_invariant lines))
    as (s' & Hrun' & Hinv & _).
  congruence.
Qed.

End emission.

(** ** From lines to nodes *)

Section lines_to_nodes.

Import INodeData.

Lemma length_heap_ge_1 (s : State) : invariant s -> 1 <= length (heap s).
Proof.
  intros Hinv. pose proof (inv_ids s Hinv) as Hids.
  apply (f_equal length) in Hids. rewrite length_map in Hids.
  simpl in Hids. lia.
Qed.

(** The node of a call of [processNode] is a node of the returned tree, with
    the text and the level of the call. *)
Lemma emitted_node_in_tree (markdown : jsstr) (pre post : list jsstr)
    (line : jsstr) (s1 : State) (text : jsstr) (lvl base : nat) (t : INodeData) :
  split_lines markdown = pre ++ line :: post ->
  run (init (split_lines markdown)) pre = Some s1 ->
  step s1 line = emit s1 text lvl base ->
  1 <= lvl ->
  parseMarkdown markdown = Some t ->
  exists q, q ∈ tail (getAllNodes t)
            /\ node_info q = (node_id (nodeIdCounter s1), text, lvl, Some false).
Proof.
  intros Hlines Hpre Hstep Hlvl Ht.
  pose proof (run_reaches_invariant _ _ _ Hpre) as Hinv1.
  destruct (emit_pushed s1 text lvl base Hinv1 Hlvl)
    as (popped & kept & p & below & pc & Hst & Hkept & Hk & _ & _ & Hpc & Hemit).
  set (s2 := pushed s1 text lvl base p below) in *.
  assert (Hinv2 : invariant s2) by (by eapply pushed_invariant).
  destruct (run_invariant s2 post Hinv2) as (s & Hpost & Hinv & Hext & _).
  assert (Hparse : parse_lines (split_lines markdown) = Some s).
  { unfold parse_lines. rewrite Hlines at 2.
    rewrite run_app, Hpre. simpl. by rewrite Hstep, Hemit. }
  destruct (parse_tree _ _ Hparse) as (t' & Htree & Hinfo & _).
  assert (t' = t) as ->.
  { unfold parseMarkdown in Ht. rewrite Hparse in Ht. congruence. }
  assert (Hnew : heap s2 !! length (heap s1)
                 = Some (new_cell text lvl (nodeIdCounter s1))).
  { simpl. rewrite lookup_app_r by (by rewrite length_alter).
    by rewrite length_alter, Nat.sub_diag. }
  destruct (Hext _ _ Hnew) as (c & Hc & Hcinfo & _).
  assert (Hq : map node_info (getAllNodes t) !! length (heap s1)
               = Some (cell_info c)).
  { rewrite Hinfo, list_lookup_fmap, Hc. reflexivity. }
  rewrite list_lookup_fmap in Hq.
  destruct (getAllNodes t !! length (heap s1)) as [q|] eqn:Hlook; [|done].
  apply (inj Some) in Hq.
  exists q. split; [|by rewrite Hq, Hcinfo].
  pose proof (length_heap_ge_1 s1 Hinv1) as Hge.
  destruct (length (heap s1)) as [|n]; [lia|].
  rewrite getAllNodes_unfold in Hlook |- *. simpl in *.
  apply list_elem_of_lookup. by exists n.
Qed.

Lemma step_heading (s : State) (line : jsstr) (k : nat) (text : jsstr) :
  heading_of line = Some (k, text) -> text <> [] ->
  isFirstHeading s = false ->
  step s line = emit s text k k.
Proof.
  intros Hh Htext Hfirst. unfold step.
  rewrite (heading_of_nonblank _ _ _ Hh), Hh, Hfirst.
  by destruct text.
Qed.

Lemma find_root_text_first (pre post : list jsstr) (line : jsstr)
    (k : nat) (text : jsstr) :
  Forall (fun l => titled_heading l = false) pre ->
  heading_of line = Some (k, text) -> text <> [] ->
  find_root_text (pre ++ line :: post) = Some text.
Proof.
  intros Hpre Hh Htext. induction Hpre as [|l pre Hl _ IH]; simpl.
  - rewrite (heading_of_nonblank _ _ _ Hh), Hh. by destruct text.
  - unfold titled_heading in Hl.
    destruct (is_empty (trim l)); [done|].
    destruct (heading_of l) as [[k' text']|]; [|done].
    by destruct (is_empty text').
Qed.

Lemma find_root_text_none (lines : list jsstr) :
  Forall (fun l => titled_heading l = false) lines ->
  find_root_text lines = None.
Proof.
  induction 1 as [|l lines Hl _ IH]; simpl; [done|].
  unfold titled_heading in Hl.
  destruct (is_empty (trim l)); [done|].
  destruct (heading_of l) as [[k' text']|]; [|done].
  by destruct (is_empty text').
Qed.

(** The input of the counterexample to C3: one heading line whose text is a
    single dash. *)
Lemma C3_heading_without_text :
  let markdown := lit "# -" in
  exists line k body t,
    split_lines markdown = [line]
    /\ match_heading (trim line) = Some (k, body)
    /\ parseMarkdown markdown = Some t
    /\ text t <> strip_trailing_dash (trim body).
Proof.
  exists (lit "# -"), 1, (lit "-"),
    (Node "root" default_text 0 [] (Some true)).
  split_and!; [reflexivity|reflexivity|reflexivity|].
  vm_compute. discriminate.
Qed.

(** C3, amended.  When the text has a heading line whose text, after one
    trailing dash and the white space before it were removed, is not empty,
    the root is labelled with that text of the first such line; this line
    is the only line that [emits] without a node in the tree; and every
    later heading line with such a text has a node in the tree, at the level
    of its marker count, which is between 1 and 6. *)
Theorem C3_first_heading (markdown : jsstr) (pre post : list jsstr)
    (line : jsstr) (k : nat) (txt : jsstr) :
  split_lines markdown = pre ++ line :: post ->
  Forall (fun l => titled_heading l = false) pre ->
  heading_of line = Some (k, txt) -> txt <> [] ->
  exists t,
    parseMarkdown markdown = Some t
    /\ text t = txt
    /\ length (getAllNodes t)
       = 1 + length (List.filter emits pre) + length (List.filter emits post)
    /\ forall l k' txt',
         l ∈ post -> heading_of l = Some (k', txt') -> txt' <> [] ->
         1 <= k' <= 6
         /\ exists q, q ∈ tail (getAllNodes t) /\ text q = txt' /\ level q = k'.
Proof.
  intros Hlines Hpre Hh Htxt.
  destruct (parseMarkdown_total markdown)
    as (s & t & Hparse & Hinv & Ht & Hinfo & Hroot).
  exists t.
  assert (Htitled : titled_heading line = true).
  { unfold titled_heading. rewrite Hh. by destruct txt. }
  destruct (run_invariant _ pre (init_invariant (split_lines markdown)))
    as (s1 & Hrun1 & Hinv1 & _ & _ & Hbefore).
  destruct (Hbefore Hpre) as (Hfirst1 & _ & Hlen1). simpl in Hfirst1, Hlen1.
  destruct (step_invariant s1 line Hinv1)
    as (s2 & Hstep & Hinv2 & _ & Hlen2 & Hfirst2 & _).
  rewrite Hfirst1, Htitled in Hlen2, Hfirst2.
  rewrite (titled_heading_emits _ Htitled) in Hlen2. simpl in Hlen2, Hfirst2.
  assert (Hsplit : forall post1 s3,
             run s2 post1 = Some s3 ->
             run (init (split_lines markdown)) (pre ++ line :: post1) = Some s3).
  { intros post1 s3 Hrun3. rewrite run_app, Hrun1. simpl. by rewrite Hstep. }
  destruct (run_invariant s2 post Hinv2) as (s' & Hrun' & _ & _ & Hafter & _).
  destruct (Hafter Hfirst2) as [_ Hlen'].
  assert (s' = s) as ->.
  { apply Hsplit in Hrun'. unfold parse_lines in Hparse.
    rewrite Hlines in Hparse at 2. congruence. }
  split_and!.
  - done.
  - injection Hroot as _ Htext _.
    rewrite Htext, Hlines, (find_root_text_first _ _ _ _ _ Hpre Hh Htxt).
    reflexivity.
  - apply (f_equal length) in Hinfo. rewrite !length_map in Hinfo.
    rewrite Hinfo, Hlen', Hlen2, Hlen1. lia.
  - intros l k' txt' Hl Hh' Htxt'.
    split; [by eapply heading_of_level|].
    apply list_elem_of_split in Hl as (post1 & post2 & ->).
    destruct (run_invariant s2 post1 Hinv2) as (s3 & Hrun3 & _ & _ & Hafter3 & _).
    destruct (Hafter3 Hfirst2) as [Hfirst3 _].
    destruct (emitted_node_in_tree markdown (pre ++ line :: post1) post2 l s3
                txt' k' k' t) as (q & Hq & Hqinfo).
    + rewrite Hlines, <- app_assoc. reflexivity.
    + by apply Hsplit.
    + by apply step_heading.
    + by apply heading_of_level in Hh' as [? _].
    + done.
    + exists q. injection Hqinfo as _ Hqt Hql _. by split_and!.
Qed.

Lemma C3_first_heading_witness :
  exists t,
    parseMarkdown (lit "# Topic -" ++ nl ++ lit "## A" ++ nl ++ lit "- x") = Some t
    /\ text t = lit "Topic"
    /\ length (getAllNodes t) = 3
    /\ exists q, q ∈ tail (getAllNodes t) /\ text q = lit "A" /\ level q = 2.
Proof.
  destruct (C3_first_heading
              (lit "# Topic -" ++ nl ++ lit "## A" ++ nl ++ lit "- x")
              [] [lit "## A"; lit "- x"] (lit "# Topic -") 1 (lit "Topic"))
    as (t & Ht & Htext & Hlen & Hnodes).
  - reflexivity.
  - constructor.
  - reflexivity.
  - discriminate.
  - exists t. split_and!; [done|done|done|].
    destruct (Hnodes (lit "## A") 2 (lit "A")) as [_ Hq].
    + left.
    + reflexivity.
    + discriminate.
    + exact Hq.
Defined.

End lines_to_nodes.

(** ** Bare indented text *)

Section indented_text.

Import INodeData.

Lemma step_indented (s : State) (line : jsstr) :
  trim line <> [] ->
  heading_of line = None ->
  match_list (trim line) = None ->
  starts_with 35 (trim line) = false ->
  starts_with 45 (trim line) = false ->
  starts_with 42 (trim line) = false ->
  0 < calculateIndentLevel line ->
  step s line
  = emit s (trim line) (currentBaseLevel s + calculateIndentLevel line)
         (currentBaseLevel s).
Proof.
  intros Hblank Hh Hl H1 H2 H3 Hind. unfold step.
  apply is_empty_false in Hblank. rewrite Hblank, Hh, Hl, H1, H2, H3. simpl.
  apply Nat.ltb_lt in Hind. by rewrite Hind.
Qed.

(** A line of bare text whose indentation level is 1 or more has a node in
    the tree, at the base level plus the indentation level. *)
Lemma indented_text_node (markdown : jsstr) (pre post : list jsstr)
    (line : jsstr) (s : State) (t : INodeData) :
  split_lines markdown = pre ++ line :: post ->
  run (init (split_lines markdown)) pre = Some s ->
  trim line <> [] ->
  heading_of line = None ->
  match_list (trim line) = None ->
  starts_with 35 (trim line) = false ->
  starts_with 45 (trim line) = false ->
  starts_with 42 (trim line) = false ->
  0 < calculateIndentLevel line ->
  parseMarkdown markdown = Some t ->
  exists q, q ∈ tail (getAllNodes t)
            /\ text q = trim line
            /\ level q = currentBaseLevel s + calculateIndentLevel line.
Proof.
  intros Hlines Hrun Hblank Hh Hl H1 H2 H3 Hind Ht.
  destruct (emitted_node_in_tree markdown pre post line s (trim line)
              (currentBaseLevel s + calculateIndentLevel line)
              (currentBaseLevel s) t) as (q & Hq & Hinfo); try done.
  - by apply step_indented.
  - lia.
  - exists q. injection Hinfo as _ Htext Hlevel _. by split_and!.
Qed.

(** C6 at a line with one leading space.  The line is not blank, carries no
    marker and starts with white space; its indentation level is
    [floor (1 / 2) = 0], the guard [indentLevel > 0] of the main loop
    fails, and the line is dropped: the tree is the root alone. *)
Theorem C6_one_space_line_dropped :
  let line := lit " a" in
  trim line <> []
  /\ take_while is_ws line <> []
  /\ heading_of line = None
  /\ match_list (trim line) = None
  /\ starts_with 35 (trim line) = false
  /\ starts_with 45 (trim line) = false
  /\ starts_with 42 (trim line) = false
  /\ calculateIndentLevel line = 0
  /\ split_lines line = [line]
  /\ parseMarkdown line = Some (Node "root" default_text 0 [] (Some true)).
Proof. vm_compute. split_and!; done. Qed.

(** C8 on two outlines in bare text without a heading.  In the first the
    top-level item stands behind one space, so that its indentation level
    is 0; in the second, the outline of the repository's own test of
    indented text, it is not indented.  In both the main loop drops the
    top-level item, and the items below it become the children of the
    root: the test expects one child with two children of its own. *)
Theorem C8_top_level_text_dropped :
  parseMarkdown Examples.one_space_outline
  = Some (Node "root" default_text 0
            [Node "node-0" (lit "Sub") 1 [] (Some false)] (Some true))
  /\ parseMarkdown Examples.indented_text_test
     = Some (Node "root" default_text 0
               [Node "node-0" Examples.zi_zhuti_1 1
                  [Node "node-1" Examples.zi_zi_zhuti_1 2 [] (Some false)]
                  (Some false);
                Node "node-2" Examples.zi_zhuti_2 1 [] (Some false)]
               (Some true)).
Proof. split; vm_compute; reflexivity. Qed.

(** [parseMarkdown] returns a tree for every text. *)
Lemma parseMarkdown_never_throws (markdown : jsstr) :
  is_Some (parseMarkdown markdown).
Proof.
  destruct (parseMarkdown_total markdown) as (s & t & _ & _ & Ht & _). eauto.
Qed.

(** Without a heading line the root keeps the default label. *)
Lemma parseMarkdown_default_root (markdown : jsstr) (t : INodeData) :
  Forall (fun l => match_heading (trim l) = None) (split_lines markdown) ->
  parseMarkdown markdown = Some t ->
  id t = "root" /\ text t = default_text /\ level t = 0
  /\ expanded t = Some true.
Proof.
  intros Hno Ht.
  destruct (parseMarkdown_total markdown) as (s & t' & _ & _ & Ht' & _ & Hroot).
  assert (t' = t) as -> by congruence.
  rewrite find_root_text_none in Hroot.
  - by injection Hroot as -> -> -> ->.
  - eapply Forall_impl; [exact Hno|]. intros l Hl.
    unfold titled_heading, heading_of. by rewrite Hl.
Qed.

Lemma parseMarkdown_empty :
  parseMarkdown [] = Some (Node "root" default_text 0 [] (Some true)).
Proof. reflexivity. Qed.

End indented_text.

(** ** The layout never misses a dimension and places the visible nodes *)

Section placing.

Import INodeData.

Variable dimensions : gmap string Dim.
Variable hs vs : Q.

Lemma calculateNodeBranchHeight_unfold (node : INodeData) :
  calculateNodeBranchHeight dimensions vs node
  = match dimensions !! id node with
    | None => None
    | Some nodeDim =>
        let minBranchHeight := Qmax (inject_Z (dim_height nodeDim)) 32 in
        if truthy (expanded node) && negb (is_empty (children node)) then
          match calculateSubtreeHeight dimensions vs (children node) with
          | Some childrenTotalHeight =>
              Some (Qmax minBranchHeight childrenTotalHeight)
          | None => None
          end
        else Some minBranchHeight
    end.
Proof. by destruct node. Qed.

Lemma layoutChildBranch_unfold (parent : INodeData)
    (positions : gmap string NodePosition) (cx cy : Q) (dir : Direction) :
  layoutChildBranch dimensions hs vs parent positions cx cy dir
  = if negb (truthy (expanded parent)) || is_empty (children parent)
    then Some positions
    else
      match dimensions !! id parent with
      | None => None
      | Some parentDim =>
          let anchorX :=
            (cx + sign_of dir
                  * (inject_Z (dim_width parentDim) / 2
                     + hs * (if 2 <=? level parent then 1.0 else 0.8) * 0.6))%Q in
          match calculateSubtreeHeight dimensions vs (children parent) with
          | None => None
          | Some totalSubtreeHeight =>
              place_children dimensions vs
                (fun child positions x y =>
                   layoutChildBranch dimensions hs vs child positions x y dir)
                (fun width => anchorX + sign_of dir * (width / 2))%Q (id parent)
                (children parent) positions (cy - totalSubtreeHeight / 2)%Q
          end
      end.
Proof. by destruct parent. Qed.

Lemma getVisibleNodes_unfold (node : INodeData) :
  getVisibleNodes node
  = node :: (if truthy (expanded node)
             then flat_map getVisibleNodes (children node) else []).
Proof. by destruct node. Qed.

Lemma getVisibleNodes_placed (node : INodeData) :
  getVisibleNodes node = node :: placed_below node.
Proof. by destruct node. Qed.

Lemma covers_children (node : INodeData) :
  covers dimensions (getAllNodes node) ->
  Forall (fun c => covers dimensions (getAllNodes c)) (children node).
Proof.
  rewrite getAllNodes_unfold. intros [_ Hcov]%Forall_cons.
  apply Forall_forall. intros c Hc. apply Forall_forall. intros n Hn.
  unfold covers in Hcov. rewrite Forall_forall in Hcov. apply Hcov.
  apply elem_of_flat_map. by exists c.
Qed.

Lemma covers_self (node : INodeData) :
  covers dimensions (getAllNodes node) -> is_Some (dimensions !! id node).
Proof. rewrite getAllNodes_unfold. by intros [? _]%Forall_cons. Qed.

Lemma sum_branch_heights_total (bh : INodeData -> option Q)
    (nodes : list INodeData) (acc : Q) :
  Forall (fun n => is_Some (bh n)) nodes ->
  is_Some (sum_branch_heights bh nodes acc).
Proof.
  intros Hall. revert acc.
  induction Hall as [|n nodes [h Hn] _ IH]; intros acc; simpl; [eauto|].
  rewrite Hn. apply IH.
Qed.

Lemma subtree_height_total (bh : INodeData -> option Q) (nodes : list INodeData) :
  Forall (fun n => is_Some (bh n)) nodes ->
  is_Some (subtree_height_with vs bh nodes).
Proof.
  intros Hall. unfold subtree_height_with.
  destruct (is_empty nodes); [eauto|].
  destruct (sum_branch_heights_total bh nodes 0%Q Hall) as [h Hh].
  rewrite Hh. eauto.
Qed.

Lemma calculateNodeBranchHeight_total (node : INodeData) :
  covers dimensions (getAllNodes node) ->
  is_Some (calculateNodeBranchHeight dimensions vs node).
Proof.
  induction node as [i tx l cs e IH] using INodeData_ind'. intros Hcov.
  pose proof (covers_children _ Hcov) as Hcs. simpl in Hcs.
  rewrite calculateNodeBranchHeight_unfold.
  apply covers_self in Hcov as [d Hd]. rewrite Hd.
  cbn [id text level children expanded] in *. cbv zeta.
  destruct (truthy e && negb (is_empty cs)); [|eauto].
  assert (Hall : Forall (fun n => is_Some (calculateNodeBranchHeight dimensions vs n)) cs).
  { rewrite Forall_forall in IH, Hcs |- *. intros c Hc. apply IH; auto. }
  destruct (subtree_height_total _ cs Hall) as [h Hh].
  unfold calculateSubtreeHeight. rewrite Hh. eauto.
Qed.

Lemma calculateSubtreeHeight_total (nodes : list INodeData) :
  Forall (fun c => covers dimensions (getAllNodes c)) nodes ->
  is_Some (calculateSubtreeHeight dimensions vs nodes).
Proof.
  intros Hcov. apply subtree_height_total.
  eapply Forall_impl; [exact Hcov|]. apply calculateNodeBranchHeight_total.
Qed.

Lemma places_nothing (positions : gmap string NodePosition) :
  places [] positions (Some positions).
Proof. exists positions. split_and!; [done|set_solver|done]. Qed.

Lemma places_insert_then (n : INodeData) (p : NodePosition)
    (nodes : list INodeData) (positions : gmap string NodePosition)
    (result : option (gmap string NodePosition)) :
  places nodes (<[id n := p]> positions) result ->
  places (n :: nodes) positions result.
Proof.
  intros (pos' & -> & Hdom & Hframe). exists pos'. split_and!; [done| |].
  - rewrite Hdom, dom_insert_L. simpl. set_solver.
  - intros k [Hkn Hk]%not_elem_of_cons.
    rewrite Hframe by done. by rewrite lookup_insert_ne.
Qed.

Lemma places_seq (nodes1 nodes2 : list INodeData)
    (positions : gmap string NodePosition)
    (mid : gmap string NodePosition)
    (result : option (gmap string NodePosition)) :
  places nodes1 positions (Some mid) ->
  places nodes2 mid result ->
  places (nodes1 ++ nodes2) positions result.
Proof.
  intros (pos1 & [= <-] & Hdom1 & Hframe1) (pos' & -> & Hdom & Hframe).
  exists pos'. split_and!; [done| |].
  - rewrite Hdom, Hdom1, List.map_app, list_to_set_app_L. set_solver.
  - intros k Hk. rewrite List.map_app in Hk.
    apply not_elem_of_app in Hk as [Hk1 Hk2].
    rewrite Hframe by done. by apply Hframe1.
Qed.

Lemma place_children_places (dir : Direction) (xOf : Q -> Q) (pid : string)
    (cs : list INodeData) :
  Forall (fun c =>
            forall positions x y,
              places (placed_below c) positions
                (layoutChildBranch dimensions hs vs c positions x y dir)) cs ->
  Forall (fun c => covers dimensions (getAllNodes c)) cs ->
  forall positions yOffset,
    places (flat_map getVisibleNodes cs) positions
      (place_children dimensions vs
         (fun child positions x y =>
            layoutChildBranch dimensions hs vs child positions x y dir)
         xOf pid cs positions yOffset).
Proof.
  intros Hrec Hcov.
  induction cs as [|c cs IH]; intros positions yOffset.
  - apply places_nothing.
  - apply Forall_cons in Hrec as [Hc Hrec].
    apply Forall_cons in Hcov as [Hcc Hcov].
    simpl place_children.
    destruct (covers_self c Hcc) as [d Hd]. rewrite Hd.
    destruct (calculateNodeBranchHeight_total c Hcc) as [bh Hbh]. rewrite Hbh.
    cbn [flat_map]. rewrite getVisibleNodes_placed, <- app_comm_cons.
    match goal with
    | |- context [<[id c := ?p]> positions] => set (pc := p)
    end.
    match goal with
    | |- context [if ?b then layoutChildBranch _ _ _ c ?ps ?x ?y dir else _] =>
        assert (Hstep :
          (if b then layoutChildBranch dimensions hs vs c ps x y dir else Some ps)
          = layoutChildBranch dimensions hs vs c ps x y dir)
    end.
    { rewrite (layoutChildBranch_unfold c).
      destruct (truthy (expanded c)); [|done].
      by destruct (is_empty (children c)). }
    rewrite Hstep. clear Hstep.
    apply (places_insert_then c pc).
    destruct (Hc (<[id c := pc]> positions)
                 (xOf (inject_Z (dim_width d)))
                 (yOffset + bh / 2)%Q) as (mid & Hmid & Hdom & Hframe).
    rewrite Hmid.
    eapply places_seq.
    + exists mid. split_and!; [done|exact Hdom|exact Hframe].
    + apply IH; assumption.
Qed.

Lemma placed_below_unfold (parent : INodeData) :
  placed_below parent
  = if negb (truthy (expanded parent)) || is_empty (children parent)
    then [] else flat_map getVisibleNodes (children parent).
Proof.
  unfold placed_below. rewrite getVisibleNodes_unfold. simpl.
  destruct (truthy (expanded parent)); [|done].
  by destruct (children parent).
Qed.

Lemma layoutChildBranch_places (dir : Direction) (parent : INodeData) :
  covers dimensions (getAllNodes parent) ->
  forall positions x y,
    places (placed_below parent) positions
      (layoutChildBranch dimensions hs vs parent positions x y dir).
Proof.
  induction parent as [i tx l cs e IH] using INodeData_ind'.
  intros Hcov positions x y.
  pose proof (covers_children _ Hcov) as Hcs.
  rewrite layoutChildBranch_unfold, placed_below_unfold.
  cbn [id text level children expanded] in *.
  destruct (negb (truthy e) || is_empty cs); [apply places_nothing|].
  apply covers_self in Hcov as [d Hd]. simpl in Hd. rewrite Hd.
  destruct (calculateSubtreeHeight_total cs Hcs) as [h Hh]. rewrite Hh.
  cbv zeta. apply place_children_places; [|done].
  rewrite Forall_forall in IH, Hcs |- *. intros c Hc. apply IH; auto.
Qed.

End placing.

(** ** The position map of [calculateLayout] *)

Section whole_layout.

Import INodeData.

Lemma dimensions_cover (root : INodeData) (nw nh : Q) :
  covers (calculateNodeDimensions (getAllNodes root) nw nh) (getAllNodes root).
Proof.
  apply Forall_forall. intros n Hn. by apply calculateNodeDimensions_dom.
Qed.

Lemma visible_sublist (t : INodeData) :
  getVisibleNodes t `sublist_of` getAllNodes t.
Proof.
  induction t as [i tx l cs e IH] using INodeData_ind'.
  rewrite getVisibleNodes_unfold, getAllNodes_unfold. simpl.
  apply sublist_skip. destruct (truthy e); [|apply sublist_nil_l].
  induction IH as [|c cs Hc _ IHcs]; simpl; [constructor|].
  by apply sublist_app.
Qed.

Lemma visible_all_sublist (cs : list INodeData) :
  flat_map getVisibleNodes cs `sublist_of` flat_map getAllNodes cs.
Proof.
  induction cs as [|c cs IH]; simpl; [constructor|].
  apply sublist_app; [apply visible_sublist|exact IH].
Qed.

Lemma laid_out_sublist (dir : Direction) (root : INodeData) :
  laid_out dir root `sublist_of` getAllNodes root.
Proof.
  destruct dir; simpl; try apply visible_sublist.
  rewrite getAllNodes_unfold. apply sublist_skip, visible_all_sublist.
Qed.

Lemma laid_out_unfold (dir : Direction) (root : INodeData) :
  exists below, laid_out dir root = root :: below
                /\ below `sublist_of` flat_map getAllNodes (children root).
Proof.
  destruct dir; simpl.
  - rewrite getVisibleNodes_unfold. eexists. split; [done|].
    destruct (truthy (expanded root)); [apply visible_all_sublist|apply sublist_nil_l].
  - rewrite getVisibleNodes_unfold. eexists. split; [done|].
    destruct (truthy (expanded root)); [apply visible_all_sublist|apply sublist_nil_l].
  - eexists. split; [done|]. apply visible_all_sublist.
Qed.

Lemma layout_half_places (dimensions : gmap string Dim) (hs vs : Q)
    (dir : Direction) (xOf : Q -> Q) (pid : string)
    (half : list INodeData) (positions : gmap string NodePosition) :
  Forall (fun c => covers dimensions (getAllNodes c)) half ->
  places (flat_map getVisibleNodes half) positions
    (layout_half dimensions hs vs dir xOf pid half positions).
Proof.
  intros Hcov. unfold layout_half.
  destruct half as [|c half]; [apply places_nothing|].
  cbn [is_empty].
  destruct (calculateSubtreeHeight_total dimensions vs _ Hcov) as [h Hh].
  rewrite Hh. apply place_children_places; [|done].
  eapply Forall_impl; [exact Hcov|]. intros c' Hc' pos x y.
  by apply layoutChildBranch_places.
Qed.

(** [calculateLayout] never misses a dimension; it places the root, with
    the coordinates that the mode gives it, and the nodes that are
    [laid_out], and no other node. *)
Lemma calculateLayout_places (root : INodeData) (options : LayoutOptions) :
  let dir := default Both (direction options) in
  let dimensions :=
    calculateNodeDimensions (getAllNodes root)
      (default 100%Q (nodeWidth options)) (default 32%Q (nodeHeight options)) in
  let x0 := match dir with
            | Both => default 0%Q (centerOffset options)
            | _ => 0%Q
            end in
  exists rootDim,
    dimensions !! id root = Some rootDim
    /\ places (tail (laid_out dir root))
         (<[id root := root_position root rootDim x0]> ∅)
         (calculateLayout root options).
Proof.
  intros dir dimensions x0.
  pose proof (dimensions_cover root (default 100%Q (nodeWidth options))
                (default 32%Q (nodeHeight options))) as Hcov.
  fold dimensions in Hcov.
  destruct (covers_self _ _ Hcov) as [rootDim Hd].
  exists rootDim. split; [done|].
  pose proof (covers_children _ _ Hcov) as Hcs.
  unfold calculateLayout. fold dir. fold dimensions.
  destruct dir eqn:Hdir; subst x0; cbn [laid_out].
  - unfold calculateSingleDirectionLayout. rewrite Hd.
    rewrite getVisibleNodes_placed. cbn [tail].
    by apply layoutChildBranch_places.
  - unfold calculateSingleDirectionLayout. rewrite Hd.
    rewrite getVisibleNodes_placed. cbn [tail].
    by apply layoutChildBranch_places.
  - unfold calculateBothDirectionLayout. rewrite Hd. cbn [tail].
    destruct (children root) as [|c cs] eqn:Hchildren.
    { apply places_nothing. }
    cbn [is_empty]. rewrite <- Hchildren in *.
    set (n := Nat.div2 (S (length (children root)))).
    rewrite <- (take_drop n (children root)) at 1.
    rewrite flat_map_app.
    assert (Hl : Forall (fun c => covers dimensions (getAllNodes c))
                   (take n (children root))).
    { rewrite <- (take_drop n (children root)) in Hcs.
      by apply Forall_app in Hcs as [? _]. }
    assert (Hr : Forall (fun c => covers dimensions (getAllNodes c))
                   (drop n (children root))).
    { rewrite <- (take_drop n (children root)) in Hcs.
      by apply Forall_app in Hcs as [_ ?]. }
    cbv zeta.
    match goal with
    | |- context [layout_half ?dm ?h ?v Left ?xOf ?pid ?half ?ps] =>
        destruct (layout_half_places dm h v Left xOf pid half ps Hl)
          as (mid & Hmid & Hdom & Hframe)
    end.
    rewrite Hmid.
    eapply places_seq.
    + exists mid. split_and!; [done|exact Hdom|exact Hframe].
    + by apply layout_half_places.
Qed.

End whole_layout.

(** ** Which nodes are placed, and where the root is *)

Section keys_and_root.

Import INodeData.

Local Open Scope Q_scope.

(** The keys of the position map. *)
Lemma layout_keys (root : INodeData) (options : LayoutOptions) :
  exists positions,
    calculateLayout root options = Some positions
    /\ dom positions
       = list_to_set (map id (laid_out (default Both (direction options)) root)).
Proof.
  destruct (calculateLayout_places root options)
    as (rootDim & _ & positions & Hlayout & Hdom & _).
  exists positions. split; [done|].
  destruct (laid_out_unfold (default Both (direction options)) root)
    as (below & Hlaid & _).
  rewrite Hdom, Hlaid, dom_insert_L. simpl. set_solver.
Qed.

(** In a single direction, and in the mode ['both'] under an expanded root,
    the placed nodes are the visible nodes. *)
Lemma layout_keys_visible (root : INodeData) (options : LayoutOptions) :
  default Both (direction options) <> Both \/ truthy (expanded root) = true ->
  exists positions,
    calculateLayout root options = Some positions
    /\ dom positions = list_to_set (map id (getVisibleNodes root)).
Proof.
  intros Hmode.
  destruct (layout_keys root options) as (positions & Hlayout & Hdom).
  exists positions. split; [done|]. rewrite Hdom.
  destruct (default Both (direction options)); simpl; try done.
  destruct Hmode as [?|Hexp]; [done|].
  rewrite (getVisibleNodes_unfold root), Hexp. reflexivity.
Qed.

(** C1 under a collapsed root, in the mode ['both'] (the default).  The only
    visible node of the tree is its root, and the position map has an entry
    for the child of the root all the same; in the mode ['right'] it has
    not. *)
Theorem C1_collapsed_root_in_both_mode :
  getVisibleNodes Examples.collapsed_root = [Examples.collapsed_root]
  /\ (exists positions,
        calculateLayout Examples.collapsed_root Examples.no_options
        = Some positions
        /\ dom positions = {[ "root"; "node-0" ]}
        /\ is_Some (positions !! "node-0"))
  /\ (exists positions,
        calculateLayout Examples.collapsed_root
          (Examples.with_direction Right 0) = Some positions
        /\ dom positions = {[ "root" ]}).
Proof.
  split_and!.
  - reflexivity.
  - destruct (layout_keys Examples.collapsed_root Examples.no_options)
      as (positions & Hlayout & Hdom).
    exists positions. simpl in Hdom.
    assert (Hdom' : dom positions = {[ "root"; "node-0" ]}).
    { rewrite Hdom. set_solver. }
    split_and!; [done|done|].
    apply elem_of_dom. rewrite Hdom'. set_solver.
  - destruct (layout_keys Examples.collapsed_root (Examples.with_direction Right 0))
      as (positions & Hlayout & Hdom).
    exists positions. split; [done|]. rewrite Hdom. simpl. set_solver.
Qed.

Lemma root_not_below (dir : Direction) (root : INodeData) :
  NoDup (map id (getAllNodes root)) ->
  id root ∉ map id (tail (laid_out dir root)).
Proof.
  intros Hnd. rewrite getAllNodes_unfold in Hnd. simpl in Hnd.
  apply NoDup_cons in Hnd as [Hroot _].
  destruct (laid_out_unfold dir root) as (below & -> & Hsub). simpl.
  intros Hin. apply Hroot.
  eapply elem_of_sublist; [exact Hin|].
  by apply fmap_sublist.
Qed.

(** The claim C2 as it is stated, in the mode ['right'] with a centre
    offset of 50: the root is at 0. *)
Lemma C2_single_direction_ignores_offset :
  exists positions p,
    calculateLayout Examples.lone_root (Examples.with_direction Right 50)
    = Some positions
    /\ positions !! "root" = Some p
    /\ ~ NodePosition.x p == 50.
Proof.
  eexists _, _. split_and!.
  - vm_compute. reflexivity.
  - vm_compute. reflexivity.
  - vm_compute. discriminate.
Qed.

(** C2, amended.  In a tree whose identifiers are distinct, the entry of the
    root in the position map of [calculateLayout] has the coordinates
    [(centerOffset, 0)] in the mode ['both'] and [(0, 0)] in the modes
    ['left'] and ['right'], which do not use the centre offset. *)
Theorem C2_root_position (root : INodeData) (options : LayoutOptions) :
  NoDup (map id (getAllNodes root)) ->
  exists positions p,
    calculateLayout root options = Some positions
    /\ positions !! id root = Some p
    /\ NodePosition.y p = 0
    /\ NodePosition.x p
       = match default Both (direction options) with
         | Both => default 0 (centerOffset options)
         | _ => 0
         end.
Proof.
  intros Hnd.
  destruct (calculateLayout_places root options)
    as (rootDim & _ & positions & Hlayout & _ & Hframe).
  eexists positions, _. split_and!.
  - done.
  - rewrite Hframe by (by apply root_not_below).
    apply lookup_insert_eq.
  - reflexivity.
  - reflexivity.
Qed.

Lemma C2_root_position_witness :
  exists positions p,
    calculateLayout Examples.one_child_root (Examples.with_direction Both 50)
    = Some positions
    /\ positions !! "root" = Some p
    /\ NodePosition.y p = 0 /\ NodePosition.x p = 50.
Proof.
  apply (C2_root_position Examples.one_child_root
           (Examples.with_direction Both 50)).
  vm_compute. repeat constructor; set_solver.
Defined.

End keys_and_root.

(** ** The anchor line of a group of siblings *)

Section anchors.

Import INodeData.

Lemma visible_child (t q c : INodeData) :
  q ∈ getVisibleNodes t -> truthy (expanded q) = true -> c ∈ children q ->
  c ∈ getVisibleNodes t.
Proof.
  induction t as [i tx l cs e IH] using INodeData_ind'.
  rewrite getVisibleNodes_unfold. cbn [children expanded].
  intros [->|Hq]%elem_of_cons Hexp Hc.
  - right. cbn [expanded children] in *. rewrite Hexp.
    apply elem_of_flat_map. exists c. split; [done|].
    rewrite getVisibleNodes_unfold. left.
  - right. destruct (truthy e); [|by apply elem_of_nil in Hq].
    apply elem_of_flat_map in Hq as (c0 & Hc0 & Hq).
    apply elem_of_flat_map. exists c0. split; [done|].
    rewrite Forall_forall in IH. by apply IH.
Qed.

End anchors.

(** ** The anchor lines of a whole layout *)

Section anchor_lines.

Import INodeData.

Local Open Scope Q_scope.

Lemma visible_self (c : INodeData) : c ∈ getVisibleNodes c.
Proof. rewrite getVisibleNodes_unfold. left. Qed.

(** The claim C5 as it is stated, at an expanded root with one child in the
    mode ['both']: the child is laid out on the left, and its right edge is
    not on the line at [0.8 * 0.6] of the horizontal spacing from the left
    edge of the root. *)
Lemma C5_root_gap_in_both_mode :
  exists positions pp pc,
    calculateLayout Examples.one_child_root Examples.no_options = Some positions
    /\ positions !! "root" = Some pp
    /\ positions !! "node-0" = Some pc
    /\ ~ NodePosition.x pc + NodePosition.width pc / 2
         == NodePosition.x pp - (NodePosition.width pp / 2 + 140 * 0.8 * 0.6).
Proof.
  eexists _, _, _. split_and!.
  - vm_compute. reflexivity.
  - vm_compute. reflexivity.
  - vm_compute. reflexivity.
  - vm_compute. discriminate.
Qed.

End anchor_lines.

(** ** A worked estimation pass *)

Section estimation_example.

Import INodeData.

Lemma C9_wider_is_not_lower_witness :
  let a := Examples.leaf "node-0" "a long label that is wider than the other" 1 in
  let b := Examples.leaf "node-1" "short" 1 in
  exists da db,
    calculateNodeDimensions [a; b] 100 32 !! id a = Some da
    /\ calculateNodeDimensions [a; b] 100 32 !! id b = Some db
    /\ (dim_width db < dim_width da)%Z
    /\ (dim_height db <= dim_height da)%Z.
Proof.
  intros a b.
  assert (Hda : calculateNodeDimensions [a; b] 100 32 !! id a
                = Some {| dim_width := 438; dim_height := 58 |})
    by (vm_compute; reflexivity).
  assert (Hdb : calculateNodeDimensions [a; b] 100 32 !! id b
                = Some {| dim_width := 78; dim_height := 36 |})
    by (vm_compute; reflexivity).
  eexists _, _. split_and!; [exact Hda|exact Hdb|simpl; lia|].
  assert (Hnd : NoDup (map id [a; b])).
  { vm_compute. repeat constructor; set_solver. }
  apply (C9_wider_is_not_lower [a; b] 100 32 a b _ _ Hnd);
    [left|right; left|discriminate|discriminate|reflexivity
    |exact Hda|exact Hdb|simpl; lia].
Defined.

End estimation_example.

(** ** Worked layouts *)

Section worked_layouts.

Local Open Scope Q_scope.

(** Two children of the same size in the mode ['both']: one on each side of
    the root, both at the height of the root. *)
Example layout_both_two_children :
  let result := calculateLayout Examples.two_children_root Examples.no_options in
  Examples.coordinates "root" result = Some (0, 0)
  /\ Examples.coordinates "node-0" result = Some (-158 # 1, 0)
  /\ Examples.coordinates "node-1" result = Some (158 # 1, 0).
Proof. vm_compute. done. Qed.

(** A chain to the right: the gap is [0.8 * 0.6] of the spacing under the
    root and under the node of level 1, and [0.6] of it under the node of
    level 2. *)
Example layout_right_chain :
  let result := calculateLayout Examples.chain_root
                  (Examples.with_direction Right 0) in
  Examples.coordinates "node-0" result = Some (Qred 155.2, 0)
  /\ Examples.coordinates "node-1" result = Some (Qred 282.4, 0)
  /\ Examples.coordinates "node-2" result = Some (Qred 426.4, 0).
Proof. vm_compute. done. Qed.

(** Widths of 200 and of 500 add 1 and 29 to the base height. *)
Example extraHeight_200_500 : extraHeight 200 = 1%Z /\ extraHeight 500 = 29%Z.
Proof. split; reflexivity. Qed.

End worked_layouts.

(** ** Visible nodes *)

Section visible_nodes.

Import INodeData.

Lemma below_expanded_trans (t c n : INodeData) :
  below_expanded t c -> below_expanded c n -> below_expanded t n.
Proof.
  intros Htc Hcn. induction Hcn as [|q c' Hq IH Hexp Hc']; [done|].
  by eapply below_child.
Qed.

(** [getVisibleNodes] lists the nodes all of whose proper ancestors are
    expanded. *)
Lemma getVisibleNodes_below_expanded (t n : INodeData) :
  n ∈ getVisibleNodes t <-> below_expanded t n.
Proof.
  split.
  - revert n. induction t as [i tx l cs e IH] using INodeData_ind'. intros n.
    rewrite getVisibleNodes_unfold. cbn [children expanded].
    intros [->|Hn]%elem_of_cons; [constructor|].
    destruct (truthy e) eqn:He; [|by apply elem_of_nil in Hn].
    apply elem_of_flat_map in Hn as (c & Hc & Hn).
    rewrite Forall_forall in IH.
    eapply below_expanded_trans; [|by apply IH].
    by eapply below_child; [constructor| |].
  - induction 1 as [|q c Hq IH Hexp Hc].
    + rewrite getVisibleNodes_unfold. left.
    + by eapply visible_child.
Qed.

End visible_nodes.

(** ** Texts without white space at the ends *)

Section clean_texts.

Lemma drop_while_head {A} (p : A -> bool) (l : list A) :
  match drop_while p l with x :: _ => p x = false | [] => True end.
Proof.
  induction l as [|x l IH]; simpl; [done|].
  destruct (p x) eqn:Hx; [done|]. exact Hx.
Qed.

Lemma drop_while_fixed {A} (p : A -> bool) (l : list A) :
  match l with x :: _ => p x = false | [] => True end -> drop_while p l = l.
Proof. destruct l as [|x l]; simpl; [done|]. by intros ->. Qed.

Lemma drop_while_suffix {A} (p : A -> bool) (l : list A) :
  exists pre, l = pre ++ drop_while p l.
Proof.
  induction l as [|x l [pre IH]]; [by exists []|]. simpl.
  destruct (p x); [|by exists []].
  exists (x :: pre). simpl. by f_equal.
Qed.

Lemma trim_ends (s : jsstr) :
  starts_clean (trim s) /\ starts_clean (rev (trim s)).
Proof.
  unfold trim.
  set (a := drop_while is_ws s). set (b := drop_while is_ws (rev a)).
  split.
  - pose proof (drop_while_head is_ws s) as Ha. fold a in Ha.
    destruct (drop_while_suffix is_ws (rev a)) as [pre Hpre]. fold b in Hpre.
    assert (Ha' : a = rev b ++ rev pre).
    { rewrite <- rev_app_distr, <- Hpre. by rewrite rev_involutive. }
    destruct (rev b) as [|c r] eqn:Hb; [done|].
    rewrite Ha' in Ha. exact Ha.
  - rewrite rev_involutive. apply (drop_while_head is_ws (rev a)).
Qed.

Lemma trim_fixed (s : jsstr) :
  starts_clean s -> starts_clean (rev s) -> trim s = s.
Proof.
  intros H1 H2. unfold trim.
  rewrite (drop_while_fixed is_ws s) by exact H1.
  rewrite (drop_while_fixed is_ws (rev s)) by exact H2.
  apply rev_involutive.
Qed.

Lemma trim_clean (s : jsstr) : trim s <> [] -> clean_text (trim s).
Proof.
  intros Hne. split; [done|]. destruct (trim_ends s). by apply trim_fixed.
Qed.

Lemma strip_trailing_dash_clean (s : jsstr) :
  starts_clean s -> starts_clean (rev s) ->
  strip_trailing_dash s <> [] -> clean_text (strip_trailing_dash s).
Proof.
  intros H1 H2. unfold strip_trailing_dash.
  rewrite (drop_while_fixed is_ws (rev s)) by exact H2.
  destruct (rev s) as [|c r] eqn:Hr.
  { intros Hne. split; [done|]. apply trim_fixed; [done|by rewrite Hr]. }
  destruct (c =? 45)%N.
  2:{ intros Hne. split; [done|]. apply trim_fixed; [done|by rewrite Hr]. }
  intros Hne. split; [done|]. apply trim_fixed.
  - destruct (drop_while_suffix is_ws r) as [pre Hpre].
    assert (Hs : s = rev (drop_while is_ws r) ++ rev pre ++ [c]).
    { rewrite <- (rev_involutive s), Hr. simpl. rewrite Hpre at 1.
      by rewrite rev_app_distr, <- app_assoc. }
    destruct (rev (drop_while is_ws r)) as [|x l]; [done|].
    rewrite Hs in H1. exact H1.
  - rewrite rev_involutive. apply drop_while_head.
Qed.

Lemma heading_of_clean (line : jsstr) (k : nat) (text : jsstr) :
  heading_of line = Some (k, text) -> text <> [] -> clean_text text.
Proof.
  unfold heading_of.
  destruct (match_heading (trim line)) as [[k' body]|]; [|done].
  intros [= _ <-]. destruct (trim_ends body).
  by apply strip_trailing_dash_clean.
Qed.

Lemma find_root_text_clean (lines : list jsstr) (text : jsstr) :
  find_root_text lines = Some text -> clean_text text.
Proof.
  induction lines as [|l lines IH]; simpl; [done|].
  destruct (is_empty (trim l)); [done|].
  destruct (heading_of l) as [[k tx]|] eqn:Hh; [|done].
  destruct (is_empty tx) eqn:He; [done|].
  intros [= <-]. eapply heading_of_clean; [done|]. by destruct tx.
Qed.

Lemma default_text_clean : clean_text default_text.
Proof. split; [done|reflexivity]. Qed.

End clean_texts.

(** ** The levels along the main loop *)

Section levels.

Import INodeData.

Lemma step_cases (s : State) (line : jsstr) :
  invariant s ->
  step s line = Some s
  \/ (exists k, step s line = Some (root_consumed s k))
  \/ (exists s', step s line = Some s' /\ pushes s s').
Proof.
  intros Hinv.
  assert (Hemit : forall text lvl base,
             1 <= lvl -> clean_text text ->
             exists s', emit s text lvl base = Some s' /\ pushes s s').
  { intros text lvl base Hlvl Htext.
    destruct (emit_pushed s text lvl base Hinv Hlvl)
      as (popped & kept & p & below & pc & Hst & _ & _ & Hpop & Hp & Hpc & He).
    eexists. split; [exact He|].
    by exists text, lvl, base, popped, p, below, pc. }
  unfold step.
  destruct (is_empty (trim line)) eqn:Hblank; [by left|].
  apply is_empty_false in Hblank.
  destruct (heading_of line) as [[k text]|] eqn:Hh.
  - destruct (is_empty text) eqn:Htext; [by left|].
    apply is_empty_false in Htext.
    destruct (isFirstHeading s); [right; left; by exists k|].
    right. right. apply Hemit.
    + by apply heading_of_level in Hh as [? _].
    + by eapply heading_of_clean.
  - destruct (match_list (trim line)) as [body|].
    + destruct (is_empty (trim body)) eqn:Hbody; [by left|].
      apply is_empty_false in Hbody.
      right. right. apply Hemit; [lia|by apply trim_clean].
    + destruct (negb (starts_with 35 (trim line))
                && negb (starts_with 45 (trim line))
                && negb (starts_with 42 (trim line))); [|by left].
      destruct (0 <? calculateIndentLevel line) eqn:Hind; [|by left].
      apply Nat.ltb_lt in Hind.
      right. right. apply Hemit; [lia|by apply trim_clean].
Qed.

Lemma lookup_pushed (s : State) (text : jsstr) (lvl base : nat)
    (p : Entry) (below : list Entry) (i : nat) :
  heap (pushed s text lvl base p below) !! i
  = if decide (i = length (heap s))
    then Some (new_cell text lvl (nodeIdCounter s))
    else (fun c => if decide (i = node p)
                   then push_child (length (heap s)) c else c) <$> heap s !! i.
Proof.
  cbn [pushed heap]. destruct (decide (i = length (heap s))) as [->|Hne].
  - rewrite lookup_app_r by (by rewrite length_alter).
    by rewrite length_alter, Nat.sub_diag.
  - destruct (decide (i < length (heap s))) as [Hlt|Hge].
    + rewrite lookup_app_l by (by rewrite length_alter).
      apply lookup_alter_push.
    + rewrite (lookup_ge_None_2 (heap s)) by lia.
      apply lookup_ge_None_2. rewrite length_app, length_alter. simpl. lia.
Qed.

Lemma omap_cons_eq {A B} (f : A -> option B) (x : A) (l : list A) :
  omap f (x :: l)
  = match f x with Some y => y :: omap f l | None => omap f l end.
Proof. reflexivity. Qed.

Lemma child_levels_extends (h h' : list Cell) (c : Cell) :
  heap_extends h h' ->
  Forall (fun j => is_Some (h !! j)) (cell_children c) ->
  child_levels h' c = child_levels h c.
Proof.
  intros Hext. unfold child_levels.
  induction (cell_children c) as [|j js IH]; [done|].
  intros [[cj Hj] Hjs]%Forall_cons.
  destruct (Hext j cj Hj) as (cj' & Hj' & Hinfo & _).
  rewrite !omap_cons_eq, Hj, Hj'. simpl. rewrite (IH Hjs). f_equal.
  unfold cell_info in Hinfo. congruence.
Qed.

Lemma linked_cons (h : list Cell) (a b : Entry) (st : list Entry) :
  linked h (a :: b :: st)
  <-> (exists cb, h !! node b = Some cb
                  /\ last (cell_children cb) = Some (node a))
      /\ linked h (b :: st).
Proof. reflexivity. Qed.

Lemma linked_suffix (h : list Cell) (above st : list Entry) :
  linked h (above ++ st) -> linked h st.
Proof.
  induction above as [|a above IH]; [done|].
  simpl. destruct (above ++ st) eqn:Heq; [|by intros [_ ?]; apply IH].
  by apply app_eq_nil in Heq as [-> ->].
Qed.

Lemma linked_last_child (h : list Cell) (above : list Entry)
    (a p : Entry) (below : list Entry) :
  linked h (above ++ a :: p :: below) ->
  exists cb, h !! node p = Some cb /\ last (cell_children cb) = Some (node a).
Proof.
  intros H. apply linked_suffix in H. by destruct H.
Qed.

Lemma linked_transfer (h h' : list Cell) (st : list Entry) :
  linked h st ->
  Forall (fun b => h' !! node b = h !! node b) (tail st) ->
  linked h' st.
Proof.
  induction st as [|a [|b st] IH]; [done|done|].
  intros [(cb & Hb & Hlast) Hrest] [Hb' Htl]%Forall_cons.
  split; [exists cb; by rewrite Hb'|]. apply IH; [done|]. exact Htl.
Qed.

Lemma info_level (c c' : Cell) :
  cell_info c' = cell_info c -> cell_level c' = cell_level c.
Proof. unfold cell_info. congruence. Qed.

Lemma StronglySorted_snoc_ge (l : list nat) (x y : nat) :
  StronglySorted ge (l ++ [x]) -> y <= x -> StronglySorted ge ((l ++ [x]) ++ [y]).
Proof.
  intros Hs Hy. apply StronglySorted_app. split_and!.
  - intros a b Ha ->%list_elem_of_singleton.
    apply elem_of_app in Ha as [Ha| ->%list_elem_of_singleton]; [|lia].
    assert (a >= x); [|lia].
    eapply (StronglySorted_app_1_elem_of ge l [x]); [done|done|by left].
  - done.
  - repeat constructor.
Qed.

Lemma pushed_levels (s : State) (text : jsstr) (lvl base : nat)
    (popped : list Entry) (p : Entry) (below : list Entry) (pc : Cell) :
  invariant s -> levels_invariant s ->
  1 <= lvl -> clean_text text ->
  stack s = popped ++ p :: below ->
  Forall (fun e => lvl <= minLevel e) popped ->
  minLevel p < lvl ->
  heap s !! node p = Some pc ->
  levels_invariant (pushed s text lvl base p below).
Proof.
  intros Hinv [Hcells Hchildren Hsorted Hstack Horder Htop Hlinked]
         Hlvl Htext Hst Hpopped Hp Hpc.
  set (s' := pushed s text lvl base p below).
  pose proof (pushed_extends s text lvl base p below) as Hext. fold s' in Hext.
  pose proof (inv_refs s Hinv) as Hrefs.
  assert (Hlook : forall i,
             heap s' !! i
             = if decide (i = length (heap s))
               then Some (new_cell text lvl (nodeIdCounter s))
               else (fun c => if decide (i = node p)
                              then push_child (length (heap s)) c else c)
                    <$> heap s !! i).
  { intros i. apply lookup_pushed. }
  assert (Hstack' : stack s'
                    = {| node := length (heap s); minLevel := lvl |} :: p :: below)
    by reflexivity.
  clearbody s'.
  assert (Hnew : heap s' !! length (heap s)
                 = Some (new_cell text lvl (nodeIdCounter s))).
  { rewrite Hlook. by rewrite decide_True. }
  assert (Hplvl : cell_level pc = minLevel p).
  { rewrite Hst in Hstack. apply Forall_app in Hstack as [_ Hstack].
    apply Forall_inv in Hstack as (c & Hc & Hl). congruence. }
  assert (Hold : forall i c, heap s' !! i = Some c -> i <> length (heap s) ->
             exists c0, heap s !! i = Some c0 /\ cell_info c = cell_info c0
                        /\ cell_children c
                           = cell_children c0
                             ++ (if decide (i = node p) then [length (heap s)] else [])).
  { intros i c Hi Hne. rewrite Hlook in Hi.
    rewrite decide_False in Hi by done.
    destruct (heap s !! i) as [c0|]; [|done]. simpl in Hi.
    injection Hi as <-. exists c0. split; [done|].
    destruct (decide (i = node p)); simpl; [done|by rewrite app_nil_r]. }
  assert (Hvalid : forall i c, heap s !! i = Some c ->
             Forall (fun j => is_Some (heap s !! j)) (cell_children c)).
  { intros i c Hi. eapply Forall_impl; [by eapply Hchildren|].
    simpl. intros j (cj & Hj & _). by exists cj. }
  constructor.
  - intros i c Hi.
    destruct (decide (S i = length (heap s))) as [Heq|Hne].
    + rewrite Heq, Hnew in Hi. injection Hi as <-. simpl. by split_and!.
    + destruct (Hold _ _ Hi Hne) as (c0 & Hc0 & Hinfo & _).
      destruct (Hcells i c0 Hc0) as (He & Hl & Ht).
      unfold cell_info in Hinfo. injection Hinfo as _ Htx Hlv Hex.
      by rewrite Hex, Hlv, Htx.
  - intros i c Hi.
    destruct (decide (i = length (heap s))) as [Heq|Hne].
    + rewrite Heq, Hnew in Hi. injection Hi as <-. simpl. constructor.
    + destruct (Hold _ _ Hi Hne) as (c0 & Hc0 & Hinfo & Hcs).
      rewrite Hcs. apply Forall_app. split.
      * eapply Forall_impl; [by eapply Hchildren|].
        simpl. intros j (cj & Hj & Hlt).
        destruct (Hext j cj Hj) as (cj' & Hj' & Hinfo' & _).
        exists cj'. split; [done|].
        rewrite (info_level _ _ Hinfo), (info_level _ _ Hinfo'). done.
      * destruct (decide (i = node p)) as [->|]; [|constructor].
        constructor; [|constructor].
        eexists. split; [exact Hnew|]. simpl.
        rewrite (info_level _ _ Hinfo).
        assert (c0 = pc) as -> by congruence. lia.
  - intros i c Hi.
    destruct (decide (i = length (heap s))) as [Heq|Hne].
    + rewrite Heq, Hnew in Hi. injection Hi as <-. constructor.
    + destruct (Hold _ _ Hi Hne) as (c0 & Hc0 & Hinfo & Hcs).
      unfold child_levels. rewrite Hcs, omap_app.
      fold (child_levels (heap s') c0).
      rewrite (child_levels_extends _ _ _ Hext (Hvalid _ _ Hc0)).
      destruct (decide (i = node p)) as [->|].
      2:{ change (omap _ []) with (@nil nat). rewrite app_nil_r.
          by eapply Hsorted. }
      assert (c0 = pc) as -> by congruence.
      rewrite omap_cons_eq, Hnew.
      change (omap _ []) with (@nil nat).
      cbn [fmap option_fmap option_map new_cell cell_level].
      pose proof (Hsorted _ _ Hpc) as Hs.
      destruct (last (cell_children pc)) as [r|] eqn:Hlast.
      2:{ apply last_None in Hlast. unfold child_levels. rewrite Hlast. simpl.
          repeat constructor. }
      destruct (decide (popped = [])) as [->|Hpop].
      { destruct (Htop p) as (ct & Hct & Hnil); [by rewrite Hst|].
        assert (ct = pc) as -> by congruence. by rewrite Hnil in Hlast. }
      apply last_is_Some in Hpop as [a Ha]. apply last_Some in Ha as [above ->].
      rewrite Hst, <- app_assoc in Hlinked. simpl in Hlinked.
      apply linked_last_child in Hlinked as (cb & Hcb & Hlast').
      assert (cb = pc) as -> by congruence.
      assert (r = node a) as -> by congruence.
      apply last_Some in Hlast as [cs' Hcs'].
      assert (Ha : exists ca, heap s !! node a = Some ca /\ lvl <= cell_level ca).
      { rewrite Hst in Hstack. apply Forall_app in Hstack as [Hstack _].
        apply Forall_app in Hstack as [_ Hstack].
        apply Forall_inv in Hstack as (ca & Hca & Hl).
        apply Forall_app in Hpopped as [_ Hpopped].
        apply Forall_inv in Hpopped. exists ca. split; [done|lia]. }
      destruct Ha as (ca & Hca & Hla).
      unfold child_levels in *. rewrite Hcs', omap_app in *. simpl in *.
      rewrite Hca in *. simpl in *.
      by apply StronglySorted_snoc_ge.
  - rewrite Hstack'. constructor.
    + eexists. split; [exact Hnew|done].
    + rewrite Hst in Hstack. apply Forall_app in Hstack as [_ Hstack].
      eapply Forall_impl; [exact Hstack|].
      simpl. intros e (c & Hc & Hl).
      destruct (Hext _ _ Hc) as (c' & Hc' & Hinfo & _).
      exists c'. split; [done|]. by rewrite (info_level _ _ Hinfo).
  - rewrite Hstack'. constructor.
    + rewrite Hst in Horder. by apply StronglySorted_app_1_r in Horder.
    + rewrite Hst in Hrefs. apply Forall_app in Hrefs as [_ Hrefs].
      eapply Forall_impl; [exact Hrefs|]. simpl. intros; lia.
  - rewrite Hstack'. intros e [= <-]. simpl.
    eexists. split; [exact Hnew|done].
  - rewrite Hstack'. apply linked_cons. split.
    + exists (push_child (length (heap s)) pc). split.
      * cbn [node]. rewrite Hlook.
        rewrite decide_False.
        2:{ apply lookup_lt_Some in Hpc. lia. }
        rewrite Hpc. simpl. by rewrite decide_True.
      * simpl. apply last_snoc.
    + rewrite Hst in Hlinked. apply linked_suffix in Hlinked.
      eapply linked_transfer; [exact Hlinked|]. simpl.
      rewrite Hst in Horder. apply StronglySorted_app_1_r in Horder.
      apply StronglySorted_cons in Horder as [Hlt _].
      rewrite Hst in Hrefs. apply Forall_app in Hrefs as [_ Hrefs].
      apply Forall_cons in Hrefs as [_ Hrefs].
      apply Forall_forall. intros b Hb.
      rewrite Forall_forall in Hlt, Hrefs.
      specialize (Hlt b Hb). specialize (Hrefs b Hb). simpl in Hlt.
      rewrite Hlook.
      rewrite decide_False by lia.
      destruct (heap s !! node b); [|done]. simpl.
      rewrite decide_False by lia. done.
Qed.

Lemma init_levels (lines : list jsstr) : levels_invariant (init lines).
Proof.
  constructor; simpl.
  - intros i c Hi. by destruct i.
  - intros [|i] c [= <-]; constructor.
  - intros [|i] c [= <-]; constructor.
  - repeat constructor. by eexists.
  - repeat constructor.
  - intros e [= <-]. by eexists.
  - done.
Qed.

Lemma root_consumed_levels (s : State) (k : nat) :
  levels_invariant s -> levels_invariant (root_consumed s k).
Proof. intros [? ? ? ? ? ? ?]. by constructor. Qed.

Lemma run_levels (s s' : State) (lines : list jsstr) :
  invariant s -> levels_invariant s -> run s lines = Some s' ->
  levels_invariant s'.
Proof.
  revert s. induction lines as [|l lines IH]; intros s Hinv Hlv; simpl.
  { by intros [= <-]. }
  destruct (step_invariant s l Hinv) as (s1 & Hstep & Hinv1 & _).
  rewrite Hstep. apply IH; [done|].
  destruct (step_cases s l Hinv)
    as [Hs|[[k Hs]|(s2 & Hs & text & lvl & base & popped & p & below & pc
                    & Hlvl & Htext & Hst & Hpop & Hp & Hpc & ->)]].
  - by assert (s1 = s) as -> by congruence.
  - assert (s1 = root_consumed s k) as -> by congruence.
    by apply root_consumed_levels.
  - assert (s1 = pushed s text lvl base p below) as -> by congruence.
    by eapply pushed_levels.
Qed.

Lemma parse_levels (lines : list jsstr) (s : State) :
  parse_lines lines = Some s -> levels_invariant s.
Proof.
  intros Hparse.
  eapply run_levels; [apply init_invariant|apply init_levels|exact Hparse].
Qed.

Lemma tree_of_root_info (fuel : nat) (h : list Cell) (r : nat) (t : INodeData) :
  tree_of fuel h r = Some t ->
  exists c, h !! r = Some c /\ node_info t = cell_info c.
Proof.
  destruct fuel as [|fuel]; [done|]. rewrite tree_of_S.
  destruct (h !! r) as [c|]; [|done].
  destruct (mapM _ _); [|done]. intros [= <-]. by exists c.
Qed.

(** Each node of the tree of a heap is the value of one cell, child by
    child. *)
Lemma tree_of_nodes (h : list Cell) (fuel : nat) (r : nat) (t q : INodeData) :
  tree_of fuel h r = Some t -> q ∈ getAllNodes t ->
  exists i c,
    h !! i = Some c /\ node_info q = cell_info c
    /\ Forall2 (fun j q' => exists cj, h !! j = Some cj
                                       /\ node_info q' = cell_info cj)
               (cell_children c) (children q).
Proof.
  revert r t. induction fuel as [|fuel IH]; intros r t Ht Hq; [done|].
  rewrite tree_of_S in Ht.
  destruct (h !! r) as [c|] eqn:Hr; [|done].
  destruct (mapM (tree_of fuel h) (cell_children c)) as [cs|] eqn:Hcs; [|done].
  injection Ht as <-. apply mapM_Some in Hcs.
  rewrite getAllNodes_unfold in Hq. cbn [children] in Hq.
  apply elem_of_cons in Hq as [->|Hq].
  - exists r, c. split_and!; [done|done|]. cbn [children].
    eapply Forall2_impl; [exact Hcs|].
    intros j q' Hj. exact (tree_of_root_info _ _ _ _ Hj).
  - apply elem_of_flat_map in Hq as (c' & Hc' & Hq).
    apply list_elem_of_lookup in Hc' as [n Hn].
    destruct (Forall2_lookup_r _ _ _ _ _ Hcs Hn) as (j & _ & Hj).
    by eapply IH.
Qed.

End levels.

(** ** The outline that the parser returns *)

Section parsed_outline.

Import INodeData.

(** X1: [parseMarkdown] returns on every input, and what it returns is a
    node with the identifier ['root'], level 0 and [expanded: true]; its text
    is that of the first heading line with a text and, when no line matches
    the heading pattern, the default centre topic. *)
Theorem parseMarkdown_root (markdown : jsstr) :
  exists t,
    parseMarkdown markdown = Some t
    /\ id t = "root" /\ level t = 0 /\ expanded t = Some true
    /\ text t = default default_text (find_root_text (split_lines markdown))
    /\ (Forall (fun l => match_heading (trim l) = None) (split_lines markdown) ->
        text t = default_text).
Proof.
  destruct (parseMarkdown_total markdown) as (s & t & _ & _ & Hp & _ & Hroot).
  exists t. unfold node_info in Hroot. injection Hroot as Hid Htx Hlv Hex.
  split_and!; try done.
  intros Hnone. rewrite Htx, find_root_text_none; [done|].
  eapply Forall_impl; [exact Hnone|]. simpl. intros l Hl.
  unfold titled_heading, heading_of. by rewrite Hl.
Qed.

(** The nodes below the root of a parsed tree. *)
Lemma parsed_below_root (markdown : jsstr) (t q : INodeData) :
  parseMarkdown markdown = Some t ->
  q ∈ tail (getAllNodes t) ->
  clean_text (text q) /\ expanded q = Some false /\ 1 <= level q
  /\ id q <> "root".
Proof.
  intros Hp Hq.
  destruct (parseMarkdown_total markdown) as (s & t' & Hparse & Hinv & Hp' & Hinfo & Hroot).
  assert (t' = t) as -> by congruence.
  pose proof (parse_levels _ _ Hparse) as Hlv.
  assert (Htail : exists i c, heap s !! S i = Some c /\ node_info q = cell_info c).
  { rewrite getAllNodes_unfold in Hinfo, Hq.
    destruct (heap s) as [|c0 h]; [done|].
    simpl in Hinfo, Hq. apply (f_equal tail) in Hinfo. simpl in Hinfo.
    apply list_elem_of_lookup in Hq as [i Hi].
    pose proof (f_equal (fun l => l !! i) Hinfo) as Hl. simpl in Hl.
    change (map node_info ?l) with (node_info <$> l) in Hl.
    change (map cell_info ?l) with (cell_info <$> l) in Hl.
    rewrite !list_lookup_fmap, Hi in Hl. simpl in Hl.
    destruct (h !! i) as [c|] eqn:Hc; [|done].
    apply (inj Some) in Hl. by exists i, c. }
  destruct Htail as (i & c & Hc & Hqc).
  destruct (lv_cells s Hlv i c Hc) as (He & Hl & Ht).
  unfold node_info, cell_info in Hqc. injection Hqc as Hid Htx Hlvl Hex.
  rewrite Htx, Hex, Hlvl. split_and!; try done.
  pose proof (inv_ids s Hinv) as Hids.
  pose proof (f_equal (fun l => l !! S i) Hids) as Hi. simpl in Hi.
  change (map cell_id (heap s)) with (cell_id <$> heap s) in Hi.
  rewrite list_lookup_fmap, Hc in Hi. simpl in Hi.
  change (map node_id ?l) with (node_id <$> l) in Hi.
  rewrite list_lookup_fmap in Hi.
  destruct (seq 0 (nodeIdCounter s) !! i) as [n|]; [|done].
  simpl in Hi. injection Hi as Hi. rewrite Hid, Hi. done.
Qed.

(** X2: in the tree that [parseMarkdown] returns, every node has a text
    that is not empty and has no white space at either end, and every node
    but the root is collapsed ([expanded: false]) and has a level of at
    least 1. *)
Theorem parsed_nodes_collapsed_and_trimmed (markdown : jsstr) (t q : INodeData) :
  parseMarkdown markdown = Some t ->
  q ∈ getAllNodes t ->
  (text q <> [] /\ trim (text q) = text q)
  /\ (q ∈ tail (getAllNodes t) ->
      expanded q = Some false /\ 1 <= level q /\ id q <> "root").
Proof.
  intros Hp Hq.
  split; [|intros Hq'; by apply (parsed_below_root markdown t q Hp Hq')].
  rewrite getAllNodes_unfold in Hq. apply elem_of_cons in Hq as [->|Hq].
  - destruct (parseMarkdown_total markdown) as (s & t' & _ & _ & Hp' & _ & Hroot).
    assert (t' = t) as -> by congruence.
    unfold node_info in Hroot. injection Hroot as _ Htx _ _. rewrite Htx.
    destruct (find_root_text (split_lines markdown)) as [tx|] eqn:Hf; simpl.
    + by apply find_root_text_clean in Hf.
    + apply default_text_clean.
  - apply (parsed_below_root markdown t q Hp). by rewrite getAllNodes_unfold.
Qed.

Lemma parsed_nodes_collapsed_and_trimmed_witness :
  let t := Node "root" (lit "T") 0
             [Node "node-0" (lit "a b") 2 [] (Some false)] (Some true) in
  let q := Node "node-0" (lit "a b") 2 [] (Some false) in
  (text q <> [] /\ trim (text q) = text q)
  /\ (q ∈ tail (getAllNodes t) ->
      expanded q = Some false /\ 1 <= level q /\ id q <> "root").
Proof.
  apply (parsed_nodes_collapsed_and_trimmed (lit "# T" ++ nl ++ lit "-   a b  ")).
  - reflexivity.
  - right. left.
Defined.

(** X3: in the tree that [parseMarkdown] returns, the level of a child is
    greater than the level of its parent, and along the children of one node
    the levels never rise: a later sibling is at most as deep as an earlier
    one. *)
Theorem parsed_levels_descend (markdown : jsstr) (t q : INodeData) :
  parseMarkdown markdown = Some t ->
  q ∈ getAllNodes t ->
  Forall (fun c => level q < level c) (children q)
  /\ StronglySorted ge (map level (children q)).
Proof.
  intros Hp Hq.
  destruct (parseMarkdown_total markdown) as (s & t' & Hparse & Hinv & Hp' & _).
  assert (t' = t) as -> by congruence.
  pose proof (parse_levels _ _ Hparse) as Hlv.
  unfold parseMarkdown in Hp. rewrite Hparse in Hp.
  destruct (tree_of_nodes _ _ _ _ _ Hp Hq) as (i & c & Hc & Hqc & Hcs).
  pose proof (lv_children s Hlv i c Hc) as Hdeep.
  pose proof (lv_sorted s Hlv i c Hc) as Hsorted.
  assert (Hl : level q = cell_level c).
  { unfold node_info, cell_info in Hqc. congruence. }
  unfold child_levels in Hsorted. rewrite Hl. clear Hc Hqc Hl Hq.
  induction Hcs as [|j q' js qs (cj & Hj & Hinfo) Hrest IH]; [by split; constructor|].
  apply Forall_cons in Hdeep as [(cj' & Hj' & Hlt) Hdeep].
  rewrite omap_cons_eq, Hj in Hsorted. simpl in Hsorted.
  apply StronglySorted_cons in Hsorted as [Hge Hsorted].
  destruct (IH Hdeep Hsorted) as [IH1 IH2].
  assert (Hl' : level q' = cell_level cj).
  { unfold node_info, cell_info in Hinfo. congruence. }
  assert (cj' = cj) as -> by congruence.
  assert (Hlevels : map level qs = omap (fun j => cell_level <$> heap s !! j) js).
  { clear -Hrest. induction Hrest as [|j q js qs (cj & Hj & Hinfo) _ IH]; [done|].
    rewrite omap_cons_eq, Hj. simpl. rewrite IH. f_equal.
    unfold node_info, cell_info in Hinfo. congruence. }
  split.
  - constructor; [lia|done].
  - simpl. apply StronglySorted_cons. split; [|done].
    by rewrite Hl', Hlevels.
Qed.

Lemma parsed_levels_descend_witness :
  let t := Node "root" (lit "T") 0
             [Node "node-0" (lit "a") 3 [] (Some false);
              Node "node-1" (lit "b") 2 [] (Some false)] (Some true) in
  Forall (fun c => level t < level c) (children t)
  /\ StronglySorted ge (map level (children t)).
Proof.
  intros t.
  apply (parsed_levels_descend
           (lit "# T" ++ nl ++ lit "### a" ++ nl ++ lit "## b") t t).
  - reflexivity.
  - left.
Defined.

End parsed_outline.

(** ** From lines to nodes, by kind of line *)

Section kinds_of_lines.

Import INodeData.

Lemma emit_base_level (s s' : State) (text : jsstr) (lvl base : nat) :
  emit s text lvl base = Some s' -> currentBaseLevel s' = base.
Proof.
  unfold emit. destruct (processNode _ _ _ _ _) as [[h st]|]; [|done].
  by intros [= <-].
Qed.

Lemma step_base_level (s s' : State) (line : jsstr) :
  step s line = Some s' ->
  currentBaseLevel s'
  = match heading_of line with
    | Some (k, text) => if is_empty text then currentBaseLevel s else k
    | None => currentBaseLevel s
    end.
Proof.
  unfold step. cbv zeta.
  destruct (is_empty (trim line)) eqn:Hblank.
  { intros [= <-]. unfold heading_of.
    apply is_empty_true in Hblank. by rewrite Hblank. }
  destruct (heading_of line) as [[k text]|].
  - destruct (is_empty text); [by intros [= <-]|].
    destruct (isFirstHeading s); [by intros [= <-]|]. apply emit_base_level.
  - destruct (match_list (trim line)) as [body|].
    + destruct (is_empty (trim body)); [by intros [= <-]|]. apply emit_base_level.
    + destruct (_ && _); [|by intros [= <-]].
      destruct (_ <? _); [|by intros [= <-]]. apply emit_base_level.
Qed.

Lemma run_base_level (s s' : State) (pre : list jsstr) :
  run s pre = Some s' ->
  currentBaseLevel s'
  = fold_left
      (fun base line =>
         match heading_of line with
         | Some (k, text) => if is_empty text then base else k
         | None => base
         end)
      pre (currentBaseLevel s).
Proof.
  revert s. induction pre as [|l pre IH]; intros s; simpl.
  { by intros [= <-]. }
  destruct (step s l) as [s1|] eqn:Hstep; [|done].
  intros Hrun. rewrite (IH _ Hrun). by rewrite (step_base_level _ _ _ Hstep).
Qed.

Lemma no_hash_no_heading (s : jsstr) :
  starts_with 35 s = false -> match_heading s = None.
Proof.
  unfold match_heading. destruct s as [|c s]; [done|]. simpl. by intros ->.
Qed.

Lemma list_line_no_heading (s body : jsstr) :
  match_list s = Some body -> match_heading s = None.
Proof.
  destruct s as [|c s]; [done|]. simpl.
  destruct ((c =? 45)%N || (c =? 42)%N) eqn:Hc; [|done]. intros _.
  apply no_hash_no_heading. simpl.
  apply orb_true_iff in Hc as [Hc|Hc]; apply N.eqb_eq in Hc; by subst.
Qed.

Lemma no_marker_no_list (s : jsstr) :
  starts_with 45 s = false -> starts_with 42 s = false -> match_list s = None.
Proof. destruct s as [|c s]; [done|]. simpl. by intros -> ->. Qed.

Lemma run_prefix (lines pre : list jsstr) :
  exists s, run (init lines) pre = Some s /\ currentBaseLevel s = base_level pre.
Proof.
  destruct (run_invariant (init lines) pre (init_invariant lines))
    as (s & Hrun & _).
  exists s. split; [done|]. by rewrite (run_base_level _ _ _ Hrun).
Qed.

(** X4: a list line, that is a line which after trimming is a dash or a
    star, white space and a text, always gives a node.  Its text is the
    trimmed text of the item and its level is the level of the last heading
    line with a text before it (0 without one), plus the indentation level
    of the line, plus 1. *)
Theorem list_item_becomes_node (markdown : jsstr) (pre post : list jsstr)
    (line body : jsstr) (t : INodeData) :
  split_lines markdown = pre ++ line :: post ->
  match_list (trim line) = Some body ->
  trim body <> [] ->
  parseMarkdown markdown = Some t ->
  exists q, q ∈ tail (getAllNodes t)
            /\ text q = trim body
            /\ level q = base_level pre + calculateIndentLevel line + 1
            /\ expanded q = Some false.
Proof.
  intros Hlines Hl Hbody Ht.
  destruct (run_prefix (split_lines markdown) pre) as (s & Hrun & Hbase).
  assert (Hh : heading_of line = None).
  { unfold heading_of. by rewrite (list_line_no_heading _ _ Hl). }
  assert (Hblank : is_empty (trim line) = false).
  { destruct (trim line); [done|done]. }
  destruct (emitted_node_in_tree markdown pre post line s (trim body)
              (currentBaseLevel s + calculateIndentLevel line + 1)
              (currentBaseLevel s) t) as (q & Hq & Hinfo); try done.
  - unfold step. rewrite Hblank, Hh, Hl.
    apply is_empty_false in Hbody. by rewrite Hbody.
  - lia.
  - exists q. unfold node_info in Hinfo. rewrite <- Hbase.
    split_and!; [done|congruence..].
Qed.

Lemma list_item_becomes_node_witness :
  let t := Node "root" (lit "T") 0
             [Node "node-0" (lit "A") 3
                [Node "node-1" (lit "item") 5 [] (Some false)] (Some false)]
             (Some true) in
  exists q, q ∈ tail (getAllNodes t)
            /\ text q = lit "item" /\ level q = 5 /\ expanded q = Some false.
Proof.
  intros t.
  apply (list_item_becomes_node
           (lit "# T" ++ nl ++ lit "### A" ++ nl ++ lit "## -" ++ nl
            ++ lit "  *  item ")
           [lit "# T"; lit "### A"; lit "## -"] [] (lit "  *  item ")
           (lit "item") t);
    [reflexivity|reflexivity|done|reflexivity].
Defined.

(** X5: a line of bare text (after trimming it is not empty and starts
    with none of the markers hash, dash and star) whose indentation level is
    1 or more always gives a node.  Its text is the trimmed line and its
    level is the level of the last heading line with a text before it (0
    without one) plus the indentation level. *)
Theorem indented_text_becomes_node (markdown : jsstr) (pre post : list jsstr)
    (line : jsstr) (t : INodeData) :
  split_lines markdown = pre ++ line :: post ->
  trim line <> [] ->
  starts_with 35 (trim line) = false ->
  starts_with 45 (trim line) = false ->
  starts_with 42 (trim line) = false ->
  0 < calculateIndentLevel line ->
  parseMarkdown markdown = Some t ->
  exists q, q ∈ tail (getAllNodes t)
            /\ text q = trim line
            /\ level q = base_level pre + calculateIndentLevel line
            /\ expanded q = Some false.
Proof.
  intros Hlines Hblank H1 H2 H3 Hind Ht.
  destruct (run_prefix (split_lines markdown) pre) as (s & Hrun & Hbase).
  assert (Hh : heading_of line = None).
  { unfold heading_of. by rewrite (no_hash_no_heading _ H1). }
  pose proof (no_marker_no_list _ H2 H3) as Hl.
  destruct (emitted_node_in_tree markdown pre post line s (trim line)
              (currentBaseLevel s + calculateIndentLevel line)
              (currentBaseLevel s) t) as (q & Hq & Hinfo); try done.
  - by apply step_indented.
  - lia.
  - exists q. unfold node_info in Hinfo. rewrite <- Hbase.
    split_and!; [done|congruence..].
Qed.

Lemma indented_text_becomes_node_witness :
  let t := Node "root" (lit "T") 0
             [Node "node-0" (lit "H") 2
                [Node "node-1" (lit "Sub topic") 3 [] (Some false)] (Some false)]
             (Some true) in
  exists q, q ∈ tail (getAllNodes t)
            /\ text q = lit "Sub topic" /\ level q = 3
            /\ expanded q = Some false.
Proof.
  intros t.
  apply (indented_text_becomes_node
           (lit "# T" ++ nl ++ lit "## H" ++ nl ++ lit "   Sub topic")
           [lit "# T"; lit "## H"] [] (lit "   Sub topic") t);
    [reflexivity|done|reflexivity|reflexivity|reflexivity
    |vm_compute; lia|reflexivity].
Defined.

Lemma first_titled (lines : list jsstr) :
  (existsb titled_heading lines = false
   /\ Forall (fun l => titled_heading l = false) lines)
  \/ (existsb titled_heading lines = true
      /\ exists pre l post,
           lines = pre ++ l :: post
           /\ Forall (fun l => titled_heading l = false) pre
           /\ titled_heading l = true).
Proof.
  induction lines as [|l lines IH]; [left; by split|]. simpl.
  destruct (titled_heading l) eqn:Hl.
  - right. split; [done|]. exists [], l, lines. by split_and!.
  - destruct IH as [[He Hall]|(He & pre & l' & post & -> & Hpre & Hl')].
    + left. split; [done|]. by constructor.
    + right. split; [done|]. exists (l :: pre), l', post.
      split_and!; [done|by constructor|done].
Qed.

(** X6: the number of nodes of the tree that [parseMarkdown] returns.
    Besides the root there is one node for each line that reaches
    [processNode]: a heading line with a text, a list line with a text, or a
    line of bare text of indentation level 1 or more; except that the first
    heading line with a text gives the root its text and no node. *)
Theorem parse_node_count (markdown : jsstr) :
  exists t,
    parseMarkdown markdown = Some t
    /\ length (getAllNodes t)
        + (if existsb titled_heading (split_lines markdown) then 1 else 0)
       = 1 + length (List.filter emits (split_lines markdown)).
Proof.
  destruct (parseMarkdown_total markdown) as (s & t & Hparse & _ & Hp & Hinfo & _).
  exists t. split; [done|].
  apply (f_equal (@length _)) in Hinfo. rewrite !length_map in Hinfo.
  rewrite Hinfo. clear Hinfo Hp t.
  unfold parse_lines in Hparse.
  generalize dependent (split_lines markdown). intros lines Hparse.
  destruct (first_titled lines)
    as [[-> Hall]|(-> & pre & l & post & Hlines & Hpre & Hl)].
  - destruct (run_invariant (init lines) lines (init_invariant lines))
      as (s' & Hrun & _ & _ & _ & Hbefore).
    assert (s' = s) as -> by congruence.
    destruct (Hbefore Hall) as (_ & _ & ->). simpl. lia.
  - assert (Hparse' : run (init lines) (pre ++ l :: post) = Some s)
      by (by rewrite <- Hlines).
    rewrite Hlines. clear Hlines Hparse. rename Hparse' into Hparse.
    rewrite run_app in Hparse.
    destruct (run_invariant (init lines) pre (init_invariant lines))
      as (s1 & Hrun1 & Hinv1 & _ & _ & Hbefore).
    rewrite Hrun1 in Hparse. simpl in Hparse.
    destruct (Hbefore Hpre) as (Hfirst1 & _ & Hlen1). simpl in Hfirst1, Hlen1.
    destruct (step_invariant s1 l Hinv1)
      as (s2 & Hstep & Hinv2 & _ & Hlen2 & Hfirst2 & _).
    rewrite Hstep in Hparse.
    rewrite Hfirst1, Hl in Hlen2, Hfirst2. simpl in Hfirst2.
    rewrite andb_false_r in Hlen2.
    destruct (run_invariant s2 post Hinv2) as (s3 & Hrun3 & _ & _ & Hafter & _).
    assert (s3 = s) as -> by congruence.
    destruct (Hafter Hfirst2) as [_ ->].
    rewrite List.filter_app, length_app. simpl.
    rewrite (titled_heading_emits _ Hl). simpl. lia.
Qed.

Lemma calculateIndentLevel_tab (s : jsstr) :
  calculateIndentLevel (9%N :: s) = 2 + calculateIndentLevel s.
Proof.
  unfold calculateIndentLevel. cbn [take_while].
  change (is_ws 9) with true. cbv iota.
  rewrite (filter_cons_True (fun c => c = 9%N)) by done.
  rewrite (filter_cons_False (fun c => c <> 9%N)) by (intros H; by apply H).
  cbn [length]. lia.
Qed.

Lemma take_while_spaces (k : nat) (c : N) (s : jsstr) :
  is_ws c = false ->
  (take_while is_ws (replicate k 32%N ++ c :: s) = replicate k 32%N).
Proof.
  intros Hc. induction k as [|k IH]; simpl; [by rewrite Hc|]. by rewrite IH.
Qed.

(** X7: the indentation level of a line that starts with [t] tabs, then
    [k] spaces, then a character that is not white space, is [2 * t] plus
    [k / 2] rounded down: a tab counts for two levels and two spaces for
    one; an odd space is lost, and a line that starts with something else
    than white space has level 0. *)
Theorem calculateIndentLevel_tabs_spaces (t k : nat) (c : N) (rest : jsstr) :
  is_ws c = false ->
  calculateIndentLevel (replicate t 9%N ++ replicate k 32%N ++ c :: rest)
  = 2 * t + k / 2.
Proof.
  intros Hc. induction t as [|t IH].
  - simpl. unfold calculateIndentLevel.
    rewrite take_while_spaces by done.
    assert (Hf : forall k, filter (fun c => c = 9%N) (replicate k 32%N) = []
                           /\ filter (fun c => c <> 9%N) (replicate k 32%N)
                              = replicate k 32%N).
    { clear. induction k as [|k [IH1 IH2]]; [done|]. cbn [replicate].
      rewrite (filter_cons_False (fun c => c = 9%N)) by done.
      rewrite (filter_cons_True (fun c => c <> 9%N)) by done.
      by rewrite IH1, IH2. }
    destruct (Hf k) as [-> ->]. rewrite length_replicate. simpl. lia.
  - cbn [replicate app]. rewrite calculateIndentLevel_tab, IH. lia.
Qed.

Lemma calculateIndentLevel_tabs_spaces_witness :
  calculateIndentLevel (replicate 1 9%N ++ replicate 3 32%N ++ 97%N :: []) = 2 * 1 + 3 / 2.
Proof. by apply calculateIndentLevel_tabs_spaces. Defined.

End kinds_of_lines.

(** ** The arrangement that the layout writes *)

Section arrangement.

Import INodeData.

Local Open Scope Q_scope.

Variable dimensions : gmap string Dim.
Variable hs vs : Q.
Variable dir : Direction.

Lemma arranged_below_unfold (positions : gmap string NodePosition)
    (parent : INodeData) (cx cy : Q) :
  arranged_below dimensions hs vs positions dir parent cx cy
  = if negb (truthy (expanded parent)) || is_empty (children parent) then True
    else
      exists parentDim totalSubtreeHeight,
        dimensions !! id parent = Some parentDim
        /\ calculateSubtreeHeight dimensions vs (children parent)
           = Some totalSubtreeHeight
        /\ stacked dimensions vs positions
             (fun child x y =>
                arranged_below dimensions hs vs positions dir child x y)
             (fun width =>
                cx
                + sign_of dir
                  * (inject_Z (dim_width parentDim) / 2
                     + hs * (if (2 <=? level parent)%nat then 1.0 else 0.8) * 0.6)
                + sign_of dir * (width / 2))
             (id parent) (children parent)
             (cy - totalSubtreeHeight / 2).
Proof. by destruct parent. Qed.

Lemma place_children_arranged (xOf : Q -> Q) (pid : string)
    (cs : list INodeData) :
  Forall (arranges dimensions hs vs dir) cs ->
  Forall (fun c => covers dimensions (getAllNodes c)) cs ->
  forall positions yOffset positions' final,
    NoDup (map id (flat_map getVisibleNodes cs)) ->
    place_children dimensions vs
      (fun child positions x y =>
         layoutChildBranch dimensions hs vs child positions x y dir)
      xOf pid cs positions yOffset = Some positions' ->
    (forall n, n ∈ flat_map getVisibleNodes cs ->
               final !! id n = positions' !! id n) ->
    stacked dimensions vs final
      (fun child x y => arranged_below dimensions hs vs final dir child x y)
      xOf pid cs yOffset.
Proof.
  intros Hrec Hcov.
  induction cs as [|c cs IH];
    intros positions yOffset positions' final Hnd Hplace Hfinal; [done|].
  apply Forall_cons in Hrec as [Hc Hrec].
  apply Forall_cons in Hcov as [Hcc Hcov].
  cbn [flat_map] in Hnd. rewrite List.map_app in Hnd.
  apply NoDup_app in Hnd as (Hndc & Hdisj & Hndcs).
  simpl place_children in Hplace.
  destruct (covers_self _ c Hcc) as [d Hd]. rewrite Hd in Hplace.
  destruct (calculateNodeBranchHeight_total dimensions vs c Hcc) as [bh Hbh].
  rewrite Hbh in Hplace.
  match type of Hplace with
  | context [<[id c := ?p]> positions] => set (pc := p) in *
  end.
  match type of Hplace with
  | context [if ?b then layoutChildBranch _ _ _ c ?ps ?x ?y dir else _] =>
      assert (Hstep :
        (if b then layoutChildBranch dimensions hs vs c ps x y dir else Some ps)
        = layoutChildBranch dimensions hs vs c ps x y dir)
  end.
  { rewrite (layoutChildBranch_unfold _ _ _ c).
    destruct (truthy (expanded c)); [|done].
    by destruct (is_empty (children c)). }
  rewrite Hstep in Hplace. clear Hstep.
  destruct (layoutChildBranch_places dimensions hs vs dir c Hcc
              (<[id c := pc]> positions) (NodePosition.x pc) (NodePosition.y pc))
    as (mid & Hmid & _ & Hframe_c).
  change (NodePosition.x pc) with (xOf (inject_Z (dim_width d))) in Hmid.
  change (NodePosition.y pc) with (yOffset + bh / 2) in Hmid.
  rewrite Hmid in Hplace.
  destruct (place_children_places dimensions hs vs dir xOf pid cs)
    with (positions := mid) (yOffset := yOffset + bh + vs)
    as (positions'' & Hrest & _ & Hframe_cs).
  { eapply Forall_impl; [exact Hcov|]. intros c' Hc' ps x y.
    by apply layoutChildBranch_places. }
  { done. }
  assert (positions'' = positions') as -> by congruence.
  rewrite getVisibleNodes_placed in Hndc, Hdisj. simpl in Hndc.
  apply NoDup_cons in Hndc as [Hc_fresh Hndc].
  assert (Hkeep : forall n, n ∈ getVisibleNodes c ->
                            final !! id n = mid !! id n).
  { intros n Hn. rewrite Hfinal.
    2:{ cbn [flat_map]. apply elem_of_app. by left. }
    apply Hframe_cs. apply Hdisj.
    rewrite <- getVisibleNodes_placed.
    apply list_elem_of_fmap. by exists n. }
  assert (Hmid_c : mid !! id c = Some pc).
  { rewrite Hframe_c by done. apply lookup_insert_eq. }
  cbn [stacked]. exists d, bh. split_and!; [done|done| | |].
  - rewrite Hkeep; [done|]. rewrite getVisibleNodes_placed. left.
  - assert (Hndc' : NoDup (map id (getVisibleNodes c))).
    { rewrite getVisibleNodes_placed. simpl. apply NoDup_cons. by split. }
    apply (Hc Hcc Hndc' (<[id c := pc]> positions) _ _ mid final Hmid).
    intros n Hn. apply Hkeep. rewrite getVisibleNodes_placed. by right.
  - apply (IH Hrec Hcov mid _ positions' final Hndcs Hplace).
    intros n Hn. apply Hfinal. cbn [flat_map]. apply elem_of_app. by right.
Qed.

Lemma layoutChildBranch_arranges (parent : INodeData) :
  arranges dimensions hs vs dir parent.
Proof.
  induction parent as [i tx l cs e IH] using INodeData_ind'.
  intros Hcov Hnd positions cx cy positions' final Hlayout Hfinal.
  pose proof (covers_children _ _ Hcov) as Hcs.
  rewrite layoutChildBranch_unfold in Hlayout.
  rewrite arranged_below_unfold.
  rewrite placed_below_unfold in Hfinal.
  rewrite getVisibleNodes_unfold in Hnd.
  cbn [id text level children expanded] in *.
  destruct (negb (truthy e) || is_empty cs) eqn:Hguard; [done|].
  apply orb_false_iff in Hguard as [He Hne].
  apply negb_false_iff in He. rewrite He in Hnd.
  destruct (dimensions !! i) as [d|] eqn:Hd; [|done].
  destruct (calculateSubtreeHeight dimensions vs cs) as [h|] eqn:Hh; [|done].
  cbv zeta in Hlayout.
  simpl in Hnd. apply NoDup_cons in Hnd as [_ Hndcs].
  exists d, h. split_and!; [done|done|].
  by eapply place_children_arranged.
Qed.

End arrangement.

Section whole_arrangement.

Import INodeData.

Local Open Scope Q_scope.

Lemma layout_half_arranged (dimensions : gmap string Dim) (hs vs : Q)
    (dir : Direction) (xOf : Q -> Q) (pid : string) (half : list INodeData)
    (positions positions' final : gmap string NodePosition) :
  Forall (fun c => covers dimensions (getAllNodes c)) half ->
  NoDup (map id (flat_map getVisibleNodes half)) ->
  layout_half dimensions hs vs dir xOf pid half positions = Some positions' ->
  (forall n, n ∈ flat_map getVisibleNodes half ->
             final !! id n = positions' !! id n) ->
  arranged_half dimensions hs vs final dir xOf pid half.
Proof.
  intros Hcov Hnd Hlayout Hfinal. unfold layout_half in Hlayout.
  unfold arranged_half. destruct (is_empty half); [done|].
  destruct (calculateSubtreeHeight dimensions vs half) as [h|]; [|done].
  exists h. split; [done|].
  eapply place_children_arranged; try done.
  apply Forall_forall. intros c _. apply layoutChildBranch_arranges.
Qed.

(** The map that [calculateLayout] returns holds the arrangement. *)
Lemma calculateLayout_arranged (root : INodeData) (options : LayoutOptions)
    (positions : gmap string NodePosition) :
  NoDup (map id (getAllNodes root)) ->
  calculateLayout root options = Some positions ->
  arranged
    (calculateNodeDimensions (getAllNodes root)
       (default 100 (nodeWidth options)) (default 32 (nodeHeight options)))
    (default 140 (horizontalSpacing options))
    (default 16 (verticalSpacing options))
    positions
    (default Both (direction options))
    (default 0 (centerOffset options)) root.
Proof.
  intros Hnd Hlayout.
  set (dimensions := calculateNodeDimensions (getAllNodes root)
         (default 100 (nodeWidth options)) (default 32 (nodeHeight options))).
  set (hs := default 140 (horizontalSpacing options)).
  set (vs := default 16 (verticalSpacing options)).
  pose proof (dimensions_cover root (default 100 (nodeWidth options))
                (default 32 (nodeHeight options))) as Hcov.
  fold dimensions in Hcov.
  destruct (covers_self _ _ Hcov) as [d Hd].
  unfold calculateLayout in Hlayout.
  fold dimensions in Hlayout. fold hs in Hlayout. fold vs in Hlayout.
  exists d. split; [done|].
  assert (Hsingle : forall dir,
    calculateSingleDirectionLayout dimensions hs vs root ∅ dir = Some positions ->
    positions !! id root = Some (root_position root d 0)
    /\ arranged_below dimensions hs vs positions dir root 0 0).
  { intros dir Hl. unfold calculateSingleDirectionLayout in Hl.
    rewrite Hd in Hl.
    assert (Hndv : NoDup (map id (getVisibleNodes root))).
    { assert (Hsub : map id (getVisibleNodes root) `sublist_of` map id (getAllNodes root))
        by apply fmap_sublist, visible_sublist.
      exact (sublist_NoDup _ _ Hnd Hsub). }
    split.
    - destruct (layoutChildBranch_places dimensions hs vs dir root Hcov
                  (<[id root := root_position root d 0]> ∅) 0 0)
        as (positions' & Hl' & _ & Hframe).
      assert (positions' = positions) as -> by congruence.
      rewrite Hframe; [apply lookup_insert_eq|].
      rewrite getVisibleNodes_placed in Hndv. simpl in Hndv.
      by apply NoDup_cons in Hndv as [? _].
    - by eapply (layoutChildBranch_arranges dimensions hs vs dir root Hcov Hndv). }
  destruct (default Both (direction options)) eqn:Hdir.
  - by apply Hsingle.
  - by apply Hsingle.
  - unfold calculateBothDirectionLayout in Hlayout. rewrite Hd in Hlayout.
    set (co := default 0 (centerOffset options)) in *.
    destruct (is_empty (children root)) eqn:Hempty.
    { injection Hlayout as <-. split; [apply lookup_insert_eq|done]. }
    cbv zeta in Hlayout.
    set (n := Nat.div2 (S (length (children root)))) in *.
    pose proof (covers_children _ _ Hcov) as Hcs.
    rewrite <- (take_drop n (children root)) in Hcs.
    apply Forall_app in Hcs as [Hcl Hcr].
    assert (Hnd' : NoDup (map id (laid_out Both root))).
    { assert (Hsub : map id (laid_out Both root) `sublist_of` map id (getAllNodes root))
        by apply fmap_sublist, laid_out_sublist.
      exact (sublist_NoDup _ _ Hnd Hsub). }
    simpl in Hnd'. rewrite <- (take_drop n (children root)) in Hnd'.
    rewrite flat_map_app, List.map_app in Hnd'.
    apply NoDup_cons in Hnd' as [Hroot Hnd'].
    apply not_elem_of_app in Hroot as [Hrootl Hrootr].
    apply NoDup_app in Hnd' as (Hndl & Hdisj & Hndr).
    match type of Hlayout with
    | match ?left with _ => _ end = _ => destruct left as [mid|] eqn:Hleft; [|done]
    end.
    match type of Hleft with
    | layout_half _ _ _ _ ?xOf _ _ ?ps = _ =>
        destruct (layout_half_places dimensions hs vs Left xOf (id root) _ ps Hcl)
          as (mid' & Hleft' & _ & Hframe_l)
    end.
    assert (mid' = mid) as -> by congruence.
    match type of Hlayout with
    | layout_half _ _ _ _ ?xOf _ _ ?ps = _ =>
        destruct (layout_half_places dimensions hs vs Right xOf (id root) _ ps Hcr)
          as (positions' & Hright' & _ & Hframe_r)
    end.
    assert (positions' = positions) as -> by congruence.
    split.
    { rewrite Hframe_r, Hframe_l by done. apply lookup_insert_eq. }
    intros _ leftCount. subst leftCount. fold n. split.
    + eapply layout_half_arranged; [exact Hcl|exact Hndl|exact Hleft|].
      intros m Hm. apply Hframe_r, Hdisj.
      apply list_elem_of_fmap. by exists m.
    + by eapply layout_half_arranged.
Qed.

End whole_arrangement.

(** ** Sizes *)

Section sizes.

Import INodeData.

Local Open Scope Q_scope.

Lemma estimatedWidth_min (n : INodeData) : (60 <= estimatedWidth n)%Z.
Proof. unfold estimatedWidth. lia. Qed.

Lemma baseHeight_min (l : nat) : (28 <= baseHeight (getFontConfig l))%Z.
Proof. destruct l as [|[|[|[|l]]]]; simpl; lia. Qed.

Lemma extraHeight_nonneg (w : Z) : (0 <= extraHeight w)%Z.
Proof.
  unfold extraHeight. destruct (180 <? w)%Z eqn:H1; [|lia].
  apply Z.ltb_lt in H1.
  destruct (w <=? 350)%Z eqn:H2.
  - apply Z.div_pos; lia.
  - apply Z.leb_gt in H2. assert (0 <= (w - 350) / 10)%Z by (apply Z.div_pos; lia).
    lia.
Qed.

Lemma estimatedHeight_min (n : INodeData) :
  (baseHeight (getFontConfig (level n)) <= estimatedHeight n)%Z.
Proof.
  unfold estimatedHeight. destruct (String.eqb _ _); [lia|].
  pose proof (extraHeight_nonneg (estimatedWidth n)). lia.
Qed.

(** Every entry of the dimension map is the estimate for one of the
    nodes. *)
Lemma calculateNodeDimensions_entry (nodes : list INodeData) (nw nh : Q)
    (k : string) (d : Dim) :
  calculateNodeDimensions nodes nw nh !! k = Some d ->
  exists n, n ∈ nodes /\ id n = k
            /\ d = {| dim_width := estimatedWidth n;
                      dim_height := estimatedHeight n |}.
Proof.
  unfold calculateNodeDimensions.
  assert (H : forall (m : gmap string Dim),
             fold_left
               (fun dimensions node =>
                  <[id node := {| dim_width := estimatedWidth node;
                                  dim_height := estimatedHeight node |}]> dimensions)
               nodes m !! k = Some d ->
             m !! k = Some d
             \/ exists n, n ∈ nodes /\ id n = k
                          /\ d = {| dim_width := estimatedWidth n;
                                    dim_height := estimatedHeight n |}).
  { induction nodes as [|n nodes IH]; intros m; simpl; [by left|].
    intros Hk. destruct (IH _ Hk) as [Hm|(n' & Hn' & Hid & Hd)].
    - destruct (decide (id n = k)) as [Heq|Hne].
      + rewrite Heq, lookup_insert_eq in Hm. injection Hm as <-.
        right. exists n. split_and!; [left|done|done].
      + rewrite lookup_insert_ne in Hm by done. by left.
    - right. exists n'. split_and!; [by right|done|done]. }
  intros Hk. destruct (H ∅ Hk) as [Hm|?]; [|done].
  by rewrite lookup_empty in Hm.
Qed.

End sizes.

(** ** The entries of a layout, node by node *)

Section entries.

Import INodeData.

Local Open Scope Q_scope.

Variable dimensions : gmap string Dim.
Variable hs vs : Q.
Variable positions : gmap string NodePosition.
Variable dir : Direction.

Lemma stacked_children (xOf : Q -> Q) (pid : string) (cs : list INodeData)
    (yOffset : Q) (c : INodeData) :
  stacked dimensions vs positions
    (fun c x y => arranged_below dimensions hs vs positions dir c x y)
    xOf pid cs yOffset ->
  c ∈ cs ->
  exists d yc,
    dimensions !! id c = Some d
    /\ positions !! id c
       = Some (child_position c d (xOf (inject_Z (dim_width d))) yc pid)
    /\ arranged_below dimensions hs vs positions dir c
         (xOf (inject_Z (dim_width d))) yc.
Proof.
  revert yOffset. induction cs as [|c0 cs IH]; intros yOffset Hst Hc.
  { by apply elem_of_nil in Hc. }
  cbn [stacked] in Hst.
  destruct Hst as (d & bh & Hd & Hbh & Hentry & Hbelow & Hrest).
  apply elem_of_cons in Hc as [->|Hc]; [by exists d, (yOffset + bh / 2)|].
  by eapply IH.
Qed.

(** Every node placed below [parent] has the entry of a child of a visible
    expanded node, and what lies below it is arranged from its own
    coordinates. *)
Lemma arranged_below_nodes (parent : INodeData) (x y : Q) (n : INodeData) :
  arranged_below dimensions hs vs positions dir parent x y ->
  n ∈ placed_below parent ->
  exists q d xn yn,
    q ∈ getVisibleNodes parent /\ truthy (expanded q) = true
    /\ n ∈ children q
    /\ dimensions !! id n = Some d
    /\ positions !! id n = Some (child_position n d xn yn (id q))
    /\ arranged_below dimensions hs vs positions dir n xn yn.
Proof.
  revert x y. induction parent as [i tx l cs e IH] using INodeData_ind'.
  intros x y Harr Hn.
  rewrite placed_below_unfold in Hn. rewrite arranged_below_unfold in Harr.
  cbn [id text level children expanded] in *.
  destruct (negb (truthy e) || is_empty cs) eqn:Hguard.
  { by apply elem_of_nil in Hn. }
  apply orb_false_iff in Hguard as [He Hne]. apply negb_false_iff in He.
  destruct Harr as (d & total & Hd & Htot & Hst).
  apply elem_of_flat_map in Hn as (c & Hc & Hn).
  destruct (stacked_children _ _ _ _ c Hst Hc) as (dc & yc & Hdc & Hpc & Hbelow).
  rewrite getVisibleNodes_placed in Hn. apply elem_of_cons in Hn as [->|Hn].
  - eexists (Node i tx l cs e), dc, _, yc.
    split_and!; [apply visible_self|done|done|done|exact Hpc|exact Hbelow].
  - rewrite Forall_forall in IH.
    destruct (IH c Hc _ _ Hbelow Hn)
      as (q & dn & xn & yn & Hq & Hexp & Hnq & Hdn & Hpn & Hbn).
    exists q, dn, xn, yn. split_and!; [|done..].
    rewrite getVisibleNodes_unfold. right. cbn [expanded children]. rewrite He.
    apply elem_of_flat_map. by exists c.
Qed.

End entries.

Section whole_entries.

Import INodeData.

Local Open Scope Q_scope.

Lemma arranged_half_children (dimensions : gmap string Dim) (hs vs : Q)
    (positions : gmap string NodePosition) (dir : Direction) (xOf : Q -> Q)
    (pid : string) (half : list INodeData) (c : INodeData) :
  arranged_half dimensions hs vs positions dir xOf pid half ->
  c ∈ half ->
  exists d xc yc,
    dimensions !! id c = Some d
    /\ positions !! id c = Some (child_position c d xc yc pid)
    /\ arranged_below dimensions hs vs positions dir c xc yc.
Proof.
  unfold arranged_half. intros Harr Hc.
  destruct half as [|c0 half]; [by apply elem_of_nil in Hc|].
  cbn [is_empty] in Harr. destruct Harr as (hh & _ & Hst).
  destruct (stacked_children _ _ _ _ _ _ _ _ _ _ Hst Hc) as (d & yc & Hd & Hpc & Hb).
  by eexists d, _, yc.
Qed.

(** Every node of a layout but the root has the entry of a child of a node
    of the layout, and what lies below it is arranged from its own
    coordinates, to one side. *)
Lemma arranged_nodes (dimensions : gmap string Dim) (hs vs : Q)
    (positions : gmap string NodePosition) (dir : Direction) (co : Q)
    (root n : INodeData) :
  arranged dimensions hs vs positions dir co root ->
  n ∈ tail (laid_out dir root) ->
  exists q d xn yn side,
    q ∈ laid_out dir root /\ n ∈ children q
    /\ dimensions !! id n = Some d
    /\ positions !! id n = Some (child_position n d xn yn (id q))
    /\ arranged_below dimensions hs vs positions side n xn yn.
Proof.
  intros (rd & Hrd & Harr) Hn.
  assert (Hsingle : forall dir,
    arranged_below dimensions hs vs positions dir root 0 0 ->
    n ∈ placed_below root ->
    exists q d xn yn side,
      q ∈ getVisibleNodes root /\ n ∈ children q
      /\ dimensions !! id n = Some d
      /\ positions !! id n = Some (child_position n d xn yn (id q))
      /\ arranged_below dimensions hs vs positions side n xn yn).
  { intros dir' Hb Hn'.
    destruct (arranged_below_nodes _ _ _ _ _ _ _ _ _ Hb Hn')
      as (q & d & xn & yn & Hq & _ & Hnq & Hd & Hpn & Hbn).
    by exists q, d, xn, yn, dir'. }
  destruct dir.
  - destruct Harr as [_ Hb]. by apply (Hsingle Left).
  - destruct Harr as [_ Hb]. by apply (Hsingle Right).
  - destruct Harr as [_ Hhalves]. cbn [laid_out tail] in *.
    apply elem_of_flat_map in Hn as (c & Hc & Hn).
    destruct (is_empty (children root)) eqn:Hempty.
    { apply is_empty_true in Hempty. rewrite Hempty in Hc.
      by apply elem_of_nil in Hc. }
    destruct (Hhalves eq_refl) as [Hl Hr]. clear Hhalves.
    set (k := Nat.div2 (S (length (children root)))) in *.
    assert (Hside : exists side d xc yc,
              dimensions !! id c = Some d
              /\ positions !! id c = Some (child_position c d xc yc (id root))
              /\ arranged_below dimensions hs vs positions side c xc yc).
    { rewrite <- (take_drop k (children root)) in Hc.
      apply elem_of_app in Hc as [Hc|Hc].
      - destruct (arranged_half_children _ _ _ _ _ _ _ _ _ Hl Hc)
          as (d & xc & yc & ?). by exists Left, d, xc, yc.
      - destruct (arranged_half_children _ _ _ _ _ _ _ _ _ Hr Hc)
          as (d & xc & yc & ?). by exists Right, d, xc, yc. }
    destruct Hside as (side & d & xc & yc & Hd & Hpc & Hb).
    rewrite getVisibleNodes_placed in Hn. apply elem_of_cons in Hn as [->|Hn].
    + exists root, d, xc, yc, side. split_and!; [left|done..].
    + destruct (arranged_below_nodes _ _ _ _ _ _ _ _ _ Hb Hn)
        as (q & dn & xn & yn & Hq & _ & Hnq & Hdn & Hpn & Hbn).
      exists q, dn, xn, yn, side. split_and!; [|done..].
      right. apply elem_of_flat_map. by exists c.
Qed.

(** The entry of a node of a layout. *)
Lemma layout_entry_fields (root : INodeData) (options : LayoutOptions)
    (positions : gmap string NodePosition) (n : INodeData) :
  NoDup (map id (getAllNodes root)) ->
  calculateLayout root options = Some positions ->
  let dir := default Both (direction options) in
  n ∈ laid_out dir root ->
  exists p,
    positions !! id n = Some p
    /\ NodePosition.id p = id n
    /\ NodePosition.text p = text n
    /\ NodePosition.level p = level n
    /\ NodePosition.width p = inject_Z (estimatedWidth n)
    /\ NodePosition.height p = inject_Z (estimatedHeight n)
    /\ NodePosition.hasChildren p = negb (is_empty (children n))
    /\ NodePosition.expanded p = truthy (expanded n)
    /\ (id n = id root -> NodePosition.parentId p = None)
    /\ (id n <> id root ->
        exists q, q ∈ laid_out dir root /\ n ∈ children q
                  /\ NodePosition.parentId p = Some (id q)).
Proof.
  intros Hnd Hlayout dir Hn.
  pose proof (calculateLayout_arranged root options positions Hnd Hlayout) as Harr.
  fold dir in Harr.
  set (dimensions := calculateNodeDimensions (getAllNodes root)
         (default 100 (nodeWidth options)) (default 32 (nodeHeight options))) in *.
  assert (Hdim : forall m d, m ∈ laid_out dir root -> dimensions !! id m = Some d ->
             d = {| dim_width := estimatedWidth m; dim_height := estimatedHeight m |}).
  { intros m d Hm Hd. unfold dimensions in Hd.
    rewrite (calculateNodeDimensions_lookup _ _ _ m Hnd) in Hd; [congruence|].
    eapply elem_of_sublist; [exact Hm|apply laid_out_sublist]. }
  destruct (laid_out_unfold dir root) as (below & Hlaid & _).
  rewrite Hlaid in Hn. apply elem_of_cons in Hn as [->|Hn].
  - destruct Harr as (d & Hd & Harr).
    assert (Hroot : exists x, positions !! id root = Some (root_position root d x)).
    { destruct dir; destruct Harr as [Hr _]; by eexists. }
    destruct Hroot as [x Hroot].
    rewrite (Hdim root d) in Hroot; [|rewrite Hlaid; left|done].
    eexists. split; [exact Hroot|]. split_and!; try reflexivity; [done..].
  - assert (Hn' : n ∈ tail (laid_out dir root)) by (by rewrite Hlaid).
    destruct (arranged_nodes _ _ _ _ _ _ _ _ Harr Hn')
      as (q & d & xn & yn & side & Hq & Hnq & Hd & Hpn & _).
    rewrite (Hdim n d) in Hpn; [|rewrite Hlaid; by right|done].
    eexists. split; [exact Hpn|]. split_and!; try reflexivity.
    + intros Hid. exfalso.
      assert (Hndl : NoDup (map id (laid_out dir root))).
      { assert (Hsub : map id (laid_out dir root) `sublist_of` map id (getAllNodes root))
          by apply fmap_sublist, laid_out_sublist.
        exact (sublist_NoDup _ _ Hnd Hsub). }
      rewrite Hlaid in Hndl. simpl in Hndl.
      apply NoDup_cons in Hndl as [Hfresh _]. apply Hfresh.
      rewrite <- Hid. apply list_elem_of_fmap. by exists n.
    + intros _. by exists q.
Qed.

(** X9: what an entry of a layout holds.  For a tree whose identifiers
    are distinct, every node that [calculateLayout] lays out has an entry
    under its identifier that carries its identifier, text and level, the
    width and height estimated for it, whether it has children and whether
    it is expanded.  The entry of the root has no [parentId]; the entry of
    any other node names as [parentId] a node of the layout of which it is
    a child. *)
Theorem layout_entry_of_node (root : INodeData) (options : LayoutOptions)
    (positions : gmap string NodePosition) (n : INodeData) :
  NoDup (map id (getAllNodes root)) ->
  calculateLayout root options = Some positions ->
  let dir := default Both (direction options) in
  n ∈ laid_out dir root ->
  exists p,
    positions !! id n = Some p
    /\ NodePosition.id p = id n
    /\ NodePosition.text p = text n
    /\ NodePosition.level p = level n
    /\ NodePosition.width p = inject_Z (estimatedWidth n)
    /\ NodePosition.height p = inject_Z (estimatedHeight n)
    /\ NodePosition.hasChildren p = negb (is_empty (children n))
    /\ NodePosition.expanded p = truthy (expanded n)
    /\ (id n = id root -> NodePosition.parentId p = None)
    /\ (id n <> id root ->
        exists q, q ∈ laid_out dir root /\ n ∈ children q
                  /\ NodePosition.parentId p = Some (id q)).
Proof. apply layout_entry_fields. Qed.

End whole_entries.

Section layout_examples.

Import INodeData.

Local Open Scope Q_scope.

Lemma two_children_NoDup :
  NoDup (map id (getAllNodes Examples.two_children_root)).
Proof. vm_compute. repeat constructor; set_solver. Qed.

Lemma two_children_entries (options : LayoutOptions) :
  exists positions pa pb,
    calculateLayout Examples.two_children_root options = Some positions
    /\ positions !! "node-0" = Some pa
    /\ positions !! "node-1" = Some pb.
Proof.
  destruct (layout_keys Examples.two_children_root options)
    as (positions & Hlayout & Hdom).
  assert (Hin : forall k, k ∈ ["node-0"; "node-1"] -> is_Some (positions !! k)).
  { intros k Hk. apply elem_of_dom. rewrite Hdom. apply elem_of_list_to_set.
    destruct (default Both (direction options)); cbn; set_solver. }
  destruct (Hin "node-0") as [pa Hpa]; [set_solver|].
  destruct (Hin "node-1") as [pb Hpb]; [set_solver|].
  by exists positions, pa, pb.
Qed.

Lemma layout_entry_of_node_witness :
  exists positions p,
    calculateLayout Examples.two_children_root Examples.no_options = Some positions
    /\ positions !! "node-1" = Some p
    /\ NodePosition.id p = "node-1"
    /\ NodePosition.text p = lit "B"
    /\ NodePosition.level p = 1%nat
    /\ NodePosition.width p = inject_Z 60
    /\ NodePosition.height p = inject_Z 36
    /\ NodePosition.hasChildren p = false
    /\ NodePosition.expanded p = false.
Proof.
  destruct (two_children_entries Examples.no_options)
    as (positions & pa & pb & Hlayout & Hpa & Hpb).
  destruct (layout_entry_of_node Examples.two_children_root Examples.no_options
              positions (Examples.leaf "node-1" "B" 1)
              two_children_NoDup Hlayout)
    as (p & Hp & H1 & H2 & H3 & H4 & H5 & H6 & H7 & _).
  { cbn. set_solver. }
  by exists positions, p.
Defined.

End layout_examples.

(** ** What a layout covers *)

Section coverage.

Import INodeData.

Local Open Scope Q_scope.

Lemma laid_out_NoDup (dir : Direction) (root : INodeData) :
  NoDup (map id (getAllNodes root)) -> NoDup (map id (laid_out dir root)).
Proof.
  intros Hnd.
  assert (Hsub : map id (laid_out dir root) `sublist_of` map id (getAllNodes root))
    by apply fmap_sublist, laid_out_sublist.
  exact (sublist_NoDup _ _ Hnd Hsub).
Qed.

(** X12: [calculateLayout] always returns: no node that it places lacks
    an entry of the dimension map.  The keys of the map that it returns are
    the identifiers of the root and of the nodes visible from the children
    of the root in the mode ['both'], and of the visible nodes in the modes
    ['left'] and ['right']; in the mode ['both'] under an expanded root
    these are the visible nodes too.  When the identifiers of the tree are
    distinct the map has one entry for each of these nodes. *)
Theorem calculateLayout_keys (root : INodeData) (options : LayoutOptions) :
  let dir := default Both (direction options) in
  exists positions,
    calculateLayout root options = Some positions
    /\ dom positions = list_to_set (map id (laid_out dir root))
    /\ (dir <> Both \/ truthy (expanded root) = true ->
        dom positions = list_to_set (map id (getVisibleNodes root)))
    /\ (NoDup (map id (getAllNodes root)) ->
        size positions = length (laid_out dir root)).
Proof.
  intros dir.
  destruct (layout_keys root options) as (positions & Hlayout & Hdom).
  exists positions. split_and!; [done|done| |].
  - intros Hmode.
    destruct (layout_keys_visible root options Hmode) as (positions' & Hl' & Hdom').
    by assert (positions' = positions) as -> by congruence.
  - intros Hnd. rewrite <- size_dom, Hdom.
    rewrite size_list_to_set by (by apply laid_out_NoDup).
    by rewrite length_map.
Qed.

(** X13: the nodes that [getVisibleNodes] lists are the nodes all of whose
    proper ancestors are expanded, in the order of [getAllNodes]. *)
Theorem visible_nodes_characterised (t : INodeData) :
  (forall n, n ∈ getVisibleNodes t <-> below_expanded t n)
  /\ getVisibleNodes t `sublist_of` getAllNodes t.
Proof.
  split; [intros n; apply getVisibleNodes_below_expanded|apply visible_sublist].
Qed.

(** X14: the dimension map.  Every node of the list has an entry; every
    entry is the estimate for a node of the list with that identifier, with
    a width of at least 60 and a height of at least the base height of the
    level of the node, itself at least 28; and when the identifiers are
    distinct the entry of a node is its own estimate.  The two default sizes
    have no influence. *)
Theorem dimension_map_entries (nodes : list INodeData) (nw nh : Q) :
  (forall n, n ∈ nodes ->
     is_Some (calculateNodeDimensions nodes nw nh !! id n))
  /\ (forall k d,
        calculateNodeDimensions nodes nw nh !! k = Some d ->
        exists n, n ∈ nodes /\ id n = k
                  /\ dim_width d = estimatedWidth n
                  /\ dim_height d = estimatedHeight n
                  /\ (60 <= dim_width d)%Z
                  /\ (28 <= baseHeight (getFontConfig (level n)) <= dim_height d)%Z)
  /\ (NoDup (map id nodes) ->
      forall n, n ∈ nodes ->
        calculateNodeDimensions nodes nw nh !! id n
        = Some {| dim_width := estimatedWidth n;
                  dim_height := estimatedHeight n |})
  /\ (forall nw' nh',
        calculateNodeDimensions nodes nw' nh' = calculateNodeDimensions nodes nw nh).
Proof.
  split_and!.
  - intros n Hn. by apply calculateNodeDimensions_dom.
  - intros k d Hd.
    apply calculateNodeDimensions_entry in Hd as (n & Hn & Hid & ->).
    exists n. cbn [dim_width dim_height]. split_and!; try done.
    + apply estimatedWidth_min.
    + apply baseHeight_min.
    + apply estimatedHeight_min.
  - intros Hnd n Hn. by apply calculateNodeDimensions_lookup.
  - done.
Qed.

(** X15: the layout of a freshly parsed outline.  The tree that
    [parseMarkdown] returns has an expanded root and collapsed nodes below
    it, so that [calculateLayout], in any of its modes, returns a map with
    exactly the root and its children: the first level of the outline. *)
Theorem parsed_outline_layout (markdown : jsstr) (options : LayoutOptions)
    (t : INodeData) :
  parseMarkdown markdown = Some t ->
  exists positions,
    calculateLayout t options = Some positions
    /\ dom positions = list_to_set (id t :: map id (children t))
    /\ size positions = S (length (children t)).
Proof.
  intros Hp.
  assert (Hnd : NoDup (map id (getAllNodes t))) by (by eapply parse_ids_NoDup).
  assert (Hflat : flat_map getVisibleNodes (children t) = children t).
  { assert (Hc : Forall (fun c => expanded c = Some false) (children t)).
    { apply Forall_forall. intros c Hc.
      destruct (parsed_below_root markdown t c Hp) as (_ & He & _); [|done].
      rewrite getAllNodes_unfold. simpl. apply elem_of_flat_map.
      exists c. split; [done|]. rewrite getAllNodes_unfold. left. }
    induction Hc as [|c cs Hc _ IH]; [done|]. cbn [flat_map].
    rewrite getVisibleNodes_unfold, Hc. simpl. by rewrite IH. }
  assert (Hlaid : laid_out (default Both (direction options)) t = t :: children t).
  { destruct (parseMarkdown_total markdown) as (s & t' & _ & _ & Hp' & _ & Hroot).
    assert (t' = t) as -> by congruence.
    unfold node_info in Hroot. injection Hroot as _ _ _ Hex.
    destruct (default Both (direction options)); cbn [laid_out];
      rewrite ?getVisibleNodes_unfold, ?Hex; simpl; by rewrite Hflat. }
  destruct (layout_keys t options) as (positions & Hlayout & Hdom).
  exists positions. rewrite Hlaid in Hdom. split_and!; [done|done|].
  rewrite <- size_dom, Hdom.
  rewrite size_list_to_set.
  - simpl. by rewrite length_map.
  - change (NoDup (map id (t :: children t))).
    rewrite <- Hlaid. by apply laid_out_NoDup.
Qed.

Lemma parsed_outline_layout_witness :
  exists positions,
    calculateLayout
      (Node "root" (lit "T") 0
         [Node "node-0" (lit "a") 2
            [Node "node-1" (lit "b") 3 [] (Some false)] (Some false)]
         (Some true))
      Examples.no_options = Some positions
    /\ dom positions = list_to_set ["root"; "node-0"]
    /\ size positions = 2%nat.
Proof.
  apply (parsed_outline_layout (lit "# T" ++ nl ++ lit "- a" ++ nl ++ lit "  - b")).
  reflexivity.
Defined.

End coverage.

(** ** The bounds of a layout *)

Section bounds.

Import INodeData.

Local Open Scope Q_scope.

Lemma fold_visit (entries : list NodePosition) (a b c d : Bounds.Num) :
  fold_left Bounds.visit entries (a, b, c, d)
  = (fold_left (fun acc pos => Bounds.num_min acc (box_minX pos)) entries a,
     fold_left (fun acc pos => Bounds.num_max acc (box_maxX pos)) entries b,
     fold_left (fun acc pos => Bounds.num_min acc (box_minY pos)) entries c,
     fold_left (fun acc pos => Bounds.num_max acc (box_maxY pos)) entries d).
Proof.
  revert a b c d. induction entries as [|p entries IH]; intros a b c d; [done|].
  simpl. by rewrite IH.
Qed.

Lemma bounds_of_unfold (entries : list NodePosition) :
  Bounds.bounds_of entries
  = {| Bounds.minX := Bounds.least box_minX entries;
       Bounds.maxX := Bounds.greatest box_maxX entries;
       Bounds.minY := Bounds.least box_minY entries;
       Bounds.maxY := Bounds.greatest box_maxY entries;
       Bounds.width := Bounds.num_sub (Bounds.greatest box_maxX entries)
                         (Bounds.least box_minX entries);
       Bounds.height := Bounds.num_sub (Bounds.greatest box_maxY entries)
                          (Bounds.least box_minY entries) |}.
Proof. unfold Bounds.bounds_of. by rewrite fold_visit. Qed.

Lemma fold_min_fin (f : NodePosition -> Q) (entries : list NodePosition) (a : Q) :
  exists r,
    fold_left (fun acc pos => Bounds.num_min acc (f pos)) entries (Bounds.Fin a)
    = Bounds.Fin r
    /\ r <= a
    /\ (forall p, p ∈ entries -> r <= f p)
    /\ (r == a \/ exists p, p ∈ entries /\ f p == r).
Proof.
  revert a. induction entries as [|p entries IH]; intros a.
  { exists a. split_and!; [done|lra| |by left].
    intros p Hp. by apply elem_of_nil in Hp. }
  simpl. destruct (IH (Qmin a (f p))) as (r & Hr & Hle & Hall & Hatt).
  pose proof (Q.le_min_l a (f p)). pose proof (Q.le_min_r a (f p)).
  exists r. split_and!; [done|lra| |].
  - intros q [->|Hq]%elem_of_cons; [lra|by apply Hall].
  - destruct Hatt as [Heq|(q & Hq & Hfq)].
    + destruct (Q.min_spec a (f p)) as [[_ Hm]|[_ Hm]].
      * left. lra.
      * right. exists p. split; [left|lra].
    + right. exists q. split; [by right|done].
Qed.

Lemma fold_max_fin (f : NodePosition -> Q) (entries : list NodePosition) (a : Q) :
  exists r,
    fold_left (fun acc pos => Bounds.num_max acc (f pos)) entries (Bounds.Fin a)
    = Bounds.Fin r
    /\ a <= r
    /\ (forall p, p ∈ entries -> f p <= r)
    /\ (r == a \/ exists p, p ∈ entries /\ f p == r).
Proof.
  revert a. induction entries as [|p entries IH]; intros a.
  { exists a. split_and!; [done|lra| |by left].
    intros p Hp. by apply elem_of_nil in Hp. }
  simpl. destruct (IH (Qmax a (f p))) as (r & Hr & Hle & Hall & Hatt).
  pose proof (Q.le_max_l a (f p)). pose proof (Q.le_max_r a (f p)).
  exists r. split_and!; [done|lra| |].
  - intros q [->|Hq]%elem_of_cons; [lra|by apply Hall].
  - destruct Hatt as [Heq|(q & Hq & Hfq)].
    + destruct (Q.max_spec a (f p)) as [[_ Hm]|[_ Hm]].
      * right. exists p. split; [left|lra].
      * left. lra.
    + right. exists q. split; [by right|done].
Qed.

(** The least value is below every value and is one of them. *)
Lemma least_spec (f : NodePosition -> Q) (entries : list NodePosition) :
  entries <> [] ->
  exists r,
    Bounds.least f entries = Bounds.Fin r
    /\ (forall p, p ∈ entries -> r <= f p)
    /\ exists p, p ∈ entries /\ f p == r.
Proof.
  destruct entries as [|p entries]; [done|]. intros _.
  unfold Bounds.least. simpl.
  destruct (fold_min_fin f entries (f p)) as (r & Hr & Hle & Hall & Hatt).
  exists r. split_and!; [done| |].
  - intros q [->|Hq]%elem_of_cons; [done|by apply Hall].
  - destruct Hatt as [Heq|(q & Hq & Hfq)].
    + exists p. split; [left|lra].
    + exists q. split; [by right|done].
Qed.

Lemma greatest_spec (f : NodePosition -> Q) (entries : list NodePosition) :
  entries <> [] ->
  exists r,
    Bounds.greatest f entries = Bounds.Fin r
    /\ (forall p, p ∈ entries -> f p <= r)
    /\ exists p, p ∈ entries /\ f p == r.
Proof.
  destruct entries as [|p entries]; [done|]. intros _.
  unfold Bounds.greatest. simpl.
  destruct (fold_max_fin f entries (f p)) as (r & Hr & Hle & Hall & Hatt).
  exists r. split_and!; [done| |].
  - intros q [->|Hq]%elem_of_cons; [done|by apply Hall].
  - destruct Hatt as [Heq|(q & Hq & Hfq)].
    + exists p. split; [left|lra].
    + exists q. split; [by right|done].
Qed.

Lemma num_eq_refl (a : Bounds.Num) : Bounds.num_eq a a.
Proof. by destruct a. Qed.

Lemma least_perm (f : NodePosition -> Q) (l1 l2 : list NodePosition) :
  l1 ≡ₚ l2 -> Bounds.num_eq (Bounds.least f l1) (Bounds.least f l2).
Proof.
  intros Hperm. destruct l1 as [|p l1].
  { apply Permutation_nil_l in Hperm as ->. apply num_eq_refl. }
  assert (Hne2 : l2 <> []).
  { intros ->. by apply Permutation_nil_r in Hperm. }
  destruct (least_spec f (p :: l1)) as (r1 & -> & Hall1 & q1 & Hq1 & Hf1); [done|].
  destruct (least_spec f l2 Hne2) as (r2 & -> & Hall2 & q2 & Hq2 & Hf2).
  simpl. rewrite Hperm in Hq1. rewrite <- Hperm in Hq2.
  specialize (Hall1 _ Hq2). specialize (Hall2 _ Hq1). lra.
Qed.

Lemma greatest_perm (f : NodePosition -> Q) (l1 l2 : list NodePosition) :
  l1 ≡ₚ l2 -> Bounds.num_eq (Bounds.greatest f l1) (Bounds.greatest f l2).
Proof.
  intros Hperm. destruct l1 as [|p l1].
  { apply Permutation_nil_l in Hperm as ->. apply num_eq_refl. }
  assert (Hne2 : l2 <> []).
  { intros ->. by apply Permutation_nil_r in Hperm. }
  destruct (greatest_spec f (p :: l1)) as (r1 & -> & Hall1 & q1 & Hq1 & Hf1); [done|].
  destruct (greatest_spec f l2 Hne2) as (r2 & -> & Hall2 & q2 & Hq2 & Hf2).
  simpl. rewrite Hperm in Hq1. rewrite <- Hperm in Hq2.
  specialize (Hall1 _ Hq2). specialize (Hall2 _ Hq1). lra.
Qed.

Lemma num_sub_proper (a a' b b' : Bounds.Num) :
  Bounds.num_eq a a' -> Bounds.num_eq b b' ->
  Bounds.num_eq (Bounds.num_sub a b) (Bounds.num_sub a' b').
Proof.
  destruct a, a', b, b'; simpl; try done. intros Ha Hb. by rewrite Ha, Hb.
Qed.

(** X17: the bounds do not depend on the order in which the entries are
    visited: visiting the entries of a map in any order gives the same six
    numbers. *)
Theorem bounds_in_any_order (positions : gmap string NodePosition)
    (entries : list NodePosition) :
  entries ≡ₚ map snd (map_to_list positions) ->
  Bounds.same (Bounds.bounds_of entries) (Bounds.calculateLayoutBounds positions).
Proof.
  intros Hperm. unfold Bounds.calculateLayoutBounds.
  rewrite !bounds_of_unfold. unfold Bounds.same. simpl.
  split_and!;
    try (by apply least_perm); try (by apply greatest_perm);
    apply num_sub_proper; try (by apply least_perm); by apply greatest_perm.
Qed.

Lemma bounds_in_any_order_witness :
  Bounds.same
    (Bounds.bounds_of [Examples.pos_child; Examples.pos_parent])
    (Bounds.calculateLayoutBounds
       (<["node-0" := Examples.pos_parent]>
          (<["node-1" := Examples.pos_child]> ∅))).
Proof.
  apply (bounds_in_any_order
           (<["node-0" := Examples.pos_parent]>
              (<["node-1" := Examples.pos_child]> ∅))
           [Examples.pos_child; Examples.pos_parent]).
  first
    [ replace (map snd (map_to_list
                 (<["node-0" := Examples.pos_parent]>
                    (<["node-1" := Examples.pos_child]> ∅))))
        with [Examples.pos_parent; Examples.pos_child]
        by (vm_compute; reflexivity);
      apply perm_swap
    | replace (map snd (map_to_list
                 (<["node-0" := Examples.pos_parent]>
                    (<["node-1" := Examples.pos_child]> ∅))))
        with [Examples.pos_child; Examples.pos_parent]
        by (vm_compute; reflexivity);
      reflexivity ].
Defined.

End bounds.

(** ** The tree of the renderer *)

Section renderer_trees.

Import INodeData.

Lemma TreeNode_ind' (P : TreeNode -> Prop) :
  (forall i t l cs e, Forall P cs -> P (TreeNode.Node i t l cs e)) ->
  forall n, P n.
Proof.
  intros H. fix IH 1. intros [i t l cs e]. apply H.
  induction cs as [|c cs IHcs]; constructor; [apply IH|exact IHcs].
Qed.

Lemma as_INodeData_unfold (n : TreeNode) :
  Renderer.as_INodeData n
  = Node (TreeNode.id n) (TreeNode.text n) (TreeNode.level n)
         (map Renderer.as_INodeData (TreeNode.children n))
         (Some (TreeNode.expanded n)).
Proof. by destruct n. Qed.

Lemma convert_defined (t : INodeData) :
  Forall (fun n => is_Some (expanded n)) (getAllNodes t) ->
  Renderer.as_INodeData (Renderer.convertToTreeNode t) = t.
Proof.
  induction t as [i tx l cs e IH] using INodeData_ind'.
  rewrite getAllNodes_unfold. cbn [children].
  intros [[b Hb] Hcs]%Forall_cons. simpl in Hb. subst e. simpl.
  f_equal.
  - rewrite List.map_map.
    rewrite <- (map_id cs) at 2. apply map_ext_Forall.
    rewrite Forall_forall in IH |- *. intros c Hc. apply IH; [done|].
    rewrite Forall_forall in Hcs |- *. intros n Hn. apply Hcs.
    apply elem_of_flat_map. by exists c.
  - by destruct b.
Qed.

(** X19: the renderer takes over a parsed tree as it is.  Every node of
    the tree that [parseMarkdown] returns has an expansion flag, so that
    [convertToTreeNode] followed by the cast back to [INodeData], under which
    the tree goes to [calculateLayout], gives the parsed tree again, flags
    included: the root expanded and everything else collapsed. *)
Theorem convertToTreeNode_parsed (markdown : jsstr) (t : INodeData) :
  parseMarkdown markdown = Some t ->
  Renderer.as_INodeData (Renderer.convertToTreeNode t) = t
  /\ TreeNode.expanded (Renderer.convertToTreeNode t) = true
  /\ Forall (fun c => TreeNode.expanded c = false)
            (flat_map Renderer.nodes
               (TreeNode.children (Renderer.convertToTreeNode t))).
Proof.
  intros Hp.
  destruct (parseMarkdown_total markdown) as (s & t' & _ & _ & Hp' & _ & Hroot).
  assert (t' = t) as -> by congruence.
  unfold node_info in Hroot. injection Hroot as _ _ _ Hex.
  assert (Hall : Forall (fun n => is_Some (expanded n)) (getAllNodes t)).
  { rewrite getAllNodes_unfold. constructor; [by rewrite Hex|].
    apply Forall_forall. intros n Hn.
    destruct (parsed_below_root markdown t n Hp) as (_ & -> & _); [|done].
    by rewrite getAllNodes_unfold. }
  split_and!.
  - by apply convert_defined.
  - destruct t. simpl in *. by rewrite Hex.
  - assert (Hbelow : Forall (fun n => expanded n = Some false)
                       (flat_map getAllNodes (children t))).
    { apply Forall_forall. intros n Hn.
      destruct (parsed_below_root markdown t n Hp) as (_ & -> & _); [|done].
      by rewrite getAllNodes_unfold. }
    clear -Hbelow. destruct t as [i tx l cs e]. cbn [children] in Hbelow.
    cbn [Renderer.convertToTreeNode TreeNode.children INodeData.children].
    induction cs as [|c cs IHcs]; [constructor|].
    cbn [flat_map map] in *. apply Forall_app in Hbelow as [Hc Hcs].
    apply Forall_app. split; [|by apply IHcs].
    clear IHcs Hcs. induction c as [ci ctx cl ccs ce IH] using INodeData_ind'.
    rewrite getAllNodes_unfold in Hc. cbn [children] in Hc.
    apply Forall_cons in Hc as [He Hc]. simpl in He. subst ce.
    cbn [Renderer.convertToTreeNode Renderer.nodes TreeNode.children
           INodeData.children INodeData.expanded].
    constructor; [done|].
    induction IH as [|c' cs' Hc' _ IHcs']; [constructor|].
    cbn [flat_map map] in *. apply Forall_app in Hc as [Hc1 Hc2].
    apply Forall_app. split; [by apply Hc'|by apply IHcs'].
Qed.

Lemma convertToTreeNode_parsed_witness :
  let t := Node "root" (lit "T") 0
             [Node "node-0" (lit "a") 2
                [Node "node-1" (lit "b") 3 [] (Some false)] (Some false)]
             (Some true) in
  Renderer.as_INodeData (Renderer.convertToTreeNode t) = t
  /\ TreeNode.expanded (Renderer.convertToTreeNode t) = true
  /\ Forall (fun c => TreeNode.expanded c = false)
            (flat_map Renderer.nodes
               (TreeNode.children (Renderer.convertToTreeNode t))).
Proof.
  intros t.
  apply (convertToTreeNode_parsed (lit "# T" ++ nl ++ lit "- a" ++ nl ++ lit "  - b") t).
  reflexivity.
Defined.

End renderer_trees.

Section renderer_lookup.

Lemma nodes_unfold (n : TreeNode) :
  Renderer.nodes n = n :: flat_map Renderer.nodes (TreeNode.children n).
Proof. by destruct n. Qed.

Lemma findNode_unfold (n : TreeNode) (k : string) :
  Renderer.findNode n k
  = if String.eqb (TreeNode.id n) k then Some n
    else foldr (fun child found =>
                  match Renderer.findNode child k with
                  | Some f => Some f
                  | None => found
                  end) None (TreeNode.children n).
Proof.
  destruct n as [i t l cs e]. simpl. destruct (String.eqb i k); [done|].
  induction cs as [|c cs IH]; [done|]. simpl. by rewrite IH.
Qed.

Lemma find_app {A} (f : A -> bool) (l1 l2 : list A) :
  List.find f (l1 ++ l2)
  = match List.find f l1 with Some x => Some x | None => List.find f l2 end.
Proof.
  induction l1 as [|x l1 IH]; [done|]. simpl. by destruct (f x).
Qed.

(** [findNode] returns the first node with the identifier, in document
    order. *)
Lemma findNode_find (t : TreeNode) (k : string) :
  Renderer.findNode t k
  = List.find (fun n => String.eqb (TreeNode.id n) k) (Renderer.nodes t).
Proof.
  induction t as [i tx l cs e IH] using TreeNode_ind'.
  rewrite findNode_unfold, nodes_unfold. cbn [List.find TreeNode.id TreeNode.children].
  destruct (String.eqb i k); [done|].
  induction IH as [|c cs Hc _ IHcs]; [done|].
  cbn [foldr flat_map]. rewrite find_app, <- Hc, IHcs. done.
Qed.

Lemma find_none_iff (k : string) (l : list TreeNode) :
  List.find (fun n => String.eqb (TreeNode.id n) k) l = None
  <-> k ∉ map TreeNode.id l.
Proof.
  induction l as [|n l IH]; simpl.
  { split; [intros _ H; by apply elem_of_nil in H|done]. }
  destruct (String.eqb (TreeNode.id n) k) eqn:Hn.
  - apply String.eqb_eq in Hn. split; [done|]. intros H. exfalso. apply H.
    rewrite Hn. left.
  - apply String.eqb_neq in Hn. rewrite IH, not_elem_of_cons. naive_solver.
Qed.

Lemma find_some (k : string) (l : list TreeNode) (n : TreeNode) :
  List.find (fun n => String.eqb (TreeNode.id n) k) l = Some n ->
  n ∈ l /\ TreeNode.id n = k.
Proof.
  intros H. apply List.find_some in H as [Hin Hk].
  split; [by apply list_elem_of_In|by apply String.eqb_eq].
Qed.

Lemma buildMap_fold (t : TreeNode) (m : gmap string TreeNode) :
  Renderer.buildMap t m
  = fold_left (fun m n => <[TreeNode.id n := n]> m) (Renderer.nodes t) m.
Proof.
  revert m. induction t as [i tx l cs e IH] using TreeNode_ind'. intros m.
  rewrite nodes_unfold. cbn [fold_left TreeNode.id TreeNode.children].
  cbn [Renderer.buildMap TreeNode.children TreeNode.id].
  generalize (<[i := TreeNode.Node i tx l cs e]> m). clear m.
  induction IH as [|c cs' Hc _ IHcs]; intros m; [done|].
  cbn [flat_map]. rewrite fold_left_app, <- Hc. apply IHcs.
Qed.

Lemma fold_insert_find (l : list TreeNode) (m : gmap string TreeNode)
    (k : string) :
  NoDup (map TreeNode.id l) ->
  fold_left (fun m n => <[TreeNode.id n := n]> m) l m !! k
  = match List.find (fun n => String.eqb (TreeNode.id n) k) l with
    | Some n => Some n
    | None => m !! k
    end.
Proof.
  revert m. induction l as [|n l IH]; intros m Hnd; [done|].
  simpl in Hnd. apply NoDup_cons in Hnd as [Hfresh Hnd].
  cbn [fold_left List.find]. rewrite IH by done.
  destruct (String.eqb (TreeNode.id n) k) eqn:Hn.
  - apply String.eqb_eq in Hn. subst k.
    apply find_none_iff in Hfresh. rewrite Hfresh. apply lookup_insert_eq.
  - apply String.eqb_neq in Hn. by rewrite lookup_insert_ne.
Qed.

(** X20: looking a node up.  [findNode] returns the first node of the
    tree, in document order, that has the identifier, and [null] exactly
    when no node has it; when the identifiers of the tree are distinct, the
    map [nodeLookupMap] that the renderer builds for the tree gives the same
    answer for every identifier. *)
Theorem findNode_first_match (t : TreeNode) (k : string) :
  Renderer.findNode t k
  = List.find (fun n => String.eqb (TreeNode.id n) k) (Renderer.nodes t)
  /\ (Renderer.findNode t k = None <-> k ∉ map TreeNode.id (Renderer.nodes t))
  /\ (forall n, Renderer.findNode t k = Some n ->
                n ∈ Renderer.nodes t /\ TreeNode.id n = k)
  /\ (NoDup (map TreeNode.id (Renderer.nodes t)) ->
      Renderer.nodeLookupMap (Some t) !! k = Renderer.findNode t k).
Proof.
  split_and!.
  - apply findNode_find.
  - rewrite findNode_find. apply find_none_iff.
  - intros n. rewrite findNode_find. apply find_some.
  - intros Hnd. unfold Renderer.nodeLookupMap.
    rewrite buildMap_fold, fold_insert_find, findNode_find by done.
    destruct (List.find _ _); [done|apply lookup_empty].
Qed.

End renderer_lookup.

Section renderer_update.

Lemma updateNodeExpanded_unfold (n : TreeNode) (k : string) (b : bool) :
  Renderer.updateNodeExpanded n k b
  = if String.eqb (TreeNode.id n) k
    then TreeNode.Node (TreeNode.id n) (TreeNode.text n) (TreeNode.level n)
           (TreeNode.children n) b
    else TreeNode.Node (TreeNode.id n) (TreeNode.text n) (TreeNode.level n)
           (map (fun c => Renderer.updateNodeExpanded c k b) (TreeNode.children n))
           (TreeNode.expanded n).
Proof. by destruct n. Qed.

Lemma map_nodes_children {B} (f : TreeNode -> TreeNode) (g g' : TreeNode -> B)
    (cs : list TreeNode) :
  Forall (fun c => map g (Renderer.nodes (f c)) = map g' (Renderer.nodes c)) cs ->
  map g (flat_map Renderer.nodes (map f cs))
  = map g' (flat_map Renderer.nodes cs).
Proof.
  induction 1 as [|c cs Hc _ IH]; [done|].
  cbn [map flat_map]. by rewrite !List.map_app, Hc, IH.
Qed.

Lemma updateNodeExpanded_data (t : TreeNode) (k : string) (b : bool) :
  map (fun n => (TreeNode.id n, TreeNode.text n, TreeNode.level n))
      (Renderer.nodes (Renderer.updateNodeExpanded t k b))
  = map (fun n => (TreeNode.id n, TreeNode.text n, TreeNode.level n))
        (Renderer.nodes t).
Proof.
  induction t as [i tx l cs e IH] using TreeNode_ind'.
  rewrite updateNodeExpanded_unfold. cbn [TreeNode.id TreeNode.text TreeNode.level
    TreeNode.children TreeNode.expanded].
  destruct (String.eqb i k); rewrite !nodes_unfold; cbn [map TreeNode.id
    TreeNode.text TreeNode.level TreeNode.children]; f_equal.
  by apply map_nodes_children.
Qed.

Lemma updateNodeExpanded_ids (t : TreeNode) (k : string) (b : bool) :
  map TreeNode.id (Renderer.nodes (Renderer.updateNodeExpanded t k b))
  = map TreeNode.id (Renderer.nodes t).
Proof.
  pose proof (f_equal (map (fun x : string * jsstr * nat => x.1.1))
                (updateNodeExpanded_data t k b)) as H.
  by rewrite !List.map_map in H.
Qed.

Lemma updateNodeExpanded_flags (t : TreeNode) (k : string) (b : bool) :
  NoDup (map TreeNode.id (Renderer.nodes t)) ->
  map TreeNode.expanded (Renderer.nodes (Renderer.updateNodeExpanded t k b))
  = map (fun n => if String.eqb (TreeNode.id n) k then b else TreeNode.expanded n)
        (Renderer.nodes t).
Proof.
  induction t as [i tx l cs e IH] using TreeNode_ind'. intros Hnd.
  rewrite updateNodeExpanded_unfold. cbn [TreeNode.id TreeNode.text TreeNode.level
    TreeNode.children TreeNode.expanded].
  rewrite (nodes_unfold (TreeNode.Node i tx l cs e)) in Hnd |- *.
  cbn [map TreeNode.id TreeNode.children TreeNode.expanded] in Hnd |- *.
  apply NoDup_cons in Hnd as [Hfresh Hnd].
  destruct (String.eqb i k) eqn:Hi; rewrite nodes_unfold;
    cbn [map TreeNode.id TreeNode.children TreeNode.expanded]; f_equal.
  - apply String.eqb_eq in Hi. subst k.
    apply map_ext_Forall, Forall_forall. intros n Hn.
    destruct (String.eqb (TreeNode.id n) i) eqn:Hn'; [|done].
    apply String.eqb_eq in Hn'. exfalso. apply Hfresh. rewrite <- Hn'.
    apply list_elem_of_fmap. by exists n.
  - apply map_nodes_children.
    clear Hfresh Hi. induction IH as [|c cs' Hc _ IHcs]; [constructor|].
    cbn [flat_map] in Hnd. rewrite List.map_app in Hnd.
    apply NoDup_app in Hnd as (Hndc & _ & Hndcs).
    constructor; [by apply Hc|by apply IHcs].
Qed.

Lemma updateNodeExpanded_find (t : TreeNode) (k : string) (b : bool) :
  Renderer.findNode (Renderer.updateNodeExpanded t k b) k
  = (fun n => TreeNode.Node (TreeNode.id n) (TreeNode.text n) (TreeNode.level n)
                (TreeNode.children n) b)
    <$> Renderer.findNode t k.
Proof.
  induction t as [i tx l cs e IH] using TreeNode_ind'.
  rewrite updateNodeExpanded_unfold, (findNode_unfold (TreeNode.Node i tx l cs e)).
  cbn [TreeNode.id TreeNode.text TreeNode.level TreeNode.children TreeNode.expanded].
  destruct (String.eqb i k) eqn:Hi; rewrite findNode_unfold;
    cbn [TreeNode.id TreeNode.children]; rewrite Hi; [done|].
  induction IH as [|c cs' Hc _ IHcs]; [done|].
  cbn [map foldr]. rewrite Hc, IHcs.
  by destruct (Renderer.findNode c k).
Qed.

Lemma updateNodeExpanded_absent (t : TreeNode) (k : string) (b : bool) :
  k ∉ map TreeNode.id (Renderer.nodes t) ->
  Renderer.updateNodeExpanded t k b = t.
Proof.
  induction t as [i tx l cs e IH] using TreeNode_ind'.
  rewrite nodes_unfold. cbn [map TreeNode.id TreeNode.children].
  intros [Hi Hcs]%not_elem_of_cons.
  rewrite updateNodeExpanded_unfold. cbn [TreeNode.id TreeNode.text TreeNode.level
    TreeNode.children TreeNode.expanded].
  apply not_eq_sym, String.eqb_neq in Hi. rewrite Hi. f_equal.
  rewrite <- (map_id cs) at 2. apply map_ext_Forall.
  induction IH as [|c cs' Hc _ IHcs]; [constructor|].
  cbn [flat_map] in Hcs. rewrite List.map_app in Hcs.
  apply not_elem_of_app in Hcs as [Hc1 Hc2].
  constructor; [by apply Hc|by apply IHcs].
Qed.

(** X21: [updateNodeExpanded] sets one flag and nothing else.  The result
    has the same nodes in the same order with the same identifiers, texts and
    levels; looking the target up in it gives the node that [findNode] finds
    in the old tree with the new flag, over unchanged children; a target
    that no node has leaves the tree as it is; and when the identifiers are
    distinct, the flag of every node but the target is the old one. *)
Theorem updateNodeExpanded_sets_one_flag (t : TreeNode) (k : string) (b : bool) :
  map (fun n => (TreeNode.id n, TreeNode.text n, TreeNode.level n))
      (Renderer.nodes (Renderer.updateNodeExpanded t k b))
  = map (fun n => (TreeNode.id n, TreeNode.text n, TreeNode.level n))
        (Renderer.nodes t)
  /\ Renderer.findNode (Renderer.updateNodeExpanded t k b) k
     = (fun n => TreeNode.Node (TreeNode.id n) (TreeNode.text n)
                   (TreeNode.level n) (TreeNode.children n) b)
       <$> Renderer.findNode t k
  /\ (k ∉ map TreeNode.id (Renderer.nodes t) ->
      Renderer.updateNodeExpanded t k b = t)
  /\ (NoDup (map TreeNode.id (Renderer.nodes t)) ->
      map TreeNode.expanded (Renderer.nodes (Renderer.updateNodeExpanded t k b))
      = map (fun n => if String.eqb (TreeNode.id n) k then b
                      else TreeNode.expanded n)
            (Renderer.nodes t)).
Proof.
  split_and!.
  - apply updateNodeExpanded_data.
  - apply updateNodeExpanded_find.
  - apply updateNodeExpanded_absent.
  - apply updateNodeExpanded_flags.
Qed.

End renderer_update.

Section renderer_expansion.

Import INodeData.

Lemma as_INodeData_ids (t : TreeNode) :
  map id (getAllNodes (Renderer.as_INodeData t))
  = map TreeNode.id (Renderer.nodes t).
Proof.
  induction t as [i tx l cs e IH] using TreeNode_ind'.
  rewrite as_INodeData_unfold, getAllNodes_unfold, nodes_unfold.
  cbn [map id children TreeNode.id TreeNode.children]. f_equal.
  induction IH as [|c cs' Hc _ IHcs]; [done|].
  cbn [map flat_map]. by rewrite !List.map_app, Hc, IHcs.
Qed.

Lemma expandAll_ids (t : TreeNode) :
  map TreeNode.id (Renderer.nodes (Renderer.expandAll t))
  = map TreeNode.id (Renderer.nodes t).
Proof.
  induction t as [i tx l cs e IH] using TreeNode_ind'.
  cbn [Renderer.expandAll TreeNode.id TreeNode.text TreeNode.level TreeNode.children].
  rewrite !nodes_unfold. cbn [map TreeNode.id TreeNode.children]. f_equal.
  by apply map_nodes_children.
Qed.

Lemma expandAll_visible (t : TreeNode) :
  getVisibleNodes (Renderer.as_INodeData (Renderer.expandAll t))
  = getAllNodes (Renderer.as_INodeData (Renderer.expandAll t)).
Proof.
  induction t as [i tx l cs e IH] using TreeNode_ind'.
  cbn [Renderer.expandAll TreeNode.id TreeNode.text TreeNode.level TreeNode.children].
  rewrite as_INodeData_unfold, getVisibleNodes_unfold, getAllNodes_unfold.
  cbn [children expanded TreeNode.children TreeNode.expanded].
  change (truthy (Some true)) with true. cbv iota.
  f_equal. induction IH as [|c cs' Hc _ IHcs]; [done|].
  cbn [map flat_map]. by rewrite Hc, IHcs.
Qed.

Lemma expandAll_laid_out (dir : Direction) (t : TreeNode) :
  laid_out dir (Renderer.as_INodeData (Renderer.expandAll t))
  = getAllNodes (Renderer.as_INodeData (Renderer.expandAll t)).
Proof.
  destruct dir; cbn [laid_out]; try apply expandAll_visible.
  rewrite <- expandAll_visible.
  rewrite (getVisibleNodes_unfold (Renderer.as_INodeData (Renderer.expandAll t))).
  by destruct t.
Qed.

Lemma collapseAll_visible (t : TreeNode) :
  getVisibleNodes (Renderer.as_INodeData (Renderer.collapseAll t))
  = [Renderer.as_INodeData (Renderer.collapseAll t)].
Proof. rewrite getVisibleNodes_unfold. by destruct t. Qed.

Lemma collapseAll_children (t : TreeNode) :
  map id (flat_map getVisibleNodes
            (children (Renderer.as_INodeData (Renderer.collapseAll t))))
  = map TreeNode.id (TreeNode.children t).
Proof.
  destruct t as [i tx l cs e].
  cbn [Renderer.collapseAll Renderer.as_INodeData children TreeNode.id
         TreeNode.text TreeNode.level TreeNode.children TreeNode.expanded].
  induction cs as [|c cs IH]; [done|].
  cbn [map flat_map]. rewrite collapseAll_visible. cbn [app map].
  rewrite IH. f_equal. by destruct c.
Qed.

(** X22: the two buttons of the toolbar.  After [expandAll] the layout
    of the tree, in any mode, has an entry for every node of the tree.  After
    [collapseAll] the layout in the modes ['left'] and ['right'] holds the
    root alone; in the mode ['both'] it still holds the children of the
    root. *)
Theorem expandAll_collapseAll_layout (t : TreeNode) (options : LayoutOptions) :
  (exists positions,
     calculateLayout (Renderer.as_INodeData (Renderer.expandAll t)) options
     = Some positions
     /\ dom positions = list_to_set (map TreeNode.id (Renderer.nodes t)))
  /\ (exists positions,
        calculateLayout (Renderer.as_INodeData (Renderer.collapseAll t)) options
        = Some positions
        /\ dom positions
           = match default Both (direction options) with
             | Both => list_to_set
                         (TreeNode.id t :: map TreeNode.id (TreeNode.children t))
             | _ => {[ TreeNode.id t ]}
             end).
Proof.
  split.
  - destruct (layout_keys (Renderer.as_INodeData (Renderer.expandAll t)) options)
      as (positions & Hlayout & Hdom).
    exists positions. split; [done|].
    by rewrite Hdom, expandAll_laid_out, as_INodeData_ids, expandAll_ids.
  - destruct (layout_keys (Renderer.as_INodeData (Renderer.collapseAll t)) options)
      as (positions & Hlayout & Hdom).
    exists positions. split; [done|]. rewrite Hdom.
    destruct (default Both (direction options)); cbn [laid_out].
    + rewrite collapseAll_visible. destruct t. simpl. set_solver.
    + rewrite collapseAll_visible. destruct t. simpl. set_solver.
    + cbn [map]. rewrite collapseAll_children. by destruct t.
Qed.

End renderer_expansion.

Section renderer_branches.

Lemma isDescendant_unfold (n : TreeNode) (k : string) :
  Renderer.isDescendant n k
  = if String.eqb (TreeNode.id n) k then true
    else existsb (fun c => Renderer.isDescendant c k) (TreeNode.children n).
Proof. by destruct n. Qed.

Lemma isDescendant_spec (n : TreeNode) (k : string) :
  Renderer.isDescendant n k = true <-> k ∈ map TreeNode.id (Renderer.nodes n).
Proof.
  induction n as [i tx l cs e IH] using TreeNode_ind'.
  rewrite isDescendant_unfold, nodes_unfold.
  cbn [map TreeNode.id TreeNode.children].
  destruct (String.eqb i k) eqn:Hi.
  - apply String.eqb_eq in Hi. subst. split; [intros _; left|done].
  - apply String.eqb_neq in Hi.
    rewrite elem_of_cons. rewrite existsb_exists.
    rewrite Forall_forall in IH. split.
    + intros (c & Hc%list_elem_of_In & Hd). right.
      apply IH in Hd; [|done].
      apply list_elem_of_fmap in Hd as (n & -> & Hn).
      apply list_elem_of_fmap. exists n. split; [done|].
      apply elem_of_flat_map. by exists c.
    + intros [->|Hk]; [done|].
      apply list_elem_of_fmap in Hk as (n & -> & Hn).
      apply elem_of_flat_map in Hn as (c & Hc & Hn).
      exists c. split; [by apply list_elem_of_In|].
      apply IH; [done|]. apply list_elem_of_fmap. by exists n.
Qed.

Lemma branch_loop (k : string) (cs : list TreeNode) (i : nat) :
  let r := (fix loop (cs : list TreeNode) (i : nat) : Z :=
              match cs with
              | [] => (-1)%Z
              | child :: rest =>
                  if Renderer.isDescendant child k then (Z.of_nat i mod 5)%Z
                  else loop rest (S i)
              end) cs i in
  (-1 <= r <= 4)%Z
  /\ (k ∉ map TreeNode.id (flat_map Renderer.nodes cs) -> r = (-1)%Z)
  /\ (forall pre c post,
        cs = pre ++ c :: post ->
        k ∉ map TreeNode.id (flat_map Renderer.nodes pre) ->
        k ∈ map TreeNode.id (Renderer.nodes c) ->
        r = (Z.of_nat (i + length pre) mod 5)%Z).
Proof.
  revert i. induction cs as [|c0 cs IH]; intros i; cbv zeta.
  { split; [lia|]. split; [done|]. intros pre c post H. by destruct pre. }
  destruct (Renderer.isDescendant c0 k) eqn:Hd.
  - apply isDescendant_spec in Hd. split; [|split].
    + pose proof (Z.mod_pos_bound (Z.of_nat i) 5). lia.
    + intros Hk. exfalso. apply Hk. cbn [flat_map]. rewrite List.map_app.
      apply elem_of_app. by left.
    + intros pre c post Hcs Hpre Hc. destruct pre as [|p pre].
      * simpl. by rewrite Nat.add_0_r.
      * exfalso. apply Hpre. injection Hcs as <- _.
        cbn [flat_map]. rewrite List.map_app. apply elem_of_app. by left.
  - assert (Hnot : k ∉ map TreeNode.id (Renderer.nodes c0)).
    { intros Hk. apply isDescendant_spec in Hk. congruence. }
    destruct (IH (S i)) as (Hrange & Hnone & Hsome). cbv zeta in *.
    split; [done|]. split.
    + intros Hk. apply Hnone. intros Hk'. apply Hk.
      cbn [flat_map]. rewrite List.map_app. apply elem_of_app. by right.
    + intros pre c post Hcs Hpre Hc. destruct pre as [|p pre].
      * injection Hcs as <- _. done.
      * injection Hcs as <- Hcs.
        rewrite (Hsome pre c post Hcs); [|intros Hk; apply Hpre|done].
        -- simpl. f_equal. f_equal. lia.
        -- cbn [flat_map]. rewrite List.map_app. apply elem_of_app. by right.
Qed.

(** X23: the branch of a node.  [getBranchIndex] is -1 without a tree, for
    the identifier ['root'] and for an identifier that occurs below none of
    the children of the root; otherwise it is the position, counted from 0
    and taken modulo 5, of the first child of the root below which (the
    child included) the identifier occurs.  It is always between -1 and
    4. *)
Theorem getBranchIndex_first_branch (treeData : option TreeNode) (k : string) :
  (-1 <= Renderer.getBranchIndex treeData k <= 4)%Z
  /\ Renderer.getBranchIndex None k = (-1)%Z
  /\ Renderer.getBranchIndex treeData "root" = (-1)%Z
  /\ (forall t,
        treeData = Some t -> k <> "root" ->
        (k ∉ map TreeNode.id (flat_map Renderer.nodes (TreeNode.children t)) ->
         Renderer.getBranchIndex treeData k = (-1)%Z)
        /\ (forall pre c post,
              TreeNode.children t = pre ++ c :: post ->
              k ∉ map TreeNode.id (flat_map Renderer.nodes pre) ->
              k ∈ map TreeNode.id (Renderer.nodes c) ->
              Renderer.getBranchIndex treeData k
              = (Z.of_nat (length pre) mod 5)%Z)).
Proof.
  split; [|split; [|split]].
  - destruct treeData as [t|]; [|simpl; lia].
    unfold Renderer.getBranchIndex. destruct (String.eqb k "root"); [lia|].
    by destruct (branch_loop k (TreeNode.children t) 0) as (? & _).
  - done.
  - by destruct treeData.
  - intros t -> Hk. unfold Renderer.getBranchIndex.
    apply String.eqb_neq in Hk. rewrite Hk.
    destruct (branch_loop k (TreeNode.children t) 0) as (_ & Hnone & Hsome).
    split; [done|]. intros pre c post Hcs Hpre Hc.
    by rewrite (Hsome pre c post Hcs Hpre Hc).
Qed.

End renderer_branches.

Section renderer_boxes.

Import INodeData.

Local Open Scope Q_scope.

Lemma layout_key_node (root : INodeData) (options : LayoutOptions)
    (positions : gmap string NodePosition) (k : string) (p : NodePosition) :
  calculateLayout root options = Some positions ->
  positions !! k = Some p ->
  exists n, n ∈ laid_out (default Both (direction options)) root /\ id n = k.
Proof.
  intros Hlayout Hk.
  destruct (layout_keys root options) as (positions' & Hlayout' & Hdom).
  assert (positions' = positions) as -> by congruence.
  apply (elem_of_dom_2 positions) in Hk.
  rewrite Hdom in Hk. apply elem_of_list_to_set in Hk.
  apply list_elem_of_fmap in Hk as (n & -> & Hn). by exists n.
Qed.




End renderer_boxes.

Section renderer_clicks.

Import INodeData.

Lemma collectIds_unfold (n : TreeNode) :
  Renderer.collectIds n
  = TreeNode.id n :: (if TreeNode.expanded n
                      then flat_map Renderer.collectIds (TreeNode.children n)
                      else []).
Proof. by destruct n. Qed.

(** The identifiers that the renderer collects are those of the nodes that
    [getVisibleNodes] lists. *)
Lemma collectIds_visible (t : TreeNode) :
  Renderer.collectIds t = map id (getVisibleNodes (Renderer.as_INodeData t)).
Proof.
  induction t as [i tx l cs e IH] using TreeNode_ind'.
  rewrite collectIds_unfold, as_INodeData_unfold, getVisibleNodes_unfold.
  cbn [map id children expanded TreeNode.id TreeNode.children TreeNode.expanded].
  f_equal. destruct e; [|done]. change (truthy (Some true)) with true. cbv iota.
  induction IH as [|c cs' Hc _ IHcs]; [done|].
  cbn [map flat_map]. by rewrite List.map_app, Hc, IHcs.
Qed.

Lemma collectIds_nodes (t : TreeNode) (k : string) :
  k ∈ Renderer.collectIds t -> k ∈ map TreeNode.id (Renderer.nodes t).
Proof.
  rewrite collectIds_visible, <- as_INodeData_ids. intros Hk.
  apply list_elem_of_fmap in Hk as (n & -> & Hn).
  apply list_elem_of_fmap. exists n. split; [done|].
  eapply elem_of_sublist; [exact Hn|apply visible_sublist].
Qed.

Lemma nodes_self (t : TreeNode) : t ∈ Renderer.nodes t.
Proof. rewrite nodes_unfold. left. Qed.

Lemma nodes_trans (t n m : TreeNode) :
  n ∈ Renderer.nodes t -> m ∈ Renderer.nodes n -> m ∈ Renderer.nodes t.
Proof.
  induction t as [i tx l cs e IH] using TreeNode_ind'.
  rewrite (nodes_unfold (TreeNode.Node i tx l cs e)). cbn [TreeNode.children].
  intros [->|Hn]%elem_of_cons Hm.
  - by rewrite nodes_unfold in Hm.
  - right. apply elem_of_flat_map in Hn as (c & Hc & Hn).
    apply elem_of_flat_map. exists c. split; [done|].
    rewrite Forall_forall in IH. by apply IH.
Qed.

(** With distinct identifiers, an identifier occurs below one child only. *)
Lemma one_branch (cs : list TreeNode) (c0 c1 : TreeNode) (k : string) :
  NoDup (map TreeNode.id (flat_map Renderer.nodes cs)) ->
  c0 ∈ cs -> c1 ∈ cs ->
  k ∈ map TreeNode.id (Renderer.nodes c0) ->
  k ∈ map TreeNode.id (Renderer.nodes c1) ->
  c0 = c1.
Proof.
  induction cs as [|c cs IH]; intros Hnd H0 H1 Hk0 Hk1.
  { by apply elem_of_nil in H0. }
  cbn [flat_map] in Hnd. rewrite List.map_app in Hnd.
  apply NoDup_app in Hnd as (_ & Hdisj & Hnd).
  assert (Hin : forall c', c' ∈ cs -> k ∈ map TreeNode.id (Renderer.nodes c') ->
                           k ∈ map TreeNode.id (flat_map Renderer.nodes cs)).
  { intros c' Hc' Hk. apply list_elem_of_fmap in Hk as (n & -> & Hn).
    apply list_elem_of_fmap. exists n. split; [done|].
    apply elem_of_flat_map. by exists c'. }
  apply elem_of_cons in H0 as [->|H0]; apply elem_of_cons in H1 as [->|H1].
  - done.
  - exfalso. eapply Hdisj; [exact Hk0|by eapply Hin].
  - exfalso. eapply Hdisj; [exact Hk1|by eapply Hin].
  - by apply IH.
Qed.

Lemma elem_of_map_2 {A B} (f : A -> B) (l : list A) (x : A) :
  x ∈ l -> f x ∈ map f l.
Proof. intros Hx. apply list_elem_of_In, in_map. by apply list_elem_of_In. Qed.

Lemma elem_of_map_1 {A B} (f : A -> B) (l : list A) (y : B) :
  y ∈ map f l -> exists x, y = f x /\ x ∈ l.
Proof.
  intros Hy. apply list_elem_of_In, in_map_iff in Hy as (x & <- & Hx).
  exists x. split; [done|]. by apply list_elem_of_In.
Qed.

Lemma collect_update_true (t : TreeNode) (k : string) :
  Renderer.collectIds t ⊆ Renderer.collectIds (Renderer.updateNodeExpanded t k true).
Proof.
  induction t as [i tx l cs e IH] using TreeNode_ind'.
  rewrite updateNodeExpanded_unfold, (collectIds_unfold (TreeNode.Node i tx l cs e)).
  cbn [TreeNode.id TreeNode.text TreeNode.level TreeNode.children TreeNode.expanded].
  destruct (String.eqb i k); rewrite collectIds_unfold;
    cbn [TreeNode.id TreeNode.children TreeNode.expanded].
  - destruct e; set_solver.
  - destruct e; [|set_solver].
    intros x [->|Hx]%elem_of_cons; [left|right].
    apply elem_of_flat_map in Hx as (c & Hc & Hx).
    apply elem_of_flat_map. exists (Renderer.updateNodeExpanded c k true).
    split; [by apply (elem_of_map_2 (fun c => Renderer.updateNodeExpanded c k true))|].
    rewrite Forall_forall in IH. by apply IH.
Qed.

Lemma collect_update_false (t : TreeNode) (k : string) :
  Renderer.collectIds (Renderer.updateNodeExpanded t k false) ⊆ Renderer.collectIds t.
Proof.
  induction t as [i tx l cs e IH] using TreeNode_ind'.
  rewrite updateNodeExpanded_unfold, (collectIds_unfold (TreeNode.Node i tx l cs e)).
  cbn [TreeNode.id TreeNode.text TreeNode.level TreeNode.children TreeNode.expanded].
  destruct (String.eqb i k); rewrite collectIds_unfold;
    cbn [TreeNode.id TreeNode.children TreeNode.expanded].
  - set_solver.
  - destruct e; [|set_solver].
    intros x [->|Hx]%elem_of_cons; [left|right].
    apply elem_of_flat_map in Hx as (c' & Hc' & Hx).
    apply elem_of_map_1 in Hc' as (c & -> & Hc).
    apply elem_of_flat_map. exists c. split; [done|].
    rewrite Forall_forall in IH. by apply IH.
Qed.

Lemma same_id_same_node (t n : TreeNode) :
  NoDup (map TreeNode.id (Renderer.nodes t)) ->
  n ∈ Renderer.nodes t -> TreeNode.id n = TreeNode.id t -> n = t.
Proof.
  rewrite nodes_unfold. cbn [map]. intros [Hfresh _]%NoDup_cons.
  intros [->|Hn]%elem_of_cons Hid; [done|].
  exfalso. apply Hfresh. rewrite <- Hid. apply list_elem_of_fmap. by exists n.
Qed.

Lemma children_NoDup (t : TreeNode) :
  NoDup (map TreeNode.id (Renderer.nodes t)) ->
  NoDup (map TreeNode.id (flat_map Renderer.nodes (TreeNode.children t)))
  /\ Forall (fun c => NoDup (map TreeNode.id (Renderer.nodes c)))
            (TreeNode.children t).
Proof.
  rewrite nodes_unfold. cbn [map]. intros [_ Hnd]%NoDup_cons. split; [done|].
  induction (TreeNode.children t) as [|c cs IH]; [constructor|].
  cbn [flat_map] in Hnd. rewrite List.map_app in Hnd.
  apply NoDup_app in Hnd as (Hc & _ & Hcs). constructor; [done|by apply IH].
Qed.

Lemma expand_shows_children (t n c : TreeNode) :
  NoDup (map TreeNode.id (Renderer.nodes t)) ->
  n ∈ Renderer.nodes t ->
  TreeNode.id n ∈ Renderer.collectIds t ->
  c ∈ TreeNode.children n ->
  TreeNode.id c
  ∈ Renderer.collectIds (Renderer.updateNodeExpanded t (TreeNode.id n) true).
Proof.
  induction t as [i tx l cs e IH] using TreeNode_ind'.
  intros Hnd Hn Hvis Hc.
  destruct (children_NoDup _ Hnd) as [Hndcs Hndc]. cbn [TreeNode.children] in *.
  rewrite updateNodeExpanded_unfold.
  cbn [TreeNode.id TreeNode.text TreeNode.level TreeNode.children TreeNode.expanded].
  destruct (String.eqb i (TreeNode.id n)) eqn:Hi.
  - apply String.eqb_eq in Hi.
    assert (n = TreeNode.Node i tx l cs e) as ->
      by (by apply same_id_same_node).
    rewrite collectIds_unfold. cbn [TreeNode.id TreeNode.children TreeNode.expanded] in *.
    right. apply elem_of_flat_map. exists c. split; [done|].
    rewrite collectIds_unfold. left.
  - apply String.eqb_neq in Hi.
    rewrite nodes_unfold in Hn. cbn [TreeNode.children] in Hn.
    apply elem_of_cons in Hn as [->|Hn]; [done|].
    apply elem_of_flat_map in Hn as (c0 & Hc0 & Hn).
    rewrite collectIds_unfold in Hvis.
    cbn [TreeNode.id TreeNode.children TreeNode.expanded] in Hvis.
    apply elem_of_cons in Hvis as [Hvis|Hvis]; [done|].
    destruct e; [|by apply elem_of_nil in Hvis].
    apply elem_of_flat_map in Hvis as (c1 & Hc1 & Hvis).
    assert (c0 = c1) as <-.
    { apply (one_branch cs c0 c1 (TreeNode.id n)); try done.
      - apply list_elem_of_fmap. by exists n.
      - by apply collectIds_nodes. }
    rewrite collectIds_unfold. cbn [TreeNode.id TreeNode.children TreeNode.expanded].
    right. apply elem_of_flat_map.
    exists (Renderer.updateNodeExpanded c0 (TreeNode.id n) true).
    split; [by apply (elem_of_map_2
                        (fun c => Renderer.updateNodeExpanded c (TreeNode.id n) true))|].
    rewrite Forall_forall in IH, Hndc. by apply IH; auto.
Qed.

Lemma collapse_hides_descendants (t n m : TreeNode) :
  NoDup (map TreeNode.id (Renderer.nodes t)) ->
  n ∈ Renderer.nodes t ->
  m ∈ flat_map Renderer.nodes (TreeNode.children n) ->
  TreeNode.id m
  ∉ Renderer.collectIds (Renderer.updateNodeExpanded t (TreeNode.id n) false).
Proof.
  induction t as [i tx l cs e IH] using TreeNode_ind'.
  intros Hnd Hn Hm.
  destruct (children_NoDup _ Hnd) as [Hndcs Hndc]. cbn [TreeNode.children] in *.
  assert (Hm' : m ∈ Renderer.nodes n) by (rewrite nodes_unfold; by right).
  pose proof (nodes_trans _ _ _ Hn Hm') as Hmt.
  rewrite updateNodeExpanded_unfold.
  cbn [TreeNode.id TreeNode.text TreeNode.level TreeNode.children TreeNode.expanded].
  destruct (String.eqb i (TreeNode.id n)) eqn:Hi.
  - apply String.eqb_eq in Hi.
    assert (n = TreeNode.Node i tx l cs e) as ->
      by (by apply same_id_same_node).
    rewrite collectIds_unfold. cbn [TreeNode.id TreeNode.children TreeNode.expanded] in *.
    intros [Hid|Hnil]%elem_of_cons; [|by apply elem_of_nil in Hnil].
    rewrite (nodes_unfold (TreeNode.Node i tx l cs e)) in Hnd. cbn [map] in Hnd.
    apply NoDup_cons in Hnd as [Hfresh _]. apply Hfresh.
    cbn [TreeNode.id TreeNode.children]. rewrite <- Hid.
    apply list_elem_of_fmap. by exists m.
  - apply String.eqb_neq in Hi.
    rewrite nodes_unfold in Hn. cbn [TreeNode.children] in Hn.
    apply elem_of_cons in Hn as [->|Hn]; [done|].
    apply elem_of_flat_map in Hn as (c0 & Hc0 & Hn).
    pose proof (nodes_trans _ _ _ Hn Hm') as Hm0.
    rewrite collectIds_unfold. cbn [TreeNode.id TreeNode.children TreeNode.expanded].
    intros [Hid|Hin]%elem_of_cons.
    + rewrite (nodes_unfold (TreeNode.Node i tx l cs e)) in Hnd. cbn [map] in Hnd.
      apply NoDup_cons in Hnd as [Hfresh _]. apply Hfresh.
      cbn [TreeNode.id TreeNode.children]. rewrite <- Hid.
      apply list_elem_of_fmap. exists m. split; [done|].
      apply elem_of_flat_map. by exists c0.
    + destruct e; [|by apply elem_of_nil in Hin].
      apply elem_of_flat_map in Hin as (c1' & Hc1' & Hin).
      apply elem_of_map_1 in Hc1' as (c1 & -> & Hc1).
      assert (c0 = c1) as <-.
      { apply (one_branch cs c0 c1 (TreeNode.id m)); try done.
        - apply list_elem_of_fmap. by exists m.
        - rewrite <- (updateNodeExpanded_ids c1 (TreeNode.id n) false).
          by apply collectIds_nodes. }
      rewrite Forall_forall in IH, Hndc. by eapply (IH c0 Hc0); auto.
Qed.

(** X25: a click on a collapsed node shows its children.  In a tree with
    distinct identifiers, [handleNodeClick] on a collapsed node that has
    children replaces the tree by one whose layout, in the modes ['left'] and
    ['right'], keeps every entry that the layout of the old tree had and,
    when the node itself had an entry, has an entry for each of its
    children. *)
Theorem click_on_collapsed_node (t n : TreeNode) (options : LayoutOptions) :
  NoDup (map TreeNode.id (Renderer.nodes t)) ->
  n ∈ Renderer.nodes t ->
  TreeNode.children n <> [] ->
  TreeNode.expanded n = false ->
  default Both (direction options) <> Both ->
  exists t' positions positions',
    Renderer.handleNodeClick (Some t) n = Some t'
    /\ calculateLayout (Renderer.as_INodeData t) options = Some positions
    /\ calculateLayout (Renderer.as_INodeData t') options = Some positions'
    /\ dom positions ⊆ dom positions'
    /\ (TreeNode.id n ∈ dom positions ->
        forall c, c ∈ TreeNode.children n -> TreeNode.id c ∈ dom positions').
Proof.
  intros Hnd Hn Hcs Hexp Hdir.
  set (t' := Renderer.updateNodeExpanded t (TreeNode.id n) true).
  destruct (layout_keys_visible (Renderer.as_INodeData t) options (or_introl Hdir))
    as (positions & Hlayout & Hdom).
  destruct (layout_keys_visible (Renderer.as_INodeData t') options (or_introl Hdir))
    as (positions' & Hlayout' & Hdom').
  rewrite <- collectIds_visible in Hdom, Hdom'.
  exists t', positions, positions'. split_and!; [|done|done| |].
  - unfold Renderer.handleNodeClick. rewrite Hexp.
    apply is_empty_false in Hcs. by rewrite Hcs.
  - rewrite Hdom, Hdom'. intros k Hk%elem_of_list_to_set.
    apply elem_of_list_to_set. by apply collect_update_true.
  - rewrite Hdom, Hdom'. intros Hk%elem_of_list_to_set c Hc.
    apply elem_of_list_to_set. by apply expand_shows_children.
Qed.

(** X26: a click on an expanded node hides what is below it.  In a tree
    with distinct identifiers, [handleNodeClick] on an expanded node that has
    children replaces the tree by one whose layout, in the modes ['left'] and
    ['right'], has no entry that the layout of the old tree did not have, and
    no entry for any node below the clicked one. *)
Theorem click_on_expanded_node (t n : TreeNode) (options : LayoutOptions) :
  NoDup (map TreeNode.id (Renderer.nodes t)) ->
  n ∈ Renderer.nodes t ->
  TreeNode.children n <> [] ->
  TreeNode.expanded n = true ->
  default Both (direction options) <> Both ->
  exists t' positions positions',
    Renderer.handleNodeClick (Some t) n = Some t'
    /\ calculateLayout (Renderer.as_INodeData t) options = Some positions
    /\ calculateLayout (Renderer.as_INodeData t') options = Some positions'
    /\ dom positions' ⊆ dom positions
    /\ (forall m, m ∈ flat_map Renderer.nodes (TreeNode.children n) ->
                  TreeNode.id m ∉ dom positions').
Proof.
  intros Hnd Hn Hcs Hexp Hdir.
  set (t' := Renderer.updateNodeExpanded t (TreeNode.id n) false).
  destruct (layout_keys_visible (Renderer.as_INodeData t) options (or_introl Hdir))
    as (positions & Hlayout & Hdom).
  destruct (layout_keys_visible (Renderer.as_INodeData t') options (or_introl Hdir))
    as (positions' & Hlayout' & Hdom').
  rewrite <- collectIds_visible in Hdom, Hdom'.
  exists t', positions, positions'. split_and!; [|done|done| |].
  - unfold Renderer.handleNodeClick. rewrite Hexp.
    apply is_empty_false in Hcs. by rewrite Hcs.
  - rewrite Hdom, Hdom'. intros k Hk%elem_of_list_to_set.
    apply elem_of_list_to_set.
    by apply (collect_update_false t (TreeNode.id n) k).
  - rewrite Hdom'. intros m Hm Hk%elem_of_list_to_set.
    by eapply collapse_hides_descendants.
Qed.

Lemma example_tree_NoDup (flag : bool) :
  NoDup (map TreeNode.id (Renderer.nodes (example_tree flag))).
Proof. vm_compute. repeat constructor; set_solver. Qed.

Lemma click_on_collapsed_node_witness :
  exists t' positions positions',
    Renderer.handleNodeClick (Some (example_tree false)) (example_branch false)
    = Some t'
    /\ calculateLayout (Renderer.as_INodeData (example_tree false))
         (Examples.with_direction Right 0) = Some positions
    /\ calculateLayout (Renderer.as_INodeData t')
         (Examples.with_direction Right 0) = Some positions'
    /\ dom positions ⊆ dom positions'
    /\ (TreeNode.id (example_branch false) ∈ dom positions ->
        forall c, c ∈ TreeNode.children (example_branch false) ->
                  TreeNode.id c ∈ dom positions').
Proof.
  apply (click_on_collapsed_node (example_tree false) (example_branch false)
           (Examples.with_direction Right 0));
    [apply example_tree_NoDup|cbn; set_solver|done|done|done].
Defined.

Lemma click_on_expanded_node_witness :
  exists t' positions positions',
    Renderer.handleNodeClick (Some (example_tree true)) (example_branch true)
    = Some t'
    /\ calculateLayout (Renderer.as_INodeData (example_tree true))
         (Examples.with_direction Right 0) = Some positions
    /\ calculateLayout (Renderer.as_INodeData t')
         (Examples.with_direction Right 0) = Some positions'
    /\ dom positions' ⊆ dom positions
    /\ (forall m, m ∈ flat_map Renderer.nodes
                        (TreeNode.children (example_branch true)) ->
                  TreeNode.id m ∉ dom positions').
Proof.
  apply (click_on_expanded_node (example_tree true) (example_branch true)
           (Examples.with_direction Right 0));
    [apply example_tree_NoDup|cbn; set_solver|done|done|done].
Defined.

End renderer_clicks.

(** ** Mirror images and translations of a layout *)

Section symmetry.

Import INodeData.

Local Open Scope Q_scope.

Variable dimensions : gmap string Dim.
Variable hs vs : Q.
Variable s t : Q.

Lemma images_insert (l r : gmap string NodePosition) (k : string)
    (p p' : NodePosition) :
  images s t l r -> image s t p p' ->
  images s t (<[k := p]> l) (<[k := p']> r).
Proof.
  intros Hlr Hp k'. destruct (decide (k = k')) as [->|Hne].
  - by rewrite !lookup_insert_eq.
  - rewrite !lookup_insert_ne by done. apply Hlr.
Qed.

Lemma place_children_images
    (recL recR : INodeData -> gmap string NodePosition -> Q -> Q
                 -> option (gmap string NodePosition))
    (xOfL xOfR : Q -> Q) (pid : string) (cs : list INodeData) :
  (forall width, xOfR width == s * xOfL width + t) ->
  Forall (fun c =>
            forall l r xL xR y,
              images s t l r -> xR == s * xL + t ->
              related s t (recL c l xL y) (recR c r xR y)) cs ->
  forall l r yOffset,
    images s t l r ->
    related s t (place_children dimensions vs recL xOfL pid cs l yOffset)
                (place_children dimensions vs recR xOfR pid cs r yOffset).
Proof.
  intros HxOf Hrec.
  induction cs as [|c cs IH]; intros l r yOffset Hlr.
  - exact Hlr.
  - apply Forall_cons in Hrec as [Hc Hrec].
    simpl place_children.
    destruct (dimensions !! id c) as [d|]; [|done].
    destruct (calculateNodeBranchHeight dimensions vs c) as [bh|]; [|done].
    match goal with
    | |- context [<[id c := ?p]> l] => set (pl := p)
    end.
    match goal with
    | |- context [<[id c := ?p]> r] => set (pr := p)
    end.
    assert (Himg : images s t (<[id c := pl]> l) (<[id c := pr]> r)).
    { apply images_insert; [done|].
      unfold image, pl, pr.
      cbn [NodePosition.x NodePosition.y NodePosition.id NodePosition.text
           NodePosition.width NodePosition.height NodePosition.level
           NodePosition.hasChildren NodePosition.expanded NodePosition.parentId].
      split_and!; first [done|apply HxOf]. }
    destruct (truthy (expanded c) && negb (is_empty (children c))).
    + specialize (Hc (<[id c := pl]> l) (<[id c := pr]> r)
                     (xOfL (inject_Z (dim_width d))) (xOfR (inject_Z (dim_width d)))
                     (yOffset + bh / 2) Himg (HxOf _)).
      destruct (recL c _ _ _) as [l'|], (recR c _ _ _) as [r'|]; try done.
      by apply IH.
    + by apply IH.
Qed.

Lemma layoutChildBranch_images (dirL dirR : Direction) (parent : INodeData) :
  sign_of dirR == s * sign_of dirL ->
  forall l r xL xR y,
    images s t l r -> xR == s * xL + t ->
    related s t (layoutChildBranch dimensions hs vs parent l xL y dirL)
                (layoutChildBranch dimensions hs vs parent r xR y dirR).
Proof.
  intros Hsign.
  induction parent as [i tx lv cs e IH] using INodeData_ind'.
  intros l r xL xR y Hlr Hx.
  rewrite !layoutChildBranch_unfold. cbn [id text level children expanded].
  destruct (negb (truthy e) || is_empty cs); [exact Hlr|].
  destruct (dimensions !! i) as [d|]; [|done]. cbv zeta.
  destruct (calculateSubtreeHeight dimensions vs cs) as [total|]; [|done].
  apply place_children_images; [|exact IH|exact Hlr].
  intros width. rewrite Hx, Hsign. ring.
Qed.

Lemma layout_half_images (dirL dirR : Direction) (xOfL xOfR : Q -> Q)
    (pid : string) (half : list INodeData) (l r : gmap string NodePosition) :
  sign_of dirR == s * sign_of dirL ->
  (forall width, xOfR width == s * xOfL width + t) ->
  images s t l r ->
  related s t (layout_half dimensions hs vs dirL xOfL pid half l)
              (layout_half dimensions hs vs dirR xOfR pid half r).
Proof.
  intros Hsign HxOf Hlr. unfold layout_half.
  destruct (is_empty half); [exact Hlr|].
  destruct (calculateSubtreeHeight dimensions vs half) as [hh|]; [|done].
  apply place_children_images; [done| |done].
  apply Forall_forall. intros c _ l' r' xL xR y.
  by apply layoutChildBranch_images.
Qed.

End symmetry.

Section layout_symmetry.

Import INodeData.

Local Open Scope Q_scope.

Lemma images_empty (s t : Q) : images s t ∅ ∅.
Proof. intros k. by rewrite !lookup_empty. Qed.

Lemma root_position_image (s t : Q) (root : INodeData) (d : Dim) (x x' : Q) :
  x' == s * x + t -> image s t (root_position root d x) (root_position root d x').
Proof. intros Hx. unfold image. by split_and!. Qed.

(** X28: a layout to the left is the mirror image of the layout to the
    right.  For any tree and any values of the other options,
    [calculateLayout] returns a map for the direction ['left'] and a map for
    the direction ['right']; the two maps have the same keys, and under each
    key the two entries differ only in [x], which is the opposite number. *)
Theorem left_layout_mirrors_right (root : INodeData)
    (spacingH spacingV width height offset multiplier : option Q) :
  exists l r,
    calculateLayout root
      {| direction := Some Left; horizontalSpacing := spacingH;
         verticalSpacing := spacingV; nodeWidth := width; nodeHeight := height;
         centerOffset := offset; levelSpacingMultiplier := multiplier |} = Some l
    /\ calculateLayout root
         {| direction := Some Right; horizontalSpacing := spacingH;
            verticalSpacing := spacingV; nodeWidth := width; nodeHeight := height;
            centerOffset := offset; levelSpacingMultiplier := multiplier |} = Some r
    /\ forall k,
         match l !! k, r !! k with
         | Some p, Some p' =>
             NodePosition.x p' == - NodePosition.x p
             /\ NodePosition.y p' = NodePosition.y p
             /\ NodePosition.id p' = NodePosition.id p
             /\ NodePosition.text p' = NodePosition.text p
             /\ NodePosition.width p' = NodePosition.width p
             /\ NodePosition.height p' = NodePosition.height p
             /\ NodePosition.level p' = NodePosition.level p
             /\ NodePosition.hasChildren p' = NodePosition.hasChildren p
             /\ NodePosition.expanded p' = NodePosition.expanded p
             /\ NodePosition.parentId p' = NodePosition.parentId p
         | None, None => True
         | _, _ => False
         end.
Proof.
  set (optionsL := {| direction := Some Left; horizontalSpacing := spacingH |}).
  set (optionsR := {| direction := Some Right; horizontalSpacing := spacingH |}).
  destruct (layout_keys root optionsL) as (l & Hl & _).
  destruct (layout_keys root optionsR) as (r & Hr & _).
  exists l, r. split_and!; [done|done|].
  assert (Hrel : related (-1) 0 (calculateLayout root optionsL)
                                (calculateLayout root optionsR)).
  { unfold calculateLayout, optionsL, optionsR.
    cbn [direction horizontalSpacing verticalSpacing nodeWidth nodeHeight
         centerOffset default]. cbv zeta.
    unfold calculateSingleDirectionLayout.
    destruct (_ !! id root) as [d|]; [|done].
    apply layoutChildBranch_images; [simpl; ring| |reflexivity].
    apply images_insert; [apply images_empty|].
    apply root_position_image. ring. }
  rewrite Hl, Hr in Hrel. intros k. specialize (Hrel k).
  destruct (l !! k) as [p|], (r !! k) as [p'|]; try done.
  destruct Hrel as (Hx & Hrest). split; [|exact Hrest].
  rewrite Hx. ring.
Qed.

End layout_symmetry.

(** ** The calls of [processNode], line by line *)

Section calls.

Import INodeData.

Lemma pending_app (first : bool) (a b : list jsstr) :
  pending first (a ++ b) = pending (pending first a) b.
Proof.
  unfold pending. rewrite existsb_app, negb_orb. by destruct first, (existsb _ a).
Qed.

Lemma pending_cons (first : bool) (l : jsstr) (rest : list jsstr) :
  pending first (l :: rest) = pending (first && negb (titled_heading l)) rest.
Proof. unfold pending. simpl. rewrite negb_orb. by destruct first, (titled_heading l). Qed.

Lemma calls_from_app (first : bool) (a b : list jsstr) :
  calls_from first (a ++ b) = calls_from first a + calls_from (pending first a) b.
Proof.
  revert first. induction a as [|l a IH]; intros first; simpl.
  - unfold pending. simpl. by rewrite andb_true_r.
  - rewrite IH, pending_cons. lia.
Qed.

Lemma calls_snoc (pre : list jsstr) (line : jsstr) :
  calls (pre ++ [line])
  = calls pre + (if calls_processNode pre line then 1 else 0).
Proof. unfold calls, calls_processNode. rewrite calls_from_app. simpl. lia. Qed.

Lemma calls_app_le (a b : list jsstr) : calls a <= calls (a ++ b).
Proof. unfold calls. rewrite calls_from_app. lia. Qed.

(** Each call has its line. *)
Lemma call_at (first : bool) (lines : list jsstr) (k : nat) :
  k < calls_from first lines ->
  exists pre line post,
    lines = pre ++ line :: post
    /\ calls_now (pending first pre) line = true
    /\ calls_from first pre = k.
Proof.
  revert first k. induction lines as [|l lines IH]; intros first k Hk; simpl in Hk.
  { lia. }
  destruct (calls_now first l) eqn:Hl.
  - destruct k as [|k].
    + exists [], l, lines. split_and!; [done| |done].
      unfold pending. simpl. by rewrite andb_true_r.
    + destruct (IH (first && negb (titled_heading l)) k) as
        (pre & line & post & -> & Hcall & Hcount); [lia|].
      exists (l :: pre), line, post. split_and!; [done| |].
      * by rewrite pending_cons.
      * simpl. rewrite Hl, Hcount. lia.
  - destruct (IH (first && negb (titled_heading l)) k) as
      (pre & line & post & -> & Hcall & Hcount); [lia|].
    exists (l :: pre), line, post. split_and!; [done| |].
    + by rewrite pending_cons.
    + simpl. rewrite Hl, Hcount. lia.
Qed.

(** The heap grows by one cell per call, and [isFirstHeading] is cleared by
    the first heading with a text. *)
Lemma run_calls (s : State) (lines : list jsstr) :
  invariant s ->
  exists s',
    run s lines = Some s'
    /\ invariant s'
    /\ heap_extends (heap s) (heap s')
    /\ length (heap s') = length (heap s) + calls_from (isFirstHeading s) lines
    /\ isFirstHeading s' = pending (isFirstHeading s) lines.
Proof.
  revert s. induction lines as [|l lines IH]; intros s Hinv.
  - exists s. simpl. split_and!; [done|done|apply heap_extends_refl|lia|].
    unfold pending. simpl. by rewrite andb_true_r.
  - destruct (step_invariant s l Hinv)
      as (s1 & Hstep & Hinv1 & Hext1 & Hlen1 & Hfirst1 & _).
    destruct (IH s1 Hinv1) as (s' & Hrun & Hinv' & Hext' & Hlen' & Hfirst').
    exists s'. simpl. rewrite Hstep. split_and!; [done|done| | |].
    + by eapply heap_extends_trans.
    + rewrite Hlen', Hlen1, Hfirst1. unfold calls_now. lia.
    + by rewrite Hfirst', Hfirst1, pending_cons.
Qed.

Lemma counter_of_heap (s : State) :
  invariant s -> length (heap s) = S (nodeIdCounter s).
Proof.
  intros Hinv. pose proof (inv_ids s Hinv) as Hids.
  apply (f_equal length) in Hids.
  rewrite length_map in Hids. simpl in Hids.
  by rewrite length_map, length_seq in Hids.
Qed.

(** The state of the main loop after the lines [pre] of a text. *)
Lemma state_after (lines pre : list jsstr) :
  exists s,
    run (init lines) pre = Some s
    /\ invariant s
    /\ nodeIdCounter s = calls pre
    /\ length (heap s) = S (calls pre)
    /\ isFirstHeading s = pending true pre
    /\ currentBaseLevel s = base_level pre.
Proof.
  destruct (run_calls (init lines) pre (init_invariant lines))
    as (s & Hrun & Hinv & _ & Hlen & Hfirst).
  exists s. simpl in Hlen, Hfirst.
  pose proof (counter_of_heap s Hinv) as Hc.
  split_and!; [done|done| | |done|].
  - unfold calls. lia.
  - unfold calls. lia.
  - by rewrite (run_base_level _ _ _ Hrun).
Qed.

(** A line for which the main loop calls [processNode]: the arguments of
    the call. *)
Lemma step_call (s : State) (line : jsstr) :
  calls_now (isFirstHeading s) line = true ->
  1 <= (call_of (currentBaseLevel s) line).2
  /\ exists base,
       step s line
       = emit s (call_of (currentBaseLevel s) line).1
                (call_of (currentBaseLevel s) line).2 base.
Proof.
  unfold calls_now, emits, titled_heading, step, call_of. cbv zeta.
  destruct (is_empty (trim line)) eqn:Hblank; [done|].
  destruct (heading_of line) as [[k text]|] eqn:Hh.
  - destruct (is_empty text) eqn:Htext; [done|]. simpl.
    destruct (isFirstHeading s); [done|]. intros _. split.
    + by apply heading_of_level in Hh as [? _].
    + by exists k.
  - destruct (match_list (trim line)) as [body|] eqn:Hl.
    + destruct (is_empty (trim body)) eqn:Hbody; [done|]. intros _.
      simpl. split; [lia|]. by eexists.
    + destruct (negb (starts_with 35 (trim line))
                && negb (starts_with 45 (trim line))
                && negb (starts_with 42 (trim line))); [|done].
      destruct (0 <? calculateIndentLevel line) eqn:Hind; [|done]. intros _.
      apply Nat.ltb_lt in Hind. simpl. split; [lia|]. by eexists.
Qed.

(** A line for which the main loop does not call [processNode] leaves the
    heap, the stack and the counter alone. *)
Lemma step_no_call (s s' : State) (line : jsstr) :
  calls_now (isFirstHeading s) line = false ->
  step s line = Some s' ->
  heap s' = heap s /\ stack s' = stack s /\ nodeIdCounter s' = nodeIdCounter s.
Proof.
  unfold calls_now, emits, titled_heading, step. cbv zeta.
  destruct (is_empty (trim line)) eqn:Hblank; [by intros _ [= <-]|].
  destruct (heading_of line) as [[k text]|] eqn:Hh.
  - destruct (is_empty text) eqn:Htext; [by intros _ [= <-]|].
    destruct (isFirstHeading s); [by intros _ [= <-]|]. simpl. done.
  - rewrite andb_false_r. simpl negb. rewrite andb_true_r.
    destruct (match_list (trim line)) as [body|] eqn:Hl.
    + destruct (is_empty (trim body)) eqn:Hbody; [by intros _ [= <-]|].
      simpl. done.
    + destruct (negb (starts_with 35 (trim line))
                && negb (starts_with 45 (trim line))
                && negb (starts_with 42 (trim line))); [|by intros _ [= <-]].
      simpl.
      destruct (0 <? calculateIndentLevel line) eqn:Hind; [done|by intros _ [= <-]].
Qed.

Lemma same_id_same_cell (s : State) (i j : nat) (ci cj : Cell) :
  invariant s ->
  heap s !! i = Some ci -> heap s !! j = Some cj ->
  cell_id ci = cell_id cj -> i = j.
Proof.
  intros Hinv Hi Hj Hid.
  assert (Hnd : NoDup (map cell_id (heap s))).
  { rewrite (inv_ids s Hinv). apply parser_ids_NoDup. }
  eapply NoDup_lookup; [exact Hnd| |].
  - change (map cell_id (heap s)) with (cell_id <$> heap s).
    rewrite list_lookup_fmap, Hi. reflexivity.
  - change (map cell_id (heap s)) with (cell_id <$> heap s).
    rewrite list_lookup_fmap, Hj. simpl. by rewrite Hid.
Qed.

(** The node of the returned tree that is the value of the cell at [r]. *)
Lemma node_of_cell (s : State) (t : INodeData) (r : nat) (c : Cell) :
  invariant s ->
  tree_of (length (heap s)) (heap s) 0 = Some t ->
  map node_info (getAllNodes t) = map cell_info (heap s) ->
  heap s !! r = Some c ->
  exists q,
    getAllNodes t !! r = Some q
    /\ node_info q = cell_info c
    /\ Forall2 (fun j q' => exists cj, heap s !! j = Some cj
                                       /\ node_info q' = cell_info cj)
               (cell_children c) (children q).
Proof.
  intros Hinv Htree Hinfo Hr.
  assert (Hq : map node_info (getAllNodes t) !! r = Some (cell_info c)).
  { rewrite Hinfo. change (map cell_info (heap s)) with (cell_info <$> heap s).
    by rewrite list_lookup_fmap, Hr. }
  change (map node_info (getAllNodes t)) with (node_info <$> getAllNodes t) in Hq.
  rewrite list_lookup_fmap in Hq.
  destruct (getAllNodes t !! r) as [q|] eqn:Hlook; [|done].
  apply (inj Some) in Hq.
  exists q. split_and!; [done|done|].
  destruct (tree_of_nodes _ _ _ t q Htree) as (i & c0 & Hi & Hinfo0 & Hch).
  { by eapply list_elem_of_lookup_2. }
  assert (i = r) as ->.
  { eapply (same_id_same_cell s); [done|exact Hi|exact Hr|].
    rewrite Hq in Hinfo0. unfold cell_info in Hinfo0. congruence. }
  assert (c0 = c) as -> by congruence. exact Hch.
Qed.

End calls.

Section parent_resolution.

Import INodeData.

Lemma later_line (l1 l2 k1 k2 : list jsstr) (x y : jsstr) :
  l1 ++ x :: l2 = k1 ++ y :: k2 ->
  calls l1 < calls k1 ->
  exists mid, k1 = l1 ++ x :: mid /\ l2 = mid ++ y :: k2.
Proof.
  intros Heq Hlt.
  assert (H1 : l1 `prefix_of` l1 ++ x :: l2) by (by eexists).
  assert (H2 : k1 `prefix_of` l1 ++ x :: l2) by (rewrite Heq; by eexists).
  destruct (prefix_weak_total _ _ _ H1 H2) as [[m ->]|[m ->]].
  - destruct m as [|z mid].
    { rewrite app_nil_r in Hlt. lia. }
    rewrite <- app_assoc in Heq. apply app_inv_head in Heq.
    simpl in Heq. injection Heq as -> ->. by exists mid.
  - pose proof (calls_app_le k1 m). lia.
Qed.

Lemma sorted_around (kb ka : list nat) (k : nat) :
  StronglySorted lt (kb ++ k :: ka) ->
  Forall (fun j => j < k) kb /\ Forall (fun j => k < j) ka.
Proof.
  intros Hs. split.
  - apply Forall_forall. intros j Hj.
    apply (StronglySorted_app_1_elem_of lt kb (k :: ka) j k Hs Hj). left.
  - apply StronglySorted_app_1_r in Hs. by apply StronglySorted_inv in Hs as [_ ?].
Qed.

(** The calls of [processNode] name the nodes of the returned tree. *)
Lemma parsed_ids (markdown : jsstr) :
  exists t,
    parseMarkdown markdown = Some t
    /\ map id (getAllNodes t)
       = "root" :: map node_id (seq 0 (calls (split_lines markdown))).
Proof.
  destruct (parse_ids markdown) as (s & t & Hparse & Ht & Hids).
  exists t. split; [done|].
  destruct (state_after (split_lines markdown) (split_lines markdown))
    as (s' & Hrun & _ & Hcnt & _).
  unfold parse_lines in Hparse. assert (s' = s) as -> by congruence.
  unfold node_ids in Hids. by rewrite Hids, Hcnt.
Qed.

(** What the main loop does with a line for which it calls [processNode],
    and where the node of the line is in the returned tree. *)
Lemma call_resolved (markdown : jsstr) (pre post : list jsstr) (line : jsstr) :
  split_lines markdown = pre ++ line :: post ->
  calls_processNode pre line = true ->
  let text := (call_of (base_level pre) line).1 in
  let lvl := (call_of (base_level pre) line).2 in
  exists s s' t p below pc q before c after,
    run (init (split_lines markdown)) pre = Some s
    /\ nodeIdCounter s = calls pre
    /\ 1 <= lvl
    /\ drop_while (fun e => lvl <=? minLevel e) (stack s) = p :: below
    /\ minLevel p < lvl
    /\ heap s !! node p = Some pc
    /\ step s line = Some s'
    /\ heap s'
       = alter (push_child (length (heap s))) (node p) (heap s)
         ++ [new_cell text lvl (calls pre)]
    /\ stack s' = {| node := length (heap s); minLevel := lvl |} :: p :: below
    /\ nodeIdCounter s' = S (calls pre)
    /\ parseMarkdown markdown = Some t
    /\ q ∈ getAllNodes t
    /\ node_info q = cell_info pc
    /\ children q = before ++ c :: after
    /\ node_info c = (node_id (calls pre), text, lvl, Some false)
    /\ Forall (fun a => exists pre' line' rest,
                 pre = pre' ++ line' :: rest
                 /\ calls_processNode pre' line' = true
                 /\ id a = node_id (calls pre')) before
    /\ Forall (fun b => exists mid line' rest,
                 post = mid ++ line' :: rest
                 /\ calls_processNode (pre ++ line :: mid) line' = true
                 /\ id b = node_id (calls (pre ++ line :: mid))) after.
Proof.
  intros Hlines Hcall text lvl.
  destruct (state_after (split_lines markdown) pre)
    as (s & Hrun & Hinv & Hcnt & Hlen & Hfirst & Hbase).
  unfold calls_processNode in Hcall. rewrite <- Hfirst in Hcall.
  destruct (step_call s line Hcall) as (Hlvl & base & Hstep).
  rewrite Hbase in Hlvl, Hstep. fold text in Hstep. fold lvl in Hlvl, Hstep.
  destruct (emit_pushed s text lvl base Hinv Hlvl)
    as (popped & kept & p & below & pc & Hst & Hkept & Hk & Hpopped & Hp & Hpc & Hemit).
  set (s' := pushed s text lvl base p below) in *.
  assert (Hinv' : invariant s') by (by eapply pushed_invariant).
  destruct (run_calls s' post Hinv') as (sf & Hpost & Hinvf & Hext & _).
  assert (Hparse : parse_lines (split_lines markdown) = Some sf).
  { unfold parse_lines. rewrite Hlines at 2.
    rewrite run_app, Hrun. simpl. by rewrite Hstep, Hemit. }
  destruct (parse_tree _ _ Hparse) as (t & Htree & Hinfo & _).
  assert (Ht : parseMarkdown markdown = Some t).
  { unfold parseMarkdown. by rewrite Hparse. }
  assert (Hlt : node p < length (heap s)) by (by eapply lookup_lt_Some).
  (* the cells of the parent and of the new node in the final heap *)
  assert (Hp' : heap s' !! node p = Some (push_child (length (heap s)) pc)).
  { subst s'. rewrite lookup_pushed.
    rewrite decide_False by lia. rewrite Hpc. simpl. by rewrite decide_True. }
  assert (Hnew' : heap s' !! length (heap s)
                  = Some (new_cell text lvl (nodeIdCounter s))).
  { subst s'. rewrite lookup_pushed. by rewrite decide_True. }
  destruct (Hext _ _ Hp') as (cf & Hcf & Hcf_info & [rest Hcf_children]).
  destruct (Hext _ _ Hnew') as (cn & Hcn & Hcn_info & _).
  destruct (node_of_cell sf t (node p) cf Hinvf Htree Hinfo Hcf)
    as (q & Hq & Hq_info & Hq_children).
  rewrite Hcf_children in Hq_children. cbn [push_child cell_children] in Hq_children.
  apply Forall2_app_inv_l in Hq_children as (front & after & Hfront & _ & Hchildren).
  apply Forall2_app_inv_l in Hfront as (before & last & _ & Hlast & ->).
  apply Forall2_cons_inv_l in Hlast as (c & nil & (cj & Hcj & Hc_info) & Hnil & ->).
  apply Forall2_nil_inv_l in Hnil as ->.
  assert (cj = cn) as -> by congruence.
  rewrite <- app_assoc in Hchildren. simpl in Hchildren.
  assert (Hc : node_info c = (node_id (calls pre), text, lvl, Some false)).
  { rewrite Hc_info, Hcn_info, Hcnt. reflexivity. }
  assert (Hq_in : q ∈ getAllNodes t) by (by eapply list_elem_of_lookup_2).
  (* the identifiers of the siblings *)
  destruct (parse_children_sorted markdown t q Ht Hq_in) as (ks & Hks & Hsorted).
  rewrite Hchildren in Hks.
  change (map id ?l) with (id <$> l) in Hks.
  change (map node_id ks) with (node_id <$> ks) in Hks.
  rewrite fmap_app, fmap_cons in Hks.
  symmetry in Hks. apply fmap_app_inv in Hks as (kb & krest & Hkb & Hkrest & ->).
  destruct krest as [|k ka]; [done|]. rewrite fmap_cons in Hkrest.
  injection Hkrest as Hk_c Hka.
  assert (k = calls pre) as ->.
  { apply node_id_inj. unfold node_info in Hc. congruence. }
  apply sorted_around in Hsorted as [Hbefore Hafter].
  exists s, s', t, p, below, pc, q, before, c, after.
  split_and!; try done.
  - rewrite Hst. apply drop_while_split.
    + eapply Forall_impl; [exact Hpopped|]. intros e He. by apply Nat.leb_le.
    + by apply Nat.leb_gt.
  - congruence.
  - subst s'. cbn [pushed heap]. by rewrite Hcnt.
  - subst s'. cbn [pushed nodeIdCounter]. by rewrite Hcnt.
  - by rewrite Hq_info, Hcf_info.
  - apply Forall_forall. intros a Ha.
    assert (Hida : id a ∈ node_id <$> kb).
    { rewrite <- Hkb. apply list_elem_of_fmap. by exists a. }
    apply list_elem_of_fmap in Hida as (j & Hj & Hjin).
    rewrite Forall_forall in Hbefore. specialize (Hbefore j Hjin).
    destruct (call_at true pre j Hbefore) as (pre' & line' & rest' & -> & Hc' & Hn').
    exists pre', line', rest'. split_and!; [done|done|].
    unfold calls. by rewrite Hn'.
  - apply Forall_forall. intros b Hb.
    assert (Hidb : id b ∈ node_id <$> ka).
    { rewrite <- Hka. apply list_elem_of_fmap. by exists b. }
    apply list_elem_of_fmap in Hidb as (j & Hj & Hjin).
    rewrite Forall_forall in Hafter. specialize (Hafter j Hjin).
    assert (Hjlt : j < calls (split_lines markdown)).
    { destruct (parsed_ids markdown) as (t' & Ht' & Hids).
      assert (t' = t) as -> by congruence.
      pose proof (children_ids_sublist t q Hq_in) as Hsub.
      unfold node_ids in Hsub. rewrite Hids in Hsub. simpl in Hsub.
      assert (Hin : id b ∈ map id (children q)).
      { apply list_elem_of_fmap. exists b. split; [done|].
        rewrite Hchildren. apply elem_of_app. right. by right. }
      pose proof (elem_of_sublist _ _ _ Hin Hsub) as Hin'.
      apply list_elem_of_fmap in Hin' as (j' & Hj' & Hseq).
      assert (j' = j) as -> by (apply node_id_inj; congruence).
      apply elem_of_seq in Hseq. lia. }
    destruct (call_at true _ j Hjlt) as (pre' & line' & rest' & Heq & Hc' & Hn').
    rewrite Hlines in Heq.
    destruct (later_line pre post pre' rest' line line' Heq) as (mid & -> & ->).
    { unfold calls at 2. rewrite Hn'. done. }
    exists mid, line', rest'. split_and!; [done|done|].
    unfold calls. by rewrite Hn'.
Qed.

End parent_resolution.

Section claims_on_calls.

Import INodeData.

(** C4.  Let [line] be a line of the text for which the main loop calls
    [processNode], with the text and the level that the loop computes for
    it.  When the loop reaches the line, the call pops the stack while the
    level of the top entry is at least the new level, however many entries
    that are, and stops at an entry [p] of a smaller level; it pushes the
    new node onto the children of the node of [p], as their last one, and
    pushes the new node with its level onto the stack.  In the tree that
    [parseMarkdown] returns the node of the line is a child of that node,
    and among its siblings it comes after the nodes of earlier lines and
    before the nodes of later lines: the order of siblings is the order of
    their lines. *)
Theorem C4_parent_resolution (markdown : jsstr) (pre post : list jsstr)
    (line : jsstr) :
  split_lines markdown = pre ++ line :: post ->
  calls_processNode pre line = true ->
  let text := (call_of (base_level pre) line).1 in
  let lvl := (call_of (base_level pre) line).2 in
  exists s s' t p below pc q before c after,
    run (init (split_lines markdown)) pre = Some s
    /\ 1 <= lvl
    /\ drop_while (fun e => lvl <=? minLevel e) (stack s) = p :: below
    /\ minLevel p < lvl
    /\ heap s !! node p = Some pc
    /\ step s line = Some s'
    /\ heap s'
       = alter (push_child (length (heap s))) (node p) (heap s)
         ++ [new_cell text lvl (calls pre)]
    /\ stack s' = {| node := length (heap s); minLevel := lvl |} :: p :: below
    /\ parseMarkdown markdown = Some t
    /\ q ∈ getAllNodes t
    /\ node_info q = cell_info pc
    /\ children q = before ++ c :: after
    /\ node_info c = (node_id (calls pre), text, lvl, Some false)
    /\ Forall (fun a => exists pre' line' rest,
                 pre = pre' ++ line' :: rest
                 /\ calls_processNode pre' line' = true
                 /\ id a = node_id (calls pre')) before
    /\ Forall (fun b => exists mid line' rest,
                 post = mid ++ line' :: rest
                 /\ calls_processNode (pre ++ line :: mid) line' = true
                 /\ id b = node_id (calls (pre ++ line :: mid))) after.
Proof.
  intros Hlines Hcall text lvl.
  destruct (call_resolved markdown pre post line Hlines Hcall)
    as (s & s' & t & p & below & pc & q & before & c & after
        & H1 & _ & H2 & H3 & H4 & H5 & H6 & H7 & H8 & _ & H9 & H10 & H11
        & H12 & H13 & H14 & H15).
  exists s, s', t, p, below, pc, q, before, c, after.
  by split_and!.
Qed.

Lemma C4_parent_resolution_witness :
  let markdown := lit "# T" ++ nl ++ lit "## A" ++ nl ++ lit "### B" ++ nl
                  ++ lit "#### C" ++ nl ++ lit "## D" in
  exists s p below t q before c after,
    run (init (split_lines markdown))
        [lit "# T"; lit "## A"; lit "### B"; lit "#### C"] = Some s
    /\ drop_while (fun e => 2 <=? minLevel e) (stack s) = p :: below
    /\ minLevel p < 2
    /\ parseMarkdown markdown = Some t
    /\ q ∈ getAllNodes t
    /\ children q = before ++ c :: after
    /\ node_info c = ("node-3", lit "D", 2, Some false).
Proof.
  intros markdown.
  destruct (C4_parent_resolution markdown
              [lit "# T"; lit "## A"; lit "### B"; lit "#### C"] []
              (lit "## D") eq_refl eq_refl)
    as (s & s' & t & p & below & pc & q & before & c & after
        & Hrun & _ & Hpop & Hp & _ & _ & _ & _ & Ht & Hq & _ & Hch & Hc & _).
  exists s, p, below, t, q, before, c, after.
  split_and!; [exact Hrun|exact Hpop|exact Hp|exact Ht|exact Hq|exact Hch|exact Hc].
Defined.

End claims_on_calls.

(** ** The layout in binary64 never misses a dimension *)

Section placing_b64.

Import INodeData Binary64 Binary64Arrangement.

Local Open Scope float_scope.

Variable dimensions : gmap string Dim.
Variable hs vs : float.

Lemma calculateNodeBranchHeight_unfold_b64 (node : INodeData) :
  calculateNodeBranchHeight dimensions vs node
  = match dimensions !! id node with
    | None => None
    | Some nodeDim =>
        let minBranchHeight := Math_max (of_Z (dim_height nodeDim)) 32 in
        if truthy (expanded node) && negb (is_empty (children node)) then
          match calculateSubtreeHeight dimensions vs (children node) with
          | Some childrenTotalHeight =>
              Some (Math_max minBranchHeight childrenTotalHeight)
          | None => None
          end
        else Some minBranchHeight
    end.
Proof. by destruct node. Qed.

Lemma layoutChildBranch_unfold_b64 (parent : INodeData)
    (positions : gmap string NodePosition) (cx cy : float) (dir : Direction) :
  layoutChildBranch dimensions hs vs parent positions cx cy dir
  = if negb (truthy (expanded parent)) || is_empty (children parent)
    then Some positions
    else
      match dimensions !! id parent with
      | None => None
      | Some parentDim =>
          let anchorX :=
            (cx + sign_of dir
                  * (of_Z (dim_width parentDim) / 2
                     + hs * (if (2 <=? level parent)%nat then 1.0 else 0.8) * 0.6))%float in
          match calculateSubtreeHeight dimensions vs (children parent) with
          | None => None
          | Some totalSubtreeHeight =>
              place_children dimensions vs
                (fun child positions x y =>
                   layoutChildBranch dimensions hs vs child positions x y dir)
                (fun width => anchorX + sign_of dir * (width / 2))%float (id parent)
                (children parent) positions (cy - totalSubtreeHeight / 2)%float
          end
      end.
Proof. by destruct parent. Qed.

Lemma sum_branch_heights_total_b64 (bh : INodeData -> option float)
    (nodes : list INodeData) (acc : float) :
  Forall (fun n => is_Some (bh n)) nodes ->
  is_Some (sum_branch_heights bh nodes acc).
Proof.
  intros Hall. revert acc.
  induction Hall as [|n nodes [h Hn] _ IH]; intros acc; simpl; [eauto|].
  rewrite Hn. apply IH.
Qed.

Lemma subtree_height_total_b64 (bh : INodeData -> option float) (nodes : list INodeData) :
  Forall (fun n => is_Some (bh n)) nodes ->
  is_Some (subtree_height_with vs bh nodes).
Proof.
  intros Hall. unfold subtree_height_with.
  destruct (is_empty nodes); [eauto|].
  destruct (sum_branch_heights_total_b64 bh nodes 0%float Hall) as [h Hh].
  rewrite Hh. eauto.
Qed.

Lemma calculateNodeBranchHeight_total_b64 (node : INodeData) :
  covers dimensions (getAllNodes node) ->
  is_Some (calculateNodeBranchHeight dimensions vs node).
Proof.
  induction node as [i tx l cs e IH] using INodeData_ind'. intros Hcov.
  pose proof (covers_children _ _ Hcov) as Hcs. simpl in Hcs.
  rewrite calculateNodeBranchHeight_unfold_b64.
  apply covers_self in Hcov as [d Hd]. rewrite Hd.
  cbn [id text level children expanded] in *. cbv zeta.
  destruct (truthy e && negb (is_empty cs)); [|eauto].
  assert (Hall : Forall (fun n => is_Some (calculateNodeBranchHeight dimensions vs n)) cs).
  { rewrite Forall_forall in IH, Hcs |- *. intros c Hc. apply IH; auto. }
  destruct (subtree_height_total_b64 _ cs Hall) as [h Hh].
  unfold calculateSubtreeHeight. rewrite Hh. eauto.
Qed.

Lemma calculateSubtreeHeight_total_b64 (nodes : list INodeData) :
  Forall (fun c => covers dimensions (getAllNodes c)) nodes ->
  is_Some (calculateSubtreeHeight dimensions vs nodes).
Proof.
  intros Hcov. apply subtree_height_total_b64.
  eapply Forall_impl; [exact Hcov|]. apply calculateNodeBranchHeight_total_b64.
Qed.

Lemma places_nothing_b64 (positions : gmap string NodePosition) :
  places [] positions (Some positions).
Proof. exists positions. split_and!; [done|set_solver|done]. Qed.

Lemma places_insert_then_b64 (n : INodeData) (p : NodePosition)
    (nodes : list INodeData) (positions : gmap string NodePosition)
    (result : option (gmap string NodePosition)) :
  places nodes (<[id n := p]> positions) result ->
  places (n :: nodes) positions result.
Proof.
  intros (pos' & -> & Hdom & Hframe). exists pos'. split_and!; [done| |].
  - rewrite Hdom, dom_insert_L. simpl. set_solver.
  - intros k [Hkn Hk]%not_elem_of_cons.
    rewrite Hframe by done. by rewrite lookup_insert_ne.
Qed.

Lemma places_seq_b64 (nodes1 nodes2 : list INodeData)
    (positions : gmap string NodePosition)
    (mid : gmap string NodePosition)
    (result : option (gmap string NodePosition)) :
  places nodes1 positions (Some mid) ->
  places nodes2 mid result ->
  places (nodes1 ++ nodes2) positions result.
Proof.
  intros (pos1 & [= <-] & Hdom1 & Hframe1) (pos' & -> & Hdom & Hframe).
  exists pos'. split_and!; [done| |].
  - rewrite Hdom, Hdom1, List.map_app, list_to_set_app_L. set_solver.
  - intros k Hk. rewrite List.map_app in Hk.
    apply not_elem_of_app in Hk as [Hk1 Hk2].
    rewrite Hframe by done. by apply Hframe1.
Qed.

Lemma place_children_places_b64 (dir : Direction) (xOf : float -> float) (pid : string)
    (cs : list INodeData) :
  Forall (fun c =>
            forall positions x y,
              places (placed_below c) positions
                (layoutChildBranch dimensions hs vs c positions x y dir)) cs ->
  Forall (fun c => covers dimensions (getAllNodes c)) cs ->
  forall positions yOffset,
    places (flat_map getVisibleNodes cs) positions
      (place_children dimensions vs
         (fun child positions x y =>
            layoutChildBranch dimensions hs vs child positions x y dir)
         xOf pid cs positions yOffset).
Proof.
  intros Hrec Hcov.
  induction cs as [|c cs IH]; intros positions yOffset.
  - apply places_nothing_b64.
  - apply Forall_cons in Hrec as [Hc Hrec].
    apply Forall_cons in Hcov as [Hcc Hcov].
    simpl place_children.
    destruct (covers_self _ c Hcc) as [d Hd]. rewrite Hd.
    destruct (calculateNodeBranchHeight_total_b64 c Hcc) as [bh Hbh]. rewrite Hbh.
    cbn [flat_map]. rewrite getVisibleNodes_placed, <- app_comm_cons.
    match goal with
    | |- context [<[id c := ?p]> positions] => set (pc := p)
    end.
    match goal with
    | |- context [if ?b then layoutChildBranch _ _ _ c ?ps ?x ?y dir else _] =>
        assert (Hstep :
          (if b then layoutChildBranch dimensions hs vs c ps x y dir else Some ps)
          = layoutChildBranch dimensions hs vs c ps x y dir)
    end.
    { rewrite (layoutChildBranch_unfold_b64 c).
      destruct (truthy (expanded c)); [|done].
      by destruct (is_empty (children c)). }
    rewrite Hstep. clear Hstep.
    apply (places_insert_then_b64 c pc).
    destruct (Hc (<[id c := pc]> positions)
                 (xOf (of_Z (dim_width d)))
                 (yOffset + bh / 2)%float) as (mid & Hmid & Hdom & Hframe).
    rewrite Hmid.
    eapply places_seq_b64.
    + exists mid. split_and!; [done|exact Hdom|exact Hframe].
    + apply IH; assumption.
Qed.

Lemma layoutChildBranch_places_b64 (dir : Direction) (parent : INodeData) :
  covers dimensions (getAllNodes parent) ->
  forall positions x y,
    places (placed_below parent) positions
      (layoutChildBranch dimensions hs vs parent positions x y dir).
Proof.
  induction parent as [i tx l cs e IH] using INodeData_ind'.
  intros Hcov positions x y.
  pose proof (covers_children _ _ Hcov) as Hcs.
  rewrite layoutChildBranch_unfold_b64, placed_below_unfold.
  cbn [id text level children expanded] in *.
  destruct (negb (truthy e) || is_empty cs); [apply places_nothing_b64|].
  apply covers_self in Hcov as [d Hd]. simpl in Hd. rewrite Hd.
  destruct (calculateSubtreeHeight_total_b64 cs Hcs) as [h Hh]. rewrite Hh.
  cbv zeta. apply place_children_places_b64; [|done].
  rewrite Forall_forall in IH, Hcs |- *. intros c Hc. apply IH; auto.
Qed.

End placing_b64.

(** ** The arrangement that the layout in binary64 writes *)

Section arrangement_b64.

Import INodeData Binary64 Binary64Arrangement.

Local Open Scope float_scope.

Variable dimensions : gmap string Dim.
Variable hs vs : float.
Variable dir : Direction.

Lemma arranged_below_unfold_b64 (positions : gmap string NodePosition)
    (parent : INodeData) (cx cy : float) :
  arranged_below dimensions hs vs positions dir parent cx cy
  = if negb (truthy (expanded parent)) || is_empty (children parent) then True
    else
      exists parentDim totalSubtreeHeight,
        dimensions !! id parent = Some parentDim
        /\ calculateSubtreeHeight dimensions vs (children parent)
           = Some totalSubtreeHeight
        /\ stacked dimensions vs positions
             (fun child x y =>
                arranged_below dimensions hs vs positions dir child x y)
             (fun width =>
                cx
                + sign_of dir
                  * (of_Z (dim_width parentDim) / 2
                     + hs * (if (2 <=? level parent)%nat then 1.0 else 0.8) * 0.6)
                + sign_of dir * (width / 2))
             (id parent) (children parent)
             (cy - totalSubtreeHeight / 2).
Proof. by destruct parent. Qed.

Lemma place_children_arranged_b64 (xOf : float -> float) (pid : string)
    (cs : list INodeData) :
  Forall (arranges dimensions hs vs dir) cs ->
  Forall (fun c => covers dimensions (getAllNodes c)) cs ->
  forall positions yOffset positions' final,
    NoDup (map id (flat_map getVisibleNodes cs)) ->
    place_children dimensions vs
      (fun child positions x y =>
         layoutChildBranch dimensions hs vs child positions x y dir)
      xOf pid cs positions yOffset = Some positions' ->
    (forall n, n ∈ flat_map getVisibleNodes cs ->
               final !! id n = positions' !! id n) ->
    stacked dimensions vs final
      (fun child x y => arranged_below dimensions hs vs final dir child x y)
      xOf pid cs yOffset.
Proof.
  intros Hrec Hcov.
  induction cs as [|c cs IH];
    intros positions yOffset positions' final Hnd Hplace Hfinal; [done|].
  apply Forall_cons in Hrec as [Hc Hrec].
  apply Forall_cons in Hcov as [Hcc Hcov].
  cbn [flat_map] in Hnd. rewrite List.map_app in Hnd.
  apply NoDup_app in Hnd as (Hndc & Hdisj & Hndcs).
  simpl place_children in Hplace.
  destruct (covers_self _ c Hcc) as [d Hd]. rewrite Hd in Hplace.
  destruct (calculateNodeBranchHeight_total_b64 dimensions vs c Hcc) as [bh Hbh].
  rewrite Hbh in Hplace.
  match type of Hplace with
  | context [<[id c := ?p]> positions] => set (pc := p) in *
  end.
  match type of Hplace with
  | context [if ?b then layoutChildBranch _ _ _ c ?ps ?x ?y dir else _] =>
      assert (Hstep :
        (if b then layoutChildBranch dimensions hs vs c ps x y dir else Some ps)
        = layoutChildBranch dimensions hs vs c ps x y dir)
  end.
  { rewrite (layoutChildBranch_unfold_b64 _ _ _ c).
    destruct (truthy (expanded c)); [|done].
    by destruct (is_empty (children c)). }
  rewrite Hstep in Hplace. clear Hstep.
  destruct (layoutChildBranch_places_b64 dimensions hs vs dir c Hcc
              (<[id c := pc]> positions) (NodePosition.x pc) (NodePosition.y pc))
    as (mid & Hmid & _ & Hframe_c).
  change (NodePosition.x pc) with (xOf (of_Z (dim_width d))) in Hmid.
  change (NodePosition.y pc) with (yOffset + bh / 2) in Hmid.
  rewrite Hmid in Hplace.
  destruct (place_children_places_b64 dimensions hs vs dir xOf pid cs)
    with (positions := mid) (yOffset := yOffset + bh + vs)
    as (positions'' & Hrest & _ & Hframe_cs).
  { eapply Forall_impl; [exact Hcov|]. intros c' Hc' ps x y.
    by apply layoutChildBranch_places_b64. }
  { done. }
  assert (positions'' = positions') as -> by congruence.
  rewrite getVisibleNodes_placed in Hndc, Hdisj. simpl in Hndc.
  apply NoDup_cons in Hndc as [Hc_fresh Hndc].
  assert (Hkeep : forall n, n ∈ getVisibleNodes c ->
                            final !! id n = mid !! id n).
  { intros n Hn. rewrite Hfinal.
    2:{ cbn [flat_map]. apply elem_of_app. by left. }
    apply Hframe_cs. apply Hdisj.
    rewrite <- getVisibleNodes_placed.
    apply list_elem_of_fmap. by exists n. }
  assert (Hmid_c : mid !! id c = Some pc).
  { rewrite Hframe_c by done. apply lookup_insert_eq. }
  cbn [stacked]. exists d, bh. split_and!; [done|done| | |].
  - rewrite Hkeep; [done|]. rewrite getVisibleNodes_placed. left.
  - assert (Hndc' : NoDup (map id (getVisibleNodes c))).
    { rewrite getVisibleNodes_placed. simpl. apply NoDup_cons. by split. }
    apply (Hc Hcc Hndc' (<[id c := pc]> positions) _ _ mid final Hmid).
    intros n Hn. apply Hkeep. rewrite getVisibleNodes_placed. by right.
  - apply (IH Hrec Hcov mid _ positions' final Hndcs Hplace).
    intros n Hn. apply Hfinal. cbn [flat_map]. apply elem_of_app. by right.
Qed.

Lemma layoutChildBranch_arranges_b64 (parent : INodeData) :
  arranges dimensions hs vs dir parent.
Proof.
  induction parent as [i tx l cs e IH] using INodeData_ind'.
  intros Hcov Hnd positions cx cy positions' final Hlayout Hfinal.
  pose proof (covers_children _ _ Hcov) as Hcs.
  rewrite layoutChildBranch_unfold_b64 in Hlayout.
  rewrite arranged_below_unfold_b64.
  rewrite placed_below_unfold in Hfinal.
  rewrite getVisibleNodes_unfold in Hnd.
  cbn [id text level children expanded] in *.
  destruct (negb (truthy e) || is_empty cs) eqn:Hguard; [done|].
  apply orb_false_iff in Hguard as [He Hne].
  apply negb_false_iff in He. rewrite He in Hnd.
  destruct (dimensions !! i) as [d|] eqn:Hd; [|done].
  destruct (calculateSubtreeHeight dimensions vs cs) as [h|] eqn:Hh; [|done].
  cbv zeta in Hlayout.
  simpl in Hnd. apply NoDup_cons in Hnd as [_ Hndcs].
  exists d, h. split_and!; [done|done|].
  by eapply place_children_arranged_b64.
Qed.

End arrangement_b64.

Section whole_arrangement_b64.

Import INodeData Binary64 Binary64Arrangement.

Local Open Scope float_scope.

Lemma dimensions_cover_b64 (root : INodeData) (nw nh : float) :
  covers (calculateNodeDimensions (getAllNodes root) nw nh) (getAllNodes root).
Proof. exact (dimensions_cover root 100%Q 32%Q). Qed.

Lemma layout_half_places_b64 (dimensions : gmap string Dim) (hs vs : float)
    (dir : Direction) (xOf : float -> float) (pid : string)
    (half : list INodeData) (positions : gmap string NodePosition) :
  Forall (fun c => covers dimensions (getAllNodes c)) half ->
  places (flat_map getVisibleNodes half) positions
    (layout_half dimensions hs vs dir xOf pid half positions).
Proof.
  intros Hcov. unfold layout_half.
  destruct half as [|c half]; [apply places_nothing_b64|].
  cbn [is_empty].
  destruct (calculateSubtreeHeight_total_b64 dimensions vs _ Hcov) as [h Hh].
  rewrite Hh. apply place_children_places_b64; [|done].
  eapply Forall_impl; [exact Hcov|]. intros c' Hc' pos x y.
  by apply layoutChildBranch_places_b64.
Qed.

Lemma layout_half_arranged_b64 (dimensions : gmap string Dim) (hs vs : float)
    (dir : Direction) (xOf : float -> float) (pid : string) (half : list INodeData)
    (positions positions' final : gmap string NodePosition) :
  Forall (fun c => covers dimensions (getAllNodes c)) half ->
  NoDup (map id (flat_map getVisibleNodes half)) ->
  layout_half dimensions hs vs dir xOf pid half positions = Some positions' ->
  (forall n, n ∈ flat_map getVisibleNodes half ->
             final !! id n = positions' !! id n) ->
  arranged_half dimensions hs vs final dir xOf pid half.
Proof.
  intros Hcov Hnd Hlayout Hfinal. unfold layout_half in Hlayout.
  unfold arranged_half. destruct (is_empty half); [done|].
  destruct (calculateSubtreeHeight dimensions vs half) as [h|]; [|done].
  exists h. split; [done|].
  eapply place_children_arranged_b64; try done.
  apply Forall_forall. intros c _. apply layoutChildBranch_arranges_b64.
Qed.

(** The map that [calculateLayout] returns holds the arrangement. *)
Lemma calculateLayout_arranged_b64 (root : INodeData) (options : LayoutOptions)
    (positions : gmap string NodePosition) :
  NoDup (map id (getAllNodes root)) ->
  calculateLayout root options = Some positions ->
  arranged
    (calculateNodeDimensions (getAllNodes root)
       (default 100 (nodeWidth options)) (default 32 (nodeHeight options)))
    (default 140 (horizontalSpacing options))
    (default 16 (verticalSpacing options))
    positions
    (default Both (direction options))
    (default 0 (centerOffset options)) root.
Proof.
  intros Hnd Hlayout.
  set (dimensions := calculateNodeDimensions (getAllNodes root)
         (default 100 (nodeWidth options)) (default 32 (nodeHeight options))).
  set (hs := default 140 (horizontalSpacing options)).
  set (vs := default 16 (verticalSpacing options)).
  pose proof (dimensions_cover_b64 root (default 100 (nodeWidth options))
                (default 32 (nodeHeight options))) as Hcov.
  fold dimensions in Hcov.
  destruct (covers_self _ _ Hcov) as [d Hd].
  unfold calculateLayout in Hlayout.
  fold dimensions in Hlayout. fold hs in Hlayout. fold vs in Hlayout.
  exists d. split; [done|].
  assert (Hsingle : forall dir,
    calculateSingleDirectionLayout dimensions hs vs root ∅ dir = Some positions ->
    positions !! id root = Some (root_position root d 0)
    /\ arranged_below dimensions hs vs positions dir root 0 0).
  { intros dir Hl. unfold calculateSingleDirectionLayout in Hl.
    rewrite Hd in Hl.
    assert (Hndv : NoDup (map id (getVisibleNodes root))).
    { assert (Hsub : map id (getVisibleNodes root) `sublist_of` map id (getAllNodes root))
        by apply fmap_sublist, visible_sublist.
      exact (sublist_NoDup _ _ Hnd Hsub). }
    split.
    - destruct (layoutChildBranch_places_b64 dimensions hs vs dir root Hcov
                  (<[id root := root_position root d 0]> ∅) 0 0)
        as (positions' & Hl' & _ & Hframe).
      assert (positions' = positions) as -> by congruence.
      rewrite Hframe; [apply lookup_insert_eq|].
      rewrite getVisibleNodes_placed in Hndv. simpl in Hndv.
      by apply NoDup_cons in Hndv as [? _].
    - by eapply (layoutChildBranch_arranges_b64 dimensions hs vs dir root Hcov Hndv). }
  destruct (default Both (direction options)) eqn:Hdir.
  - by apply Hsingle.
  - by apply Hsingle.
  - unfold calculateBothDirectionLayout in Hlayout. rewrite Hd in Hlayout.
    set (co := default 0 (centerOffset options)) in *.
    destruct (is_empty (children root)) eqn:Hempty.
    { injection Hlayout as <-. split; [apply lookup_insert_eq|done]. }
    cbv zeta in Hlayout.
    set (n := Nat.div2 (S (length (children root)))) in *.
    pose proof (covers_children _ _ Hcov) as Hcs.
    rewrite <- (take_drop n (children root)) in Hcs.
    apply Forall_app in Hcs as [Hcl Hcr].
    assert (Hnd' : NoDup (map id (laid_out Both root))).
    { assert (Hsub : map id (laid_out Both root) `sublist_of` map id (getAllNodes root))
        by apply fmap_sublist, laid_out_sublist.
      exact (sublist_NoDup _ _ Hnd Hsub). }
    simpl in Hnd'. rewrite <- (take_drop n (children root)) in Hnd'.
    rewrite flat_map_app, List.map_app in Hnd'.
    apply NoDup_cons in Hnd' as [Hroot Hnd'].
    apply not_elem_of_app in Hroot as [Hrootl Hrootr].
    apply NoDup_app in Hnd' as (Hndl & Hdisj & Hndr).
    match type of Hlayout with
    | match ?left with _ => _ end = _ => destruct left as [mid|] eqn:Hleft; [|done]
    end.
    match type of Hleft with
    | layout_half _ _ _ _ ?xOf _ _ ?ps = _ =>
        destruct (layout_half_places_b64 dimensions hs vs Left xOf (id root) _ ps Hcl)
          as (mid' & Hleft' & _ & Hframe_l)
    end.
    assert (mid' = mid) as -> by congruence.
    match type of Hlayout with
    | layout_half _ _ _ _ ?xOf _ _ ?ps = _ =>
        destruct (layout_half_places_b64 dimensions hs vs Right xOf (id root) _ ps Hcr)
          as (positions' & Hright' & _ & Hframe_r)
    end.
    assert (positions' = positions) as -> by congruence.
    split.
    { rewrite Hframe_r, Hframe_l by done. apply lookup_insert_eq. }
    intros _ leftCount. subst leftCount. fold n. split.
    + eapply layout_half_arranged_b64; [exact Hcl|exact Hndl|exact Hleft|].
      intros m Hm. apply Hframe_r, Hdisj.
      apply list_elem_of_fmap. by exists m.
    + by eapply layout_half_arranged_b64.
Qed.

End whole_arrangement_b64.

(** ** The anchor lines of a layout in binary64 *)

Section anchor_lines_b64.

Import INodeData Binary64 Binary64Arrangement Binary64Anchors.

Local Open Scope float_scope.

Lemma stacked_children_b64 (dimensions : gmap string Dim) (hs vs : float)
    (positions : gmap string NodePosition) (dir : Direction)
    (xOf : float -> float) (pid : string) (cs : list INodeData)
    (yOffset : float) (c : INodeData) :
  stacked dimensions vs positions
    (fun c x y => arranged_below dimensions hs vs positions dir c x y)
    xOf pid cs yOffset ->
  c ∈ cs ->
  exists d yc,
    dimensions !! id c = Some d
    /\ positions !! id c
       = Some (child_position c d (xOf (of_Z (dim_width d))) yc pid)
    /\ arranged_below dimensions hs vs positions dir c
         (xOf (of_Z (dim_width d))) yc.
Proof.
  revert yOffset. induction cs as [|c0 cs IH]; intros yOffset Hst Hc.
  { by apply elem_of_nil in Hc. }
  cbn [stacked] in Hst.
  destruct Hst as (d & bh & Hd & Hbh & Hentry & Hbelow & Hrest).
  apply elem_of_cons in Hc as [->|Hc]; [by exists d, (yOffset + bh / 2)|].
  by eapply IH.
Qed.

(** Below an arranged node, every child of a visible expanded node has the
    abscissa that the loop computed from the entry of its parent. *)
Lemma arranged_below_anchored_b64 (dimensions : gmap string Dim) (hs vs : float)
    (positions : gmap string NodePosition) (dir : Direction)
    (parent : INodeData) :
  forall pp d,
    dimensions !! id parent = Some d ->
    positions !! id parent = Some pp ->
    NodePosition.width pp = of_Z (dim_width d) ->
    arranged_below dimensions hs vs positions dir parent
      (NodePosition.x pp) (NodePosition.y pp) ->
    forall q c,
      q ∈ getVisibleNodes parent -> truthy (expanded q) = true ->
      c ∈ children q ->
      on_anchor hs dir positions q c.
Proof.
  induction parent as [i tx l cs e IH] using INodeData_ind'.
  intros pp d Hd Hpp Hw Harr q c Hq Hexp Hc.
  rewrite arranged_below_unfold_b64 in Harr.
  rewrite getVisibleNodes_unfold in Hq.
  cbn [id text level children expanded] in *.
  apply elem_of_cons in Hq as [->|Hq].
  - cbn [expanded children] in Hexp, Hc. rewrite Hexp in Harr.
    destruct (is_empty cs) eqn:Hempty.
    { apply is_empty_true in Hempty. subst cs. by apply elem_of_nil in Hc. }
    cbn [negb orb] in Harr.
    destruct Harr as (d' & total & Hd' & _ & Hst).
    assert (d' = d) as -> by congruence.
    destruct (stacked_children_b64 _ _ _ _ _ _ _ _ _ c Hst Hc)
      as (dc & yc & Hdc & Hpc & _).
    eexists pp, _. cbn [id level]. split_and!; [done|exact Hpc|done|].
    cbv zeta. cbn [child_position NodePosition.x NodePosition.width].
    by rewrite Hw.
  - destruct (truthy e) eqn:He; [|by apply elem_of_nil in Hq].
    apply elem_of_flat_map in Hq as (c0 & Hc0 & Hq).
    destruct (is_empty cs) eqn:Hempty.
    { apply is_empty_true in Hempty. subst cs. by apply elem_of_nil in Hc0. }
    cbn [negb orb] in Harr.
    destruct Harr as (d' & total & Hd' & _ & Hst).
    destruct (stacked_children_b64 _ _ _ _ _ _ _ _ _ c0 Hst Hc0)
      as (dc & yc & Hdc & Hpc & Hbelow).
    rewrite Forall_forall in IH.
    eapply (IH c0 Hc0 _ dc Hdc Hpc); [done|exact Hbelow|exact Hq|exact Hexp|exact Hc].
Qed.

(** One half of the mode ['both']. *)
Lemma arranged_half_anchored_b64 (dimensions : gmap string Dim)
    (hs vs : float) (positions : gmap string NodePosition)
    (dir : Direction) (xOf : float -> float) (pid : string)
    (half : list INodeData) (c : INodeData) :
  arranged_half dimensions hs vs positions dir xOf pid half ->
  c ∈ half ->
  (exists pc d,
     dimensions !! id c = Some d
     /\ positions !! id c = Some pc
     /\ NodePosition.parentId pc = Some pid
     /\ NodePosition.width pc = of_Z (dim_width d)
     /\ NodePosition.x pc = xOf (NodePosition.width pc))
  /\ forall q c',
       q ∈ getVisibleNodes c -> truthy (expanded q) = true ->
       c' ∈ children q ->
       on_anchor hs dir positions q c'.
Proof.
  intros Harr Hc. unfold arranged_half in Harr.
  destruct half as [|c0 half]; [by apply elem_of_nil in Hc|].
  cbn [is_empty] in Harr. destruct Harr as (hh & _ & Hst).
  destruct (stacked_children_b64 _ _ _ _ _ _ _ _ _ c Hst Hc)
    as (dc & yc & Hdc & Hpc & Hbelow).
  split.
  - eexists _, dc. split_and!; [done|exact Hpc|done|done|done].
  - intros q c' Hq Hexp Hc'.
    eapply (arranged_below_anchored_b64 dimensions hs vs positions dir c _ dc Hdc Hpc);
      [done|exact Hbelow|exact Hq|exact Hexp|exact Hc'].
Qed.

(** In doubles the edge of a child that faces its parent, taken as
    [x - width / 2] from its entry, need not be the anchor line itself: for
    a root with the text [Topic] and one child, laid out to the right with
    the default spacing, the anchor is 125.2 and the left edge of the child
    125.19999999999999. *)
Lemma near_edge_is_rounded :
  exists positions pp pc,
    calculateLayout Examples.one_child_root (only_direction Right)
    = Some positions
    /\ positions !! "root" = Some pp
    /\ positions !! "node-0" = Some pc
    /\ NodePosition.x pp + 1 * (NodePosition.width pp / 2 + 140 * 0.8 * 0.6)
       = 125.2
    /\ NodePosition.x pc = 155.2
    /\ NodePosition.x pc - NodePosition.width pc / 2 = 125.19999999999999
    /\ (125.19999999999999 <? 125.2) = true.
Proof.
  eexists _, _, _. split_and!; vm_compute; reflexivity.
Qed.

(** The gap of the root in the mode ['both'], in doubles: with the default
    options the child of that root is laid out on the left, its right edge
    is at -128, half the horizontal spacing from the left edge -58 of the
    root, and the line at [0.8 * 0.6] of the spacing is at -125.2. *)
Lemma root_gap_in_both_mode_b64 :
  exists positions pp pc,
    calculateLayout Examples.one_child_root
      {| direction := None; horizontalSpacing := None; verticalSpacing := None;
         nodeWidth := None; nodeHeight := None; centerOffset := None;
         levelSpacingMultiplier := None |} = Some positions
    /\ positions !! "root" = Some pp
    /\ positions !! "node-0" = Some pc
    /\ NodePosition.x pc + NodePosition.width pc / 2 = (-128)
    /\ NodePosition.x pp - NodePosition.width pp / 2 - 140 * 0.5 = (-128)
    /\ NodePosition.x pp - (NodePosition.width pp / 2 + 140 * 0.8 * 0.6)
       = (-125.2).
Proof.
  eexists _, _, _. split_and!; vm_compute; reflexivity.
Qed.

(** C5, amended.  In a tree whose identifiers are distinct, in the modes
    ['left'] and ['right'], for every visible expanded node the abscissa of
    each of its children is the double
    [anchorX ± childWidth / 2], where
    [anchorX = parentX ± (parentWidth / 2 + horizontalSpacing * m * 0.6)]
    with [m = 1.0] when the level of the parent is 2 or more and [0.8]
    otherwise, the sign being that of the side and every operation rounded
    as the code rounds it: the edge of the child that faces its parent is
    put on the anchor line up to this rounding.  In the mode ['both'] under
    an expanded root this holds for every visible expanded parent other
    than the root, on the side of its branch; the children of the root, the
    first half on the left and the rest on the right, get
    [(rootX - rootWidth / 2 - horizontalSpacing * 0.5) - childWidth / 2] on
    the left and
    [(rootX + rootWidth / 2 + horizontalSpacing * 0.5) + childWidth / 2] on
    the right. *)
Theorem C5_anchor_lines (root : INodeData) (options : LayoutOptions)
    (positions : gmap string NodePosition) :
  NoDup (map id (getAllNodes root)) ->
  calculateLayout root options = Some positions ->
  let hs := default 140 (horizontalSpacing options) in
  match default Both (direction options) with
  | Both =>
      let n := Nat.div2 (S (length (children root))) in
      truthy (expanded root) = true ->
      (forall c, c ∈ take n (children root) ->
                 on_root_anchor hs Left positions root c)
      /\ (forall c, c ∈ drop n (children root) ->
                    on_root_anchor hs Right positions root c)
      /\ (forall c q c',
            c ∈ take n (children root) -> q ∈ getVisibleNodes c ->
            truthy (expanded q) = true -> c' ∈ children q ->
            on_anchor hs Left positions q c')
      /\ (forall c q c',
            c ∈ drop n (children root) -> q ∈ getVisibleNodes c ->
            truthy (expanded q) = true -> c' ∈ children q ->
            on_anchor hs Right positions q c')
  | dir =>
      forall q c,
        q ∈ getVisibleNodes root -> truthy (expanded q) = true ->
        c ∈ children q ->
        on_anchor hs dir positions q c
  end.
Proof.
  intros Hnd Hlayout hs.
  destruct (calculateLayout_arranged_b64 root options positions Hnd Hlayout)
    as (rd & Hrd & Harr).
  fold hs in Harr.
  set (dimensions := calculateNodeDimensions (getAllNodes root)
         (default 100 (nodeWidth options)) (default 32 (nodeHeight options))) in *.
  set (vs := default 16 (verticalSpacing options)) in *.
  assert (Hsingle : forall dir,
    positions !! id root = Some (root_position root rd 0) ->
    arranged_below dimensions hs vs positions dir root 0 0 ->
    forall q c,
      q ∈ getVisibleNodes root -> truthy (expanded q) = true ->
      c ∈ children q -> on_anchor hs dir positions q c).
  { intros dir Hroot Hb.
    exact (arranged_below_anchored_b64 dimensions hs vs positions dir root
             (root_position root rd 0) rd Hrd Hroot eq_refl Hb). }
  destruct (default Both (direction options)).
  - destruct Harr as [Hroot Hb]. by apply Hsingle.
  - destruct Harr as [Hroot Hb]. by apply Hsingle.
  - intros n _. destruct Harr as [Hroot Hhalves].
    destruct (is_empty (children root)) eqn:Hempty.
    { apply is_empty_true in Hempty. subst n. rewrite Hempty. simpl.
      split_and!;
        first [ intros c Hc; by apply elem_of_nil in Hc
              | intros c q c' Hc; by apply elem_of_nil in Hc ]. }
    destruct (Hhalves eq_refl) as [Hl Hr]. clear Hhalves. fold n in Hl, Hr.
    split_and!.
    + intros c Hc.
      destruct (arranged_half_anchored_b64 _ _ _ _ _ _ _ _ c Hl Hc)
        as [(pc & dc & _ & Hpc & Hpar & _ & Hx) _].
      exists (root_position root rd (default 0 (centerOffset options))), pc.
      split_and!; [done|done|done|]. cbv zeta. exact Hx.
    + intros c Hc.
      destruct (arranged_half_anchored_b64 _ _ _ _ _ _ _ _ c Hr Hc)
        as [(pc & dc & _ & Hpc & Hpar & _ & Hx) _].
      exists (root_position root rd (default 0 (centerOffset options))), pc.
      split_and!; [done|done|done|]. cbv zeta. exact Hx.
    + intros c q c' Hc.
      destruct (arranged_half_anchored_b64 _ _ _ _ _ _ _ _ c Hl Hc) as [_ H].
      apply H.
    + intros c q c' Hc.
      destruct (arranged_half_anchored_b64 _ _ _ _ _ _ _ _ c Hr Hc) as [_ H].
      apply H.
Qed.

Lemma C5_anchor_lines_witness :
  exists positions pp pc,
    calculateLayout Examples.one_child_root (only_direction Right)
    = Some positions
    /\ positions !! "root" = Some pp
    /\ positions !! "node-0" = Some pc
    /\ NodePosition.x pc
       = NodePosition.x pp + 1 * (NodePosition.width pp / 2 + 140 * 0.8 * 0.6)
         + 1 * (NodePosition.width pc / 2).
Proof.
  assert (Hlayout : is_Some (calculateLayout Examples.one_child_root
                               (only_direction Right)))
    by (vm_compute; eauto).
  destruct Hlayout as [positions Hlayout].
  destruct (C5_anchor_lines Examples.one_child_root (only_direction Right)
              positions) with (q := Examples.one_child_root)
                              (c := Examples.leaf "node-0" "A" 1)
    as (pp & pc & Hpp & Hpc & _ & Hx).
  - vm_compute. repeat constructor; set_solver.
  - exact Hlayout.
  - left.
  - reflexivity.
  - left.
  - exists positions, pp, pc. by split_and!.
Defined.

End anchor_lines_b64.

(** ** Edge path generator *)

Section link_path_b64.

Import Binary64.

Local Open Scope float_scope.

(** The claim C7 as it is stated, at a parent that is not the root: the
    box of the parent reaches from [y - height / 2 = -18] to
    [y + height / 2 = 18], its vertical centre is [y = 0], and the curve
    starts at 18, on the lower edge. *)
Lemma C7_start_is_not_the_centre :
  let from := Binary64Examples.pos_parent in
  let p := generateLinkPath from Binary64Examples.pos_child in
  NodePosition.y from - NodePosition.height from / 2 = (-18)
  /\ NodePosition.y from + NodePosition.height from / 2 = 18
  /\ NodePosition.y from = 0
  /\ fromY p = 18
  /\ (fromY p =? NodePosition.y from) = false.
Proof. vm_compute. by split_and!. Qed.

(** The edge is chosen by comparing the two abscissas, not by measuring:
    for a parent at [x = 1] as wide as [2^54] and a child at [x = 0.9], a
    left branch, the curve starts at the left edge [1 - 2^53], and the right
    edge, which the sum rounds to [2^53], is the nearer of the two to the
    child. *)
Lemma start_edge_by_side_not_by_distance :
  let from :=
    {| NodePosition.id := "node-0"; NodePosition.text := [];
       NodePosition.x := 1; NodePosition.y := 0;
       NodePosition.width := 18014398509481984; NodePosition.height := 36;
       NodePosition.level := 1; NodePosition.hasChildren := true;
       NodePosition.expanded := true; NodePosition.parentId := Some "root" |} in
  let to :=
    {| NodePosition.id := "node-1"; NodePosition.text := [];
       NodePosition.x := 0.9; NodePosition.y := 0;
       NodePosition.width := 60; NodePosition.height := 36;
       NodePosition.level := 2; NodePosition.hasChildren := false;
       NodePosition.expanded := false; NodePosition.parentId := Some "node-0" |} in
  let left := NodePosition.x from - NodePosition.width from / 2 in
  let right := NodePosition.x from + NodePosition.width from / 2 in
  fromX (generateLinkPath from to) = left
  /\ left = (-9007199254740991)
  /\ right = 9007199254740992
  /\ (abs (right - NodePosition.x to) <? abs (left - NodePosition.x to)) = true.
Proof. vm_compute. by split_and!. Qed.

(** C7, amended.  With [isLeftBranch] for [to.x < from.x], the curve of
    [generateLinkPath] starts on the vertical edge of the parent on the side
    of the child, [from.x - from.width / 2] on a left branch and
    [from.x + from.width / 2] otherwise, at the parent's [y] when the parent
    is the root and at [y + height / 2], the lower edge of its box,
    otherwise; it ends on the vertical edge of the child on the side of the
    parent, at the lower edge of the child's box.  Each control point is
    level with its end point, and half the horizontal distance between the
    end points away from it: the first to the left and the second to the
    right on a left branch, the other way round otherwise.  The numbers are
    those of the code, every operation rounded as a double. *)
Theorem C7_link_path (from to : NodePosition) :
  let p := generateLinkPath from to in
  let isLeftBranch := NodePosition.x to <? NodePosition.x from in
  let dx := abs (toX p - fromX p) in
  fromX p = (if isLeftBranch
             then NodePosition.x from - NodePosition.width from / 2
             else NodePosition.x from + NodePosition.width from / 2)
  /\ fromY p = (if String.eqb (NodePosition.id from) "root"
                then NodePosition.y from
                else NodePosition.y from + NodePosition.height from / 2)
  /\ toX p = (if isLeftBranch
              then NodePosition.x to + NodePosition.width to / 2
              else NodePosition.x to - NodePosition.width to / 2)
  /\ toY p = NodePosition.y to + NodePosition.height to / 2
  /\ cp1x p = (if isLeftBranch then fromX p - dx * 0.5 else fromX p + dx * 0.5)
  /\ cp1y p = fromY p
  /\ cp2x p = (if isLeftBranch then toX p + dx * 0.5 else toX p - dx * 0.5)
  /\ cp2y p = toY p.
Proof.
  intros p isLeftBranch dx. subst p dx. unfold generateLinkPath.
  fold isLeftBranch. cbn [fromX fromY toX toY cp1x cp1y cp2x cp2y].
  by split_and!.
Qed.

End link_path_b64.

Section identifiers.

Import INodeData.

(** C10. [generateLinkPath] starts the curve at [from.y] when the
    identifier of [from] is ['root'] and at [from.y + from.height / 2]
    otherwise, so also for the root of a tree that a caller built with
    another identifier.  [parseMarkdown] gives the identifier ['root'] to
    the root that it returns and to no other node; the other nodes are, in
    document order, ['node-0'], ['node-1'], ..., one for each call of
    [processNode].  The counter starts at 0; when the main loop reaches a
    line for which it calls [processNode], the counter is the number of the
    calls before, the new node is named after it and the counter goes up by
    one, and the node is in the returned tree with the text and the level of
    the line; a line without a call leaves the heap and the counter
    alone. *)
Theorem C10_identifiers :
  (forall from to : Binary64.NodePosition,
     Binary64.fromY (Binary64.generateLinkPath from to)
     = if String.eqb (Binary64.NodePosition.id from) "root"
       then Binary64.NodePosition.y from
       else (Binary64.NodePosition.y from
             + Binary64.NodePosition.height from / 2)%float)
  /\ (forall from to : Binary64.NodePosition,
        Binary64.NodePosition.id from <> "root" ->
        Binary64.fromY (Binary64.generateLinkPath from to)
        = (Binary64.NodePosition.y from
           + Binary64.NodePosition.height from / 2)%float)
  /\ (forall markdown : jsstr,
        exists t,
          parseMarkdown markdown = Some t
          /\ id t = "root"
          /\ map id (tail (getAllNodes t))
             = map node_id (seq 0 (calls (split_lines markdown)))
          /\ forall q, q ∈ tail (getAllNodes t) -> id q <> "root")
  /\ (forall lines : list jsstr, nodeIdCounter (init lines) = 0)
  /\ (forall (markdown : jsstr) (pre post : list jsstr) (line : jsstr),
        split_lines markdown = pre ++ line :: post ->
        calls_processNode pre line = true ->
        let text := (call_of (base_level pre) line).1 in
        let lvl := (call_of (base_level pre) line).2 in
        exists s s' t c,
          run (init (split_lines markdown)) pre = Some s
          /\ nodeIdCounter s = calls pre
          /\ step s line = Some s'
          /\ heap s' !! length (heap s)
             = Some (new_cell text lvl (calls pre))
          /\ cell_id (new_cell text lvl (calls pre)) = node_id (calls pre)
          /\ length (heap s') = S (length (heap s))
          /\ nodeIdCounter s' = S (calls pre)
          /\ parseMarkdown markdown = Some t
          /\ c ∈ tail (getAllNodes t)
          /\ node_info c = (node_id (calls pre), text, lvl, Some false))
  /\ (forall (markdown : jsstr) (pre post : list jsstr) (line : jsstr),
        split_lines markdown = pre ++ line :: post ->
        calls_processNode pre line = false ->
        exists s s',
          run (init (split_lines markdown)) pre = Some s
          /\ step s line = Some s'
          /\ heap s' = heap s
          /\ nodeIdCounter s' = nodeIdCounter s).
Proof.
  split_and!.
  - reflexivity.
  - intros from to Hid. unfold Binary64.generateLinkPath. simpl.
    destruct (String.eqb_spec (Binary64.NodePosition.id from) "root"); [done|reflexivity].
  - intros markdown.
    destruct (parsed_ids markdown) as (t & Ht & Hids).
    exists t. rewrite getAllNodes_unfold in Hids |- *.
    simpl in Hids. injection Hids as Hroot Hrest.
    split_and!; try done.
    intros q Hq Hid. simpl in Hq.
    assert (Hin : id q ∈ map id (flat_map getAllNodes (children t))).
    { apply list_elem_of_fmap. by exists q. }
    rewrite Hrest in Hin.
    apply list_elem_of_fmap in Hin as (k & Hk & _).
    rewrite Hid in Hk. discriminate.
  - reflexivity.
  - intros markdown pre post line Hlines Hcall text lvl.
    destruct (state_after (split_lines markdown) pre)
      as (s & Hrun & Hinv & Hcnt & Hlen & Hfirst & Hbase).
    unfold calls_processNode in Hcall. rewrite <- Hfirst in Hcall.
    destruct (step_call s line Hcall) as (Hlvl & base & Hstep).
    rewrite Hbase in Hlvl, Hstep. fold text in Hstep. fold lvl in Hlvl, Hstep.
    destruct (emit_pushed s text lvl base Hinv Hlvl)
      as (popped & kept & p & below & pc & _ & _ & _ & _ & _ & _ & Hemit).
    destruct (parseMarkdown_total markdown) as (sf & t & _ & _ & Ht & _).
    destruct (emitted_node_in_tree markdown pre post line s text lvl base t
                Hlines Hrun Hstep Hlvl Ht) as (c & Hc & Hinfo).
    exists s, (pushed s text lvl base p below), t, c.
    split_and!; try done.
    + congruence.
    + rewrite lookup_pushed, decide_True by done. by rewrite Hcnt.
    + cbn [pushed heap]. rewrite length_app, length_alter. simpl. lia.
    + cbn [pushed nodeIdCounter]. by rewrite Hcnt.
    + by rewrite Hinfo, Hcnt.
  - intros markdown pre post line Hlines Hcall.
    destruct (state_after (split_lines markdown) pre)
      as (s & Hrun & Hinv & _ & _ & Hfirst & _).
    unfold calls_processNode in Hcall. rewrite <- Hfirst in Hcall.
    destruct (step_invariant s line Hinv) as (s' & Hstep & _).
    destruct (step_no_call s s' line Hcall Hstep) as (Hh & _ & Hc).
    by exists s, s'.
Qed.

Lemma C10_identifiers_witness :
  let markdown := lit "# T" ++ nl ++ lit "## A" ++ nl ++ lit "- b" in
  exists t c,
    parseMarkdown markdown = Some t
    /\ c ∈ tail (getAllNodes t)
    /\ node_info c = ("node-1", lit "b", 3, Some false).
Proof.
  intros markdown.
  destruct C10_identifiers as (_ & _ & _ & _ & Hcall & _).
  destruct (Hcall markdown [lit "# T"; lit "## A"] [] (lit "- b") eq_refl eq_refl)
    as (s & s' & t & c & _ & _ & _ & _ & _ & _ & _ & Ht & Hc & Hinfo).
  exists t, c. split_and!; [exact Ht|exact Hc|exact Hinfo].
Defined.

End identifiers.

(** ** What does not depend on the arithmetic *)

Section agreement.

Import INodeData.

Variable dimensions : gmap string Dim.
Variable hs vs : Q.
Variable hs' vs' : float.

Lemma agree_insert (l : gmap string NodePosition)
    (r : gmap string Binary64.NodePosition) (k : string)
    (p : NodePosition) (p' : Binary64.NodePosition) :
  agree l r -> same_fields p p' -> agree (<[k := p]> l) (<[k := p']> r).
Proof.
  intros Hlr Hp k'. destruct (decide (k = k')) as [->|Hne].
  - by rewrite !lookup_insert_eq.
  - rewrite !lookup_insert_ne by done. apply Hlr.
Qed.

Lemma place_children_agree
    (rec : INodeData -> gmap string NodePosition -> Q -> Q
           -> option (gmap string NodePosition))
    (rec' : INodeData -> gmap string Binary64.NodePosition -> float -> float
            -> option (gmap string Binary64.NodePosition))
    (xOf : Q -> Q) (xOf' : float -> float) (pid : string)
    (cs : list INodeData) :
  Forall (fun c => covers dimensions (getAllNodes c)) cs ->
  Forall (fun c =>
            forall l r x y x' y',
              agree l r -> agreeing (rec c l x y) (rec' c r x' y')) cs ->
  forall l r yOffset yOffset',
    agree l r ->
    agreeing (place_children dimensions vs rec xOf pid cs l yOffset)
             (Binary64.place_children dimensions vs' rec' xOf' pid cs r yOffset').
Proof.
  intros Hcov Hrec.
  induction cs as [|c cs IH]; intros l r yOffset yOffset' Hlr.
  - exact Hlr.
  - apply Forall_cons in Hrec as [Hc Hrec].
    apply Forall_cons in Hcov as [Hcc Hcov].
    simpl place_children. simpl Binary64.place_children.
    destruct (covers_self _ c Hcc) as [d Hd]. rewrite Hd.
    destruct (calculateNodeBranchHeight_total dimensions vs c Hcc) as [bh Hbh].
    destruct (calculateNodeBranchHeight_total_b64 dimensions vs' c Hcc) as [bh' Hbh'].
    rewrite Hbh, Hbh'.
    match goal with
    | |- context [<[id c := ?p]> l] => set (pl := p)
    end.
    match goal with
    | |- context [<[id c := ?p]> r] => set (pr := p)
    end.
    assert (Hagree : agree (<[id c := pl]> l) (<[id c := pr]> r)).
    { apply agree_insert; [done|].
      unfold same_fields, pl, pr, Binary64.child_position. simpl.
      split_and!; try done. by exists (dim_width d), (dim_height d). }
    destruct (truthy (expanded c) && negb (is_empty (children c))).
    + specialize (Hc (<[id c := pl]> l) (<[id c := pr]> r)
                     (NodePosition.x pl) (NodePosition.y pl)
                     (Binary64.NodePosition.x pr) (Binary64.NodePosition.y pr)
                     Hagree).
      simpl in Hc.
      destruct (rec c _ _ _) as [l1|], (rec' c _ _ _) as [r1|]; try done.
      by apply IH.
    + by apply IH.
Qed.

Lemma layoutChildBranch_agree (dir : Direction) (parent : INodeData) :
  covers dimensions (getAllNodes parent) ->
  forall l r x y x' y',
    agree l r ->
    agreeing (layoutChildBranch dimensions hs vs parent l x y dir)
             (Binary64.layoutChildBranch dimensions hs' vs' parent r x' y' dir).
Proof.
  induction parent as [i tx lv cs e IH] using INodeData_ind'.
  intros Hcov l r x y x' y' Hlr.
  pose proof (covers_children _ _ Hcov) as Hcs.
  rewrite layoutChildBranch_unfold, layoutChildBranch_unfold_b64.
  cbn [id text level children expanded] in *.
  destruct (negb (truthy e) || is_empty cs); [exact Hlr|].
  apply covers_self in Hcov as [d Hd]. simpl in Hd. rewrite Hd. cbv zeta.
  destruct (calculateSubtreeHeight_total dimensions vs cs Hcs) as [h Hh].
  destruct (calculateSubtreeHeight_total_b64 dimensions vs' cs Hcs) as [h' Hh'].
  rewrite Hh, Hh'.
  apply place_children_agree; [done| |done].
  rewrite Forall_forall in IH, Hcs |- *. intros c Hc. apply IH; auto.
Qed.

Lemma layout_half_agree (dir : Direction) (xOf : Q -> Q)
    (xOf' : float -> float) (pid : string) (half : list INodeData)
    (l : gmap string NodePosition) (r : gmap string Binary64.NodePosition) :
  Forall (fun c => covers dimensions (getAllNodes c)) half ->
  agree l r ->
  agreeing (layout_half dimensions hs vs dir xOf pid half l)
           (Binary64.layout_half dimensions hs' vs' dir xOf' pid half r).
Proof.
  intros Hcov Hlr. unfold layout_half, Binary64.layout_half.
  destruct (is_empty half); [exact Hlr|].
  destruct (calculateSubtreeHeight_total dimensions vs half Hcov) as [h Hh].
  destruct (calculateSubtreeHeight_total_b64 dimensions vs' half Hcov) as [h' Hh'].
  rewrite Hh, Hh'.
  apply place_children_agree; [done| |done].
  apply Forall_forall. intros c Hc l' r' x y x' y'.
  apply layoutChildBranch_agree.
  rewrite Forall_forall in Hcov. by apply Hcov.
Qed.

End agreement.

Section whole_agreement.

Import INodeData.

Lemma agree_empty : agree ∅ ∅.
Proof. intros k. by rewrite !lookup_empty. Qed.

Lemma root_position_agree (root : INodeData) (d : Dim) (x : Q) (x' : float) :
  same_fields (root_position root d x) (Binary64.root_position root d x').
Proof.
  unfold same_fields. simpl. split_and!; try done.
  by exists (dim_width d), (dim_height d).
Qed.

(** The layout over the rationals and the layout in binary64 of the same
    tree in the same direction agree, whatever the other options are. *)
Lemma calculateLayout_agree (root : INodeData) (options : LayoutOptions)
    (options' : Binary64.LayoutOptions) :
  Binary64.direction options' = direction options ->
  exists l r,
    calculateLayout root options = Some l
    /\ Binary64.calculateLayout root options' = Some r
    /\ agree l r.
Proof.
  intros Hdir.
  destruct (layout_keys root options) as (l & Hl & _).
  assert (Hrel : agreeing (calculateLayout root options)
                          (Binary64.calculateLayout root options')).
  { unfold calculateLayout, Binary64.calculateLayout. rewrite Hdir. cbv zeta.
    pose proof (dimensions_cover root (default 100%Q (nodeWidth options))
                  (default 32%Q (nodeHeight options))) as Hcov.
    change (Binary64.calculateNodeDimensions (getAllNodes root) _ _)
      with (calculateNodeDimensions (getAllNodes root)
              (default 100%Q (nodeWidth options))
              (default 32%Q (nodeHeight options))).
    set (dimensions := calculateNodeDimensions _ _ _) in *.
    pose proof (covers_children _ _ Hcov) as Hcs.
    destruct (covers_self _ _ Hcov) as [d Hd].
    assert (Hsingle : forall dir,
              agreeing (calculateSingleDirectionLayout dimensions
                          (default 140%Q (horizontalSpacing options))
                          (default 16%Q (verticalSpacing options)) root ∅ dir)
                       (Binary64.calculateSingleDirectionLayout dimensions
                          (default 140%float (Binary64.horizontalSpacing options'))
                          (default 16%float (Binary64.verticalSpacing options'))
                          root ∅ dir)).
    { intros dir.
      unfold calculateSingleDirectionLayout, Binary64.calculateSingleDirectionLayout.
      rewrite Hd. apply layoutChildBranch_agree; [done|].
      apply agree_insert; [apply agree_empty|apply root_position_agree]. }
    destruct (default Both (direction options)); [apply Hsingle..|].
    unfold calculateBothDirectionLayout, Binary64.calculateBothDirectionLayout.
    rewrite Hd. cbv zeta.
    assert (Hroot : agree
              (<[id root := root_position root d
                              (default 0%Q (centerOffset options))]> ∅)
              (<[id root := Binary64.root_position root d
                              (default 0%float (Binary64.centerOffset options'))]> ∅)).
    { apply agree_insert; [apply agree_empty|apply root_position_agree]. }
    destruct (is_empty (children root)); [exact Hroot|].
    set (n := Nat.div2 (S (length (children root)))).
    rewrite <- (take_drop n (children root)) in Hcs.
    apply Forall_app in Hcs as [Hcl Hcr].
    match goal with
    | |- agreeing (match ?a with _ => _ end) (match ?b with _ => _ end) =>
        assert (Hleft : agreeing a b)
    end.
    { by apply layout_half_agree. }
    destruct (layout_half _ _ _ Left _ _ _ _) as [l'|],
             (Binary64.layout_half _ _ _ Left _ _ _ _) as [r'|]; try done.
    by apply layout_half_agree. }
  rewrite Hl in Hrel.
  destruct (Binary64.calculateLayout root options') as [r|]; [|done].
  by exists l, r.
Qed.

End whole_agreement.

(** ** The entries of a layout in binary64, node by node *)

Section entries_b64.

Import INodeData Binary64 Binary64Arrangement.

Local Open Scope float_scope.

Variable dimensions : gmap string Dim.
Variable hs vs : float.
Variable positions : gmap string NodePosition.
Variable dir : Direction.



End entries_b64.

Section whole_entries_b64.

Import INodeData Binary64 Binary64Arrangement.

Local Open Scope float_scope.




End whole_entries_b64.

(** ** The stacks of siblings in binary64 *)

Section stacks_b64.

Import INodeData Binary64 Binary64Arrangement Binary64Stacks.

Local Open Scope float_scope.





End stacks_b64.

(** ** The links of a layout *)

Section links_b64.

Import INodeData.

Lemma omap_keys_sublist {A B C} (f : A * B -> option (A * C))
    (l : list (A * B)) :
  (forall y x, f y = Some x -> x.1 = y.1) ->
  map fst (omap f l) `sublist_of` map fst l.
Proof.
  intros Hf. induction l as [|y l IH]; [done|].
  rewrite omap_cons_eq. destruct (f y) as [x|] eqn:Hy.
  - simpl. rewrite (Hf _ _ Hy). by apply sublist_skip.
  - simpl. by apply sublist_cons.
Qed.

(** Every entry of a layout in binary64 but that of the root names a parent
    that has an entry, and the entry of the root names none. *)
Lemma parents_have_entries (root : INodeData)
    (options : Binary64.LayoutOptions)
    (positions : gmap string Binary64.NodePosition) :
  NoDup (map id (getAllNodes root)) ->
  Binary64.calculateLayout root options = Some positions ->
  forall k p,
    positions !! k = Some p ->
    (k = id root -> Binary64.NodePosition.parentId p = None)
    /\ (k <> id root ->
        exists q pq,
          q ∈ getAllNodes root
          /\ Binary64.NodePosition.parentId p = Some (id q)
          /\ positions !! id q = Some pq).
Proof.
  intros Hnd Hlayout k p Hk.
  set (exact := {| direction := Binary64.direction options;
                   horizontalSpacing := None; verticalSpacing := None;
                   nodeWidth := None; nodeHeight := None;
                   centerOffset := None; levelSpacingMultiplier := None |}).
  destruct (calculateLayout_agree root exact options eq_refl)
    as (l & r & Hl & Hr & Hagree).
  assert (r = positions) as -> by congruence.
  pose proof (Hagree k) as Hkk. rewrite Hk in Hkk.
  destruct (l !! k) as [pl|] eqn:Hlk; [|done].
  destruct Hkk as (_ & _ & _ & _ & _ & Hparent & _).
  destruct (layout_key_node root exact l k pl Hl Hlk) as (n & Hn & <-).
  destruct (layout_entry_fields root exact l n Hnd Hl Hn)
    as (pn & Hpn & _ & _ & _ & _ & _ & _ & _ & Hroot & Hother).
  assert (pn = pl) as -> by congruence.
  split.
  - intros Heq. rewrite Hparent. by apply Hroot.
  - intros Hne. destruct (Hother Hne) as (q & Hq & _ & Hpq).
    destruct (layout_entry_fields root exact l q Hnd Hl Hq) as (pq & Hlq & _).
    pose proof (Hagree (id q)) as Hqq. rewrite Hlq in Hqq.
    destruct (positions !! id q) as [pq'|] eqn:Hpq'; [|done].
    exists q, pq'. split_and!; [|congruence|done].
    eapply elem_of_sublist; [exact Hq|apply laid_out_sublist].
Qed.

(** X27: the links of a layout.  For a tree whose identifiers are distinct
    and none of which is the empty string, [renderLinks] draws one link for
    each entry of the layout but that of the root, and none for the root:
    every such entry names as [parentId] the key of an entry, which passes
    both tests of the loop, and its link is the path that
    [generateLinkPath] gives from the entry of the parent to the entry
    itself.  No two links belong to the same entry. *)
Theorem links_of_layout (root : INodeData) (options : Binary64.LayoutOptions)
    (positions : gmap string Binary64.NodePosition) :
  NoDup (map id (getAllNodes root)) ->
  Forall (fun n => id n <> "") (getAllNodes root) ->
  Binary64.calculateLayout root options = Some positions ->
  (forall k p,
     positions !! k = Some p -> k <> id root ->
     exists pid pq,
       Binary64.NodePosition.parentId p = Some pid
       /\ positions !! pid = Some pq
       /\ (k, Binary64.generateLinkPath pq p)
          ∈ Binary64Renderer.renderLinks positions)
  /\ (forall k path,
        (k, path) ∈ Binary64Renderer.renderLinks positions ->
        k <> id root
        /\ exists p pid pq,
             positions !! k = Some p
             /\ Binary64.NodePosition.parentId p = Some pid
             /\ positions !! pid = Some pq
             /\ path = Binary64.generateLinkPath pq p)
  /\ NoDup (map fst (Binary64Renderer.renderLinks positions)).
Proof.
  intros Hnd Hids Hlayout.
  pose proof (parents_have_entries root options positions Hnd Hlayout) as Hparents.
  split_and!.
  - intros k p Hk Hne.
    destruct (Hparents k p Hk) as [_ Hother].
    destruct (Hother Hne) as (q & pq & Hq & Hpar & Hpq).
    exists (id q), pq. split_and!; [done|done|].
    unfold Binary64Renderer.renderLinks. apply list_elem_of_omap.
    exists (k, p). split; [by apply elem_of_map_to_list|].
    cbn [fst snd]. rewrite Hpar.
    rewrite Forall_forall in Hids.
    destruct (String.eqb_spec (id q) "") as [Hempty|_]; [by apply Hids in Hq|].
    by rewrite Hpq.
  - intros k path Hin.
    unfold Binary64Renderer.renderLinks in Hin.
    apply list_elem_of_omap in Hin as ([k' p] & Hentry & Hlink).
    apply elem_of_map_to_list in Hentry. cbn [fst snd] in Hlink.
    destruct (Binary64.NodePosition.parentId p) as [pid|] eqn:Hpar; [|done].
    destruct (String.eqb pid ""); [done|].
    destruct (positions !! pid) as [pq|] eqn:Hpq; [|done].
    injection Hlink as -> <-. split.
    + intros ->. destruct (Hparents _ _ Hentry) as [Hroot _].
      rewrite Hroot in Hpar; [done|done].
    + by exists p, pid, pq.
  - eapply sublist_NoDup; [apply (NoDup_fst_map_to_list positions)|].
    apply omap_keys_sublist. intros [k p] [k' path]. cbn [fst snd].
    destruct (Binary64.NodePosition.parentId p) as [pid|]; [|done].
    destruct (String.eqb pid ""); [done|].
    destruct (positions !! pid); [|done]. by intros [= <- _].
Qed.

Lemma links_of_layout_witness :
  exists positions,
    Binary64.calculateLayout Examples.two_children_root
      (Binary64Anchors.only_direction Right) = Some positions
    /\ NoDup (map fst (Binary64Renderer.renderLinks positions)).
Proof.
  assert (Hlayout : is_Some (Binary64.calculateLayout Examples.two_children_root
                               (Binary64Anchors.only_direction Right)))
    by (vm_compute; eauto).
  destruct Hlayout as [positions Hlayout].
  destruct (links_of_layout Examples.two_children_root
              (Binary64Anchors.only_direction Right) positions)
    as (_ & _ & Hnd).
  - exact two_children_NoDup.
  - vm_compute. repeat constructor; discriminate.
  - exact Hlayout.
  - by exists positions.
Defined.

End links_b64.

(** ** What the offset of the centre changes *)

Section offset_b64.

Import INodeData Binary64 Binary64Offset.

Local Open Scope float_scope.

Variable dimensions : gmap string Dim.
Variable hs vs : float.

Lemma shifted_insert (l r : gmap string NodePosition) (k : string)
    (p p' : NodePosition) :
  shifted l r -> same_but_x p p' -> shifted (<[k := p]> l) (<[k := p']> r).
Proof.
  intros Hlr Hp k'. destruct (decide (k = k')) as [->|Hne].
  - by rewrite !lookup_insert_eq.
  - rewrite !lookup_insert_ne by done. apply Hlr.
Qed.

Lemma place_children_shifting
    (rec rec' : INodeData -> gmap string NodePosition -> float -> float
                -> option (gmap string NodePosition))
    (xOf xOf' : float -> float) (pid : string) (cs : list INodeData) :
  Forall (fun c =>
            forall l r x x' y,
              shifted l r -> shifting (rec c l x y) (rec' c r x' y)) cs ->
  forall l r yOffset,
    shifted l r ->
    shifting (place_children dimensions vs rec xOf pid cs l yOffset)
             (place_children dimensions vs rec' xOf' pid cs r yOffset).
Proof.
  intros Hrec.
  induction cs as [|c cs IH]; intros l r yOffset Hlr.
  - exact Hlr.
  - apply Forall_cons in Hrec as [Hc Hrec].
    simpl place_children.
    destruct (dimensions !! id c) as [d|]; [|done].
    destruct (calculateNodeBranchHeight dimensions vs c) as [bh|]; [|done].
    match goal with
    | |- context [<[id c := ?p]> l] => set (pl := p)
    end.
    match goal with
    | |- context [<[id c := ?p]> r] => set (pr := p)
    end.
    assert (Hshift : shifted (<[id c := pl]> l) (<[id c := pr]> r)).
    { apply shifted_insert; [done|]. by unfold same_but_x, pl, pr. }
    destruct (truthy (expanded c) && negb (is_empty (children c))).
    + specialize (Hc (<[id c := pl]> l) (<[id c := pr]> r)
                     (NodePosition.x pl) (NodePosition.x pr) (NodePosition.y pl)
                     Hshift).
      cbn [pl pr child_position NodePosition.x NodePosition.y] in Hc.
      destruct (rec c _ _ _) as [l1|], (rec' c _ _ _) as [r1|]; try done.
      by apply IH.
    + by apply IH.
Qed.

Lemma layoutChildBranch_shifting (dir : Direction) (parent : INodeData) :
  forall l r x x' y,
    shifted l r ->
    shifting (layoutChildBranch dimensions hs vs parent l x y dir)
             (layoutChildBranch dimensions hs vs parent r x' y dir).
Proof.
  induction parent as [i tx lv cs e IH] using INodeData_ind'.
  intros l r x x' y Hlr.
  rewrite !layoutChildBranch_unfold_b64. cbn [id text level children expanded].
  destruct (negb (truthy e) || is_empty cs); [exact Hlr|].
  destruct (dimensions !! i) as [d|]; [|done]. cbv zeta.
  destruct (calculateSubtreeHeight dimensions vs cs) as [total|]; [|done].
  by apply place_children_shifting.
Qed.

Lemma layout_half_shifting (dir : Direction) (xOf xOf' : float -> float)
    (pid : string) (half : list INodeData) (l r : gmap string NodePosition) :
  shifted l r ->
  shifting (layout_half dimensions hs vs dir xOf pid half l)
           (layout_half dimensions hs vs dir xOf' pid half r).
Proof.
  intros Hlr. unfold layout_half.
  destruct (is_empty half); [exact Hlr|].
  destruct (calculateSubtreeHeight dimensions vs half) as [hh|]; [|done].
  apply place_children_shifting; [|done].
  apply Forall_forall. intros c _ l' r' x x' y.
  by apply layoutChildBranch_shifting.
Qed.

End offset_b64.

Section whole_offset_b64.

Import INodeData Binary64 Binary64Offset.

Local Open Scope float_scope.

Lemma shifted_empty : shifted ∅ ∅.
Proof. intros k. by rewrite !lookup_empty. Qed.

(** [calculateLayout] in binary64 always returns. *)
Lemma calculateLayout_total_b64 (root : INodeData) (options : LayoutOptions) :
  is_Some (calculateLayout root options).
Proof.
  set (exact := {| Layout.direction := direction options;
                   Layout.horizontalSpacing := None;
                   Layout.verticalSpacing := None;
                   Layout.nodeWidth := None; Layout.nodeHeight := None;
                   Layout.centerOffset := None;
                   Layout.levelSpacingMultiplier := None |}).
  destruct (calculateLayout_agree root exact options eq_refl)
    as (l & r & _ & Hr & _).
  by exists r.
Qed.

(** X29: in the mode ['both'] the option [centerOffset] moves the layout
    sideways and changes nothing else.  When the direction is ['both'] or is
    left out, changing [centerOffset] and no other option gives a map with
    the same keys, and under each key an entry with the same [y], width,
    height and other fields: only [x] can differ.  (By how much it differs
    is a matter of rounding: the new [x] is computed from the new offset,
    not by adding the difference of the offsets to the old one.) *)
Theorem centerOffset_moves_only_x (root : INodeData) (dir : option Direction)
    (spacingH spacingV width height multiplier offset offset' : option float) :
  default Both dir = Both ->
  exists l r,
    calculateLayout root
      {| direction := dir; horizontalSpacing := spacingH;
         verticalSpacing := spacingV; nodeWidth := width; nodeHeight := height;
         centerOffset := offset; levelSpacingMultiplier := multiplier |} = Some l
    /\ calculateLayout root
         {| direction := dir; horizontalSpacing := spacingH;
            verticalSpacing := spacingV; nodeWidth := width; nodeHeight := height;
            centerOffset := offset'; levelSpacingMultiplier := multiplier |} = Some r
    /\ forall k,
         match l !! k, r !! k with
         | Some p, Some p' =>
             NodePosition.y p' = NodePosition.y p
             /\ NodePosition.id p' = NodePosition.id p
             /\ NodePosition.text p' = NodePosition.text p
             /\ NodePosition.width p' = NodePosition.width p
             /\ NodePosition.height p' = NodePosition.height p
             /\ NodePosition.level p' = NodePosition.level p
             /\ NodePosition.hasChildren p' = NodePosition.hasChildren p
             /\ NodePosition.expanded p' = NodePosition.expanded p
             /\ NodePosition.parentId p' = NodePosition.parentId p
         | None, None => True
         | _, _ => False
         end.
Proof.
  intros Hdir.
  set (optionsL := {| direction := dir; horizontalSpacing := spacingH;
                      verticalSpacing := spacingV; nodeWidth := width;
                      nodeHeight := height; centerOffset := offset;
                      levelSpacingMultiplier := multiplier |}).
  set (optionsR := {| direction := dir; horizontalSpacing := spacingH;
                      verticalSpacing := spacingV; nodeWidth := width;
                      nodeHeight := height; centerOffset := offset';
                      levelSpacingMultiplier := multiplier |}).
  destruct (calculateLayout_total_b64 root optionsL) as [l Hl].
  destruct (calculateLayout_total_b64 root optionsR) as [r Hr].
  exists l, r. split_and!; [done|done|].
  assert (Hrel : shifting (calculateLayout root optionsL)
                          (calculateLayout root optionsR)).
  { unfold calculateLayout, optionsL, optionsR.
    cbn [direction horizontalSpacing verticalSpacing nodeWidth nodeHeight
         centerOffset]. rewrite Hdir. cbv zeta.
    unfold calculateBothDirectionLayout.
    destruct (_ !! id root) as [d|]; [|done]. cbv zeta.
    assert (Hroot : shifted
              (<[id root := root_position root d (default 0 offset)]> ∅)
              (<[id root := root_position root d (default 0 offset')]> ∅)).
    { apply shifted_insert; [apply shifted_empty|]. by unfold same_but_x. }
    destruct (is_empty (children root)); [exact Hroot|].
    match goal with
    | |- shifting (match ?a with _ => _ end) (match ?b with _ => _ end) =>
        assert (Hleft : shifting a b)
    end.
    { by apply layout_half_shifting. }
    destruct (layout_half _ _ _ Left _ _ _ _) as [l'|],
             (layout_half _ _ _ Left _ _ _ _) as [r'|]; try done.
    by apply layout_half_shifting. }
  rewrite Hl, Hr in Hrel. exact Hrel.
Qed.

Lemma centerOffset_moves_only_x_witness :
  exists l r p p',
    calculateLayout Examples.two_children_root
      {| direction := None; horizontalSpacing := None; verticalSpacing := None;
         nodeWidth := None; nodeHeight := None; centerOffset := None;
         levelSpacingMultiplier := None |} = Some l
    /\ calculateLayout Examples.two_children_root
         {| direction := None; horizontalSpacing := None; verticalSpacing := None;
            nodeWidth := None; nodeHeight := None; centerOffset := Some 0.1;
            levelSpacingMultiplier := None |} = Some r
    /\ l !! "node-0" = Some p /\ r !! "node-0" = Some p'
    /\ NodePosition.y p' = NodePosition.y p
    /\ NodePosition.x p = (-158) /\ NodePosition.x p' = (-157.9).
Proof.
  destruct (centerOffset_moves_only_x Examples.two_children_root None
              None None None None None None (Some 0.1) eq_refl)
    as (l & r & Hl & Hr & Hsame).
  specialize (Hsame "node-0").
  vm_compute in Hl. injection Hl as <-.
  vm_compute in Hr. injection Hr as <-.
  eexists _, _, _, _. split_and!; try (vm_compute; reflexivity).
Defined.

End whole_offset_b64.

Section across_arithmetics.

Import INodeData.

(** X30: the keys of a layout and the fields that are copied do not depend
    on the arithmetic.  For the same tree and the same direction, whatever
    the other options are, the layout over the rationals and the layout in
    binary64 both return, their maps have the same keys, and under each key
    the two entries have the same identifier, text, level, flags and parent
    and the same integers as width and height: what is proved of the keys
    and of these fields over the rationals holds of the doubles of the
    code.  The coordinates are another matter. *)
Theorem layout_fields_in_binary64 (root : INodeData) (options : LayoutOptions)
    (spacingH spacingV width height offset multiplier : option float) :
  exists l r,
    calculateLayout root options = Some l
    /\ Binary64.calculateLayout root
         {| Binary64.direction := direction options;
            Binary64.horizontalSpacing := spacingH;
            Binary64.verticalSpacing := spacingV;
            Binary64.nodeWidth := width; Binary64.nodeHeight := height;
            Binary64.centerOffset := offset;
            Binary64.levelSpacingMultiplier := multiplier |} = Some r
    /\ dom r = dom l
    /\ forall k,
         match l !! k, r !! k with
         | Some p, Some p' =>
             Binary64.NodePosition.id p' = NodePosition.id p
             /\ Binary64.NodePosition.text p' = NodePosition.text p
             /\ Binary64.NodePosition.level p' = NodePosition.level p
             /\ Binary64.NodePosition.hasChildren p' = NodePosition.hasChildren p
             /\ Binary64.NodePosition.expanded p' = NodePosition.expanded p
             /\ Binary64.NodePosition.parentId p' = NodePosition.parentId p
             /\ exists w h : Z,
                  NodePosition.width p = inject_Z w
                  /\ Binary64.NodePosition.width p' = Binary64.of_Z w
                  /\ NodePosition.height p = inject_Z h
                  /\ Binary64.NodePosition.height p' = Binary64.of_Z h
         | None, None => True
         | _, _ => False
         end.
Proof.
  destruct (calculateLayout_agree root options
              {| Binary64.direction := direction options;
                 Binary64.horizontalSpacing := spacingH;
                 Binary64.verticalSpacing := spacingV;
                 Binary64.nodeWidth := width; Binary64.nodeHeight := height;
                 Binary64.centerOffset := offset;
                 Binary64.levelSpacingMultiplier := multiplier |} eq_refl)
    as (l & r & Hl & Hr & Hagree).
  exists l, r. split_and!; [done|done| |exact Hagree].
  apply set_eq. intros k. rewrite !elem_of_dom. specialize (Hagree k).
  destruct (l !! k), (r !! k); try done; split; intros [? ?]; done.
Qed.

End across_arithmetics.
